(** * tapece: a Modified Nodal Analysis circuit solver

    A shallow embedding of the Python back end (component model, circuit
    model, topology analyzer, equation generator, MNA solver, the
    equation-parsing matrix builder and the HTTP entry point) together
    with the properties the specification states about it.

    Conventions of the embedding.
    - Python [float] values are read twice.  The main reading idealises
      them as exact rationals ([Qc], the canonical rationals with Leibniz
      equality): every statement about [CircuitSolver] and [Linalg] is a
      statement of exact arithmetic.  The numeric path of the solver is
      embedded a second time on IEEE binary64 numbers ([Binary64],
      [LinalgF], [FloatSolver]), the arithmetic the interpreter and numpy
      carry out; it shows where rounding departs from the exact reading.
    - Python [int] node identifiers are [Z].
    - A Python [dict] is an insertion-ordered association list with
      replace-in-place update; a Python [set] of integers is a strictly
      ascending list (the iteration order of a set is unspecified in
      Python, so only order-free consequences are stated about it).
    - A raised exception is the [Raise] case of [result].
    - [uuid.uuid4()] is modelled by a natural number chosen by the caller
      of the constructor. *)

From Stdlib Require Import String Ascii List ZArith QArith Qcanon Bool Arith Lia Permutation.
From Stdlib Require Qcabs.
From Stdlib Require Import DecimalString.
From Stdlib Require PrimFloat SpecFloat FloatOps.
Import ListNotations.

Set Implicit Arguments.

(** ** Python exceptions and the result monad *)

Inductive exn : Type :=
| KeyError (what : string)
| ValueError (msg : string)
| TypeError (msg : string)
| AttributeError (msg : string)
| IndexError
| ZeroDivisionError
| LinAlgError (msg : string).

Inductive result (A : Type) : Type :=
| Ok (a : A)
| Raise (e : exn).
Arguments Ok {A} a.
Arguments Raise {A} e.

Definition bind {A B} (r : result A) (k : A -> result B) : result B :=
  match r with
  | Ok a => k a
  | Raise e => Raise e
  end.

Notation "x <- c ;; k" := (bind c (fun x => k))
  (at level 61, c at next level, right associativity).
Notation "' p <- c ;; k" := (bind c (fun p => k))
  (at level 61, p pattern, c at next level, right associativity).

(** [for x in l: body] over a mutable state [s]. *)
Fixpoint for_each {A S} (body : A -> S -> result S) (l : list A) (s : S) : result S :=
  match l with
  | [] => Ok s
  | x :: l' => s' <- body x s ;; for_each body l' s'
  end.

(** [enumerate(l)] starting at [i]. *)
Fixpoint enumerate_from {A} (i : nat) (l : list A) : list (nat * A) :=
  match l with
  | [] => []
  | x :: l' => (i, x) :: enumerate_from (S i) l'
  end.

Definition enumerate {A} (l : list A) : list (nat * A) := enumerate_from 0 l.

Definition is_ok {A} (r : result A) : bool :=
  match r with Ok _ => true | Raise _ => false end.

(** [str(e)] for the exceptions that reach a message. *)
Definition str_exn (e : exn) : string :=
  match e with
  | KeyError w => w
  | ValueError m => m
  | TypeError m => m
  | AttributeError m => m
  | IndexError => "index out of bounds"%string
  | ZeroDivisionError => "float division by zero"
  | LinAlgError m => m
  end.

(** ** Insertion-ordered dictionaries *)

Section Dict.
Variables K V : Type.
Variable eqb : K -> K -> bool.

Definition dict := list (K * V).

Fixpoint dict_get (d : dict) (k : K) : option V :=
  match d with
  | [] => None
  | (k', v) :: d' => if eqb k k' then Some v else dict_get d' k
  end.

(** [d[k] = v]: replaces in place when the key is present, else appends. *)
Fixpoint dict_set (d : dict) (k : K) (v : V) : dict :=
  match d with
  | [] => [(k, v)]
  | (k', v') :: d' =>
      if eqb k k' then (k', v) :: d' else (k', v') :: dict_set d' k v
  end.

Definition dict_mem (d : dict) (k : K) : bool :=
  match dict_get d k with Some _ => true | None => false end.

Definition dict_values (d : dict) : list V := map snd d.
Definition dict_keys (d : dict) : list K := map fst d.
End Dict.

(** ** Sets of integers, kept strictly ascending *)

Fixpoint set_add (x : Z) (s : list Z) : list Z :=
  match s with
  | [] => [x]
  | y :: s' =>
      if (x <? y)%Z then x :: s
      else if (x =? y)%Z then s
      else y :: set_add x s'
  end.

Definition set_update (s : list Z) (xs : list Z) : list Z :=
  fold_left (fun acc x => set_add x acc) xs s.

Definition set_mem (x : Z) (s : list Z) : bool :=
  existsb (Z.eqb x) s.

(** [sorted(l)] on integers: insertion sort, duplicates kept. *)
Fixpoint insert_sorted (x : Z) (l : list Z) : list Z :=
  match l with
  | [] => [x]
  | y :: l' => if (x <=? y)%Z then x :: l else y :: insert_sorted x l'
  end.

Definition sorted (l : list Z) : list Z := fold_right insert_sorted [] l.

(** ** JSON / Python values reaching the constructors *)

#[local] Unset Elimination Schemes.
Inductive pyval : Type :=
| PNone
| PBool (b : bool)
| PInt (z : Z)
| PFloat (q : Qc)
| PStr (s : string)
| PList (l : list pyval)
| PDict (d : list (string * pyval)).
#[local] Set Elimination Schemes.

(** ASCII [str.upper]. *)
Definition upper_ascii (c : ascii) : ascii :=
  let n := nat_of_ascii c in
  if (97 <=? n)%nat && (n <=? 122)%nat then ascii_of_nat (n - 32) else c.

Fixpoint upper (s : string) : string :=
  match s with
  | EmptyString => EmptyString
  | String c s' => String (upper_ascii c) (upper s')
  end.

Definition is_space (c : ascii) : bool :=
  let n := nat_of_ascii c in
  (n =? 32)%nat || ((9 <=? n)%nat && (n <=? 13)%nat).

Fixpoint lstrip (s : string) : string :=
  match s with
  | String c s' => if is_space c then lstrip s' else s
  | EmptyString => EmptyString
  end.

Fixpoint rstrip (s : string) : string :=
  match s with
  | EmptyString => EmptyString
  | String c s' =>
      match rstrip s' with
      | EmptyString => if is_space c then EmptyString else String c EmptyString
      | r => String c r
      end
  end.

Definition strip (s : string) : string := rstrip (lstrip s).

Definition digit_of (c : ascii) : option Z :=
  let n := nat_of_ascii c in
  if (48 <=? n)%nat && (n <=? 57)%nat then Some (Z.of_nat (n - 48)) else None.

(** Decimal digits, most significant first; [None] on a non-digit or on
    the empty string. *)
Fixpoint parse_digits (acc : Z) (seen : bool) (s : string) : option Z :=
  match s with
  | EmptyString => if seen then Some acc else None
  | String c s' =>
      match digit_of c with
      | Some d => parse_digits (10 * acc + d)%Z true s'
      | None => None
      end
  end.

(** [int(s)] for a string: surrounding white space, an optional sign and
    decimal digits (digit-group underscores are not modelled). *)
Definition int_of_string (s : string) : option Z :=
  match strip s with
  | String "-"%char s' => option_map Z.opp (parse_digits 0 false s')
  | String "+"%char s' => parse_digits 0 false s'
  | s' => parse_digits 0 false s'
  end.

(** Truncation toward zero, as [int(x)] does on a float. *)
Definition trunc (q : Qc) : Z := Z.quot (Qnum (this q)) (Zpos (Qden (this q))).

Definition Z2Qc (z : Z) : Qc := Q2Qc (inject_Z z).

Definition qc (n : Z) (d : positive) : Qc := Q2Qc (n # d).

(** [str(z)] for an integer. *)
Definition str_of_Z (z : Z) : string := NilZero.string_of_int (Z.to_int z).

Definition Qc_ltb (a b : Qc) : bool :=
  match a ?= b with Lt => true | _ => false end.

Definition Qc_eqb (a b : Qc) : bool :=
  match a ?= b with Eq => true | _ => false end.

(** [a / b] on floats. *)
Definition py_div (a b : Qc) : result Qc :=
  if Qc_eqb b 0 then Raise ZeroDivisionError else Ok (a / b).

(** [int(v)]. *)
Definition py_int (v : pyval) : result Z :=
  match v with
  | PInt z => Ok z
  | PBool b => Ok (if b then 1 else 0)%Z
  | PFloat q => Ok (trunc q)
  | PStr s =>
      match int_of_string s with
      | Some z => Ok z
      | None => Raise (ValueError ("invalid literal for int() with base 10: '" ++ s ++ "'"))
      end
  | _ => Raise (TypeError "int() argument must be a string, a bytes-like object or a real number")
  end.

(** Digits after the decimal point: value and scale. *)
Fixpoint parse_frac (num den : Z) (s : string) : option (Z * Z) :=
  match s with
  | EmptyString => Some (num, den)
  | String c s' =>
      match digit_of c with
      | Some d => parse_frac (10 * num + d)%Z (10 * den)%Z s'
      | None => None
      end
  end.

Fixpoint split_at_dot (s : string) : string * option string :=
  match s with
  | EmptyString => (EmptyString, None)
  | String c s' =>
      if Ascii.eqb c "."%char then (EmptyString, Some s')
      else let (a, b) := split_at_dot s' in (String c a, b)
  end.

Definition Zdiv_Qc (n d : Z) : Qc :=
  match d with
  | Zpos p => Q2Qc (n # p)
  | _ => Q2Qc 0
  end.

Definition unsigned_decimal (s : string) : option Qc :=
  match split_at_dot s with
  | (ip, None) => option_map Z2Qc (parse_digits 0 false ip)
  | (EmptyString, Some fp) =>
      match fp with
      | EmptyString => None
      | _ => option_map (fun '(n, d) => Zdiv_Qc n d) (parse_frac 0 1 fp)
      end
  | (ip, Some fp) =>
      match parse_digits 0 false ip, parse_frac 0 1 fp with
      | Some i, Some (n, d) => Some (Z2Qc i + Zdiv_Qc n d)
      | _, _ => None
      end
  end.

(** [float(s)] for a string: plain decimal literals [[+-]digits[.digits]].
    Exponents and the [inf]/[nan] spellings have no rational value and
    are outside the model. *)
Definition float_of_string (s : string) : option Qc :=
  match strip s with
  | String "-"%char s' => option_map Qcopp (unsigned_decimal s')
  | String "+"%char s' => unsigned_decimal s'
  | s' => unsigned_decimal s'
  end.

(** [float(v)]. *)
Definition py_float (v : pyval) : result Qc :=
  match v with
  | PInt z => Ok (Z2Qc z)
  | PBool b => Ok (if b then 1 else 0)
  | PFloat q => Ok q
  | PStr s =>
      match float_of_string s with
      | Some q => Ok q
      | None => Raise (ValueError ("could not convert string to float: '" ++ s ++ "'"))
      end
  | _ => Raise (TypeError "float() argument must be a string or a real number")
  end.

(** [str(v).upper() == 'GND'].  Only a string can spell [GND]: [str] of
    a number, a boolean, [None] or a container never does. *)
Definition str_upper_is_GND (v : pyval) : bool :=
  match v with
  | PStr s => String.eqb (upper s) "GND"
  | _ => false
  end.

(** ** models/circuit_components.py *)

Module CircuitComponents.

Inductive ComponentClass : Type := Resistor | VoltageSource | CurrentSource.

Definition class_eqb (a b : ComponentClass) : bool :=
  match a, b with
  | Resistor, Resistor | VoltageSource, VoltageSource
  | CurrentSource, CurrentSource => true
  | _, _ => false
  end.

(** [uid] is the [id] attribute (a uuid4 string in the source). *)
Record Component : Type := mkComponent {
  uid : nat;
  cls : ComponentClass;
  value : Qc;
  node1 : Z;
  node2 : Z
}.

(** [Component._parse_node] *)
Definition _parse_node (node : pyval) : result Z :=
  if str_upper_is_GND node then Ok 0%Z else py_int node.

(** [Component.__init__], called through one of the three subclasses;
    [u] is the uuid drawn for the new object. *)
Definition __init__ (u : nat) (c : ComponentClass) (value node1 node2 : pyval)
  : result Component :=
  v <- py_float value ;;
  n1 <- _parse_node node1 ;;
  n2 <- _parse_node node2 ;;
  Ok (mkComponent u c v n1 n2).

Definition isinstance (c : Component) (k : ComponentClass) : bool :=
  class_eqb (cls c) k.

End CircuitComponents.
Export CircuitComponents.

(** ** models/circuit_model.py *)

Module CircuitModel.

(** The networkx [MultiGraph]: the adjacency structure
    [_adj[u][v][key] = data], three nested insertion-ordered
    dictionaries.  The only edge attribute is [component]. *)
Definition keydict := dict nat Component.
Definition nbrdict := dict Z keydict.
Definition MultiGraph := dict Z nbrdict.

Definition add_node (g : MultiGraph) (n : Z) : MultiGraph :=
  if dict_mem Z.eqb g n then g else dict_set Z.eqb g n [].

Definition has_node (g : MultiGraph) (n : Z) : bool := dict_mem Z.eqb g n.

(** Store [key -> c] in [_adj[u][v]]. *)
Definition put_half_edge (g : MultiGraph) (u v : Z) (key : nat) (c : Component)
  : MultiGraph :=
  let nb := match dict_get Z.eqb g u with Some nb => nb | None => [] end in
  let kd := match dict_get Z.eqb nb v with Some kd => kd | None => [] end in
  dict_set Z.eqb g u (dict_set Z.eqb nb v (dict_set Nat.eqb kd key c)).

(** [graph.add_edge(u, v, key=key, component=c)] *)
Definition add_edge (g : MultiGraph) (u v : Z) (key : nat) (c : Component)
  : MultiGraph :=
  let g := add_node (add_node g u) v in
  put_half_edge (put_half_edge g u v key c) v u key c.

Definition has_edge (g : MultiGraph) (u v : Z) : bool :=
  match dict_get Z.eqb g u with
  | Some nb => dict_mem Z.eqb nb v
  | None => false
  end.

Record t : Type := mk {
  graph : MultiGraph;
  components : dict nat Component;
  nodes : list Z;
  reference_node : Z
}.

(** [CircuitModel.__init__] *)
Definition __init__ : t := mk [] [] [] 0.

(** [CircuitModel.add_component] *)
Definition add_component (self : t) (component : Component) : result t :=
  Ok (mk (add_edge (graph self) (node1 component) (node2 component)
                   (uid component) component)
         (dict_set Nat.eqb (components self) (uid component) component)
         (set_update (nodes self) [node1 component; node2 component])
         (reference_node self)).

(** [CircuitModel.set_reference_node] *)
Definition set_reference_node (self : t) (node : pyval) : result t :=
  node <- (if str_upper_is_GND node then Ok 0%Z else py_int node) ;;
  if negb (set_mem node (nodes self)) then
    Ok (mk (add_node (graph self) node) (components self)
           (set_add node (nodes self)) node)
  else
    Ok (mk (graph self) (components self) (nodes self) node).

(** The construction sequence of the callers ([_build_circuit_model],
    [test_equations]): successive [add_component], then
    [set_reference_node]. *)
Definition of_components (cs : list Component) (ref : pyval) : result t :=
  m <- for_each (fun c m => add_component m c) cs __init__ ;;
  set_reference_node m ref.

(** [CircuitModel.get_non_reference_nodes] *)
Definition get_non_reference_nodes (self : t) : list Z :=
  sorted (filter (fun n => negb (n =? reference_node self)%Z) (nodes self)).

(** [CircuitModel.get_components_connected_to_node] *)
Definition get_components_connected_to_node (self : t) (node : Z)
  : list (Component * Z) :=
  match dict_get Z.eqb (graph self) node with
  | None => []
  | Some nb =>
      flat_map (fun '(neighbor, edges) =>
                  map (fun '(_, component) => (component, neighbor)) edges) nb
  end.

(** [CircuitModel.get_voltage_sources_between_nodes] *)
Definition get_voltage_sources_between_nodes (self : t) (node1 node2 : Z)
  : list Component :=
  if negb (has_edge (graph self) node1 node2) then []
  else
    match dict_get Z.eqb (graph self) node1 with
    | None => []
    | Some nb =>
        match dict_get Z.eqb nb node2 with
        | None => []
        | Some kd =>
            filter (fun comp => isinstance comp VoltageSource)
                   (dict_values kd)
        end
    end.

(** The component list in insertion order: [components.values()]. *)
Definition values (self : t) : list Component := dict_values (components self).

End CircuitModel.

(** ** analysis_strategies.py *)

Module NodalAnalysis.

(** Remove and return the class that contains [x]. *)
Fixpoint extract (x : Z) (cs : list (list Z)) : option (list Z * list (list Z)) :=
  match cs with
  | [] => None
  | c :: cs' =>
      if set_mem x c then Some (c, cs')
      else match extract x cs' with
           | Some (cx, rest) => Some (cx, c :: rest)
           | None => None
           end
  end.

(** Join the classes of [u] and [v]; the joined class stays at the
    position of whichever came first. *)
Fixpoint join (u v : Z) (cs : list (list Z)) : list (list Z) :=
  match cs with
  | [] => []
  | c :: cs' =>
      if set_mem u c then
        if set_mem v c then cs
        else match extract v cs' with
             | Some (cv, rest) => set_update c cv :: rest
             | None => cs
             end
      else if set_mem v c then
        match extract u cs' with
        | Some (cu, rest) => set_update c cu :: rest
        | None => cs
        end
      else c :: join u v cs'
  end.

(** [nx.connected_components] of the simple graph with vertex set [vs]
    and edge list [es]: the classes of the partition obtained by
    joining the two ends of every edge, each class ascending, classes
    ordered by their least vertex. *)
Definition connected_components (vs : list Z) (es : list (Z * Z)) : list (list Z) :=
  fold_left (fun cs '(u, v) => join u v cs) es (map (fun n => [n]) vs).

Record t : Type := mk {
  model : CircuitModel.t;
  non_ref_nodes : list Z;
  num_nodes : nat;
  voltage_sources : list Component;
  supernodes : list (list Z);
  grounded_supernodes : list (list Z)
}.

(** [NodalAnalysis._find_supernodes] *)
Definition _find_supernodes (model : CircuitModel.t) (voltage_sources : list Component)
  : list (list Z) :=
  let es := map (fun vs => (node1 vs, node2 vs)) voltage_sources in
  (* add_nodes_from(model.nodes), then add_edge adds missing end points *)
  let vs_nodes :=
    set_update (CircuitModel.nodes model)
               (flat_map (fun '(u, v) => [u; v]) es) in
  filter (fun c => (1 <? length c)%nat) (connected_components vs_nodes es).

(** [NodalAnalysis._get_grounded_supernodes] *)
Definition _get_grounded_supernodes (model : CircuitModel.t) (supernodes : list (list Z))
  : list (list Z) :=
  filter (fun sn => set_mem (CircuitModel.reference_node model) sn) supernodes.

(** [NodalAnalysis.__init__] without the summary dictionary. *)
Definition __init__ (model : CircuitModel.t) : t :=
  let non_ref_nodes := CircuitModel.get_non_reference_nodes model in
  let voltage_sources :=
    filter (fun c => isinstance c VoltageSource) (CircuitModel.values model) in
  let supernodes := _find_supernodes model voltage_sources in
  mk model non_ref_nodes (length non_ref_nodes) voltage_sources supernodes
     (_get_grounded_supernodes model supernodes).

(** The numeric and structural entries of the summary dictionary. *)
Record Summary : Type := mkSummary {
  s_reference_node : Z;
  s_non_reference_nodes : list Z;
  s_num_non_reference_nodes : nat;
  s_supernodes : list (list Z);
  s_grounded_supernodes : list (list Z);
  s_ungrounded_supernodes : list (list Z);
  s_regular_nodes : list Z;
  s_num_kcl_equations : nat;
  s_num_constraint_equations : nat;
  s_num_voltage_sources : nat;
  s_total_equations : nat
}.

(** [NodalAnalysis._analyze] *)
Definition _analyze (self : t) : Summary :=
  let ref := CircuitModel.reference_node (model self) in
  let regular_nodes :=
    filter (fun n => negb (existsb (fun sn => set_mem n sn) (supernodes self)))
           (non_ref_nodes self) in
  let ungrounded_supernodes :=
    filter (fun sn => negb (set_mem ref sn)) (supernodes self) in
  let num_kcl_equations := (length regular_nodes + length ungrounded_supernodes)%nat in
  let num_constraint_equations := length (voltage_sources self) in
  mkSummary ref (non_ref_nodes self) (length (non_ref_nodes self))
            (supernodes self) (grounded_supernodes self)
            (filter (fun sn => negb (set_mem ref sn)) (supernodes self))
            regular_nodes num_kcl_equations num_constraint_equations
            (length (voltage_sources self))
            (num_kcl_equations + num_constraint_equations).

(** [NodalAnalysis.get_analysis_summary] *)
Definition get_analysis_summary (self : t) : Summary := _analyze self.

End NodalAnalysis.

(** ** numpy arrays *)

Definition vector := list Qc.
Definition matrix := list (list Qc).

Fixpoint upd {A} (l : list A) (i : nat) (x : A) : list A :=
  match l, i with
  | [], _ => []
  | _ :: l', O => x :: l'
  | y :: l', S i' => y :: upd l' i' x
  end.

(** [np.zeros(n)] and [np.zeros((n, n))] *)
Definition np_zeros (n : nat) : vector := repeat 0 n.
Definition np_zeros2 (n : nat) : matrix := repeat (np_zeros n) n.

(** [v[i]] and [v[i] = x]; an index past the end raises. *)
Definition vget (v : vector) (i : nat) : result Qc :=
  match nth_error v i with
  | Some x => Ok x
  | None => Raise IndexError
  end.

Definition vset (v : vector) (i : nat) (x : Qc) : result vector :=
  if (i <? length v)%nat then Ok (upd v i x) else Raise IndexError.

(** [G[i, j]] and [G[i, j] = x] *)
Definition mget (G : matrix) (i j : nat) : result Qc :=
  match nth_error G i with
  | Some row => vget row j
  | None => Raise IndexError
  end.

Definition mset (G : matrix) (i j : nat) (x : Qc) : result matrix :=
  match nth_error G i with
  | Some row => row' <- vset row j x ;; Ok (upd G i row')
  | None => Raise IndexError
  end.

(** [G[i, j] += x], [G[i, j] -= x], [Z[i] += x], [Z[i] -= x] *)
Definition madd (G : matrix) (i j : nat) (x : Qc) : result matrix :=
  v <- mget G i j ;; mset G i j (v + x).
Definition msub (G : matrix) (i j : nat) (x : Qc) : result matrix :=
  v <- mget G i j ;; mset G i j (v - x).
Definition vadd (Zv : vector) (i : nat) (x : Qc) : result vector :=
  v <- vget Zv i ;; vset Zv i (v + x).
Definition vsub (Zv : vector) (i : nat) (x : Qc) : result vector :=
  v <- vget Zv i ;; vset Zv i (v - x).

Fixpoint dot (a b : vector) : Qc :=
  match a, b with
  | x :: a', y :: b' => x * y + dot a' b'
  | _, _ => 0
  end.

(** [G @ X] *)
Definition matvec (G : matrix) (X : vector) : vector := map (fun row => dot row X) G.

(** ** np.linalg.solve in exact arithmetic

    Gaussian elimination with partial pivoting on the augmented rows.
    The routine reports a singular matrix exactly when a pivot column is
    entirely zero. *)

Module Linalg.

Definition arow : Type := (list Qc * Qc)%type.

Definition lead (r : arow) : Qc := hd 0 (fst r).

(** Position of the first entry of largest magnitude. *)
Fixpoint argmax_abs (best : nat) (bv : Qc) (i : nat) (l : list Qc) : nat :=
  match l with
  | [] => best
  | x :: l' =>
      if Qc_ltb bv (Qcabs.Qcabs x) then argmax_abs i (Qcabs.Qcabs x) (S i) l'
      else argmax_abs best bv (S i) l'
  end.

(** Choose the pivot row and swap it with the first row; [None] when
    the column holds no non-zero entry. *)
Definition pivot_split (rows : list arow) : option (arow * list arow) :=
  match rows with
  | [] => None
  | r0 :: rest =>
      let k := argmax_abs 0 (Qcabs.Qcabs (lead r0)) 1 (map lead rest) in
      match k with
      | O => if Qc_eqb (lead r0) 0 then None else Some (r0, rest)
      | S k' =>
          match nth_error rest k' with
          | Some p => if Qc_eqb (lead p) 0 then None else Some (p, upd rest k' r0)
          | None => None
          end
      end
  end.

Fixpoint axpy (m : Qc) (a b : list Qc) : list Qc :=
  match a, b with
  | x :: a', y :: b' => (x - m * y) :: axpy m a' b'
  | _, _ => []
  end.

(** Subtract the multiple of the pivot row that clears the first
    column, and drop that column. *)
Definition eliminate (p r : arow) : arow :=
  let m := lead r / lead p in
  (axpy m (tl (fst r)) (tl (fst p)), snd r - m * snd p).

Fixpoint gauss (n : nat) (rows : list arow) : option vector :=
  match n with
  | O => Some []
  | S n' =>
      match pivot_split rows with
      | None => None
      | Some (p, rest) =>
          match gauss n' (map (eliminate p) rest) with
          | None => None
          | Some xs => Some ((snd p - dot (tl (fst p)) xs) / lead p :: xs)
          end
      end
  end.

(** [np.linalg.solve(G, Z)] *)
Definition solve (G : matrix) (Zv : vector) : result vector :=
  match gauss (length G) (combine G Zv) with
  | Some x => Ok x
  | None => Raise (LinAlgError "Singular matrix")
  end.

End Linalg.

(** [{k: v for ...}]: later bindings of a key overwrite earlier ones. *)
Definition dict_of_list {K V} (eqb : K -> K -> bool) (l : list (K * V)) : dict K V :=
  fold_left (fun d '(k, v) => dict_set eqb d k v) l [].

(** ** services/circuit_solver.py *)

Module CircuitSolver.

Record t : Type := mk {
  model : CircuitModel.t;
  ref_node : Z;
  resistors : list Component;
  voltage_sources : list Component;
  current_sources : list Component;
  non_ref_nodes : list Z;
  num_nodes : nat;
  num_vs : nat;
  node_to_index : dict Z nat;
  vs_to_index : dict nat Component;
  index_to_node : dict nat Z
}.

(** [CircuitSolver.__init__] *)
Definition __init__ (circuit_model : CircuitModel.t) : t :=
  let ref_node := CircuitModel.reference_node circuit_model in
  let values := CircuitModel.values circuit_model in
  let voltage_sources := filter (fun c => isinstance c VoltageSource) values in
  let non_ref_nodes :=
    sorted (filter (fun n => negb (n =? ref_node)%Z)
                   (CircuitModel.nodes circuit_model)) in
  let node_to_index :=
    dict_of_list Z.eqb (map (fun '(i, node) => (node, i)) (enumerate non_ref_nodes)) in
  mk circuit_model ref_node
     (filter (fun c => isinstance c Resistor) values)
     voltage_sources
     (filter (fun c => isinstance c CurrentSource) values)
     non_ref_nodes (length non_ref_nodes) (length voltage_sources)
     node_to_index
     (dict_of_list Nat.eqb (enumerate voltage_sources))
     (dict_of_list Nat.eqb (map (fun '(node, i) => (i, node)) node_to_index)).

(** [self.node_to_index[n]] *)
Definition index_of (self : t) (n : Z) : result nat :=
  match dict_get Z.eqb (node_to_index self) n with
  | Some i => Ok i
  | None => Raise (KeyError (str_of_Z n))
  end.

Definition is_ref (self : t) (n : Z) : bool := (n =? ref_node self)%Z.

(** The loop body of [_stamp_conductances]. *)
Definition stamp_resistor (self : t) (resistor : Component) (G : matrix)
  : result matrix :=
  let n1 := node1 resistor in
  let n2 := node2 resistor in
  g <- py_div 1 (value resistor) ;;
  if negb (is_ref self n1) && negb (is_ref self n2) then
    i <- index_of self n1 ;;
    j <- index_of self n2 ;;
    G <- madd G i i g ;;
    G <- madd G j j g ;;
    G <- msub G i j g ;;
    msub G j i g
  else if negb (is_ref self n1) && is_ref self n2 then
    i <- index_of self n1 ;;
    madd G i i g
  else if negb (is_ref self n2) && is_ref self n1 then
    j <- index_of self n2 ;;
    madd G j j g
  else Ok G.

(** [CircuitSolver._stamp_conductances] *)
Definition _stamp_conductances (self : t) (G : matrix) : result matrix :=
  for_each (stamp_resistor self) (resistors self) G.

(** The loop body of [_stamp_current_sources]. *)
Definition stamp_current_source (self : t) (cs : Component) (Zv : vector)
  : result vector :=
  let n1 := node1 cs in
  let n2 := node2 cs in
  let current := value cs in
  Zv <- (if negb (is_ref self n1) then
           i <- index_of self n1 ;; vsub Zv i current
         else Ok Zv) ;;
  if negb (is_ref self n2) then
    j <- index_of self n2 ;; vadd Zv j current
  else Ok Zv.

(** [CircuitSolver._stamp_current_sources] *)
Definition _stamp_current_sources (self : t) (Zv : vector) : result vector :=
  for_each (stamp_current_source self) (current_sources self) Zv.

(** The loop body of [_stamp_voltage_sources]. *)
Definition stamp_voltage_source (self : t) (item : nat * Component)
           (GZ : matrix * vector) : result (matrix * vector) :=
  let '(vs_idx, vs) := item in
  let '(G, Zv) := GZ in
  let n1 := node1 vs in
  let n2 := node2 vs in
  let voltage := value vs in
  let vs_row := (num_nodes self + vs_idx)%nat in
  let vs_col := (num_nodes self + vs_idx)%nat in
  G <- (if negb (is_ref self n1) then
          i <- index_of self n1 ;; mset G vs_row i 1
        else Ok G) ;;
  G <- (if negb (is_ref self n2) then
          j <- index_of self n2 ;; mset G vs_row j (Qcopp 1)
        else Ok G) ;;
  Zv <- vset Zv vs_row voltage ;;
  G <- (if negb (is_ref self n1) then
          i <- index_of self n1 ;; mset G i vs_col 1
        else Ok G) ;;
  G <- (if negb (is_ref self n2) then
          j <- index_of self n2 ;; mset G j vs_col (Qcopp 1)
        else Ok G) ;;
  Ok (G, Zv).

(** [CircuitSolver._stamp_voltage_sources] *)
Definition _stamp_voltage_sources (self : t) (GZ : matrix * vector)
  : result (matrix * vector) :=
  for_each (stamp_voltage_source self) (enumerate (voltage_sources self)) GZ.

(** [CircuitSolver._build_mna_system] *)
Definition _build_mna_system (self : t) : result (matrix * vector) :=
  let size := (num_nodes self + num_vs self)%nat in
  let G := np_zeros2 size in
  let Zv := np_zeros size in
  G <- _stamp_conductances self G ;;
  Zv <- _stamp_current_sources self Zv ;;
  _stamp_voltage_sources self (G, Zv).

(** The text produced by [_get_power_description], without the
    six-decimal rendering of the magnitude. *)
Inductive PowerDescription : Type :=
| Supplying (w : Qc)
| Absorbing (w : Qc)
| ZeroW.

(** [CircuitSolver._get_power_description] *)
Definition _get_power_description (power : Qc) : PowerDescription :=
  if Qc_ltb power (- qc 1 1000000000000) then Supplying (Qcabs.Qcabs power)
  else if Qc_ltb (qc 1 1000000000000) power then Absorbing power
  else ZeroW.

Record ComponentResult : Type := mkResult {
  r_id : nat;
  r_type : ComponentClass;
  r_value : Qc;
  r_node1 : Z;
  r_node2 : Z;
  r_voltage : Qc;
  r_current : Qc;
  r_power : Qc;
  r_description : PowerDescription
}.

(** [voltages.get(n, 0.0)] *)
Definition voltage_at (voltages : dict Z Qc) (n : Z) : Qc :=
  match dict_get Z.eqb voltages n with
  | Some v => v
  | None => 0
  end.

(** The search loop of the voltage-source branch: the current of the
    first source with the component's id, [0.0] when there is none. *)
Fixpoint find_vs_current (l : list (nat * Component)) (comp : Component)
         (vs_currents : vector) : result Qc :=
  match l with
  | [] => Ok 0
  | (vs_idx, vs) :: l' =>
      if (uid vs =? uid comp)%nat then vget vs_currents vs_idx
      else find_vs_current l' comp vs_currents
  end.

(** [CircuitSolver._calculate_component_result].  The two NaN guards
    have no counterpart: a rational is never NaN. *)
Definition _calculate_component_result (self : t) (comp : Component)
           (voltages : dict Z Qc) (vs_currents : vector) : result ComponentResult :=
  let v1 := voltage_at voltages (node1 comp) in
  let v2 := voltage_at voltages (node2 comp) in
  let voltage := v1 - v2 in
  '(current, power) <-
    match cls comp with
    | Resistor =>
        current <- py_div voltage (value comp) ;;
        Ok (current, voltage * current)
    | VoltageSource =>
        current <- find_vs_current (enumerate (voltage_sources self)) comp vs_currents ;;
        Ok (current, voltage * current)
    | CurrentSource =>
        let current := value comp in
        Ok (current, voltage * current)
    end ;;
  Ok (mkResult (uid comp) (cls comp) (value comp) (node1 comp) (node2 comp)
               voltage current power (_get_power_description power)).

Record MatrixInfo : Type := mkInfo {
  conductance_matrix : matrix;
  current_vector : vector;
  voltage_solution : vector;
  residual : vector;
  max_error : Qc
}.

Definition Qc_max (a b : Qc) : Qc := if Qc_ltb a b then b else a.

(** [CircuitSolver._build_matrix_info]; [np.max] of an empty array
    raises, and the bare [except] then returns the empty record. *)
Definition _build_matrix_info (G : matrix) (Zv X : vector) : MatrixInfo :=
  let residual := map (fun '(a, b) => a - b) (combine (matvec G X) Zv) in
  match map Qcabs.Qcabs residual with
  | [] => mkInfo [] [] [] [] 0
  | r :: rs => mkInfo G Zv X residual (fold_left Qc_max rs r)
  end.

Record Summary : Type := mkSummary {
  total_components : nat;
  solved_nodes : nat;
  power_balance : bool
}.

Inductive Solution : Type :=
| Success (voltages : dict Z Qc) (components : list ComponentResult)
          (total_power : Qc) (matrix_solution : MatrixInfo) (summary : Summary)
| Error (message : string) (suggestion : string).

(** First loop of [_package_solution]: the voltages dictionary
    (ground included). *)
Definition voltages_of (self : t) (node_voltages : vector) : result (dict Z Qc) :=
  for_each (fun '(i, voltage) voltages =>
              match dict_get Nat.eqb (index_to_node self) i with
              | Some node => Ok (dict_set Z.eqb voltages node voltage)
              | None => Raise (KeyError (str_of_Z (Z.of_nat i)))
              end)
           (enumerate node_voltages) [(ref_node self, 0)].

(** Second loop of [_package_solution]: the component results and
    the running total of their powers. *)
Definition results_of (self : t) (voltages : dict Z Qc) (vs_currents : vector)
  : result (list ComponentResult * Qc) :=
  for_each (fun comp '(component_results, total_power) =>
              result <- _calculate_component_result self comp voltages vs_currents ;;
              Ok (component_results ++ [result], total_power + r_power result))
           (CircuitModel.values (model self)) ([], 0).

(** [CircuitSolver._package_solution] *)
Definition _package_solution (self : t) (node_voltages vs_currents : vector)
           (G : matrix) (Zv : vector) : result Solution :=
  voltages <- voltages_of self node_voltages ;;
  '(component_results, total_power) <- results_of self voltages vs_currents ;;
  Ok (Success voltages component_results total_power
        (_build_matrix_info G Zv (node_voltages ++ vs_currents))
        (mkSummary (length (CircuitModel.components (model self)))
                   (length voltages)
                   (Qc_ltb (Qcabs.Qcabs total_power) (qc 1 1000000000)))).

(** [CircuitSolver._create_error_response] *)
Definition _create_error_response (message : string) : Solution :=
  Error message "Check circuit connectivity and component values".

(** [CircuitSolver.solve] *)
Definition solve (self : t) : Solution :=
  let body :=
    '(G, Zv) <- _build_mna_system self ;;
    X <- Linalg.solve G Zv ;;
    let node_voltages := firstn (num_nodes self) X in
    let vs_currents := skipn (num_nodes self) X in
    _package_solution self node_voltages vs_currents G Zv in
  match body with
  | Ok solution => solution
  | Raise (LinAlgError e) =>
      _create_error_response
        ("Singular matrix: Circuit may be unsolvable. " ++ e)
  | Raise e => _create_error_response ("Solver error: " ++ str_exn e)
  end.

End CircuitSolver.

(** ** Python floats as IEEE binary64 numbers *)

Module Binary64.
Import PrimFloat.

(** The binary64 number nearest to a rational, ties to even (what the
    interpreter makes of a numeric literal): the quotient is taken to 64
    bits with a sticky last bit, then rounded once. *)
Definition of_Qc (q : Qc) : float :=
  let n := Qnum (this q) in
  let d := Zpos (Qden (this q)) in
  let e := (Z.log2 (Z.abs n) - Z.log2 d - 64)%Z in
  let '(a, b) := if (0 <=? e)%Z then (Z.abs n, d * 2 ^ e)%Z
                 else (Z.abs n * 2 ^ (- e), d)%Z in
  let sticky := if (a mod b =? 0)%Z then 0%Z else 1%Z in
  FloatOps.SF2Prim
    (SpecFloat.binary_normalize FloatOps.prec FloatOps.emax
       (Z.sgn n * (2 * (a / b) + sticky)) (e - 1) false).

(** The rational value of a finite binary64 number ([0] for the
    infinities and NaN, which [is_finite] tells apart). *)
Definition to_Qc (x : float) : Qc :=
  match FloatOps.Prim2SF x with
  | SpecFloat.S754_finite s m e =>
      let a := match e with
               | Zneg p => qc (Zpos m) (2 ^ p)
               | _ => Z2Qc (Zpos m * 2 ^ e)
               end in
      if s then Qcopp a else a
  | _ => Q2Qc 0
  end.

(** Python's [a / b] on floats: a zero divisor raises. *)
Definition py_div (a b : float) : result float :=
  if (b =? 0)%float then Raise ZeroDivisionError else Ok (a / b)%float.

Definition fvector := list float.
Definition fmatrix := list (list float).

(** [np.zeros(n)] and [np.zeros((n, n))] *)
Definition np_zeros (n : nat) : fvector := repeat 0%float n.
Definition np_zeros2 (n : nat) : fmatrix := repeat (np_zeros n) n.

(** [v[i]] and [v[i] = x]; an index past the end raises. *)
Definition vget (v : fvector) (i : nat) : result float :=
  match nth_error v i with
  | Some x => Ok x
  | None => Raise IndexError
  end.

Definition vset (v : fvector) (i : nat) (x : float) : result fvector :=
  if (i <? length v)%nat then Ok (upd v i x) else Raise IndexError.

(** [G[i, j]] and [G[i, j] = x] *)
Definition mget (G : fmatrix) (i j : nat) : result float :=
  match nth_error G i with
  | Some row => vget row j
  | None => Raise IndexError
  end.

Definition mset (G : fmatrix) (i j : nat) (x : float) : result fmatrix :=
  match nth_error G i with
  | Some row => row' <- vset row j x ;; Ok (upd G i row')
  | None => Raise IndexError
  end.

(** [G[i, j] += x], [G[i, j] -= x], [Z[i] += x], [Z[i] -= x]: one
    rounded addition or subtraction each. *)
Definition madd (G : fmatrix) (i j : nat) (x : float) : result fmatrix :=
  v <- mget G i j ;; mset G i j (v + x)%float.
Definition msub (G : fmatrix) (i j : nat) (x : float) : result fmatrix :=
  v <- mget G i j ;; mset G i j (v - x)%float.
Definition vadd (Zv : fvector) (i : nat) (x : float) : result fvector :=
  v <- vget Zv i ;; vset Zv i (v + x)%float.
Definition vsub (Zv : fvector) (i : nat) (x : float) : result fvector :=
  v <- vget Zv i ;; vset Zv i (v - x)%float.

(** A dot product accumulated from the left, and [G @ X]. *)
Definition dot (a b : fvector) : float :=
  fold_left (fun acc '(x, y) => (acc + x * y)%float) (combine a b) 0%float.

Definition matvec (G : fmatrix) (X : fvector) : fvector := map (fun row => dot row X) G.

End Binary64.

(** ** np.linalg.solve in binary64

    LAPACK's [dgesv] as its reference implementation performs it: an LU
    factorisation with partial pivoting (the first entry of largest
    magnitude is the pivot, the multipliers are the column scaled by the
    reciprocal of the pivot), applied to the right-hand side, then back
    substitution from the last unknown.  Every operation is rounded.
    [LinAlgError] is raised when a pivot is exactly zero.  Optimised
    BLAS libraries may reorder or fuse these operations, which can
    change the last bits of a result; the counterexamples drawn from
    this reading use inputs on which every elimination step is exact,
    or on which the assembled matrix is itself not singular. *)

Module LinalgF.
Import PrimFloat Binary64.

Definition arow : Type := (list float * float)%type.

Definition lead (r : arow) : float := hd 0%float (fst r).

(** Position of the first entry of largest magnitude ([idamax]). *)
Fixpoint argmax_abs (best : nat) (bv : float) (i : nat) (l : list float) : nat :=
  match l with
  | [] => best
  | x :: l' =>
      if (bv <? abs x)%float then argmax_abs i (abs x) (S i) l'
      else argmax_abs best bv (S i) l'
  end.

(** Choose the pivot row and swap it with the first row; [None] when
    the pivot is zero. *)
Definition pivot_split (rows : list arow) : option (arow * list arow) :=
  match rows with
  | [] => None
  | r0 :: rest =>
      let k := argmax_abs 0 (abs (lead r0)) 1 (map lead rest) in
      match k with
      | O => if (lead r0 =? 0)%float then None else Some (r0, rest)
      | S k' =>
          match nth_error rest k' with
          | Some p => if (lead p =? 0)%float then None else Some (p, upd rest k' r0)
          | None => None
          end
      end
  end.

(** The smallest normal number, [dlamch('S')]. *)
Definition sfmin : float := 0x1p-1022%float.

Fixpoint axpy (m : float) (a b : list float) : list float :=
  match a, b with
  | x :: a', y :: b' => (x - m * y)%float :: axpy m a' b'
  | _, _ => []
  end.

(** Subtract the multiple of the pivot row that clears the first
    column, and drop that column. *)
Definition eliminate (p r : arow) : arow :=
  let m := if (abs (lead p) <? sfmin)%float then (lead r / lead p)%float
           else (lead r * (1 / lead p))%float in
  (axpy m (tl (fst r)) (tl (fst p)), (snd r - m * snd p)%float).

(** [b - u_n x_n - ... - u_1 x_1], the last term first. *)
Definition back (b : float) (us xs : list float) : float :=
  fold_right (fun '(u, x) acc => (acc - u * x)%float) b (combine us xs).

Fixpoint gauss (n : nat) (rows : list arow) : option fvector :=
  match n with
  | O => Some []
  | S n' =>
      match pivot_split rows with
      | None => None
      | Some (p, rest) =>
          match gauss n' (map (eliminate p) rest) with
          | None => None
          | Some xs => Some ((back (snd p) (tl (fst p)) xs / lead p)%float :: xs)
          end
      end
  end.

(** [np.linalg.solve(G, Z)] *)
Definition solve (G : fmatrix) (Zv : fvector) : result fvector :=
  match gauss (length G) (combine G Zv) with
  | Some x => Ok x
  | None => Raise (LinAlgError "Singular matrix")
  end.

End LinalgF.

(** ** services/circuit_solver.py in binary64

    The numeric methods of [CircuitSolver] once more, every arithmetic
    operation rounded as the interpreter and numpy round it.  The
    solver object, its index tables and the traversal orders are those
    of [CircuitSolver.__init__]; a component's value is the binary64
    number its rational stands for. *)

Module FloatSolver.
Import PrimFloat Binary64.
Import CircuitSolver.

(** The loop body of [_stamp_conductances]. *)
Definition stamp_resistor (self : CircuitSolver.t) (resistor : Component) (G : fmatrix)
  : result fmatrix :=
  let n1 := node1 resistor in
  let n2 := node2 resistor in
  g <- Binary64.py_div 1%float (of_Qc (value resistor)) ;;
  if negb (is_ref self n1) && negb (is_ref self n2) then
    i <- index_of self n1 ;;
    j <- index_of self n2 ;;
    G <- madd G i i g ;;
    G <- madd G j j g ;;
    G <- msub G i j g ;;
    msub G j i g
  else if negb (is_ref self n1) && is_ref self n2 then
    i <- index_of self n1 ;;
    madd G i i g
  else if negb (is_ref self n2) && is_ref self n1 then
    j <- index_of self n2 ;;
    madd G j j g
  else Ok G.

(** [CircuitSolver._stamp_conductances] *)
Definition _stamp_conductances (self : CircuitSolver.t) (G : fmatrix) : result fmatrix :=
  for_each (stamp_resistor self) (resistors self) G.

(** The loop body of [_stamp_current_sources]. *)
Definition stamp_current_source (self : CircuitSolver.t) (cs : Component) (Zv : fvector)
  : result fvector :=
  let n1 := node1 cs in
  let n2 := node2 cs in
  let current := of_Qc (value cs) in
  Zv <- (if negb (is_ref self n1) then
           i <- index_of self n1 ;; vsub Zv i current
         else Ok Zv) ;;
  if negb (is_ref self n2) then
    j <- index_of self n2 ;; vadd Zv j current
  else Ok Zv.

(** [CircuitSolver._stamp_current_sources] *)
Definition _stamp_current_sources (self : CircuitSolver.t) (Zv : fvector) : result fvector :=
  for_each (stamp_current_source self) (current_sources self) Zv.

(** The loop body of [_stamp_voltage_sources]. *)
Definition stamp_voltage_source (self : CircuitSolver.t) (item : nat * Component)
           (GZ : fmatrix * fvector) : result (fmatrix * fvector) :=
  let '(vs_idx, vs) := item in
  let '(G, Zv) := GZ in
  let n1 := node1 vs in
  let n2 := node2 vs in
  let voltage := of_Qc (value vs) in
  let vs_row := (num_nodes self + vs_idx)%nat in
  let vs_col := (num_nodes self + vs_idx)%nat in
  G <- (if negb (is_ref self n1) then
          i <- index_of self n1 ;; mset G vs_row i 1%float
        else Ok G) ;;
  G <- (if negb (is_ref self n2) then
          j <- index_of self n2 ;; mset G vs_row j (-1)%float
        else Ok G) ;;
  Zv <- vset Zv vs_row voltage ;;
  G <- (if negb (is_ref self n1) then
          i <- index_of self n1 ;; mset G i vs_col 1%float
        else Ok G) ;;
  G <- (if negb (is_ref self n2) then
          j <- index_of self n2 ;; mset G j vs_col (-1)%float
        else Ok G) ;;
  Ok (G, Zv).

(** [CircuitSolver._stamp_voltage_sources] *)
Definition _stamp_voltage_sources (self : CircuitSolver.t) (GZ : fmatrix * fvector)
  : result (fmatrix * fvector) :=
  for_each (stamp_voltage_source self) (enumerate (voltage_sources self)) GZ.

(** [CircuitSolver._build_mna_system] *)
Definition _build_mna_system (self : CircuitSolver.t) : result (fmatrix * fvector) :=
  let size := (num_nodes self + num_vs self)%nat in
  let G := np_zeros2 size in
  let Zv := np_zeros size in
  G <- _stamp_conductances self G ;;
  Zv <- _stamp_current_sources self Zv ;;
  _stamp_voltage_sources self (G, Zv).

(** The text produced by [_get_power_description], without the
    six-decimal rendering of the magnitude. *)
Inductive PowerDescription : Type :=
| Supplying (w : float)
| Absorbing (w : float)
| ZeroW.

#[local] Set Warnings "-inexact-float".

(** [CircuitSolver._get_power_description] *)
Definition _get_power_description (power : float) : PowerDescription :=
  if (power <? -1e-12)%float then Supplying (abs power)
  else if (1e-12 <? power)%float then Absorbing power
  else ZeroW.

Record ComponentResult : Type := mkResult {
  r_id : nat;
  r_type : ComponentClass;
  r_value : float;
  r_node1 : Z;
  r_node2 : Z;
  r_voltage : float;
  r_current : float;
  r_power : float;
  r_description : PowerDescription
}.

(** [voltages.get(n, 0.0)] *)
Definition voltage_at (voltages : dict Z float) (n : Z) : float :=
  match dict_get Z.eqb voltages n with
  | Some v => v
  | None => 0%float
  end.

(** The search loop of the voltage-source branch: the current of the
    first source with the component's id, [0.0] when there is none. *)
Fixpoint find_vs_current (l : list (nat * Component)) (comp : Component)
         (vs_currents : fvector) : result float :=
  match l with
  | [] => Ok 0%float
  | (vs_idx, vs) :: l' =>
      if (uid vs =? uid comp)%nat then vget vs_currents vs_idx
      else find_vs_current l' comp vs_currents
  end.

(** [if np.isnan(x): x = 0.0] *)
Definition nan_to_zero (x : float) : float := if is_nan x then 0%float else x.

(** [CircuitSolver._calculate_component_result] *)
Definition _calculate_component_result (self : CircuitSolver.t) (comp : Component)
           (voltages : dict Z float) (vs_currents : fvector) : result ComponentResult :=
  let v1 := voltage_at voltages (node1 comp) in
  let v2 := voltage_at voltages (node2 comp) in
  let voltage := (v1 - v2)%float in
  '(current, power) <-
    match cls comp with
    | Resistor =>
        current <- Binary64.py_div voltage (of_Qc (value comp)) ;;
        Ok (current, (voltage * current)%float)
    | VoltageSource =>
        current <- find_vs_current (enumerate (voltage_sources self)) comp vs_currents ;;
        Ok (current, (voltage * current)%float)
    | CurrentSource =>
        let current := of_Qc (value comp) in
        Ok (current, (voltage * current)%float)
    end ;;
  let current := nan_to_zero current in
  let power := nan_to_zero power in
  Ok (mkResult (uid comp) (cls comp) (of_Qc (value comp)) (node1 comp) (node2 comp)
               voltage current power (_get_power_description power)).

Record MatrixInfo : Type := mkInfo {
  conductance_matrix : fmatrix;
  current_vector : fvector;
  voltage_solution : fvector;
  residual : fvector;
  max_error : float
}.

(** [np.max] of two entries: a NaN wins. *)
Definition fmax (a b : float) : float :=
  if is_nan a then a else if is_nan b then b else if (a <? b)%float then b else a.

(** [CircuitSolver._build_matrix_info]; [np.max] of an empty array
    raises, and the bare [except] then returns the empty record. *)
Definition _build_matrix_info (G : fmatrix) (Zv X : fvector) : MatrixInfo :=
  let residual := map (fun '(a, b) => (a - b)%float) (combine (matvec G X) Zv) in
  match map abs residual with
  | [] => mkInfo [] [] [] [] 0%float
  | r :: rs => mkInfo G Zv X residual (fold_left fmax rs r)
  end.

Inductive Solution : Type :=
| Success (voltages : dict Z float) (components : list ComponentResult)
          (total_power : float) (matrix_solution : MatrixInfo)
          (summary : CircuitSolver.Summary)
| Error (message : string) (suggestion : string).

(** First loop of [_package_solution]: the voltages dictionary
    (ground included). *)
Definition voltages_of (self : CircuitSolver.t) (node_voltages : fvector)
  : result (dict Z float) :=
  for_each (fun '(i, voltage) voltages =>
              match dict_get Nat.eqb (index_to_node self) i with
              | Some node => Ok (dict_set Z.eqb voltages node voltage)
              | None => Raise (KeyError (str_of_Z (Z.of_nat i)))
              end)
           (enumerate node_voltages) [(ref_node self, 0%float)].

(** Second loop of [_package_solution]: the component results and
    the running total of their powers. *)
Definition results_of (self : CircuitSolver.t) (voltages : dict Z float)
           (vs_currents : fvector) : result (list ComponentResult * float) :=
  for_each (fun comp '(component_results, total_power) =>
              result <- _calculate_component_result self comp voltages vs_currents ;;
              Ok (component_results ++ [result], (total_power + r_power result)%float))
           (CircuitModel.values (model self)) ([], 0%float).

(** [CircuitSolver._package_solution] *)
Definition _package_solution (self : CircuitSolver.t) (node_voltages vs_currents : fvector)
           (G : fmatrix) (Zv : fvector) : result Solution :=
  voltages <- voltages_of self node_voltages ;;
  '(component_results, total_power) <- results_of self voltages vs_currents ;;
  Ok (Success voltages component_results total_power
        (_build_matrix_info G Zv (node_voltages ++ vs_currents))
        (mkSummary (length (CircuitModel.components (model self)))
                   (length voltages)
                   (abs total_power <? 1e-9)%float)).

(** [CircuitSolver._create_error_response] *)
Definition _create_error_response (message : string) : Solution :=
  Error message "Check circuit connectivity and component values".

(** [CircuitSolver.solve] *)
Definition solve (self : CircuitSolver.t) : Solution :=
  let body :=
    '(G, Zv) <- _build_mna_system self ;;
    X <- LinalgF.solve G Zv ;;
    let node_voltages := firstn (num_nodes self) X in
    let vs_currents := skipn (num_nodes self) X in
    _package_solution self node_voltages vs_currents G Zv in
  match body with
  | Ok solution => solution
  | Raise (LinAlgError e) =>
      _create_error_response
        ("Singular matrix: Circuit may be unsolvable. " ++ e)
  | Raise e => _create_error_response ("Solver error: " ++ str_exn e)
  end.

End FloatSolver.

(** ** String helpers used by the equation generator and its parser *)

Local Open Scope string_scope.

(** [needle in hay] *)
Fixpoint contains (needle hay : string) : bool :=
  if String.prefix needle hay then true
  else match hay with
       | EmptyString => false
       | String _ hay' => contains needle hay'
       end.

Fixpoint drop (n : nat) (s : string) : string :=
  match n, s with
  | O, _ => s
  | S n', String _ s' => drop n' s'
  | S _, EmptyString => EmptyString
  end.

(** [s.replace(old, new)] for a non-empty [old]; [fuel] bounds the scan. *)
Fixpoint replace_fuel (fuel : nat) (old new s : string) : string :=
  match fuel with
  | O => s
  | S fuel' =>
      match s with
      | EmptyString => EmptyString
      | String c s' =>
          if String.prefix old s
          then new ++ replace_fuel fuel' old new (drop (String.length old) s)
          else String c (replace_fuel fuel' old new s')
      end
  end.

Definition replace (old new s : string) : string :=
  replace_fuel (S (String.length s)) old new s.

(** [sep.join(l)] *)
Fixpoint join (sep : string) (l : list string) : string :=
  match l with
  | [] => ""
  | [x] => x
  | x :: l' => x ++ sep ++ join sep l'
  end.

(** [f"{q:.1f}"]: one decimal, ties to even (on the exact value). *)
Definition round_half_even (q : Qc) : Z :=
  let n := Qnum (this q) in
  let d := Zpos (Qden (this q)) in
  let fl := (n / d)%Z in
  let r := (2 * (n - fl * d))%Z in
  if (r <? d)%Z then fl
  else if (d <? r)%Z then (fl + 1)%Z
  else if Z.even fl then fl else (fl + 1)%Z.

Definition format_1f (q : Qc) : string :=
  let t := round_half_even (Qcabs.Qcabs q * qc 10 1) in
  (if Qc_ltb q 0 then "-" else "") ++
  str_of_Z (t / 10) ++ "." ++ str_of_Z (t mod 10).

(** [f"{-q:.1f}"]: the negation of the float zero prints as [-0.0]. *)
Definition format_1f_neg (q : Qc) : string :=
  if Qc_eqb q 0 then "-0.0" else format_1f (- q).

(** ** services/equation_builder.py *)

Module EquationBuilder.

Record t : Type := mk {
  model : CircuitModel.t;
  supernodes : list (list Z);
  voltage_sources : list Component;
  supernode_nodes : list Z
}.

(** [EquationBuilder._get_all_supernode_nodes] *)
Definition _get_all_supernode_nodes (supernodes : list (list Z)) : list Z :=
  fold_left set_update supernodes [].

(** [EquationBuilder.__init__] *)
Definition __init__ (circuit_model : CircuitModel.t) (supernodes : list (list Z)) : t :=
  mk circuit_model supernodes
     (filter (fun c => isinstance c VoltageSource) (CircuitModel.values circuit_model))
     (_get_all_supernode_nodes supernodes).

(** [EquationBuilder._build_resistor_term] *)
Definition _build_resistor_term (self : t) (resistor : Component) (node neighbor : Z)
  : string :=
  if (neighbor =? CircuitModel.reference_node (model self))%Z then
    "\frac{V_{" ++ str_of_Z node ++ "}}{" ++ format_1f (value resistor) ++ "}"
  else
    "\frac{V_{" ++ str_of_Z node ++ "} - V_{" ++ str_of_Z neighbor ++ "}}{"
      ++ format_1f (value resistor) ++ "}".

(** [EquationBuilder._build_current_source_term] *)
Definition _build_current_source_term (current_source : Component) (node : Z) : string :=
  if (node1 current_source =? node)%Z then format_1f (value current_source)
  else if (node2 current_source =? node)%Z then
    "(-" ++ format_1f (value current_source) ++ ")"
  else "".

Definition nonempty (s : string) : bool :=
  match s with EmptyString => false | _ => true end.

Definition finish_equation (equation_terms : list string) : string :=
  replace "+ -" "- " (join " + " equation_terms) ++ " = 0".

(** [EquationBuilder._build_regular_node_equations] *)
Definition _build_regular_node_equations (self : t) : list string :=
  flat_map (fun node =>
    if set_mem node (supernode_nodes self) then []
    else
      let equation_terms :=
        flat_map (fun '(comp, neighbor) =>
          match cls comp with
          | VoltageSource => []
          | Resistor =>
              let term := _build_resistor_term self comp node neighbor in
              if nonempty term then [term] else []
          | CurrentSource =>
              let term := _build_current_source_term comp node in
              if nonempty term then [term] else []
          end) (CircuitModel.get_components_connected_to_node (model self) node) in
      match equation_terms with
      | [] => []
      | _ => ["Node " ++ str_of_Z node ++ ": $" ++ finish_equation equation_terms ++ "$"]
      end) (CircuitModel.get_non_reference_nodes (model self)).

(** [EquationBuilder._build_ungrounded_supernode_equations] *)
Definition _build_ungrounded_supernode_equations (self : t) : list string :=
  flat_map (fun supernode =>
    if set_mem (CircuitModel.reference_node (model self)) supernode then []
    else
      let equation_terms :=
        flat_map (fun node =>
          flat_map (fun '(comp, neighbor) =>
            match cls comp with
            | VoltageSource => []
            | Resistor =>
                if negb (set_mem neighbor supernode) then
                  let term := _build_resistor_term self comp node neighbor in
                  if nonempty term then [term] else []
                else []
            | CurrentSource =>
                if negb (set_mem neighbor supernode) then
                  if (node1 comp =? node)%Z then [format_1f (value comp)]
                  else if (node2 comp =? node)%Z then
                    ["(-" ++ format_1f (value comp) ++ ")"]
                  else []
                else []
            end) (CircuitModel.get_components_connected_to_node (model self) node))
          supernode in
      match equation_terms with
      | [] => []
      | _ =>
          let supernode_str :=
            "{" ++ join "," (map str_of_Z (sorted supernode)) ++ "}" in
          ["Supernode " ++ supernode_str ++ ": $" ++ finish_equation equation_terms ++ "$"]
      end) (supernodes self).

(** [EquationBuilder._build_voltage_source_constraints] *)
Definition _build_voltage_source_constraints (self : t) : list string :=
  map (fun vs =>
    let n1 := node1 vs in
    let n2 := node2 vs in
    let val := value vs in
    if (n1 =? CircuitModel.reference_node (model self))%Z then
      "V_{" ++ str_of_Z n2 ++ "} = " ++ format_1f_neg val
    else if (n2 =? CircuitModel.reference_node (model self))%Z then
      "V_{" ++ str_of_Z n1 ++ "} = " ++ format_1f val
    else
      "V_{" ++ str_of_Z n1 ++ "} - V_{" ++ str_of_Z n2 ++ "} = " ++ format_1f val)
    (voltage_sources self).

(** [EquationBuilder.build_equations] *)
Definition build_equations (self : t) : list string :=
  _build_regular_node_equations self
    ++ _build_ungrounded_supernode_equations self
    ++ _build_voltage_source_constraints self.

End EquationBuilder.

(** ** The regular expressions of services/matrix_builder.py

    Each pattern used by the parser is deterministic, so it is written
    as a direct scanner. *)

Definition is_digit (c : ascii) : bool :=
  match digit_of c with Some _ => true | None => false end.

Definition is_sign (c : ascii) : bool :=
  Ascii.eqb c "+"%char || Ascii.eqb c "-"%char.

(** Longest prefix whose characters satisfy [p], and the rest. *)
Fixpoint span (p : ascii -> bool) (s : string) : string * string :=
  match s with
  | EmptyString => (EmptyString, EmptyString)
  | String c s' =>
      if p c then let (a, b) := span p s' in (String c a, b)
      else (EmptyString, s)
  end.

(** First match of [prefix (\d+) suffix]; returns the digits. *)
Fixpoint search_number_between (pre post : string) (s : string) : option string :=
  let here :=
    if String.prefix pre s then
      let (ds, rest) := span is_digit (drop (String.length pre) s) in
      match ds with
      | EmptyString => None
      | _ => if String.prefix post rest then Some ds else None
      end
    else None in
  match here with
  | Some ds => Some ds
  | None =>
      match s with
      | EmptyString => None
      | String _ s' => search_number_between pre post s'
      end
  end.

(** [re.findall(r'V_\{(\d+)\}', s)] *)
Fixpoint findall_V (fuel : nat) (s : string) : list string :=
  match fuel with
  | O => []
  | S fuel' =>
      match s with
      | EmptyString => []
      | String _ s' =>
          if String.prefix "V_{" s then
            let (ds, rest) := span is_digit (drop 3 s) in
            match ds, rest with
            | String _ _, String "}"%char rest' => ds :: findall_V fuel' rest'
            | _, _ => findall_V fuel' s'
            end
          else findall_V fuel' s'
      end
  end.

(** Text up to the last [$] of [s], when there is one. *)
Fixpoint upto_last_dollar (s : string) : option string :=
  match s with
  | EmptyString => None
  | String c s' =>
      match upto_last_dollar s' with
      | Some r => Some (String c r)
      | None => if Ascii.eqb c "$"%char then Some EmptyString else None
      end
  end.

Definition is_not_newline (c : ascii) : bool := negb (Ascii.eqb c (ascii_of_nat 10)).

(** [re.search] for a dollar sign, the longest run of characters other
    than a newline, and a dollar sign; returns the run. *)
Fixpoint search_dollars (s : string) : option string :=
  match s with
  | EmptyString => None
  | String c s' =>
      if Ascii.eqb c "$"%char then
        match upto_last_dollar (fst (span is_not_newline s')) with
        | Some g => Some g
        | None => search_dollars s'
        end
      else search_dollars s'
  end.

(** [re.findall(r'([+-]?[^+-]+)', s)]: [sg] is a sign that may still
    start a term, [body] the term being read. *)
Fixpoint findall_terms (sg body : string) (s : string) : list string :=
  match s with
  | EmptyString =>
      match body with
      | EmptyString => []
      | _ => [sg ++ body]
      end
  | String c s' =>
      if is_sign c then
        match body with
        | EmptyString => findall_terms (String c EmptyString) EmptyString s'
        | _ => (sg ++ body) :: findall_terms (String c EmptyString) EmptyString s'
        end
      else findall_terms sg (body ++ String c EmptyString) s'
  end.

(** [re.match(r'^-?\d+\.?\d*$', s)] *)
Definition match_number (s : string) : bool :=
  let s1 := match s with String "-"%char r => r | _ => s end in
  let (ds, r1) := span is_digit s1 in
  match ds with
  | EmptyString => false
  | _ =>
      let r2 := match r1 with String "."%char r => r | _ => r1 end in
      match snd (span is_digit r2) with
      | EmptyString => true
      | String c EmptyString => Ascii.eqb c (ascii_of_nat 10)
      | _ => false
      end
  end.

Definition is_not_rbrace (c : ascii) : bool := negb (Ascii.eqb c "}"%char).

(** [re.search(r'\\frac\{([^}]+)\}\{([^}]+)\}', s)], groups 1 and 2 *)
Fixpoint search_frac (s : string) : option (string * string) :=
  let here :=
    if String.prefix "\frac{" s then
      let (num, r1) := span is_not_rbrace (drop 6 s) in
      match num with
      | EmptyString => None
      | _ =>
          if String.prefix "}{" r1 then
            let (den, r2) := span is_not_rbrace (drop 2 r1) in
            match den, r2 with
            | String _ _, String _ _ => Some (num, den)
            | _, _ => None
            end
          else None
      end
    else None in
  match here with
  | Some g => Some g
  | None =>
      match s with
      | EmptyString => None
      | String _ s' => search_frac s'
      end
  end.

(** [re.search(r'Supernode \{([^}]+)\}:', s)], group 1 *)
Fixpoint search_supernode (s : string) : option string :=
  let here :=
    if String.prefix "Supernode {" s then
      let (body, r) := span is_not_rbrace (drop 11 s) in
      match body with
      | EmptyString => None
      | _ => if String.prefix "}:" r then Some body else None
      end
    else None in
  match here with
  | Some g => Some g
  | None =>
      match s with
      | EmptyString => None
      | String _ s' => search_supernode s'
      end
  end.

(** [s.split(',')] *)
Fixpoint split_comma (s : string) : list string :=
  match s with
  | EmptyString => [EmptyString]
  | String c s' =>
      if Ascii.eqb c ","%char then EmptyString :: split_comma s'
      else match split_comma s' with
           | x :: l => String c x :: l
           | [] => [String c EmptyString]
           end
  end.

(** ** services/matrix_builder.py *)

Module MatrixBuilder.

Record t : Type := mk {
  model : CircuitModel.t;
  supernodes : list (list Z);
  non_ref_nodes : list Z;
  voltage_sources : list Component;
  num_nodes : nat;
  num_vs : nat;
  matrix_size : nat;
  node_to_index : dict Z nat;
  vs_to_index : dict nat nat;
  index_to_node : dict nat Z
}.

(** [MatrixBuilder.__init__] *)
Definition __init__ (circuit_model : CircuitModel.t) (supernodes : list (list Z)) : t :=
  let non_ref_nodes := CircuitModel.get_non_reference_nodes circuit_model in
  let voltage_sources :=
    filter (fun c => isinstance c VoltageSource) (CircuitModel.values circuit_model) in
  let node_to_index :=
    dict_of_list Z.eqb (map (fun '(i, node) => (node, i)) (enumerate non_ref_nodes)) in
  mk circuit_model supernodes non_ref_nodes voltage_sources
     (length non_ref_nodes) (length voltage_sources)
     (length non_ref_nodes + length voltage_sources)
     node_to_index
     (dict_of_list Nat.eqb (map (fun '(i, vs) => (uid vs, i)) (enumerate voltage_sources)))
     (dict_of_list Nat.eqb (map (fun '(node, i) => (i, node)) node_to_index)).

(** [int(s)] on a matched digit string *)
Definition int_str (s : string) : result Z := py_int (PStr s).

(** [if node in self.node_to_index: G[row, col] += x] *)
Definition add_if_indexed (self : t) (G : matrix) (row : nat) (node : Z) (x : Qc)
  : result matrix :=
  match dict_get Z.eqb (node_to_index self) node with
  | Some col => madd G row col x
  | None => Ok G
  end.

(** [MatrixBuilder._parse_resistor_term] *)
Definition _parse_resistor_term (self : t) (term : string) (G : matrix) (row : nat)
           (sign : Qc) : result matrix :=
  match search_frac term with
  | None => Ok G
  | Some (numerator, den) =>
      denominator <- py_float (PStr den) ;;
      conductance <- py_div 1 denominator ;;
      if contains " - " numerator then
        match findall_V (S (String.length numerator)) numerator with
        | [a; b] =>
            node1 <- int_str a ;;
            node2 <- int_str b ;;
            G <- add_if_indexed self G row node1 (sign * conductance) ;;
            match dict_get Z.eqb (node_to_index self) node2 with
            | Some col2 => msub G row col2 (sign * conductance)
            | None => Ok G
            end
        | _ => Ok G
        end
      else
        match findall_V (S (String.length numerator)) numerator with
        | a :: _ =>
            node <- int_str a ;;
            add_if_indexed self G row node (sign * conductance)
        | [] => Ok G
        end
  end.

(** [MatrixBuilder._parse_equation_terms] *)
Definition _parse_equation_terms (self : t) (eq_text : string) (GZ : matrix * vector)
           (row : nat) : result (matrix * vector) :=
  let eq_text := strip (replace "= 0" "" eq_text) in
  let terms := findall_terms "" "" eq_text in
  for_each (fun term '(G, Zv) =>
    let term := strip term in
    match term with
    | EmptyString => Ok (G, Zv)
    | _ =>
        let '(sign, term) :=
          if String.prefix "-" term then (Qcopp 1, strip (drop 1 term))
          else if String.prefix "+" term then (1%Qc, strip (drop 1 term))
          else (1%Qc, term) in
        if String.prefix "\frac" term then
          G <- _parse_resistor_term self term G row sign ;;
          Ok (G, Zv)
        else if match_number term then
          x <- py_float (PStr term) ;;
          Zv <- vsub Zv row (sign * x) ;;
          Ok (G, Zv)
        else Ok (G, Zv)
    end) terms GZ.

(** [MatrixBuilder._process_node_equation] *)
Definition _process_node_equation (self : t) (equation : string)
           (GZ : matrix * vector) (eq_index : nat) : result (matrix * vector) :=
  match search_number_between "Node " ":" equation with
  | None => Ok GZ
  | Some ds =>
      node <- int_str ds ;;
      match dict_get Z.eqb (node_to_index self) node with
      | None => Ok GZ
      | Some row =>
          match search_dollars equation with
          | None => Ok GZ
          | Some eq_text => _parse_equation_terms self eq_text GZ row
          end
      end
  end.

(** [MatrixBuilder._process_supernode_equation] *)
Definition _process_supernode_equation (self : t) (equation : string)
           (GZ : matrix * vector) (eq_index : nat) : result (matrix * vector) :=
  match search_supernode equation with
  | None => Ok GZ
  | Some body =>
      nodes <- for_each (fun n acc => z <- int_str n ;; Ok (acc ++ [z])%list)
                        (split_comma body) [] ;;
      match nodes with
      | [] => Ok GZ
      | first_node :: _ =>
          match dict_get Z.eqb (node_to_index self) first_node with
          | None => Ok GZ
          | Some row =>
              match search_dollars equation with
              | None => Ok GZ
              | Some eq_text => _parse_equation_terms self eq_text GZ row
              end
          end
      end
  end.

(** [MatrixBuilder._process_constraint_equation].  Its first statement
    calls [self._count_kcl_equations()] without the [equations]
    argument the method requires, which raises before anything else
    runs; the rest of the body is never reached. *)
Definition _process_constraint_equation (self : t) (equation : string)
           (GZ : matrix * vector) (eq_index : nat) : result (matrix * vector) :=
  Raise (TypeError
    "MatrixBuilder._count_kcl_equations() missing 1 required positional argument: 'equations'").

(** [MatrixBuilder._count_kcl_equations] *)
Definition _count_kcl_equations (equations : list string) : nat :=
  length (filter (fun eq => contains "Node" eq || contains "Supernode" eq) equations).

(** [MatrixBuilder.build_matrices_from_equations] *)
Definition build_matrices_from_equations (self : t) (equations : list string)
  : result (matrix * vector) :=
  let G := np_zeros2 (matrix_size self) in
  let Zv := np_zeros (matrix_size self) in
  for_each (fun '(i, equation) GZ =>
    if contains "Node" equation then _process_node_equation self equation GZ i
    else if contains "Supernode" equation then
      _process_supernode_equation self equation GZ i
    else if contains "V_" equation then
      _process_constraint_equation self equation GZ i
    else Ok GZ) (enumerate equations) (G, Zv).

End MatrixBuilder.

(** ** app.py *)

Module App.

Definition COMPONENT_MAP : dict string ComponentClass :=
  [ ("RESISTOR", Resistor);
    ("VOLTAGE SOURCE", VoltageSource);
    ("CURRENT SOURCE", CurrentSource);
    ("VS", VoltageSource);
    ("CS", CurrentSource);
    ("R", Resistor);
    ("VOLTAGE", VoltageSource);
    ("CURRENT", CurrentSource) ].

Definition required_keys : list string := ["type"; "value"; "nodeA"; "nodeB"].

Definition dquote : string := String (ascii_of_nat 34) EmptyString.

(** [str(v)] as echoed in the error messages; a float can only be
    echoed by a message that is never raised for it, and a container
    is abbreviated. *)
Definition py_str (v : pyval) : string :=
  match v with
  | PNone => "None"
  | PBool true => "True"
  | PBool false => "False"
  | PInt z => str_of_Z z
  | PFloat q => format_1f q
  | PStr s => s
  | PList _ => "[...]"
  | PDict _ => "{...}"
  end.

(** [comp_data[k]] *)
Definition item (d : dict string pyval) (k : string) : result pyval :=
  match dict_get String.eqb d k with
  | Some v => Ok v
  | None => Raise (KeyError ("'" ++ k ++ "'"))
  end.

(** [comp_data["type"].upper().strip()]; only a string has [upper]. *)
Definition upper_strip (v : pyval) : result string :=
  match v with
  | PStr s => Ok (strip (upper s))
  | _ => Raise (AttributeError "object has no attribute 'upper'")
  end.

(** The body of the loop of [_build_circuit_model]; the uuid of the
    new component is modelled by its position [i]. *)
Definition ingest_record (i : nat) (comp_data : pyval) (model : CircuitModel.t)
  : result CircuitModel.t :=
  match comp_data with
  | PDict d =>
      if negb (forallb (fun k => dict_mem String.eqb d k) required_keys) then
        Raise (KeyError (dquote ++ "Component at index " ++ str_of_Z (Z.of_nat i)
                          ++ " is missing required keys: ['type', 'value', 'nodeA', 'nodeB']"
                          ++ dquote))
      else
        ty <- item d "type" ;;
        comp_type <- upper_strip ty ;;
        match dict_get String.eqb COMPONENT_MAP comp_type with
        | None =>
            Raise (ValueError ("Unknown component type: " ++ py_str ty ++ ". Supported: "
              ++ "['RESISTOR', 'VOLTAGE SOURCE', 'CURRENT SOURCE', 'VS', 'CS', 'R', "
              ++ "'VOLTAGE', 'CURRENT']"))
        | Some comp_class =>
            raw <- item d "value" ;;
            value <- match py_float raw with
                     | Ok v => Ok v
                     | Raise (ValueError _) | Raise (TypeError _) =>
                         Raise (ValueError ("Invalid 'value' for component "
                                            ++ str_of_Z (Z.of_nat i) ++ ": " ++ py_str raw
                                            ++ ". Must be a number."))
                     | Raise e => Raise e
                     end ;;
            a <- item d "nodeA" ;;
            nodeA <- py_int a ;;
            b <- item d "nodeB" ;;
            nodeB <- py_int b ;;
            component <- CircuitComponents.__init__ i comp_class
                           (PFloat value) (PInt nodeA) (PInt nodeB) ;;
            CircuitModel.add_component model component
        end
  | _ => Raise (ValueError ("Component at index " ++ str_of_Z (Z.of_nat i)
                             ++ " is not a valid object."))
  end.

(** [_build_circuit_model] *)
Definition _build_circuit_model (components_data : pyval) : result CircuitModel.t :=
  match components_data with
  | PList l =>
      model <- for_each (fun '(i, comp_data) model => ingest_record i comp_data model)
                        (enumerate l) CircuitModel.__init__ ;;
      CircuitModel.set_reference_node model (PInt 0)
  | _ => Raise (ValueError "'components' must be a list.")
  end.

(** The structural part of [build_circuit_analysis]: the analyzer's
    summary and the generated equations.  The remaining entries are
    fixed explanatory text. *)
Record Analysis : Type := mkAnalysis {
  summary : NodalAnalysis.Summary;
  equations : list string
}.

(** [build_circuit_analysis] *)
Definition build_circuit_analysis (model : CircuitModel.t) : Analysis :=
  let nodal_analysis := NodalAnalysis.__init__ model in
  let analysis_summary := NodalAnalysis.get_analysis_summary nodal_analysis in
  let supernode_list := NodalAnalysis.supernodes nodal_analysis in
  let equation_builder := EquationBuilder.__init__ model supernode_list in
  mkAnalysis analysis_summary (EquationBuilder.build_equations equation_builder).

(** The JSON reply of [/api/solve-circuit] with its status code. *)
Inductive Response : Type :=
| Solved (analysis : Analysis) (solution : CircuitSolver.Solution)
         (model : CircuitModel.t)
| Failed (status : nat) (error : string) (suggestion : option string).

(** [solve_circuit]; [data] is the JSON object of the request, [None]
    when the request carries none. *)
Definition solve_circuit (data : option (dict string pyval)) : Response :=
  match data with
  | None | Some [] => Failed 400 "Invalid input. 'components' key is missing." None
  | Some d =>
      match dict_get String.eqb d "components" with
      | None => Failed 400 "Invalid input. 'components' key is missing." None
      | Some components_data =>
          match _build_circuit_model components_data with
          | Ok model =>
              let analysis_data := build_circuit_analysis model in
              let solver := CircuitSolver.__init__ model in
              match CircuitSolver.solve solver with
              | CircuitSolver.Error message suggestion =>
                  Failed 400 message (Some suggestion)
              | solution => Solved analysis_data solution model
              end
          | Raise (KeyError m) | Raise (ValueError m) | Raise (TypeError m) =>
              Failed 400 ("Invalid input: " ++ m) None
          | Raise e =>
              Failed 500 ("An unexpected server error occurred: " ++ str_exn e) None
          end
      end
  end.

End App.

Local Close Scope string_scope.

(** ** Invariants of a circuit *)

Fixpoint ascending (l : list Z) : bool :=
  match l with
  | x :: ((y :: _) as l') => (x <? y)%Z && ascending l'
  | _ => true
  end.

Fixpoint distinct (l : list nat) : bool :=
  match l with
  | [] => true
  | x :: l' => negb (existsb (Nat.eqb x) l') && distinct l'
  end.

(** What the construction of a circuit maintains: the node set is a
    set, every component is stored under its own id, ids are distinct
    and every terminal is in the node set. *)
Definition well_formed (m : CircuitModel.t) : bool :=
  ascending (CircuitModel.nodes m)
  && forallb (fun '(k, c) =>
                (uid c =? k)%nat
                && set_mem (node1 c) (CircuitModel.nodes m)
                && set_mem (node2 c) (CircuitModel.nodes m))
             (CircuitModel.components m)
  && distinct (dict_keys (CircuitModel.components m)).

Definition is_resistor (c : Component) : bool := isinstance c Resistor.
Definition is_vs (c : Component) : bool := isinstance c VoltageSource.
Definition is_cs (c : Component) : bool := isinstance c CurrentSource.

(** Every resistor value is non-zero. *)
Definition resistors_nonzero (m : CircuitModel.t) : bool :=
  forallb (fun c => negb (is_resistor c) || negb (Qc_eqb (value c) 0))
          (CircuitModel.values m).

(** No voltage source joins a node to itself. *)
Definition vs_distinct_terminals (m : CircuitModel.t) : bool :=
  forallb (fun c => negb (is_vs c) || negb (node1 c =? node2 c)%Z)
          (CircuitModel.values m).

(** A valid circuit in the sense of the data model: a well-formed
    circuit whose reference node is in the node set, whose components
    all join two distinct nodes and whose resistor values are
    positive. *)
Definition valid (m : CircuitModel.t) : bool :=
  well_formed m
  && set_mem (CircuitModel.reference_node m) (CircuitModel.nodes m)
  && forallb (fun c => negb (node1 c =? node2 c)%Z
                       && (negb (is_resistor c) || Qc_ltb 0 (value c)))
             (CircuitModel.values m).

(** ** The stamp table of the specification *)

Fixpoint sumQ (l : list Qc) : Qc :=
  match l with
  | [] => 0
  | x :: l' => x + sumQ l'
  end.

(** Position of the first occurrence. *)
Fixpoint find_index (n : Z) (l : list Z) : option nat :=
  match l with
  | [] => None
  | x :: l' => if (n =? x)%Z then Some O else option_map S (find_index n l')
  end.

Definition tab {A} (n : nat) (f : nat -> A) : list A := map f (seq 0 n).
Definition mtab (n : nat) (f : nat -> nat -> Qc) : matrix := tab n (fun p => tab n (f p)).

Module Spec.

(** Non-reference nodes, ascending; [N] and [M]. *)
Definition unknown_nodes (m : CircuitModel.t) : list Z :=
  CircuitModel.get_non_reference_nodes m.
Definition N (m : CircuitModel.t) : nat := length (unknown_nodes m).
Definition sources (m : CircuitModel.t) : list Component :=
  filter is_vs (CircuitModel.values m).
Definition M (m : CircuitModel.t) : nat := length (sources m).

(** Index of a terminal; the reference node has none. *)
Definition idx (m : CircuitModel.t) (n : Z) : option nat :=
  if (n =? CircuitModel.reference_node m)%Z then None
  else find_index n (unknown_nodes m).

(** The unit entry at [(i, j)], read at [(p, q)]. *)
Definition at2 (i j p q : nat) : Qc :=
  if (p =? i)%nat && (q =? j)%nat then 1 else 0.
Definition at1 (i p : nat) : Qc := if (p =? i)%nat then 1 else 0.

(** Resistor rows of the table. *)
Definition resistor_G (m : CircuitModel.t) (r : Component) (p q : nat) : Qc :=
  let g := 1 / value r in
  match idx m (node1 r), idx m (node2 r) with
  | Some i, Some j =>
      g * at2 i i p q + g * at2 j j p q - g * at2 i j p q - g * at2 j i p q
  | Some i, None => g * at2 i i p q
  | None, Some j => g * at2 j j p q
  | None, None => 0
  end.

(** Current-source rows of the table. *)
Definition current_Z (m : CircuitModel.t) (cs : Component) (p : nat) : Qc :=
  (match idx m (node2 cs) with Some j => value cs * at1 j p | None => 0 end)
  - (match idx m (node1 cs) with Some i => value cs * at1 i p | None => 0 end).

(** Voltage-source rows of the table, for the source of rank [k]. *)
Definition source_G (m : CircuitModel.t) (k : nat) (vs : Component) (p q : nat) : Qc :=
  (match idx m (node1 vs) with
   | Some i => at2 (N m + k) i p q + at2 i (N m + k) p q
   | None => 0
   end)
  - (match idx m (node2 vs) with
     | Some j => at2 (N m + k) j p q + at2 j (N m + k) p q
     | None => 0
     end).

Definition source_Z (m : CircuitModel.t) (k : nat) (vs : Component) (p : nat) : Qc :=
  value vs * at1 (N m + k) p.

(** The zero matrix plus every stamp. *)
Definition G_entry (m : CircuitModel.t) (p q : nat) : Qc :=
  sumQ (map (fun r => resistor_G m r p q) (filter is_resistor (CircuitModel.values m)))
  + sumQ (map (fun '(k, vs) => source_G m k vs p q) (enumerate (sources m))).

Definition Z_entry (m : CircuitModel.t) (p : nat) : Qc :=
  sumQ (map (fun cs => current_Z m cs p) (filter is_cs (CircuitModel.values m)))
  + sumQ (map (fun '(k, vs) => source_Z m k vs p) (enumerate (sources m))).

Definition G (m : CircuitModel.t) : matrix := mtab (N m + M m) (G_entry m).
Definition Zvec (m : CircuitModel.t) : vector := tab (N m + M m) (Z_entry m).

End Spec.

(** ** Singular matrices *)

Definition singular (G : matrix) : Prop :=
  exists v : vector,
    length v = length G /\ v <> np_zeros (length G) /\ matvec G v = np_zeros (length G).

Unset Implicit Arguments.

(** * Vocabulary of the statements *)

(** ** Reading arrays *)

Definition mat_at (G : matrix) (p q : nat) : Qc := nth q (nth p G []) 0.
Definition vec_at (v : vector) (p : nat) : Qc := nth p v 0.

(** A square matrix of side [n]. *)
Definition dims (n : nat) (G : matrix) : Prop :=
  length G = n /\ Forall (fun row => length row = n) G.

(** Entry-wise sum of two vectors. *)
Fixpoint vplus (a b : vector) : vector :=
  match a, b with
  | x :: a', y :: b' => (x + y) :: vplus a' b'
  | _, _ => []
  end.

(** Rows of an augmented system: their width, and what it is for a
    vector to satisfy one. *)
Definition row_ok (n : nat) (r : Linalg.arow) : Prop := length (fst r) = n.
Definition sat (x : vector) (r : Linalg.arow) : Prop := dot (fst r) x = snd r.

(** The items of [{i: node for node, i in node_to_index.items()}]. *)
Definition swap {A B} (p : A * B) : B * A := (snd p, fst p).

(** ** Requests and circuits *)

(** One component record of a request body, and the body itself. *)
Definition record (ty : string) (v a b : pyval) : pyval :=
  PDict [("type"%string, PStr ty); ("value"%string, v);
         ("nodeA"%string, a); ("nodeB"%string, b)].

Definition request (records : list pyval) : option (dict string pyval) :=
  Some [("components"%string, PList records)].

(** The circuit a component list builds with reference node 0. *)
Definition model_of (cs : list Component) : CircuitModel.t :=
  match CircuitModel.of_components cs (PInt 0) with
  | Ok m => m
  | Raise _ => CircuitModel.__init__
  end.

(** The summary the topology analyzer gives for a circuit. *)
Definition analyze (m : CircuitModel.t) : NodalAnalysis.Summary :=
  NodalAnalysis.get_analysis_summary (NodalAnalysis.__init__ m).

(** The secondary assembly path: the equations are rendered, then parsed
    back into a matrix and a vector. *)
Definition rebuild_from_equations (m : CircuitModel.t) : result (matrix * vector) :=
  let supernodes := NodalAnalysis.supernodes (NodalAnalysis.__init__ m) in
  MatrixBuilder.build_matrices_from_equations
    (MatrixBuilder.__init__ m supernodes)
    (EquationBuilder.build_equations (EquationBuilder.__init__ m supernodes)).

(** ** Example circuits *)

(** A 10 V source across a 1 kOhm resistor. *)
Definition scenario1 : list Component :=
  [ mkComponent 0 VoltageSource (qc 10 1) 1 0;
    mkComponent 1 Resistor (qc 1000 1) 1 0 ].

(** A 12 V source on a 1 kOhm / 2 kOhm divider, and the same components
    in another order. *)
Definition scenario2 : list Component :=
  [ mkComponent 0 VoltageSource (qc 12 1) 1 0;
    mkComponent 1 Resistor (qc 1000 1) 1 2;
    mkComponent 2 Resistor (qc 2000 1) 2 0 ].

Definition scenario2_reordered : list Component :=
  [ mkComponent 2 Resistor (qc 2000 1) 2 0;
    mkComponent 0 VoltageSource (qc 12 1) 1 0;
    mkComponent 1 Resistor (qc 1000 1) 1 2 ].

(** The eight-component example: VS1(250,1,0), VS2(4,4,2), R1(50,1,3),
    R2(10,3,2), R3(10,4,3), R4(40,4,0), CS1(0.2,2,0), CS2(5,0,2). *)
Definition scenario5 : list Component :=
  [ mkComponent 0 VoltageSource (qc 250 1) 1 0;
    mkComponent 1 VoltageSource (qc 4 1) 4 2;
    mkComponent 2 Resistor (qc 50 1) 1 3;
    mkComponent 3 Resistor (qc 10 1) 3 2;
    mkComponent 4 Resistor (qc 10 1) 4 3;
    mkComponent 5 Resistor (qc 40 1) 4 0;
    mkComponent 6 CurrentSource (qc 2 10) 2 0;
    mkComponent 7 CurrentSource (qc 5 1) 0 2 ].

(** Two conflicting sources in parallel, VS(5,1,0) and VS(6,1,0), as a
    request and as the solver built from it. *)
Definition parallel_sources : list pyval :=
  [ record "VS" (PInt 5) (PInt 1) (PInt 0);
    record "VS" (PInt 6) (PInt 1) (PInt 0) ].

Definition parallel_sources_solver : CircuitSolver.t :=
  match App._build_circuit_model (PList parallel_sources) with
  | Ok m => CircuitSolver.__init__ m
  | Raise _ => CircuitSolver.__init__ CircuitModel.__init__
  end.

(** Components whose two terminals are the same node. *)
Definition self_loop_resistor : Component := mkComponent 0 Resistor (qc 1 1) 2 2.

Definition self_loop_source : list Component :=
  [ mkComponent 0 VoltageSource (qc 5 1) 1 1 ].

(** A 10 V source across a resistor of value 0. *)
Definition zero_resistor : list Component :=
  [ mkComponent 0 VoltageSource (qc 10 1) 1 0;
    mkComponent 1 Resistor (qc 0 1) 1 0 ].

(** ** Error texts of [CircuitSolver.solve] *)

Definition singular_message : string :=
  "Singular matrix: Circuit may be unsolvable. Singular matrix".
Definition division_message : string := "Solver error: float division by zero".
Definition suggestion_text : string :=
  "Check circuit connectivity and component values".

(** ** Supernodes *)

(** Two nodes lie in one class. *)
Definition together (u v : Z) (cs : list (list Z)) : Prop :=
  exists c, In c cs /\ In u c /\ In v c.

(** The three filters of the analyzer: a class of two nodes or more, a
    node other than the reference node, a class without the reference
    node. *)
Definition big (c : list Z) : bool := (1 <? length c)%nat.
Definition away_from (ref : Z) (n : Z) : bool := negb (n =? ref)%Z.
Definition floating (ref : Z) (sn : list Z) : bool := negb (set_mem ref sn).

(** ** Voltages, currents and powers read in a solution vector *)

Definition Xopt (X : vector) (a : option nat) : Qc :=
  match a with Some i => nth i X 0 | None => 0 end.

(** Incidence of a component on the row of index [i]. *)
Definition inc (m : CircuitModel.t) (c : Component) (i : nat) : Qc :=
  (match Spec.idx m (node1 c) with Some a => Spec.at1 a i | None => 0 end)
  - (match Spec.idx m (node2 c) with Some b => Spec.at1 b i | None => 0 end).

(** Voltage of a node, 0 at the reference node. *)
Definition node_voltage (m : CircuitModel.t) (X : vector) (n : Z) : Qc :=
  Xopt X (Spec.idx m n).

(** Voltage across a component, node1 minus node2. *)
Definition vdrop (m : CircuitModel.t) (X : vector) (c : Component) : Qc :=
  node_voltage m X (node1 c) - node_voltage m X (node2 c).

(** Row [p] of [G @ X], for the system of the stamp table. *)
Definition row_form (m : CircuitModel.t) (X : vector) (p : nat) : Qc :=
  sumQ (map (fun r => 1 / value r * inc m r p * vdrop m X r)
            (filter is_resistor (CircuitModel.values m)))
  + sumQ (map (fun '(k, vs) =>
                 inc m vs p * nth (Spec.N m + k) X 0
                 + Spec.at1 (Spec.N m + k) p * vdrop m X vs)
              (enumerate (Spec.sources m))).

(** Rank of the first component with id [u]. *)
Fixpoint pos_of (u : nat) (l : list Component) : nat :=
  match l with
  | [] => 0
  | c :: l' => if (uid c =? u)%nat then 0 else S (pos_of u l')
  end.

(** Branch current of a voltage source in the solution vector. *)
Definition branch_current (m : CircuitModel.t) (X : vector) (c : Component) : Qc :=
  nth (Spec.N m + pos_of (uid c) (Spec.sources m)) X 0.

(** Current through a component: Ohm's law, the solved branch current,
    or the value of the current source. *)
Definition current_of (m : CircuitModel.t) (X : vector) (c : Component) : Qc :=
  match cls c with
  | Resistor => vdrop m X c / value c
  | VoltageSource => branch_current m X c
  | CurrentSource => value c
  end.

Definition power_of (m : CircuitModel.t) (X : vector) (c : Component) : Qc :=
  vdrop m X c * current_of m X c.

(** The result entry of a component, in closed form. *)
Definition result_of (m : CircuitModel.t) (X : vector) (c : Component)
  : CircuitSolver.ComponentResult :=
  CircuitSolver.mkResult (uid c) (cls c) (value c) (node1 c) (node2 c)
    (vdrop m X c) (current_of m X c) (power_of m X c)
    (CircuitSolver._get_power_description (power_of m X c)).

(** How a reported power is formed from the reported voltage and current. *)
Definition power_rule (r : CircuitSolver.ComponentResult) : Prop :=
  CircuitSolver.r_power r = CircuitSolver.r_voltage r * CircuitSolver.r_current r
  /\ match CircuitSolver.r_type r with
     | Resistor => CircuitSolver.r_current r = CircuitSolver.r_voltage r / CircuitSolver.r_value r
     | CurrentSource => CircuitSolver.r_current r = CircuitSolver.r_value r
     | VoltageSource => True
     end.

Definition max_abs (l : list Qc) : Qc :=
  fold_right (fun x acc => CircuitSolver.Qc_max (Qcabs.Qcabs x) acc) 0 l.

(** The tolerance of the specification, 1e-6 (1 + max|V| max|I|). *)
Definition tolerance (voltages : dict Z Qc) (comps : list CircuitSolver.ComponentResult) : Qc :=
  qc 1 1000000
  * (1 + max_abs (map snd voltages) * max_abs (map CircuitSolver.r_current comps)).

(** ** The circuit equations *)

(** Branch current of the source with id [u], read in [X]. *)
Definition current_by_uid (m : CircuitModel.t) (X : vector) (u : nat) : Qc :=
  nth (Spec.N m + pos_of u (Spec.sources m)) X 0.

(** KCL at the node of index [p] and the source constraints, with the
    branch currents given per source id. *)
Definition kcl (m : CircuitModel.t) (X : vector) (J : nat -> Qc) (p : nat) : Prop :=
  sumQ (map (fun r => 1 / value r * inc m r p * vdrop m X r)
            (filter is_resistor (CircuitModel.values m)))
  + sumQ (map (fun vs => inc m vs p * J (uid vs)) (Spec.sources m))
  = - sumQ (map (fun c => value c * inc m c p) (filter is_cs (CircuitModel.values m))).

Definition equations (m : CircuitModel.t) (X : vector) (J : nat -> Qc) : Prop :=
  (forall p, (p < Spec.N m)%nat -> kcl m X J p)
  /\ (forall vs, In vs (Spec.sources m) -> vdrop m X vs = value vs).

(** Two circuits over the same nodes and reference node whose component
    lists are permutations of each other. *)
Definition reordering (m m' : CircuitModel.t) : Prop :=
  CircuitModel.nodes m' = CircuitModel.nodes m
  /\ CircuitModel.reference_node m' = CircuitModel.reference_node m
  /\ Permutation (CircuitModel.values m) (CircuitModel.values m').

(** The solution vector re-read in the order of another circuit. *)
Definition reindex (m : CircuitModel.t) (X : vector) (J : nat -> Qc) : vector :=
  firstn (Spec.N m) X ++ map (fun vs => J (uid vs)) (Spec.sources m).

(** The dictionary item of a component, and the nodes a component list
    touches. *)
Definition entry (c : Component) : nat * Component := (uid c, c).

Definition touches (cs : list Component) (n : Z) : Prop :=
  exists c, In c cs /\ (n = node1 c \/ n = node2 c).

(** ** Vocabulary of the further properties *)

(** Current a component result sends out of node [n]: its current
    leaves [node1] and enters [node2]. *)
Definition flow_out (n : Z) (r : CircuitSolver.ComponentResult) : Qc :=
  (if (CircuitSolver.r_node1 r =? n)%Z then CircuitSolver.r_current r else 0)
  - (if (CircuitSolver.r_node2 r =? n)%Z then CircuitSolver.r_current r else 0).

(** +1 where the component leaves node [n], -1 where it enters it. *)
Definition incidence (n : Z) (c : Component) : Qc :=
  (if (node1 c =? n)%Z then 1 else 0) - (if (node2 c =? n)%Z then 1 else 0).

(** The current of a component under node voltages [V] and source
    currents [J], flowing from node1 to node2. *)
Definition law_current (V : Z -> Qc) (J : nat -> Qc) (c : Component) : Qc :=
  match cls c with
  | Resistor => (V (node1 c) - V (node2 c)) / value c
  | VoltageSource => J (uid c)
  | CurrentSource => value c
  end.

(** Kirchhoff's laws for a circuit: ground at 0, the currents leaving
    every other node sum to zero, every source holds its voltage. *)
Definition satisfies_laws (m : CircuitModel.t) (V : Z -> Qc) (J : nat -> Qc) : Prop :=
  V (CircuitModel.reference_node m) = 0
  /\ (forall n, In n (CircuitModel.nodes m) -> n <> CircuitModel.reference_node m ->
        sumQ (map (fun c => incidence n c * law_current V J c) (CircuitModel.values m)) = 0)
  /\ (forall c, In c (CircuitModel.values m) -> cls c = VoltageSource ->
        V (node1 c) - V (node2 c) = value c).

(** The solution vector made of given node voltages and source currents. *)
Definition vector_of (m : CircuitModel.t) (V : Z -> Qc) (J : nat -> Qc) : vector :=
  map V (Spec.unknown_nodes m) ++ map (fun vs => J (uid vs)) (Spec.sources m).

(** Two nodes joined by a chain of edges, in either direction. *)
Inductive linked (es : list (Z * Z)) : Z -> Z -> Prop :=
| linked_refl a : linked es a a
| linked_edge a b : In (a, b) es -> linked es a b
| linked_sym a b : linked es a b -> linked es b a
| linked_trans a b c : linked es a b -> linked es b c -> linked es a c.

(** The edges [_find_supernodes] puts in its graph: one per voltage source. *)
Definition source_edges (m : CircuitModel.t) : list (Z * Z) :=
  map (fun vs => (node1 vs, node2 vs))
      (filter (fun c => isinstance c VoltageSource) (CircuitModel.values m)).

(** Every class holds linked nodes only. *)
Definition classes_linked (es : list (Z * Z)) (cs : list (list Z)) : Prop :=
  forall c, In c cs -> forall x y, In x c -> In y c -> linked es x y.

(** The characters of a rendered constraint equation: digits, sign,
    point, blank, and the five characters of [V_{}=]. *)
Definition constraint_char (c : ascii) : bool :=
  is_digit c
  || existsb (Ascii.eqb c) ["-"; "."; " "; "V"; "_"; "{"; "}"; "="]%char.

(** Every character of [s] passes the test [p]. *)
Fixpoint all_chars (p : ascii -> bool) (s : string) : bool :=
  match s with
  | EmptyString => true
  | String c s' => p c && all_chars p s'
  end.

(** Record [r] carries the four fields of component [c]. *)
Definition parses (r : pyval) (c : Component) : Prop :=
  exists d s v a b,
    r = PDict d
    /\ dict_get String.eqb d "type"%string = Some (PStr s)
    /\ dict_get String.eqb App.COMPONENT_MAP (strip (upper s)) = Some (cls c)
    /\ dict_get String.eqb d "value"%string = Some v /\ py_float v = Ok (value c)
    /\ dict_get String.eqb d "nodeA"%string = Some a /\ py_int a = Ok (node1 c)
    /\ dict_get String.eqb d "nodeB"%string = Some b /\ py_int b = Ok (node2 c).

(** [graph[u][v][key]], when all three levels are present. *)
Definition edge_at (g : CircuitModel.MultiGraph) (u v : Z) (key : nat) : option Component :=
  match dict_get Z.eqb g u with
  | Some nb =>
      match dict_get Z.eqb nb v with
      | Some kd => dict_get Nat.eqb kd key
      | None => None
      end
  | None => None
  end.

(** Component [c] joins [u] and [v], in either direction. *)
Definition joins (c : Component) (u v : Z) : Prop :=
  (node1 c = u /\ node2 c = v) \/ (node2 c = u /\ node1 c = v).

(** Keys are distinct at the three levels of the adjacency structure. *)
Definition keyed (g : CircuitModel.MultiGraph) : Prop :=
  NoDup (dict_keys g)
  /\ forall u nb, In (u, nb) g ->
       NoDup (dict_keys nb)
       /\ forall v kd, In (v, kd) nb -> NoDup (dict_keys kd).

(** The adjacency structure holds exactly the components of [cs], each
    under its id and between its two terminals. *)
Definition mirrors (g : CircuitModel.MultiGraph) (cs : list Component) : Prop :=
  forall u v k c, edge_at g u v k = Some c <-> In c cs /\ uid c = k /\ joins c u v.

(** The circuit with node [r] taken as reference. *)
Definition rereferenced (m : CircuitModel.t) (r : Z) : CircuitModel.t :=
  match CircuitModel.set_reference_node m (PInt r) with
  | Ok m' => m'
  | Raise _ => m
  end.

(** The divider by hand: 12 V at node 1, 8 V at node 2. *)
Definition divider_voltage (n : Z) : Qc :=
  if (n =? 1)%Z then qc 12 1 else if (n =? 2)%Z then qc 8 1 else 0.

(** The divider by hand: 4 mA drawn from the source. *)
Definition divider_current (u : nat) : Qc := - qc 1 250.

(** The circuit built from the two parallel sources. *)
Definition parallel_sources_model : CircuitModel.t :=
  match App._build_circuit_model (PList parallel_sources) with
  | Ok m => m
  | Raise _ => CircuitModel.__init__
  end.

(** ** Circuits on which rounding shows *)

(** A triangle of resistors fed by a current source, with no path to
    the reference node 0. *)
Definition floating_triangle : list Component :=
  [ mkComponent 0 Resistor (qc 3 1) 1 2;
    mkComponent 1 Resistor (qc 7 1) 2 3;
    mkComponent 2 Resistor (qc 11 1) 1 3;
    mkComponent 3 CurrentSource (qc 1 1) 1 2 ].

(** 1 A into node 1, a resistor of 2^-53 Ohm from node 1 to node 2, and
    0.5 Ohm and 1 Ohm from node 2 to ground; and the same components with
    the last two exchanged. *)
Definition stiff_divider : list Component :=
  [ mkComponent 0 CurrentSource (qc 1 1) 0 1;
    mkComponent 1 Resistor (qc 1 9007199254740992) 1 2;
    mkComponent 2 Resistor (qc 1 2) 2 0;
    mkComponent 3 Resistor (qc 1 1) 2 0 ].

Definition stiff_divider_reordered : list Component :=
  [ mkComponent 0 CurrentSource (qc 1 1) 0 1;
    mkComponent 1 Resistor (qc 1 9007199254740992) 1 2;
    mkComponent 3 Resistor (qc 1 1) 2 0;
    mkComponent 2 Resistor (qc 1 2) 2 0 ].

(** The eight-component example with every source multiplied by 1024. *)
Definition scenario5_scaled : list Component :=
  [ mkComponent 0 VoltageSource (qc 256000 1) 1 0;
    mkComponent 1 VoltageSource (qc 4096 1) 4 2;
    mkComponent 2 Resistor (qc 50 1) 1 3;
    mkComponent 3 Resistor (qc 10 1) 3 2;
    mkComponent 4 Resistor (qc 10 1) 4 3;
    mkComponent 5 Resistor (qc 40 1) 4 0;
    mkComponent 6 CurrentSource (qc 2048 10) 2 0;
    mkComponent 7 CurrentSource (qc 5120 1) 0 2 ].

(** A 1 A source feeding a 5 Ohm resistor in parallel with a resistor
    of -5 Ohm: the two conductances cancel. *)
Definition cancelling_resistors : list Component :=
  [ mkComponent 0 CurrentSource (qc 1 1) 0 1;
    mkComponent 1 Resistor (qc 5 1) 1 0;
    mkComponent 2 Resistor (qc (-5) 1) 1 0 ].

(** A 10 V source across a resistor of -5 Ohm. *)
Definition negative_load : list Component :=
  [ mkComponent 0 VoltageSource (qc 10 1) 1 0;
    mkComponent 1 Resistor (qc (-5) 1) 1 0 ].

(** ** Reading a binary64 result exactly *)

(** Every component value is a binary64 number: the conversion does
    not round it. *)
Definition binary64_values (cs : list Component) : bool :=
  forallb (fun c => Qc_eqb (Binary64.to_Qc (Binary64.of_Qc (value c))) (value c)) cs.

(** The rational values of the entries of a matrix, of a voltage table
    and of a component result. *)
Definition exact_matrix (G : Binary64.fmatrix) : matrix := map (map Binary64.to_Qc) G.

Definition exact_voltages (vd : dict Z PrimFloat.float) : dict Z Qc :=
  map (fun '(n, v) => (n, Binary64.to_Qc v)) vd.

Definition exact_description (d : FloatSolver.PowerDescription)
  : CircuitSolver.PowerDescription :=
  match d with
  | FloatSolver.Supplying w => CircuitSolver.Supplying (Binary64.to_Qc w)
  | FloatSolver.Absorbing w => CircuitSolver.Absorbing (Binary64.to_Qc w)
  | FloatSolver.ZeroW => CircuitSolver.ZeroW
  end.

Definition exact_result (r : FloatSolver.ComponentResult) : CircuitSolver.ComponentResult :=
  CircuitSolver.mkResult
    (FloatSolver.r_id r) (FloatSolver.r_type r) (Binary64.to_Qc (FloatSolver.r_value r))
    (FloatSolver.r_node1 r) (FloatSolver.r_node2 r)
    (Binary64.to_Qc (FloatSolver.r_voltage r)) (Binary64.to_Qc (FloatSolver.r_current r))
    (Binary64.to_Qc (FloatSolver.r_power r)) (exact_description (FloatSolver.r_description r)).

(** Every number of a reply is finite (neither an infinity nor NaN). *)
Definition finite_reply (vd : dict Z PrimFloat.float) (comps : list FloatSolver.ComponentResult)
           (tp : PrimFloat.float) : bool :=
  forallb PrimFloat.is_finite
    (tp :: map snd vd
        ++ flat_map (fun r => [FloatSolver.r_value r; FloatSolver.r_voltage r;
                               FloatSolver.r_current r; FloatSolver.r_power r]) comps).

(** The power reported for the component with id [u]. *)
Definition reported_power (comps : list FloatSolver.ComponentResult) (u : nat) : Qc :=
  match find (fun r => (FloatSolver.r_id r =? u)%nat) comps with
  | Some r => Binary64.to_Qc (FloatSolver.r_power r)
  | None => 0
  end.

(** * Properties *)

(** ** Circuit model: self-loops *)

(** C7 (as stated) fails: adding a resistor whose two terminals are the
    same node succeeds and changes both the component dictionary and the
    node set. *)
Lemma add_component_self_loop_accepted :
  node1 self_loop_resistor = node2 self_loop_resistor /\
  exists m',
    CircuitModel.add_component CircuitModel.__init__ self_loop_resistor = Ok m' /\
    CircuitModel.components m' <> CircuitModel.components CircuitModel.__init__ /\
    CircuitModel.nodes m' <> CircuitModel.nodes CircuitModel.__init__.
Proof.
  split; [reflexivity|].
  eexists; split; [reflexivity|].
  split; discriminate.
Qed.

Lemma dict_get_set_same (V : Type) (d : dict nat V) k v :
  dict_get Nat.eqb (dict_set Nat.eqb d k v) k = Some v.
Proof.
  induction d as [|[k' v'] d IH]; simpl.
  - now rewrite Nat.eqb_refl.
  - destruct (Nat.eqb k k') eqn:E; simpl; rewrite E; auto.
Qed.

Lemma set_mem_iff x s : set_mem x s = true <-> In x s.
Proof.
  unfold set_mem. rewrite existsb_exists. split.
  - intros (y & Hy & E). apply Z.eqb_eq in E. now subst.
  - intros H. exists x. split; auto. apply Z.eqb_refl.
Qed.

Lemma set_add_In x y s : In y (set_add x s) <-> y = x \/ In y s.
Proof.
  induction s as [|z s IH]; simpl.
  - intuition.
  - destruct (x <? z)%Z eqn:E1; [simpl; intuition|].
    destruct (x =? z)%Z eqn:E2.
    + apply Z.eqb_eq in E2. subst. simpl. intuition.
    + simpl. rewrite IH. intuition.
Qed.

Lemma set_update_In xs : forall s y, In y (set_update s xs) <-> In y xs \/ In y s.
Proof.
  unfold set_update.
  induction xs as [|x xs IH]; simpl; intros s y.
  - intuition.
  - rewrite IH, set_add_In. intuition.
Qed.

(** C7 (amended): [add_component] has no self-loop check.  For every
    component, whatever its terminals, the call succeeds, stores the
    component under its id and puts both terminals in the node set; the
    reference node is unchanged. *)
Theorem add_component_always_inserts (m : CircuitModel.t) (c : Component) :
  exists m',
    CircuitModel.add_component m c = Ok m' /\
    dict_get Nat.eqb (CircuitModel.components m') (uid c) = Some c /\
    set_mem (node1 c) (CircuitModel.nodes m') = true /\
    set_mem (node2 c) (CircuitModel.nodes m') = true /\
    CircuitModel.reference_node m' = CircuitModel.reference_node m.
Proof.
  eexists. split; [reflexivity|].
  cbn [CircuitModel.components CircuitModel.nodes CircuitModel.reference_node].
  split; [apply dict_get_set_same|].
  rewrite !set_mem_iff, !set_update_In. simpl. intuition.
Qed.

(** ** The entry point: node tokens and resistor values *)

Ltac by_cases_on_ascii c :=
  destruct c as [[] [] [] [] [] [] [] []]; vm_compute;
  let H := fresh in intros H; try discriminate H; auto.

Lemma upper_ascii_G c : upper_ascii c = "G"%char -> c = "G"%char \/ c = "g"%char.
Proof. by_cases_on_ascii c. Qed.
Lemma upper_ascii_N c : upper_ascii c = "N"%char -> c = "N"%char \/ c = "n"%char.
Proof. by_cases_on_ascii c. Qed.
Lemma upper_ascii_D c : upper_ascii c = "D"%char -> c = "D"%char \/ c = "d"%char.
Proof. by_cases_on_ascii c. Qed.

Lemma upper_GND_not_int s : upper s = "GND"%string -> int_of_string s = None.
Proof.
  destruct s as [|c1 [|c2 [|c3 [|c4 s]]]]; simpl; try discriminate.
  intros H. injection H as H1 H2 H3.
  destruct (upper_ascii_G _ H1) as [-> | ->];
    destruct (upper_ascii_N _ H2) as [-> | ->];
    destruct (upper_ascii_D _ H3) as [-> | ->]; reflexivity.
Qed.

(** C9: the entry point converts [nodeA] with [int] before the
    component constructor sees it, so every spelling of [GND] is
    rejected as an invalid integer literal, although
    [Component._parse_node] maps the same token to node 0. *)
Theorem GND_token_rejected_at_entry
  (i : nat) (ty s : string) (v b : pyval) (k : ComponentClass) (q : Qc)
  (model : CircuitModel.t) :
  upper s = "GND"%string ->
  dict_get String.eqb App.COMPONENT_MAP (strip (upper ty)) = Some k ->
  py_float v = Ok q ->
  App.ingest_record i (record ty v (PStr s) b) model
    = Raise (ValueError ("invalid literal for int() with base 10: '" ++ s ++ "'"))
  /\ CircuitComponents._parse_node (PStr s) = Ok 0%Z.
Proof.
  intros Hs Hty Hv. split.
  - unfold App.ingest_record, record. cbn -[App.COMPONENT_MAP strip upper py_float py_int].
    rewrite Hty. cbn -[py_float py_int]. rewrite Hv. cbn -[py_int].
    unfold py_int. now rewrite (upper_GND_not_int _ Hs).
  - unfold CircuitComponents._parse_node, str_upper_is_GND. now rewrite Hs.
Qed.

Lemma GND_token_rejected_at_entry_witness :
  App.ingest_record 0 (record "R" (PInt 100) (PStr "gnd") (PInt 1)) CircuitModel.__init__
    = Raise (ValueError "invalid literal for int() with base 10: 'gnd'")
  /\ CircuitComponents._parse_node (PStr "gnd") = Ok 0%Z.
Proof.
  apply (GND_token_rejected_at_entry 0 "R" "gnd" (PInt 100) (PInt 1)
           Resistor (Z2Qc 100)); vm_compute; reflexivity.
Defined.

(** The same request through [solve_circuit]: a 400 reply. *)
Lemma GND_request_fails :
  App.solve_circuit (request [record "VS" (PInt 10) (PInt 1) (PStr "GND");
                              record "R" (PInt 1000) (PInt 1) (PStr "GND")])
  = App.Failed 400 "Invalid input: invalid literal for int() with base 10: 'GND'" None.
Proof. vm_compute. reflexivity. Qed.

(** C8 (as stated) fails: a resistor record of value -5 is ingested and
    the circuit containing it is solved numerically. *)
Lemma negative_resistor_accepted :
  let records := [record "VS" (PInt 10) (PInt 1) (PInt 0);
                  record "R" (PInt (-5)) (PInt 1) (PInt 0)] in
  is_ok (App._build_circuit_model (PList records)) = true /\
  exists a v c tp mi su m,
    App.solve_circuit (request records)
    = App.Solved a (CircuitSolver.Success v c tp mi su) m.
Proof.
  split; [vm_compute; reflexivity|].
  vm_compute. repeat eexists.
Qed.

(** A resistor record is ingested whatever the sign of its value. *)
Lemma resistor_record_ingested
  (i : nat) (ty : string) (v a b : pyval) (q : Qc) (nA nB : Z) (model : CircuitModel.t) :
  dict_get String.eqb App.COMPONENT_MAP (strip (upper ty)) = Some Resistor ->
  py_float v = Ok q -> py_int a = Ok nA -> py_int b = Ok nB ->
  App.ingest_record i (record ty v a b) model
  = CircuitModel.add_component model (mkComponent i Resistor q nA nB).
Proof.
  intros Hty Hv Ha Hb.
  unfold App.ingest_record, record. cbn -[App.COMPONENT_MAP strip upper py_float py_int].
  rewrite Hty. cbn -[py_float py_int]. rewrite Hv. cbn -[py_int].
  rewrite Ha. cbn -[py_int]. rewrite Hb. reflexivity.
Qed.

(** ** Topology analysis of the eight-component example *)

(** C4 (as stated) fails: the source VS1 between node 1 and the
    reference node makes [{0, 1}] a supernode too, so there are two
    supernodes, one of them grounded, node 1 is not regular and two KCL
    equations are counted. *)
Lemma scenario5_not_as_claimed :
  exists m, CircuitModel.of_components scenario5 (PInt 0) = Ok m /\
    length (NodalAnalysis.s_supernodes (analyze m)) = 2%nat /\
    NodalAnalysis.s_grounded_supernodes (analyze m) <> [] /\
    ~ In 1%Z (NodalAnalysis.s_regular_nodes (analyze m)) /\
    NodalAnalysis.s_num_kcl_equations (analyze m) <> 3%nat.
Proof.
  eexists. split; [vm_compute; reflexivity|].
  vm_compute. repeat split; try discriminate.
  intros [H|[]]; discriminate.
Qed.

(** C4 (amended): for the eight-component example with reference node 0
    the analyzer reports the supernodes [{0,1}] and [{2,4}], of which
    [{0,1}] is grounded and [{2,4}] ungrounded, the single regular node
    3, two KCL equations and two constraint equations. *)
Theorem scenario5_topology :
  exists m, CircuitModel.of_components scenario5 (PInt 0) = Ok m /\
    NodalAnalysis.s_supernodes (analyze m) = [[0; 1]; [2; 4]]%Z /\
    NodalAnalysis.s_grounded_supernodes (analyze m) = [[0; 1]]%Z /\
    NodalAnalysis.s_ungrounded_supernodes (analyze m) = [[2; 4]]%Z /\
    NodalAnalysis.s_regular_nodes (analyze m) = [3]%Z /\
    NodalAnalysis.s_num_kcl_equations (analyze m) = 2%nat /\
    NodalAnalysis.s_num_constraint_equations (analyze m) = 2%nat /\
    NodalAnalysis.s_total_equations (analyze m) = 4%nat.
Proof.
  eexists. split; [vm_compute; reflexivity|].
  vm_compute. repeat split.
Qed.

(** ** The equation-parsing matrix builder *)

(** C10: on the one-source, one-resistor circuit the direct assembly
    succeeds while the equation-parsing path raises [TypeError] at the
    first constraint equation. *)
Theorem rebuild_from_equations_raises :
  exists m, CircuitModel.of_components scenario1 (PInt 0) = Ok m /\
    is_ok (CircuitSolver._build_mna_system (CircuitSolver.__init__ m)) = true /\
    rebuild_from_equations m
    = Raise (TypeError
        "MatrixBuilder._count_kcl_equations() missing 1 required positional argument: 'equations'").
Proof.
  eexists. split; [vm_compute; reflexivity|]. split; vm_compute; reflexivity.
Qed.

(** Without any voltage source the parser runs to the end, but no
    resistor term is ever recognised: the rebuilt matrix is zero where
    the solver's holds the conductance. *)
Lemma rebuild_from_equations_loses_resistors :
  exists m G Zv G' Zv',
    CircuitModel.of_components [mkComponent 0 Resistor (qc 1000 1) 1 0] (PInt 0) = Ok m /\
    CircuitSolver._build_mna_system (CircuitSolver.__init__ m) = Ok (G, Zv) /\
    rebuild_from_equations m = Ok (G', Zv') /\
    map (map this) G = [[1 # 1000]] /\ map (map this) G' = [[0 # 1]].
Proof.
  do 5 eexists. repeat split; vm_compute; reflexivity.
Qed.

(** ** Arrays *)

Lemma Qc_eqb_true a b : Qc_eqb a b = true <-> a = b.
Proof.
  unfold Qc_eqb. destruct (a ?= b) eqn:E; split; intros H; try discriminate; auto.
  - now apply Qceq_alt.
  - apply Qceq_alt in H. congruence.
  - apply Qceq_alt in H. congruence.
Qed.

Lemma Qc_eqb_false a b : Qc_eqb a b = false <-> a <> b.
Proof.
  rewrite <- Qc_eqb_true. destruct (Qc_eqb a b); split; congruence.
Qed.

Lemma Qc_ltb_true a b : Qc_ltb a b = true <-> a < b.
Proof.
  unfold Qc_ltb. rewrite Qclt_alt.
  destruct (a ?= b); split; congruence.
Qed.

Lemma Qc_ltb_false a b : Qc_ltb a b = false <-> b <= a.
Proof.
  split; intros H.
  - apply Qcnot_lt_le. intros L. apply Qc_ltb_true in L. congruence.
  - destruct (Qc_ltb a b) eqn:E; auto. apply Qc_ltb_true in E.
    exfalso. eapply Qclt_not_le; eauto.
Qed.

Lemma length_upd {A} (l : list A) i x : length (upd l i x) = length l.
Proof. revert i. induction l; destruct i; simpl; auto. Qed.

Lemma nth_upd {A} (l : list A) i j x d :
  nth j (upd l i x) d = if (j =? i)%nat && (i <? length l)%nat then x else nth j l d.
Proof.
  revert i j. induction l as [|y l IH]; intros i j; simpl.
  - destruct i, j; simpl; rewrite ?andb_false_r; auto.
  - destruct i, j; simpl; auto.
Qed.

Lemma nth_error_nth {A} {l : list A} {i x} d : nth_error l i = Some x -> nth i l d = x.
Proof. revert i. induction l; destruct i; simpl; intros; try discriminate; auto. congruence. Qed.

Lemma dims_row {n G p} : dims n G -> (p < n)%nat -> length (nth p G []) = n.
Proof.
  intros [HL HF] Hp. rewrite Forall_forall in HF. apply HF. apply nth_In. lia.
Qed.

Lemma Forall_upd {A} (P : A -> Prop) l i x : Forall P l -> P x -> Forall P (upd l i x).
Proof.
  intros H Hx. revert i. induction H; destruct i; simpl; constructor; auto.
Qed.

Lemma vget_ok v i : (i < length v)%nat -> vget v i = Ok (vec_at v i).
Proof.
  intros H. unfold vget, vec_at.
  destruct (nth_error v i) eqn:E.
  - now rewrite (nth_error_nth 0 E).
  - apply nth_error_None in E. lia.
Qed.

Lemma vset_ok v i x : (i < length v)%nat -> vset v i x = Ok (upd v i x).
Proof. intros H. unfold vset. apply Nat.ltb_lt in H. now rewrite H. Qed.

Lemma mget_ok {n G i j} : dims n G -> (i < n)%nat -> (j < n)%nat -> mget G i j = Ok (mat_at G i j).
Proof.
  intros HD Hi Hj. unfold mget, mat_at.
  destruct (nth_error G i) eqn:E.
  - rewrite (nth_error_nth [] E). apply vget_ok.
    pose proof (dims_row HD Hi) as HR. rewrite (nth_error_nth [] E) in HR. lia.
  - apply nth_error_None in E. destruct HD. lia.
Qed.

Lemma mset_ok {n G i j} x :
  dims n G -> (i < n)%nat -> (j < n)%nat ->
  exists G', mset G i j x = Ok G' /\ dims n G' /\
    forall p q, mat_at G' p q = if (p =? i)%nat && (q =? j)%nat then x else mat_at G p q.
Proof.
  intros HD Hi Hj. unfold mset.
  destruct (nth_error G i) eqn:E.
  2:{ apply nth_error_None in E. destruct HD. lia. }
  pose proof (dims_row HD Hi) as HR. rewrite (nth_error_nth [] E) in HR.
  rewrite vset_ok by lia. simpl. eexists. split; [reflexivity|]. split.
  - destruct HD as [HL HF]. split.
    + now rewrite length_upd.
    + apply Forall_upd; auto. now rewrite length_upd.
  - intros p q. unfold mat_at. rewrite nth_upd.
    destruct HD as [HL HF].
    destruct (p =? i)%nat eqn:Epi; simpl.
    + apply Nat.eqb_eq in Epi. subst p.
      assert (HLt : (i <? length G)%nat = true) by (apply Nat.ltb_lt; lia).
      rewrite HLt. rewrite nth_upd.
      assert (HLt2 : (j <? length l)%nat = true) by (apply Nat.ltb_lt; lia).
      rewrite HLt2, andb_true_r. rewrite (nth_error_nth [] E). reflexivity.
    + reflexivity.
Qed.

Lemma madd_ok {n G i j} x :
  dims n G -> (i < n)%nat -> (j < n)%nat ->
  exists G', madd G i j x = Ok G' /\ dims n G' /\
    forall p q, mat_at G' p q = mat_at G p q + x * Spec.at2 i j p q.
Proof.
  intros HD Hi Hj. unfold madd. rewrite (mget_ok HD Hi Hj). simpl.
  destruct (mset_ok (mat_at G i j + x) HD Hi Hj) as (G' & E & HD' & Hat).
  exists G'. repeat split; auto; try apply HD'.
  intros p q. rewrite Hat. unfold Spec.at2.
  destruct (p =? i)%nat eqn:Ep; destruct (q =? j)%nat eqn:Eq; simpl; try ring.
  apply Nat.eqb_eq in Ep, Eq. subst. ring.
Qed.

Lemma msub_ok {n G i j} x :
  dims n G -> (i < n)%nat -> (j < n)%nat ->
  exists G', msub G i j x = Ok G' /\ dims n G' /\
    forall p q, mat_at G' p q = mat_at G p q - x * Spec.at2 i j p q.
Proof.
  intros HD Hi Hj. unfold msub. rewrite (mget_ok HD Hi Hj). simpl.
  destruct (mset_ok (mat_at G i j - x) HD Hi Hj) as (G' & E & HD' & Hat).
  exists G'. repeat split; auto; try apply HD'.
  intros p q. rewrite Hat. unfold Spec.at2.
  destruct (p =? i)%nat eqn:Ep; destruct (q =? j)%nat eqn:Eq; simpl; try ring.
  apply Nat.eqb_eq in Ep, Eq. subst. ring.
Qed.

Lemma vec_at_upd v i x p :
  (i < length v)%nat -> vec_at (upd v i x) p = if (p =? i)%nat then x else vec_at v p.
Proof.
  intros H. unfold vec_at. rewrite nth_upd.
  apply Nat.ltb_lt in H. now rewrite H, andb_true_r.
Qed.

Lemma vadd_ok v i x :
  (i < length v)%nat ->
  exists v', vadd v i x = Ok v' /\ length v' = length v /\
    forall p, vec_at v' p = vec_at v p + x * Spec.at1 i p.
Proof.
  intros H. unfold vadd. rewrite vget_ok by auto. simpl. rewrite vset_ok by auto.
  eexists. split; [reflexivity|]. split; [apply length_upd|].
  intros p. rewrite vec_at_upd by auto. unfold Spec.at1.
  destruct (p =? i)%nat eqn:E; try ring. apply Nat.eqb_eq in E. subst. ring.
Qed.

Lemma vsub_ok v i x :
  (i < length v)%nat ->
  exists v', vsub v i x = Ok v' /\ length v' = length v /\
    forall p, vec_at v' p = vec_at v p - x * Spec.at1 i p.
Proof.
  intros H. unfold vsub. rewrite vget_ok by auto. simpl. rewrite vset_ok by auto.
  eexists. split; [reflexivity|]. split; [apply length_upd|].
  intros p. rewrite vec_at_upd by auto. unfold Spec.at1.
  destruct (p =? i)%nat eqn:E; try ring. apply Nat.eqb_eq in E. subst. ring.
Qed.

(** Tabulated arrays *)

Lemma length_tab {A} n (f : nat -> A) : length (tab n f) = n.
Proof. unfold tab. now rewrite length_map, length_seq. Qed.

Lemma nth_tab {A} n (f : nat -> A) p d : (p < n)%nat -> nth p (tab n f) d = f p.
Proof.
  intros H. unfold tab.
  rewrite (nth_indep _ d (f 0%nat)) by (rewrite length_map, length_seq; lia).
  rewrite (map_nth f (seq 0 n) 0%nat p). now rewrite seq_nth.
Qed.

Lemma tab_ext {A} {n} {l : list A} {f : nat -> A} d :
  length l = n -> (forall p, (p < n)%nat -> nth p l d = f p) -> l = tab n f.
Proof.
  intros HL H. apply (nth_ext _ _ d d).
  - now rewrite length_tab.
  - intros p Hp. rewrite H by lia. rewrite nth_tab by lia. reflexivity.
Qed.

Lemma dims_mtab n f : dims n (mtab n f).
Proof.
  split.
  - apply length_tab.
  - apply Forall_forall. intros row Hin. unfold mtab, tab in Hin.
    apply in_map_iff in Hin. destruct Hin as (p & <- & _). apply length_tab.
Qed.

Lemma mat_at_mtab n f p q : (p < n)%nat -> (q < n)%nat -> mat_at (mtab n f) p q = f p q.
Proof.
  intros Hp Hq. unfold mat_at, mtab. rewrite nth_tab by auto. now rewrite nth_tab.
Qed.

Lemma mtab_ext n G f :
  dims n G -> (forall p q, (p < n)%nat -> (q < n)%nat -> mat_at G p q = f p q) ->
  G = mtab n f.
Proof.
  intros HD H. unfold mtab. apply (tab_ext []).
  - apply HD.
  - intros p Hp. apply (tab_ext 0).
    + now apply dims_row.
    + intros q Hq. now apply H.
Qed.

Lemma np_zeros_tab n : np_zeros n = tab n (fun _ => 0).
Proof.
  apply (tab_ext 0).
  - apply repeat_length.
  - intros p Hp. unfold np_zeros. apply nth_repeat.
Qed.

Lemma np_zeros2_mtab n : np_zeros2 n = mtab n (fun _ _ => 0).
Proof.
  unfold np_zeros2, mtab. apply (tab_ext []).
  - apply repeat_length.
  - intros p Hp. rewrite (nth_indep _ [] (np_zeros n)) by (rewrite repeat_length; lia).
    rewrite nth_repeat. apply np_zeros_tab.
Qed.

(** ** Node indexing *)

Lemma ascending_cons x l : ascending (x :: l) = true ->
  ascending l = true /\ forall y, In y l -> (x < y)%Z.
Proof.
  revert x. induction l as [|z l IH]; intros x H.
  - split; auto. intros y [].
  - simpl in H. apply andb_prop in H. destruct H as [H1 H2].
    apply Z.ltb_lt in H1. split; auto.
    intros y [<-|Hy]; auto.
    destruct (IH z H2) as [_ H3]. specialize (H3 y Hy). lia.
Qed.

Lemma ascending_intro x l :
  ascending l = true -> (forall y, In y l -> (x < y)%Z) -> ascending (x :: l) = true.
Proof.
  intros H1 H2. destruct l as [|z l]; auto.
  simpl. apply andb_true_intro. split; auto.
  apply Z.ltb_lt. apply H2. now left.
Qed.

Lemma ascending_NoDup l : ascending l = true -> NoDup l.
Proof.
  induction l as [|x l IH]; intros H.
  - constructor.
  - destruct (ascending_cons _ _ H) as [H1 H2]. constructor; auto.
    intros Hin. specialize (H2 x Hin). lia.
Qed.

Lemma ascending_filter f l : ascending l = true -> ascending (filter f l) = true.
Proof.
  induction l as [|x l IH]; intros H; auto.
  destruct (ascending_cons _ _ H) as [H1 H2].
  simpl. destruct (f x); auto.
  apply ascending_intro; auto.
  intros y Hy. apply filter_In in Hy. apply H2. tauto.
Qed.

Lemma sorted_ascending l : ascending l = true -> sorted l = l.
Proof.
  induction l as [|x l IH]; intros H; auto.
  destruct (ascending_cons _ _ H) as [H1 H2].
  simpl. fold (sorted l). rewrite IH by auto.
  destruct l as [|y l]; auto. simpl.
  assert (x < y)%Z by (apply H2; now left).
  assert (E : (x <=? y)%Z = true) by (apply Z.leb_le; lia).
  now rewrite E.
Qed.

Lemma set_add_ascending x s : ascending s = true -> ascending (set_add x s) = true.
Proof.
  induction s as [|y s IH]; intros H; auto.
  destruct (ascending_cons _ _ H) as [H1 H2].
  cbn [set_add].
  destruct (x <? y)%Z eqn:E1.
  - apply Z.ltb_lt in E1. apply ascending_intro; auto.
    intros z [<-|Hz]; auto. specialize (H2 z Hz). lia.
  - destruct (x =? y)%Z eqn:E2; auto.
    apply Z.ltb_ge in E1. apply Z.eqb_neq in E2.
    apply ascending_intro; auto.
    intros z Hz. apply set_add_In in Hz. destruct Hz as [->|Hz]; [lia|auto].
Qed.

Lemma set_update_ascending xs : forall s, ascending s = true -> ascending (set_update s xs) = true.
Proof.
  unfold set_update. induction xs as [|x xs IH]; intros s H; simpl; auto.
  apply IH. now apply set_add_ascending.
Qed.

Lemma find_index_Some n l i : find_index n l = Some i -> (i < length l)%nat /\ nth i l 0%Z = n.
Proof.
  revert i. induction l as [|x l IH]; intros i H; simpl in *; try discriminate.
  destruct (n =? x)%Z eqn:E.
  - injection H as <-. apply Z.eqb_eq in E. split; [lia|auto].
  - destruct (find_index n l) as [k|]; try discriminate.
    injection H as <-. destruct (IH k eq_refl). split; [lia|auto].
Qed.

Lemma find_index_In n l : In n l -> exists i, find_index n l = Some i.
Proof.
  induction l as [|x l IH]; intros H; [destruct H|].
  simpl. destruct (n =? x)%Z eqn:E; eauto.
  destruct H as [->|H]; [rewrite Z.eqb_refl in E; discriminate|].
  destruct (IH H) as [i ->]. simpl. eauto.
Qed.

Lemma find_index_None n l : ~ In n l -> find_index n l = None.
Proof.
  induction l as [|x l IH]; intros H; auto.
  simpl. destruct (n =? x)%Z eqn:E.
  - apply Z.eqb_eq in E. subst. exfalso. apply H. now left.
  - rewrite IH; auto. intros Hin. apply H. now right.
Qed.

Lemma find_index_inj a b l i : find_index a l = Some i -> find_index b l = Some i -> a = b.
Proof.
  intros Ha Hb. apply find_index_Some in Ha, Hb. destruct Ha, Hb. congruence.
Qed.

Lemma find_index_nth l i : NoDup l -> (i < length l)%nat -> find_index (nth i l 0%Z) l = Some i.
Proof.
  intros HN. revert i. induction HN as [|x l Hx HN IH]; intros i Hi; simpl in *; [lia|].
  destruct i as [|i].
  - now rewrite Z.eqb_refl.
  - assert (Hl : (i < length l)%nat) by lia.
    destruct (nth i l 0 =? x)%Z eqn:E.
    + apply Z.eqb_eq in E. exfalso. apply Hx. rewrite <- E. now apply nth_In.
    + rewrite IH by auto. reflexivity.
Qed.

(** Dictionaries *)

Section DictFacts.
Context {K V : Type} (eqb : K -> K -> bool).
Hypothesis eqb_spec : forall a b, eqb a b = true <-> a = b.

Lemma dict_get_set (d : dict K V) k v n :
  dict_get eqb (dict_set eqb d k v) n = if eqb n k then Some v else dict_get eqb d n.
Proof.
  induction d as [|[k' v'] d IH]; simpl.
  - reflexivity.
  - destruct (eqb k k') eqn:E; simpl.
    + apply eqb_spec in E. subst k'. destruct (eqb n k); reflexivity.
    + rewrite IH. destruct (eqb n k') eqn:E2; auto.
      destruct (eqb n k) eqn:E3; auto.
      apply eqb_spec in E2, E3. subst. 
      assert (eqb k' k' = true) by now apply eqb_spec. congruence.
Qed.

Lemma dict_set_fresh (d : dict K V) k v :
  ~ In k (dict_keys d) -> dict_set eqb d k v = d ++ [(k, v)].
Proof.
  induction d as [|[k' v'] d IH]; simpl; intros H; auto.
  destruct (eqb k k') eqn:E.
  - apply eqb_spec in E. subst. exfalso. apply H. now left.
  - rewrite IH; auto.
Qed.

Lemma dict_of_list_NoDup (l acc : dict K V) :
  NoDup (dict_keys (acc ++ l)) ->
  fold_left (fun d '(k, v) => dict_set eqb d k v) l acc = acc ++ l.
Proof.
  revert acc. induction l as [|[k v] l IH]; intros acc H; simpl.
  - now rewrite app_nil_r.
  - assert (Hk : ~ In k (dict_keys acc)).
    { unfold dict_keys in *. rewrite map_app in H. simpl in H.
      apply NoDup_remove_2 in H. intros Hin. apply H. apply in_or_app. now left. }
    rewrite dict_set_fresh by auto.
    rewrite IH; rewrite <- app_assoc; simpl; auto.
Qed.

Lemma dict_of_list_id (l : dict K V) : NoDup (dict_keys l) -> dict_of_list eqb l = l.
Proof. intros H. unfold dict_of_list. now rewrite dict_of_list_NoDup. Qed.
End DictFacts.

Lemma Zeqb_spec a b : (a =? b)%Z = true <-> a = b.
Proof. apply Z.eqb_eq. Qed.
Lemma Neqb_spec a b : (a =? b)%nat = true <-> a = b.
Proof. apply Nat.eqb_eq. Qed.

Lemma keys_swap_enumerate (l : list Z) k :
  dict_keys (map (fun '(i, node) => (node, i)) (enumerate_from k l)) = l.
Proof.
  revert k. induction l as [|x l IH]; intros k; simpl; auto. now rewrite IH.
Qed.

Lemma keys_enumerate {A} (l : list A) k : dict_keys (enumerate_from k l) = seq k (length l).
Proof.
  revert k. induction l as [|x l IH]; intros k; simpl; auto. now rewrite IH.
Qed.

Lemma dict_get_swap_enumerate l k n :
  dict_get Z.eqb (map (fun '(i, node) => (node, i)) (enumerate_from k l)) n
  = option_map (Nat.add k) (find_index n l).
Proof.
  revert k. induction l as [|x l IH]; intros k; simpl; auto.
  destruct (n =? x)%Z; simpl.
  - f_equal. lia.
  - rewrite IH. destruct (find_index n l); simpl; auto; f_equal; lia.
Qed.

Lemma dict_get_enumerate {A} (l : list A) k i :
  dict_get Nat.eqb (enumerate_from k l) (k + i)%nat = nth_error l i.
Proof.
  revert k i. induction l as [|x l IH]; intros k i; simpl.
  - now destruct i.
  - destruct i as [|i].
    + rewrite Nat.add_0_r, Nat.eqb_refl. reflexivity.
    + assert (E : (k + S i =? k)%nat = false) by (apply Nat.eqb_neq; lia).
      rewrite E. replace (k + S i)%nat with (S k + i)%nat by lia. apply IH.
Qed.

(** Consequences of well-formedness *)

Lemma wf_ascending m : well_formed m = true -> ascending (CircuitModel.nodes m) = true.
Proof.
  unfold well_formed. intros H. apply andb_prop in H. destruct H as [H _].
  apply andb_prop in H. tauto.
Qed.

Lemma wf_terminals m c :
  well_formed m = true -> In c (CircuitModel.values m) ->
  In (node1 c) (CircuitModel.nodes m) /\ In (node2 c) (CircuitModel.nodes m).
Proof.
  unfold well_formed. intros H Hin. apply andb_prop in H. destruct H as [H _].
  apply andb_prop in H. destruct H as [_ H].
  rewrite forallb_forall in H.
  unfold CircuitModel.values, dict_values in Hin. apply in_map_iff in Hin.
  destruct Hin as ([k c'] & <- & Hin). specialize (H _ Hin). simpl in *.
  apply andb_prop in H. destruct H as [H H2]. apply andb_prop in H. destruct H as [_ H1].
  now rewrite <- !set_mem_iff.
Qed.

Lemma unknown_nodes_eq m :
  well_formed m = true ->
  Spec.unknown_nodes m
  = filter (fun n => negb (n =? CircuitModel.reference_node m)%Z) (CircuitModel.nodes m).
Proof.
  intros H. unfold Spec.unknown_nodes, CircuitModel.get_non_reference_nodes.
  apply sorted_ascending. apply ascending_filter. now apply wf_ascending.
Qed.

Lemma unknown_nodes_NoDup m : well_formed m = true -> NoDup (Spec.unknown_nodes m).
Proof.
  intros H. rewrite unknown_nodes_eq by auto.
  apply ascending_NoDup, ascending_filter. now apply wf_ascending.
Qed.

Lemma solver_non_ref_nodes m :
  CircuitSolver.non_ref_nodes (CircuitSolver.__init__ m) = Spec.unknown_nodes m.
Proof. reflexivity. Qed.

Lemma solver_node_to_index m :
  well_formed m = true ->
  CircuitSolver.node_to_index (CircuitSolver.__init__ m)
  = map (fun '(i, node) => (node, i)) (enumerate (Spec.unknown_nodes m)).
Proof.
  intros H. unfold CircuitSolver.__init__. cbn [CircuitSolver.node_to_index].
  apply (dict_of_list_id Z.eqb Zeqb_spec).
  unfold enumerate. rewrite keys_swap_enumerate. now apply unknown_nodes_NoDup.
Qed.

Lemma idx_Some m n i : Spec.idx m n = Some i -> (i < Spec.N m)%nat.
Proof.
  unfold Spec.idx, Spec.N. destruct (n =? _)%Z; try discriminate.
  intros H. now apply find_index_Some in H.
Qed.

Lemma idx_inj m a b i : Spec.idx m a = Some i -> Spec.idx m b = Some i -> a = b.
Proof.
  unfold Spec.idx. destruct (a =? _)%Z; try discriminate.
  destruct (b =? _)%Z; try discriminate. apply find_index_inj.
Qed.

Lemma idx_ref m n : CircuitSolver.is_ref (CircuitSolver.__init__ m) n = true -> Spec.idx m n = None.
Proof.
  unfold CircuitSolver.is_ref, Spec.idx. cbn [CircuitSolver.ref_node CircuitSolver.__init__].
  now intros ->.
Qed.

Lemma index_of_idx m n :
  well_formed m = true -> In n (CircuitModel.nodes m) ->
  CircuitSolver.is_ref (CircuitSolver.__init__ m) n = false ->
  exists i, CircuitSolver.index_of (CircuitSolver.__init__ m) n = Ok i
            /\ Spec.idx m n = Some i /\ (i < Spec.N m)%nat.
Proof.
  intros Hwf Hin Href.
  unfold CircuitSolver.is_ref in Href. cbn [CircuitSolver.ref_node CircuitSolver.__init__] in Href.
  assert (Hu : In n (Spec.unknown_nodes m)).
  { rewrite unknown_nodes_eq by auto. apply filter_In. split; auto. now rewrite Href. }
  destruct (find_index_In _ _ Hu) as [i Hi].
  exists i. unfold CircuitSolver.index_of. rewrite solver_node_to_index by auto.
  unfold enumerate. rewrite dict_get_swap_enumerate, Hi. simpl.
  unfold Spec.idx. rewrite Href, Hi. repeat split.
  now apply find_index_Some in Hi.
Qed.

(** ** Assembly of the MNA system *)

Ltac at_cases :=
  unfold Spec.at2, Spec.at1;
  repeat match goal with
  | |- context [(?a =? ?b)%nat] =>
      let E := fresh "E" in
      destruct (a =? b)%nat eqn:E;
      [apply Nat.eqb_eq in E | apply Nat.eqb_neq in E]
  end;
  cbn [andb]; try ring; try lia.

Lemma resistor_G_outside m r p q :
  (Spec.N m <= p)%nat \/ (Spec.N m <= q)%nat -> Spec.resistor_G m r p q = 0.
Proof.
  intros H. unfold Spec.resistor_G.
  destruct (Spec.idx m (node1 r)) as [i|] eqn:E1;
    destruct (Spec.idx m (node2 r)) as [j|] eqn:E2;
    try (apply idx_Some in E1); try (apply idx_Some in E2); at_cases.
Qed.

Lemma current_Z_outside m c p : (Spec.N m <= p)%nat -> Spec.current_Z m c p = 0.
Proof.
  intros H. unfold Spec.current_Z.
  destruct (Spec.idx m (node1 c)) as [i|] eqn:E1;
    destruct (Spec.idx m (node2 c)) as [j|] eqn:E2;
    try (apply idx_Some in E1); try (apply idx_Some in E2); at_cases.
Qed.

Lemma source_G_outside m k vs p q :
  (Spec.N m + k < p)%nat \/ (Spec.N m + k < q)%nat -> Spec.source_G m k vs p q = 0.
Proof.
  intros H. unfold Spec.source_G.
  destruct (Spec.idx m (node1 vs)) as [i|] eqn:E1;
    destruct (Spec.idx m (node2 vs)) as [j|] eqn:E2;
    try (apply idx_Some in E1); try (apply idx_Some in E2); at_cases.
Qed.

Lemma source_Z_outside m k vs p : (Spec.N m + k < p)%nat -> Spec.source_Z m k vs p = 0.
Proof. intros H. unfold Spec.source_Z. at_cases. Qed.

Lemma sumQ_zero {A} (f : A -> Qc) l : (forall x, In x l -> f x = 0) -> sumQ (map f l) = 0.
Proof.
  induction l as [|x l IH]; intros H; simpl; auto.
  rewrite H by now left. rewrite IH; [ring|]. intros y Hy. apply H. now right.
Qed.

Section Assembly.
Variable m : CircuitModel.t.
Hypothesis Hwf : well_formed m = true.
Local Notation "'s'" := (CircuitSolver.__init__ m).
Variable n : nat.
Hypothesis Hn : (Spec.N m <= n)%nat.

Lemma py_div_ok a b : b <> 0 -> py_div a b = Ok (a / b).
Proof. intros H. unfold py_div. apply Qc_eqb_false in H. now rewrite H. Qed.

Lemma stamp_resistor_ok r G :
  In r (CircuitModel.values m) -> value r <> 0 -> dims n G ->
  exists G', CircuitSolver.stamp_resistor s r G = Ok G' /\ dims n G' /\
    forall p q, mat_at G' p q = mat_at G p q + Spec.resistor_G m r p q.
Proof.
  intros Hin Hv HD.
  destruct (wf_terminals _ _ Hwf Hin) as [H1 H2].
  unfold CircuitSolver.stamp_resistor. rewrite py_div_ok by auto. cbn [bind].
  unfold Spec.resistor_G.
  destruct (CircuitSolver.is_ref s (node1 r)) eqn:E1;
    destruct (CircuitSolver.is_ref s (node2 r)) eqn:E2; cbn [negb andb].
  - rewrite (idx_ref _ _ E1), (idx_ref _ _ E2).
    exists G. repeat split; try apply HD. intros; ring.
  - rewrite (idx_ref _ _ E1).
    destruct (index_of_idx _ _ Hwf H2 E2) as (j & -> & -> & Hj). cbn [bind].
    destruct (madd_ok (1 / value r) HD (i := j) (j := j)) as (G' & -> & HD' & Hat); try lia.
    exists G'. repeat split; try apply HD'. intros. rewrite Hat. ring.
  - rewrite (idx_ref _ _ E2).
    destruct (index_of_idx _ _ Hwf H1 E1) as (i & -> & -> & Hi). cbn [bind].
    destruct (madd_ok (1 / value r) HD (i := i) (j := i)) as (G' & -> & HD' & Hat); try lia.
    exists G'. repeat split; try apply HD'. intros. rewrite Hat. ring.
  - destruct (index_of_idx _ _ Hwf H1 E1) as (i & -> & -> & Hi).
    destruct (index_of_idx _ _ Hwf H2 E2) as (j & -> & -> & Hj). cbn [bind].
    destruct (madd_ok (1 / value r) HD (i := i) (j := i)) as (G1 & -> & HD1 & Hat1); try lia.
    cbn [bind].
    destruct (madd_ok (1 / value r) HD1 (i := j) (j := j)) as (G2 & -> & HD2 & Hat2); try lia.
    cbn [bind].
    destruct (msub_ok (1 / value r) HD2 (i := i) (j := j)) as (G3 & -> & HD3 & Hat3); try lia.
    cbn [bind].
    destruct (msub_ok (1 / value r) HD3 (i := j) (j := i)) as (G4 & -> & HD4 & Hat4); try lia.
    exists G4. repeat split; try apply HD4. intros.
    rewrite Hat4, Hat3, Hat2, Hat1. ring.
Qed.

Lemma stamp_conductances_ok rs : forall G,
  (forall r, In r rs -> In r (CircuitModel.values m) /\ value r <> 0) -> dims n G ->
  exists G', for_each (CircuitSolver.stamp_resistor s) rs G = Ok G' /\ dims n G' /\
    forall p q, mat_at G' p q
                = mat_at G p q + sumQ (map (fun r => Spec.resistor_G m r p q) rs).
Proof.
  induction rs as [|r rs IH]; intros G Hrs HD.
  - exists G. repeat split; try apply HD. intros; simpl; ring.
  - destruct (Hrs r (or_introl eq_refl)) as [Hin Hv].
    destruct (stamp_resistor_ok r G Hin Hv HD) as (G1 & E1 & HD1 & Hat1).
    destruct (IH G1 (fun r' H => Hrs r' (or_intror H)) HD1) as (G2 & E2 & HD2 & Hat2).
    exists G2. cbn [for_each]. rewrite E1. cbn [bind]. repeat split; auto; try apply HD2.
    intros. rewrite Hat2, Hat1. simpl. ring.
Qed.

Lemma stamp_current_source_ok c Zv :
  In c (CircuitModel.values m) -> length Zv = n ->
  exists Zv', CircuitSolver.stamp_current_source s c Zv = Ok Zv' /\ length Zv' = n /\
    forall p, vec_at Zv' p = vec_at Zv p + Spec.current_Z m c p.
Proof.
  intros Hin HL.
  destruct (wf_terminals _ _ Hwf Hin) as [H1 H2].
  unfold CircuitSolver.stamp_current_source, Spec.current_Z.
  destruct (CircuitSolver.is_ref s (node1 c)) eqn:E1;
    destruct (CircuitSolver.is_ref s (node2 c)) eqn:E2; cbn [negb bind].
  - rewrite (idx_ref _ _ E1), (idx_ref _ _ E2).
    exists Zv. repeat split; auto. intros; ring.
  - rewrite (idx_ref _ _ E1).
    destruct (index_of_idx _ _ Hwf H2 E2) as (j & -> & -> & Hj). cbn [bind].
    destruct (vadd_ok Zv j (value c)) as (Z' & -> & HL' & Hat); try lia.
    exists Z'. repeat split; try lia. intros. rewrite Hat. ring.
  - rewrite (idx_ref _ _ E2).
    destruct (index_of_idx _ _ Hwf H1 E1) as (i & -> & -> & Hi). cbn [bind].
    destruct (vsub_ok Zv i (value c)) as (Z' & -> & HL' & Hat); try lia.
    exists Z'. cbn [bind]. repeat split; try lia. intros. rewrite Hat. ring.
  - destruct (index_of_idx _ _ Hwf H1 E1) as (i & -> & -> & Hi).
    destruct (index_of_idx _ _ Hwf H2 E2) as (j & -> & -> & Hj). cbn [bind].
    destruct (vsub_ok Zv i (value c)) as (Z1 & -> & HL1 & Hat1); try lia. cbn [bind].
    destruct (vadd_ok Z1 j (value c)) as (Z2 & -> & HL2 & Hat2); try lia.
    exists Z2. repeat split; try lia. intros. rewrite Hat2, Hat1. ring.
Qed.

Lemma stamp_current_sources_ok cs : forall Zv,
  (forall c, In c cs -> In c (CircuitModel.values m)) -> length Zv = n ->
  exists Zv', for_each (CircuitSolver.stamp_current_source s) cs Zv = Ok Zv' /\
    length Zv' = n /\
    forall p, vec_at Zv' p = vec_at Zv p + sumQ (map (fun c => Spec.current_Z m c p) cs).
Proof.
  induction cs as [|c cs IH]; intros Zv Hcs HL.
  - exists Zv. repeat split; auto. intros; simpl; ring.
  - destruct (stamp_current_source_ok c Zv (Hcs c (or_introl eq_refl)) HL)
      as (Z1 & E1 & HL1 & Hat1).
    destruct (IH Z1 (fun c' H => Hcs c' (or_intror H)) HL1) as (Z2 & E2 & HL2 & Hat2).
    exists Z2. cbn [for_each]. rewrite E1. cbn [bind]. repeat split; auto.
    intros. rewrite Hat2, Hat1. simpl. ring.
Qed.

Lemma mset_zero_ok G i j x :
  dims n G -> (i < n)%nat -> (j < n)%nat -> mat_at G i j = 0 ->
  exists G', mset G i j x = Ok G' /\ dims n G' /\
    forall p q, mat_at G' p q = mat_at G p q + x * Spec.at2 i j p q.
Proof.
  intros HD Hi Hj H0.
  destruct (mset_ok x HD Hi Hj) as (G' & E & HD' & Hat).
  exists G'. repeat split; auto; try apply HD'.
  intros p q. rewrite Hat. unfold Spec.at2.
  destruct (p =? i)%nat eqn:Ep; destruct (q =? j)%nat eqn:Eq; cbn [andb]; try ring.
  apply Nat.eqb_eq in Ep, Eq. subst. rewrite H0. ring.
Qed.

Lemma stamp_voltage_source_ok k vs (G : matrix) (Zv : vector) :
  In vs (CircuitModel.values m) -> node1 vs <> node2 vs ->
  dims n G -> length Zv = n -> (Spec.N m + k < n)%nat ->
  (forall p q, p = (Spec.N m + k)%nat \/ q = (Spec.N m + k)%nat -> mat_at G p q = 0) ->
  vec_at Zv (Spec.N m + k) = 0 ->
  exists (G' : matrix) (Zv' : vector),
    CircuitSolver.stamp_voltage_source s (k, vs) (G, Zv) = Ok (G', Zv') /\
    dims n G' /\ length Zv' = n /\
    (forall p q, mat_at G' p q = mat_at G p q + Spec.source_G m k vs p q) /\
    (forall p, vec_at Zv' p = vec_at Zv p + Spec.source_Z m k vs p).
Proof.
  intros Hin Hne HD HL Hk HG0 HZ0.
  destruct (wf_terminals _ _ Hwf Hin) as [H1 H2].
  unfold CircuitSolver.stamp_voltage_source.
  change (CircuitSolver.num_nodes s) with (Spec.N m).
  set (row := (Spec.N m + k)%nat) in *.
  assert (HZv : exists Zv' : vector, vset Zv row (value vs) = Ok Zv' /\ length Zv' = n /\
            forall p, vec_at Zv' p = vec_at Zv p + Spec.source_Z m k vs p).
  { rewrite vset_ok by lia. eexists. split; [reflexivity|]. split.
    - now rewrite length_upd.
    - intros p. rewrite vec_at_upd by lia. unfold Spec.source_Z, Spec.at1. fold row.
      destruct (p =? row)%nat eqn:E; try ring.
      apply Nat.eqb_eq in E. subst p. rewrite HZ0. ring. }
  destruct HZv as (Zv' & EZ & HL' & HZat).
  unfold Spec.source_G. fold row.
  destruct (CircuitSolver.is_ref s (node1 vs)) eqn:E1;
    destruct (CircuitSolver.is_ref s (node2 vs)) eqn:E2; cbn [negb bind].
  - rewrite (idx_ref _ _ E1), (idx_ref _ _ E2). rewrite EZ. cbn [bind].
    exists G, Zv'. repeat split; auto; try apply HD. intros; ring.
  - rewrite (idx_ref _ _ E1).
    destruct (index_of_idx _ _ Hwf H2 E2) as (j & -> & -> & Hj). cbn [bind].
    destruct (mset_zero_ok G row j (Qcopp 1) HD) as (G1 & -> & HD1 & Hat1); try lia.
    { apply HG0. now left. }
    cbn [bind]. rewrite EZ. cbn [bind].
    destruct (mset_zero_ok G1 j row (Qcopp 1) HD1) as (G2 & -> & HD2 & Hat2); try lia.
    { rewrite Hat1, HG0 by now right. at_cases. }
    cbn [bind]. exists G2, Zv'. repeat split; auto; try apply HD2.
    intros. rewrite Hat2, Hat1. ring.
  - rewrite (idx_ref _ _ E2).
    destruct (index_of_idx _ _ Hwf H1 E1) as (i & -> & -> & Hi). cbn [bind].
    destruct (mset_zero_ok G row i 1 HD) as (G1 & -> & HD1 & Hat1); try lia.
    { apply HG0. now left. }
    cbn [bind]. rewrite EZ. cbn [bind].
    destruct (mset_zero_ok G1 i row 1 HD1) as (G2 & -> & HD2 & Hat2); try lia.
    { rewrite Hat1, HG0 by now right. at_cases. }
    cbn [bind]. exists G2, Zv'. repeat split; auto; try apply HD2.
    intros. rewrite Hat2, Hat1. ring.
  - destruct (index_of_idx _ _ Hwf H1 E1) as (i & -> & Ei & Hi).
    destruct (index_of_idx _ _ Hwf H2 E2) as (j & -> & Ej & Hj).
    rewrite Ei, Ej.
    assert (Hij : i <> j).
    { intros <-. apply Hne. eapply idx_inj; eauto. }
    cbn [bind].
    destruct (mset_zero_ok G row i 1 HD) as (G1 & -> & HD1 & Hat1); try lia.
    { apply HG0. now left. }
    cbn [bind].
    destruct (mset_zero_ok G1 row j (Qcopp 1) HD1) as (G2 & -> & HD2 & Hat2); try lia.
    { rewrite Hat1, HG0 by now left. at_cases. }
    cbn [bind]. rewrite EZ. cbn [bind].
    destruct (mset_zero_ok G2 i row 1 HD2) as (G3 & -> & HD3 & Hat3); try lia.
    { rewrite Hat2, Hat1, HG0 by now right. at_cases. }
    cbn [bind].
    destruct (mset_zero_ok G3 j row (Qcopp 1) HD3) as (G4 & -> & HD4 & Hat4); try lia.
    { rewrite Hat3, Hat2, Hat1, HG0 by now right. at_cases. }
    cbn [bind]. exists G4, Zv'. repeat split; auto; try apply HD4.
    intros. rewrite Hat4, Hat3, Hat2, Hat1. ring.
Qed.

Lemma stamp_voltage_sources_ok vss : forall k (G : matrix) (Zv : vector),
  (forall vs, In vs vss -> In vs (CircuitModel.values m) /\ node1 vs <> node2 vs) ->
  dims n G -> length Zv = n -> (Spec.N m + k + length vss <= n)%nat ->
  (forall p q, (Spec.N m + k <= p)%nat \/ (Spec.N m + k <= q)%nat -> mat_at G p q = 0) ->
  (forall p, (Spec.N m + k <= p)%nat -> vec_at Zv p = 0) ->
  exists (G' : matrix) (Zv' : vector),
    for_each (CircuitSolver.stamp_voltage_source s) (enumerate_from k vss) (G, Zv)
      = Ok (G', Zv') /\
    dims n G' /\ length Zv' = n /\
    (forall p q, mat_at G' p q
       = mat_at G p q
         + sumQ (map (fun '(k', vs) => Spec.source_G m k' vs p q) (enumerate_from k vss))) /\
    (forall p, vec_at Zv' p
       = vec_at Zv p
         + sumQ (map (fun '(k', vs) => Spec.source_Z m k' vs p) (enumerate_from k vss))).
Proof.
  induction vss as [|vs vss IH]; intros k G Zv Hvs HD HL Hk HG0 HZ0.
  - exists G, Zv. repeat split; auto; try apply HD; intros; simpl; ring.
  - destruct (Hvs vs (or_introl eq_refl)) as [Hin Hne]. simpl in Hk.
    destruct (stamp_voltage_source_ok k vs G Zv Hin Hne HD HL) as
      (G1 & Z1 & E1 & HD1 & HL1 & Hat1 & HZ1); try lia.
    { intros p q [-> | ->]; apply HG0; lia. }
    { apply HZ0. lia. }
    destruct (IH (S k) G1 Z1 (fun v H => Hvs v (or_intror H)) HD1 HL1)
      as (G2 & Z2 & E2 & HD2 & HL2 & Hat2 & HZ2); try lia.
    { intros p q H. rewrite Hat1, HG0 by lia. rewrite source_G_outside by lia. ring. }
    { intros p H. rewrite HZ1, HZ0 by lia. rewrite source_Z_outside by lia. ring. }
    exists G2, Z2. cbn [enumerate_from for_each]. rewrite E1. cbn [bind].
    repeat split; auto; try apply HD2.
    + intros. rewrite Hat2, Hat1. simpl. ring.
    + intros. rewrite HZ2, HZ1. simpl. ring.
Qed.

End Assembly.

Lemma mat_at_zeros n p q : mat_at (np_zeros2 n) p q = 0.
Proof.
  unfold mat_at, np_zeros2.
  destruct (Nat.lt_ge_cases p n) as [H|H].
  - rewrite (nth_indep _ [] (np_zeros n)) by (rewrite repeat_length; lia).
    rewrite nth_repeat. unfold np_zeros.
    destruct (Nat.lt_ge_cases q n) as [H'|H'].
    + apply nth_repeat.
    + apply nth_overflow. now rewrite repeat_length.
  - rewrite (nth_overflow (repeat (np_zeros n) n) []) by (rewrite repeat_length; lia).
    now destruct q.
Qed.

Lemma vec_at_zeros n p : vec_at (np_zeros n) p = 0.
Proof.
  unfold vec_at, np_zeros.
  destruct (Nat.lt_ge_cases p n) as [H|H].
  - apply nth_repeat.
  - apply nth_overflow. now rewrite repeat_length.
Qed.

Lemma dims_zeros n : dims n (np_zeros2 n).
Proof. rewrite np_zeros2_mtab. apply dims_mtab. Qed.

Lemma wf_values_facts m :
  resistors_nonzero m = true ->
  forall r, In r (filter is_resistor (CircuitModel.values m)) ->
            In r (CircuitModel.values m) /\ value r <> 0.
Proof.
  intros H r Hr. apply filter_In in Hr. destruct Hr as [Hin Hr]. split; auto.
  unfold resistors_nonzero in H. rewrite forallb_forall in H. specialize (H r Hin).
  rewrite Hr in H. simpl in H. apply negb_true_iff in H. now apply Qc_eqb_false.
Qed.

Lemma vs_values_facts m :
  vs_distinct_terminals m = true ->
  forall vs, In vs (Spec.sources m) ->
             In vs (CircuitModel.values m) /\ node1 vs <> node2 vs.
Proof.
  intros H vs Hvs. apply filter_In in Hvs. destruct Hvs as [Hin Hvs]. split; auto.
  unfold vs_distinct_terminals in H. rewrite forallb_forall in H. specialize (H vs Hin).
  rewrite Hvs in H. simpl in H. apply negb_true_iff in H. now apply Z.eqb_neq.
Qed.

(** The assembly in closed form: on a well-formed circuit with non-zero
    resistors and no voltage source across a single node, the three
    stamping loops return the table of the per-component sums. *)
Lemma build_mna_system_closed_form (m : CircuitModel.t) :
  well_formed m = true -> resistors_nonzero m = true -> vs_distinct_terminals m = true ->
  CircuitSolver._build_mna_system (CircuitSolver.__init__ m) = Ok (Spec.G m, Spec.Zvec m).
Proof.
  intros Hwf Hr Hvs.
  unfold CircuitSolver._build_mna_system, CircuitSolver._stamp_conductances,
    CircuitSolver._stamp_current_sources, CircuitSolver._stamp_voltage_sources.
  change (CircuitSolver.num_nodes (CircuitSolver.__init__ m)) with (Spec.N m).
  change (CircuitSolver.num_vs (CircuitSolver.__init__ m)) with (Spec.M m).
  change (CircuitSolver.resistors (CircuitSolver.__init__ m))
    with (filter is_resistor (CircuitModel.values m)).
  change (CircuitSolver.current_sources (CircuitSolver.__init__ m))
    with (filter is_cs (CircuitModel.values m)).
  change (CircuitSolver.voltage_sources (CircuitSolver.__init__ m)) with (Spec.sources m).
  set (n := (Spec.N m + Spec.M m)%nat).
  assert (Hn : (Spec.N m <= n)%nat) by (unfold n; lia).
  destruct (stamp_conductances_ok m Hwf n Hn _ (np_zeros2 n) (wf_values_facts m Hr) (dims_zeros n))
    as (G1 & -> & HD1 & Hat1).
  cbn [bind].
  destruct (stamp_current_sources_ok m Hwf n Hn (filter is_cs (CircuitModel.values m))
              (np_zeros n)) as (Z1 & -> & HL1 & HZ1).
  { intros c Hc. apply filter_In in Hc. tauto. }
  { apply repeat_length. }
  cbn [bind]. unfold enumerate.
  destruct (stamp_voltage_sources_ok m Hwf n Hn (Spec.sources m) 0 G1 Z1
              (vs_values_facts m Hvs) HD1 HL1) as (G2 & Z2 & -> & HD2 & HL2 & Hat2 & HZ2).
  { unfold n, Spec.M. lia. }
  { intros p q H. rewrite Hat1, mat_at_zeros.
    rewrite sumQ_zero; [ring|]. intros r _. apply resistor_G_outside. lia. }
  { intros p H. rewrite HZ1, vec_at_zeros.
    rewrite sumQ_zero; [ring|]. intros c _. apply current_Z_outside. lia. }
  f_equal. f_equal.
  - apply mtab_ext; auto. intros p q _ _.
    rewrite Hat2, Hat1, mat_at_zeros. unfold Spec.G_entry, enumerate. ring.
  - apply (tab_ext 0); auto. intros p _.
    fold (vec_at Z2 p). rewrite HZ2, HZ1, vec_at_zeros. unfold Spec.Z_entry, enumerate. ring.
Qed.

(** C1 (as stated) fails for a voltage source whose two terminals are
    the same non-reference node: the solver assigns +1 and then -1 to
    the same two entries, where the additive stamps of the table cancel. *)
Lemma self_loop_source_not_stamp_table :
  resistors_nonzero (model_of self_loop_source) = true /\
  exists G Zv,
    CircuitSolver._build_mna_system (CircuitSolver.__init__ (model_of self_loop_source))
      = Ok (G, Zv) /\
    G <> Spec.G (model_of self_loop_source).
Proof.
  split; [vm_compute; reflexivity|].
  destruct (CircuitSolver._build_mna_system
              (CircuitSolver.__init__ (model_of self_loop_source))) as [[G Zv]|e] eqn:E.
  - exists G, Zv. split; [reflexivity|]. intros H.
    apply (f_equal (fun r => match r with Ok (G, _) => map (map this) G | Raise _ => [] end)) in E.
    rewrite H in E. vm_compute in E. discriminate.
  - vm_compute in E. discriminate.
Qed.

(** C1 (amended): for every well-formed circuit whose resistor values
    are non-zero and whose voltage sources each join two distinct nodes,
    the assembly of the solver succeeds and returns the square system of
    side N+M (N non-reference nodes in ascending order, M voltage sources
    in insertion order) whose every entry is the zero of the initial
    system plus the sum of the stamps of the table falling on it. *)
Theorem build_mna_system_is_stamp_table (m : CircuitModel.t) :
  well_formed m = true -> resistors_nonzero m = true -> vs_distinct_terminals m = true ->
  exists (G : matrix) (Zv : vector),
    CircuitSolver._build_mna_system (CircuitSolver.__init__ m) = Ok (G, Zv)
    /\ dims (Spec.N m + Spec.M m) G
    /\ length Zv = (Spec.N m + Spec.M m)%nat
    /\ (forall p q, (p < Spec.N m + Spec.M m)%nat -> (q < Spec.N m + Spec.M m)%nat ->
          mat_at G p q = Spec.G_entry m p q)
    /\ (forall p, (p < Spec.N m + Spec.M m)%nat -> vec_at Zv p = Spec.Z_entry m p).
Proof.
  intros Hwf Hr Hvs. exists (Spec.G m), (Spec.Zvec m).
  split; [now apply build_mna_system_closed_form|].
  split; [apply dims_mtab|].
  split; [apply length_tab|].
  split.
  - intros p q Hp Hq. now apply mat_at_mtab.
  - intros p Hp. unfold vec_at, Spec.Zvec. now apply nth_tab.
Qed.

Lemma build_mna_system_is_stamp_table_witness :
  well_formed (model_of scenario5) = true /\
  resistors_nonzero (model_of scenario5) = true /\
  vs_distinct_terminals (model_of scenario5) = true /\
  exists (G : matrix) (Zv : vector),
    CircuitSolver._build_mna_system (CircuitSolver.__init__ (model_of scenario5))
      = Ok (G, Zv)
    /\ dims (Spec.N (model_of scenario5) + Spec.M (model_of scenario5)) G
    /\ length Zv = (Spec.N (model_of scenario5) + Spec.M (model_of scenario5))%nat
    /\ (forall p q,
          (p < Spec.N (model_of scenario5) + Spec.M (model_of scenario5))%nat ->
          (q < Spec.N (model_of scenario5) + Spec.M (model_of scenario5))%nat ->
          mat_at G p q = Spec.G_entry (model_of scenario5) p q)
    /\ (forall p,
          (p < Spec.N (model_of scenario5) + Spec.M (model_of scenario5))%nat ->
          vec_at Zv p = Spec.Z_entry (model_of scenario5) p).
Proof.
  split; [vm_compute; reflexivity|].
  split; [vm_compute; reflexivity|].
  split; [vm_compute; reflexivity|].
  apply (build_mna_system_is_stamp_table (model_of scenario5)); vm_compute; reflexivity.
Defined.

(** ** Gaussian elimination *)

Section Elimination.
Import Linalg.

Lemma Permutation_upd {A} (l : list A) k p x :
  nth_error l k = Some p -> Permutation (x :: l) (p :: upd l k x).
Proof.
  revert k. induction l as [|y l IH]; intros [|k] H; simpl in *; try discriminate.
  - injection H as ->. apply perm_swap.
  - specialize (IH k H).
    eapply perm_trans; [apply perm_swap|].
    eapply perm_trans; [apply perm_skip, IH|]. apply perm_swap.
Qed.

Lemma Qcabs_zero x : Qcabs.Qcabs x <= 0 -> x = 0.
Proof.
  intros H. apply Qcabs.Qcabs_null. apply Qcle_antisym; auto. apply Qcabs.Qcabs_nonneg.
Qed.

(** The entry chosen by [argmax_abs] dominates the running best and
    every entry scanned. *)
Lemma argmax_abs_spec l : forall best bv i,
  (best < i)%nat ->
  let k := argmax_abs best bv i l in
  (k = best /\ forall x, In x l -> Qcabs.Qcabs x <= bv)
  \/ (exists x, (i <= k)%nat /\ nth_error l (k - i) = Some x /\ bv <= Qcabs.Qcabs x
                /\ forall y, In y l -> Qcabs.Qcabs y <= Qcabs.Qcabs x).
Proof.
  induction l as [|x l IH]; intros best bv i Hb; simpl.
  - left. split; auto. intros x [].
  - destruct (Qc_ltb bv (Qcabs.Qcabs x)) eqn:E.
    + apply Qc_ltb_true in E.
      destruct (IH i (Qcabs.Qcabs x) (S i)) as [[Hk Hall] | (y & Hk & Hy & Hge & Hall)]; [lia| |].
      * right. exists x. rewrite Hk. rewrite Nat.sub_diag. simpl.
        repeat split; auto.
        { now apply Qclt_le_weak. }
        { intros y [<-|Hy]; auto. apply Qcle_refl. }
      * right. exists y. split; [lia|]. split.
        { replace (argmax_abs i (Qcabs.Qcabs x) (S i) l - i)%nat
            with (S (argmax_abs i (Qcabs.Qcabs x) (S i) l - S i)) by lia. exact Hy. }
        split.
        { eapply Qcle_trans; [apply Qclt_le_weak, E|exact Hge]. }
        { intros z [<-|Hz]; auto. }
    + apply Qc_ltb_false in E.
      destruct (IH best bv (S i)) as [[Hk Hall] | (y & Hk & Hy & Hge & Hall)]; [lia| |].
      * left. split; auto. intros y [<-|Hy]; auto.
      * right. exists y. split; [lia|]. split.
        { replace (argmax_abs best bv (S i) l - i)%nat
            with (S (argmax_abs best bv (S i) l - S i)) by lia. exact Hy. }
        split; auto.
        intros z [<-|Hz]; auto. eapply Qcle_trans; eauto.
Qed.

Lemma pivot_split_Some rows p rest :
  pivot_split rows = Some (p, rest) -> lead p <> 0 /\ Permutation rows (p :: rest).
Proof.
  unfold pivot_split. destruct rows as [|r0 rest0]; try discriminate.
  destruct (argmax_abs 0 (Qcabs.Qcabs (lead r0)) 1 (map lead rest0)) as [|k'] eqn:Ek.
  - destruct (Qc_eqb (lead r0) 0) eqn:E; try discriminate.
    intros H. injection H as <- <-. split; auto. now apply Qc_eqb_false.
  - destruct (nth_error rest0 k') as [p'|] eqn:En; try discriminate.
    destruct (Qc_eqb (lead p') 0) eqn:E; try discriminate.
    intros H. injection H as <- <-. split; [now apply Qc_eqb_false|].
    now apply Permutation_upd.
Qed.

Lemma pivot_split_None rows :
  pivot_split rows = None -> forall r, In r rows -> lead r = 0.
Proof.
  unfold pivot_split. destruct rows as [|r0 rest0]; [intros _ r []|].
  pose proof (argmax_abs_spec (map lead rest0) 0 (Qcabs.Qcabs (lead r0)) 1 Nat.lt_0_1) as Hs.
  cbv zeta in Hs.
  destruct (argmax_abs 0 (Qcabs.Qcabs (lead r0)) 1 (map lead rest0)) as [|k'] eqn:Ek.
  - destruct (Qc_eqb (lead r0) 0) eqn:E; try discriminate.
    apply Qc_eqb_true in E. intros _ r [<-|Hr]; auto.
    destruct Hs as [[_ Hall] | (x & Hk & _)]; [|lia].
    apply Qcabs_zero. rewrite E in Hall. apply Hall. now apply in_map.
  - destruct Hs as [[Hk _] | (x & _ & Hx & Hge & Hall)]; [discriminate|].
    simpl in Hx. rewrite Nat.sub_0_r in Hx.
    rewrite nth_error_map in Hx.
    destruct (nth_error rest0 k') as [p'|] eqn:En; try discriminate.
    simpl in Hx. injection Hx as <-.
    destruct (Qc_eqb (lead p') 0) eqn:E; try discriminate.
    apply Qc_eqb_true in E. rewrite E in *.
    intros _ r [<-|Hr].
    + apply Qcabs_zero. exact Hge.
    + apply Qcabs_zero. apply Hall. now apply in_map.
Qed.

Lemma dot_cons_l x a v :
  dot (x :: a) v = match v with [] => 0 | y :: v' => x * y + dot a v' end.
Proof. reflexivity. Qed.

Lemma dot_axpy mu : forall a b x,
  length a = length x -> length b = length x ->
  dot (axpy mu a b) x = dot a x - mu * dot b x.
Proof.
  induction a as [|a0 a IH]; intros [|b0 b] [|x0 x] Ha Hb; simpl in *; try discriminate; try ring.
  rewrite IH by lia. ring.
Qed.

Lemma length_axpy mu : forall a b, length a = length b -> length (axpy mu a b) = length a.
Proof.
  induction a as [|a0 a IH]; intros [|b0 b] H; simpl in *; try discriminate; auto.
Qed.

Lemma row_split n (r : arow) : row_ok (S n) r -> fst r = lead r :: tl (fst r) /\ length (tl (fst r)) = n.
Proof.
  unfold row_ok, lead. destruct (fst r) as [|a l]; simpl; intros H; [discriminate|].
  split; auto.
Qed.

Lemma eliminate_row_ok n p r : row_ok (S n) p -> row_ok (S n) r -> row_ok n (eliminate p r).
Proof.
  intros Hp Hr. destruct (row_split _ _ Hp) as [_ Lp]. destruct (row_split _ _ Hr) as [_ Lr].
  unfold row_ok, eliminate. simpl. rewrite length_axpy; lia.
Qed.

Lemma gauss_length n : forall rows xs, gauss n rows = Some xs -> length xs = n.
Proof.
  induction n as [|n IH]; intros rows xs H; simpl in H.
  - now injection H as <-.
  - destruct (pivot_split rows) as [[p rest]|]; try discriminate.
    destruct (gauss n (map (eliminate p) rest)) as [xs'|] eqn:E; try discriminate.
    injection H as <-. simpl. f_equal. eapply IH; eauto.
Qed.

Lemma split_facts n rows p rest :
  Forall (row_ok (S n)) rows -> length rows = S n -> pivot_split rows = Some (p, rest) ->
  lead p <> 0 /\ row_ok (S n) p /\ Forall (row_ok (S n)) rest /\ length rest = n
  /\ Forall (row_ok n) (map (eliminate p) rest)
  /\ length (map (eliminate p) rest) = n
  /\ (forall P : arow -> Prop, Forall P rows <-> P p /\ Forall P rest).
Proof.
  intros Hrows HL Hs. destruct (pivot_split_Some _ _ _ Hs) as [Hp Hperm].
  assert (Hall : forall P : arow -> Prop, Forall P rows <-> P p /\ Forall P rest).
  { intros P. split.
    - intros H. apply (Permutation_Forall Hperm) in H. inversion H; auto.
    - intros [H1 H2]. apply (Permutation_Forall (Permutation_sym Hperm)). now constructor. }
  apply Hall in Hrows. destruct Hrows as [Hrp Hrest].
  assert (HLr : length rest = n).
  { apply Permutation_length in Hperm. simpl in Hperm. lia. }
  split; [exact Hp|]. split; [exact Hrp|]. split; [exact Hrest|]. split; [exact HLr|].
  split; [|split; [now rewrite length_map | exact Hall]].
  apply Forall_forall. intros r Hr. apply in_map_iff in Hr. destruct Hr as (r' & <- & Hr').
  rewrite Forall_forall in Hrest. apply eliminate_row_ok; auto.
Qed.

Lemma lead_mul (mu : Qc) (a b : Qc) : b <> 0 -> a / b * b = a.
Proof. intros H. field. exact H. Qed.

(** Soundness: the returned vector satisfies every row. *)
Lemma gauss_sound n : forall rows xs,
  Forall (row_ok n) rows -> length rows = n -> gauss n rows = Some xs ->
  Forall (sat xs) rows.
Proof.
  induction n as [|n IH]; intros rows xs Hrows HL H; simpl in H.
  - destruct rows; [constructor|discriminate].
  - destruct (pivot_split rows) as [[p rest]|] eqn:Hs; try discriminate.
    destruct (gauss n (map (eliminate p) rest)) as [xs'|] eqn:E; try discriminate.
    injection H as <-.
    destruct (split_facts _ _ _ _ Hrows HL Hs) as (Hp & Hrp & Hrest & HLr & Hel & HLe & Hall).
    pose proof (gauss_length _ _ _ E) as HLx.
    specialize (IH _ _ Hel HLe E).
    destruct (row_split _ _ Hrp) as [Ep Lp].
    set (x0 := (snd p - dot (tl (fst p)) xs') / lead p).
    assert (Hsp : sat (x0 :: xs') p).
    { unfold sat. rewrite Ep. simpl. subst x0. field. exact Hp. }
    apply Hall. split; auto.
    rewrite Forall_forall in *. intros r Hr.
    specialize (IH (eliminate p r) (in_map _ _ _ Hr)).
    destruct (row_split _ _ (Hrest r Hr)) as [Er Lr].
    unfold sat in *. simpl in IH. rewrite dot_axpy in IH by lia.
    rewrite Er. simpl. rewrite Ep in Hsp. simpl in Hsp.
    assert (Hm : lead r = lead r / lead p * lead p) by (field; exact Hp).
    rewrite Hm at 1.
    replace (lead r / lead p * lead p * x0 + dot (tl (fst r)) xs')
      with (lead r / lead p * (lead p * x0 + dot (tl (fst p)) xs')
            + (dot (tl (fst r)) xs' - lead r / lead p * dot (tl (fst p)) xs')) by ring.
    rewrite Hsp, IH. ring.
Qed.

(** Uniqueness: when elimination succeeds, the rows have no other
    solution. *)
Lemma gauss_unique n : forall rows xs ys,
  Forall (row_ok n) rows -> length rows = n -> gauss n rows = Some xs ->
  length ys = n -> Forall (sat ys) rows -> ys = xs.
Proof.
  induction n as [|n IH]; intros rows xs ys Hrows HL H HLy Hys; simpl in H.
  - injection H as <-. now destruct ys.
  - destruct (pivot_split rows) as [[p rest]|] eqn:Hs; try discriminate.
    destruct (gauss n (map (eliminate p) rest)) as [xs'|] eqn:E; try discriminate.
    injection H as <-.
    destruct (split_facts _ _ _ _ Hrows HL Hs) as (Hp & Hrp & Hrest & HLr & Hel & HLe & Hall).
    destruct ys as [|y0 ys']; [discriminate|]. simpl in HLy.
    apply Hall in Hys. destruct Hys as [Hyp Hyr].
    destruct (row_split _ _ Hrp) as [Ep Lp].
    unfold sat in Hyp. rewrite Ep in Hyp. simpl in Hyp.
    assert (Hys' : ys' = xs').
    { apply (IH _ _ _ Hel HLe E); [lia|].
      apply Forall_forall. intros r' Hr'. apply in_map_iff in Hr'.
      destruct Hr' as (r & <- & Hr).
      rewrite Forall_forall in Hyr, Hrest.
      specialize (Hyr r Hr). destruct (row_split _ _ (Hrest r Hr)) as [Er Lr].
      unfold sat in *. rewrite Er in Hyr. simpl in Hyr. simpl.
      rewrite dot_axpy by lia.
      assert (Hm : lead r = lead r / lead p * lead p) by (field; exact Hp).
      rewrite <- Hyr, <- Hyp. rewrite Hm at 2. ring. }
    subst ys'. f_equal. rewrite <- Hyp. field. exact Hp.
Qed.

Lemma dot_zeros_r a n : dot a (np_zeros n) = 0.
Proof.
  revert n. induction a as [|x a IH]; intros [|n]; simpl; auto.
  unfold np_zeros in IH. rewrite IH. ring.
Qed.

(** Completeness: when elimination gives up, the square system has a
    non-trivial kernel. *)
Lemma gauss_complete n : forall rows,
  Forall (row_ok n) rows -> length rows = n -> gauss n rows = None ->
  exists v : vector, length v = n /\ v <> np_zeros n
    /\ Forall (fun r : arow => dot (fst r) v = 0) rows.
Proof.
  induction n as [|n IH]; intros rows Hrows HL H; simpl in H; [discriminate|].
  destruct (pivot_split rows) as [[p rest]|] eqn:Hs.
  - destruct (gauss n (map (eliminate p) rest)) as [xs'|] eqn:E; try discriminate.
    destruct (split_facts _ _ _ _ Hrows HL Hs) as (Hp & Hrp & Hrest & HLr & Hel & HLe & Hall).
    destruct (IH _ Hel HLe E) as (v' & HLv & Hnz & Hker).
    destruct (row_split _ _ Hrp) as [Ep Lp].
    set (v0 := - dot (tl (fst p)) v' / lead p).
    exists (v0 :: v'). split; [simpl; lia|]. split.
    { intros Heq. apply Hnz. simpl in Heq. now injection Heq. }
    assert (Hkp : dot (fst p) (v0 :: v') = 0).
    { rewrite Ep. simpl. subst v0. field. exact Hp. }
    apply Hall. split; auto.
    rewrite Forall_forall in *. intros r Hr.
    specialize (Hker (eliminate p r) (in_map _ _ _ Hr)).
    destruct (row_split _ _ (Hrest r Hr)) as [Er Lr].
    simpl in Hker. rewrite dot_axpy in Hker by lia.
    cbv beta. rewrite Er. simpl. rewrite Ep in Hkp. simpl in Hkp.
    assert (Hm : lead r = lead r / lead p * lead p) by (field; exact Hp).
    rewrite Hm at 1.
    replace (lead r / lead p * lead p * v0 + dot (tl (fst r)) v')
      with (lead r / lead p * (lead p * v0 + dot (tl (fst p)) v')
            + (dot (tl (fst r)) v' - lead r / lead p * dot (tl (fst p)) v')) by ring.
    rewrite Hkp, Hker. ring.
  - pose proof (pivot_split_None _ Hs) as Hz.
    exists (1 :: np_zeros n). split; [simpl; unfold np_zeros; now rewrite repeat_length|].
    split; [discriminate|].
    rewrite Forall_forall in *. intros r Hr.
    destruct (row_split _ _ (Hrows r Hr)) as [Er Lr].
    cbv beta. rewrite Er. simpl. rewrite (Hz r Hr), dot_zeros_r. ring.
Qed.

End Elimination.

(** ** The linear solve *)

Lemma rows_ok_combine n (G : matrix) (Zv : vector) :
  dims n G -> Forall (row_ok n) (combine G Zv).
Proof.
  intros [_ HF]. apply Forall_forall. intros [row z] Hin.
  apply in_combine_l in Hin. rewrite Forall_forall in HF. now apply HF.
Qed.

Lemma sat_combine (X : vector) : forall (G : matrix) (Zv : vector),
  length G = length Zv -> (Forall (sat X) (combine G Zv) <-> matvec G X = Zv).
Proof.
  induction G as [|row G IH]; intros [|z Zv] HL; simpl in *; try discriminate.
  - split; auto.
  - split.
    + intros H. inversion H as [|? ? H1 H2]; subst. unfold sat in H1. simpl in H1.
      f_equal; auto. apply IH; auto.
    + intros H. injection H as H1 H2. constructor; [exact H1|]. apply IH; auto.
Qed.

Lemma kernel_combine (v : vector) : forall (G : matrix) (Zv : vector),
  length G = length Zv ->
  (Forall (fun r : Linalg.arow => dot (fst r) v = 0) (combine G Zv)
   <-> matvec G v = np_zeros (length G)).
Proof.
  induction G as [|row G IH]; intros [|z Zv] HL; simpl in *; try discriminate.
  - split; auto.
  - change (np_zeros (S (length G))) with (0 :: np_zeros (length G)). split.
    + intros H. inversion H as [|? ? H1 H2]; subst. simpl in H1.
      f_equal; auto. apply (IH Zv); auto.
    + intros H. injection H as H1 H2. constructor; [exact H1|]. apply IH; auto.
Qed.

Lemma length_vplus : forall a b, length a = length b -> length (vplus a b) = length a.
Proof. induction a; intros [|y b] H; simpl in *; try discriminate; auto. Qed.

Lemma dot_vplus : forall r a b, length a = length b -> dot r (vplus a b) = dot r a + dot r b.
Proof.
  induction r as [|x r IH]; intros [|y a] [|z b] H; simpl in *; try discriminate; try ring.
  rewrite IH by lia. ring.
Qed.

Lemma vplus_fixed : forall a v, length v = length a -> vplus a v = a -> v = np_zeros (length a).
Proof.
  induction a as [|x a IH]; intros [|y v] HL H; simpl in *; try discriminate; auto.
  injection H as H1 H2.
  change (np_zeros (S (length a))) with (0 :: np_zeros (length a)). f_equal.
  - assert (E : y = (x + y) - x) by ring. rewrite E, H1. ring.
  - apply IH; auto.
Qed.

Section Solve.
Variables (n : nat) (G : matrix) (Zv : vector).
Hypothesis HD : dims n G.
Hypothesis HL : length Zv = n.

Lemma combine_length_n : length (combine G Zv) = n.
Proof. rewrite length_combine. destruct HD. lia. Qed.

Lemma solve_sound X : Linalg.solve G Zv = Ok X -> length X = n /\ matvec G X = Zv.
Proof.
  unfold Linalg.solve. destruct HD as [HG HF]. rewrite HG.
  destruct (Linalg.gauss n (combine G Zv)) as [xs|] eqn:E; try discriminate.
  intros H. injection H as <-. split; [eapply gauss_length; eauto|].
  apply sat_combine; [lia|].
  apply (gauss_sound n); auto using rows_ok_combine, combine_length_n.
Qed.

Lemma solve_unique X Y :
  Linalg.solve G Zv = Ok X -> length Y = n -> matvec G Y = Zv -> Y = X.
Proof.
  unfold Linalg.solve. destruct HD as [HG HF]. rewrite HG.
  destruct (Linalg.gauss n (combine G Zv)) as [xs|] eqn:E; try discriminate.
  intros H HY HGY. injection H as <-.
  apply (gauss_unique n (combine G Zv)); auto using rows_ok_combine, combine_length_n.
  apply sat_combine; [lia|auto].
Qed.

Lemma solve_singular :
  singular G -> Linalg.solve G Zv = Raise (LinAlgError "Singular matrix").
Proof.
  intros (v & Hv & Hnz & Hker).
  destruct (Linalg.solve G Zv) as [X|e] eqn:E.
  - exfalso. destruct (solve_sound X E) as [HX HGX].
    destruct HD as [HG HF].
    assert (HY : vplus X v = X).
    { apply (solve_unique X (vplus X v) E).
      - rewrite length_vplus; lia.
      - unfold matvec in *. rewrite <- HGX. apply map_ext_in. intros row Hrow.
        rewrite dot_vplus by lia.
        assert (Hz : dot row v = 0).
        { assert (Hk : Forall (fun r : Linalg.arow => dot (fst r) v = 0) (combine G Zv)).
          { apply kernel_combine; [lia|exact Hker]. }
          rewrite Forall_forall in Hk.
          destruct (In_nth _ _ [] Hrow) as (i & Hi & Hnth).
          specialize (Hk (row, nth i Zv 0)). apply Hk.
          rewrite <- Hnth. rewrite <- combine_nth by lia. apply nth_In.
          rewrite length_combine. lia. }
        rewrite Hz. ring. }
    apply vplus_fixed in HY; [|lia]. apply Hnz. rewrite HY. f_equal. lia.
  - unfold Linalg.solve in *.
    destruct (Linalg.gauss (length G) (combine G Zv)); [discriminate|now symmetry].
Qed.

Lemma solve_complete :
  (forall v : vector, length v = n -> matvec G v = np_zeros n -> v = np_zeros n) ->
  exists X, Linalg.solve G Zv = Ok X.
Proof.
  intros Hinj. unfold Linalg.solve. destruct HD as [HG HF]. rewrite HG.
  destruct (Linalg.gauss n (combine G Zv)) as [xs|] eqn:E; eauto.
  exfalso.
  destruct (gauss_complete n (combine G Zv)) as (v & Hv & Hnz & Hker);
    auto using rows_ok_combine, combine_length_n.
  apply Hnz, Hinj; auto.
  rewrite <- HG. apply (kernel_combine v G Zv); [lia|exact Hker].
Qed.
End Solve.

(** ** Shapes are preserved by every update *)

Lemma bind_Ok {A B} (r : result A) (k : A -> result B) b :
  bind r k = Ok b -> exists a, r = Ok a /\ k a = Ok b.
Proof. destruct r; simpl; intros H; [eauto|discriminate]. Qed.

Lemma vset_length v i x v' : vset v i x = Ok v' -> length v' = length v.
Proof.
  unfold vset. destruct (i <? length v)%nat; intros H; [|discriminate].
  injection H as <-. apply length_upd.
Qed.

Lemma mset_dims n G i j x G' : mset G i j x = Ok G' -> dims n G -> dims n G'.
Proof.
  unfold mset. destruct (nth_error G i) as [row|] eqn:E; [|discriminate].
  intros H [HL HF]. apply bind_Ok in H. destruct H as (row' & Hr & H). injection H as <-.
  split; [now rewrite length_upd|].
  apply Forall_upd; auto. rewrite (vset_length _ _ _ _ Hr).
  rewrite Forall_forall in HF. apply HF. eapply nth_error_In; eauto.
Qed.

Lemma madd_dims n G i j x G' : madd G i j x = Ok G' -> dims n G -> dims n G'.
Proof.
  unfold madd. intros H. apply bind_Ok in H. destruct H as (v & _ & H).
  eapply mset_dims; eauto.
Qed.

Lemma msub_dims n G i j x G' : msub G i j x = Ok G' -> dims n G -> dims n G'.
Proof.
  unfold msub. intros H. apply bind_Ok in H. destruct H as (v & _ & H).
  eapply mset_dims; eauto.
Qed.

Lemma vadd_length v i x v' : vadd v i x = Ok v' -> length v' = length v.
Proof.
  unfold vadd. intros H. apply bind_Ok in H. destruct H as (y & _ & H).
  eapply vset_length; eauto.
Qed.

Lemma vsub_length v i x v' : vsub v i x = Ok v' -> length v' = length v.
Proof.
  unfold vsub. intros H. apply bind_Ok in H. destruct H as (y & _ & H).
  eapply vset_length; eauto.
Qed.

Lemma for_each_preserves {A S} (P : S -> Prop) (body : A -> S -> result S) :
  (forall x s s', body x s = Ok s' -> P s -> P s') ->
  forall l s s', for_each body l s = Ok s' -> P s -> P s'.
Proof.
  intros Hbody. induction l as [|x l IH]; intros s s' H Hs; simpl in H.
  - now injection H as <-.
  - apply bind_Ok in H. destruct H as (s1 & H1 & H2). eauto.
Qed.

Ltac unbind H :=
  repeat match type of H with
  | bind _ _ = Ok _ =>
      let a := fresh "a" in let H1 := fresh "Hb" in
      apply bind_Ok in H; destruct H as (a & H1 & H)
  | (let '(_, _) := ?p in _) = _ => destruct p
  end.

Ltac dims_chain :=
  repeat match goal with
  | H1 : madd ?G _ _ _ = Ok ?G1, HD : dims ?n ?G |- _ =>
      pose proof (madd_dims n _ _ _ _ _ H1 HD); clear H1
  | H1 : msub ?G _ _ _ = Ok ?G1, HD : dims ?n ?G |- _ =>
      pose proof (msub_dims n _ _ _ _ _ H1 HD); clear H1
  | H1 : mset ?G _ _ _ = Ok ?G1, HD : dims ?n ?G |- _ =>
      pose proof (mset_dims n _ _ _ _ _ H1 HD); clear H1
  | H1 : Ok ?G = Ok ?G1 |- _ => injection H1 as <-
  end.

Lemma stamp_resistor_dims self n r G G' :
  CircuitSolver.stamp_resistor self r G = Ok G' -> dims n G -> dims n G'.
Proof.
  unfold CircuitSolver.stamp_resistor. intros H HD.
  apply bind_Ok in H. destruct H as (g & _ & H).
  destruct (negb _ && negb _); [unbind H; dims_chain; assumption|].
  destruct (negb _ && _); [unbind H; dims_chain; assumption|].
  destruct (negb _ && _); [unbind H; dims_chain; assumption|].
  dims_chain; assumption.
Qed.

Lemma stamp_current_source_length self c Zv Zv' :
  CircuitSolver.stamp_current_source self c Zv = Ok Zv' -> length Zv' = length Zv.
Proof.
  unfold CircuitSolver.stamp_current_source. intros H.
  apply bind_Ok in H. destruct H as (Z1 & H1 & H).
  assert (E1 : length Z1 = length Zv).
  { destruct (negb (CircuitSolver.is_ref self (node1 c))); [|now injection H1 as <-].
    unbind H1. eapply vsub_length; eauto. }
  rewrite <- E1.
  destruct (negb (CircuitSolver.is_ref self (node2 c))); [|now injection H as <-].
  unbind H. eapply vadd_length; eauto.
Qed.

Lemma stamp_voltage_source_dims self n item (G G' : matrix) (Zv Zv' : vector) :
  CircuitSolver.stamp_voltage_source self item (G, Zv) = Ok (G', Zv') ->
  dims n G /\ length Zv = n -> dims n G' /\ length Zv' = n.
Proof.
  unfold CircuitSolver.stamp_voltage_source. destruct item as [k vs].
  intros H [HD HL].
  apply bind_Ok in H. destruct H as (G1 & H1 & H).
  apply bind_Ok in H. destruct H as (G2 & H2 & H).
  apply bind_Ok in H. destruct H as (Z1 & HZ & H).
  apply bind_Ok in H. destruct H as (G3 & H3 & H).
  apply bind_Ok in H. destruct H as (G4 & H4 & H).
  injection H as <- <-.
  assert (HD1 : dims n G1).
  { destruct (negb (CircuitSolver.is_ref self (node1 vs))); unbind H1; dims_chain; assumption. }
  assert (HD2 : dims n G2).
  { destruct (negb (CircuitSolver.is_ref self (node2 vs))); unbind H2; dims_chain; assumption. }
  assert (HD3 : dims n G3).
  { destruct (negb (CircuitSolver.is_ref self (node1 vs))); unbind H3; dims_chain; assumption. }
  split.
  - destruct (negb (CircuitSolver.is_ref self (node2 vs))); unbind H4; dims_chain; assumption.
  - rewrite (vset_length _ _ _ _ HZ). exact HL.
Qed.

Lemma build_mna_system_dims self G Zv :
  CircuitSolver._build_mna_system self = Ok (G, Zv) ->
  let n := (CircuitSolver.num_nodes self + CircuitSolver.num_vs self)%nat in
  dims n G /\ length Zv = n.
Proof.
  intros H n. unfold CircuitSolver._build_mna_system in H. fold n in H.
  apply bind_Ok in H. destruct H as (G1 & H1 & H).
  apply bind_Ok in H. destruct H as (Z1 & H2 & H).
  assert (HD1 : dims n G1).
  { eapply (for_each_preserves (dims n)); [|exact H1|apply dims_zeros].
    intros; eapply stamp_resistor_dims; eauto. }
  assert (HL1 : length Z1 = n).
  { eapply (for_each_preserves (fun z : vector => length z = n)); [|exact H2|apply repeat_length].
    intros x z z' Hb Hz. rewrite (stamp_current_source_length _ _ _ _ Hb). exact Hz. }
  eapply (for_each_preserves (fun gz : matrix * vector => dims n (fst gz) /\ length (snd gz) = n)
            (CircuitSolver.stamp_voltage_source self)) with (s' := (G, Zv)) in H.
  - exact H.
  - intros x [g z] [g' z'] Hb Hs. eapply stamp_voltage_source_dims; eauto.
  - split; assumption.
Qed.

(** ** Well-formedness is an invariant of the model's operations *)

Lemma dict_set_In {V} (d : dict nat V) k0 v0 k v :
  In (k, v) (dict_set Nat.eqb d k0 v0) -> (k = k0 /\ v = v0) \/ In (k, v) d.
Proof.
  induction d as [|[k' v'] d IH]; simpl.
  - intros [E|[]]. injection E as <- <-. auto.
  - destruct (Nat.eqb_spec k0 k') as [->|Hne]; simpl.
    + intros [E|H]; [injection E as <- <-; auto|auto].
    + intros [E|H]; [auto|]. destruct (IH H) as [?|?]; auto.
Qed.

Lemma dict_set_keys {V} (d : dict nat V) k v :
  dict_keys (dict_set Nat.eqb d k v)
  = if existsb (Nat.eqb k) (dict_keys d) then dict_keys d else dict_keys d ++ [k].
Proof.
  induction d as [|[k' v'] d IH]; simpl; auto.
  destruct (Nat.eqb_spec k k') as [->|Hne]; simpl; auto.
  rewrite IH. destruct (existsb (Nat.eqb k) (dict_keys d)); reflexivity.
Qed.

Lemma distinct_NoDup l : distinct l = true <-> NoDup l.
Proof.
  induction l as [|x l IH]; simpl.
  - split; auto. constructor.
  - rewrite andb_true_iff, IH, negb_true_iff. split.
    + intros [H1 H2]. constructor; auto. intros Hin.
      assert (existsb (Nat.eqb x) l = true).
      { apply existsb_exists. exists x. split; auto. apply Nat.eqb_refl. }
      congruence.
    + intros H. inversion H as [|? ? Hx HN]; subst. split; auto.
      destruct (existsb (Nat.eqb x) l) eqn:E; auto.
      apply existsb_exists in E. destruct E as (y & Hy & Exy).
      apply Nat.eqb_eq in Exy. subst. contradiction.
Qed.

Lemma well_formed_iff m :
  well_formed m = true <->
  ascending (CircuitModel.nodes m) = true
  /\ (forall k c, In (k, c) (CircuitModel.components m) ->
        uid c = k /\ In (node1 c) (CircuitModel.nodes m) /\ In (node2 c) (CircuitModel.nodes m))
  /\ NoDup (dict_keys (CircuitModel.components m)).
Proof.
  unfold well_formed. rewrite !andb_true_iff, forallb_forall, distinct_NoDup.
  split.
  - intros [[H1 H2] H3]. repeat split; auto; specialize (H2 _ H);
      cbn in H2; rewrite !andb_true_iff, Nat.eqb_eq, !set_mem_iff in H2; tauto.
  - intros (H1 & H2 & H3). repeat split; auto. intros [k c] H.
    destruct (H2 k c H) as (E & Ha & Hb).
    rewrite !andb_true_iff, Nat.eqb_eq, !set_mem_iff. tauto.
Qed.

Lemma init_wf : well_formed CircuitModel.__init__ = true.
Proof. reflexivity. Qed.

Lemma add_component_wf m c m' :
  well_formed m = true -> CircuitModel.add_component m c = Ok m' -> well_formed m' = true.
Proof.
  rewrite !well_formed_iff. intros (H1 & H2 & H3) E.
  unfold CircuitModel.add_component in E. injection E as <-.
  cbn [CircuitModel.nodes CircuitModel.components]. split; [|split].
  - now apply set_add_ascending, set_add_ascending.
  - intros k c' Hin. rewrite !set_add_In.
    apply dict_set_In in Hin. destruct Hin as [[-> ->]|Hin]; [tauto|].
    destruct (H2 k c' Hin) as (E & Ha & Hb). tauto.
  - rewrite dict_set_keys.
    destruct (existsb (Nat.eqb (uid c)) (dict_keys (CircuitModel.components m))) eqn:Ex; auto.
    apply NoDup_app; auto.
    + repeat constructor. intros [].
    + intros x Hx [E|[]]. subst x.
      assert (existsb (Nat.eqb (uid c)) (dict_keys (CircuitModel.components m)) = true).
      { apply existsb_exists. exists (uid c). split; auto. apply Nat.eqb_refl. }
      congruence.
Qed.

Lemma set_reference_node_wf m ref m' :
  well_formed m = true -> CircuitModel.set_reference_node m ref = Ok m' ->
  well_formed m' = true.
Proof.
  rewrite !well_formed_iff. intros (H1 & H2 & H3) E.
  unfold CircuitModel.set_reference_node in E.
  apply bind_Ok in E. destruct E as (node & _ & E).
  destruct (negb (set_mem node (CircuitModel.nodes m))); injection E as <-;
    cbn [CircuitModel.nodes CircuitModel.components]; auto.
  split; [now apply set_add_ascending|]. split; auto.
  intros k c Hin. destruct (H2 k c Hin) as (E & Ha & Hb).
  rewrite !set_add_In. tauto.
Qed.

(** Every circuit built by the construction sequence is well-formed. *)
Lemma of_components_well_formed cs ref m :
  CircuitModel.of_components cs ref = Ok m -> well_formed m = true.
Proof.
  unfold CircuitModel.of_components. intros H.
  apply bind_Ok in H. destruct H as (m1 & H1 & H2).
  apply (set_reference_node_wf m1 ref); auto.
  apply (for_each_preserves (fun m => well_formed m = true)
           (fun c m => CircuitModel.add_component m c)) with (l := cs) (s := CircuitModel.__init__);
    auto using init_wf.
  intros x s s' Hb Hs. now apply (add_component_wf s x).
Qed.

(** ** Resistors of value zero *)

Lemma stamp_conductances_zero m n rs : forall G,
  well_formed m = true -> (Spec.N m <= n)%nat -> dims n G ->
  (forall r, In r rs -> In r (CircuitModel.values m)) ->
  (exists r, In r rs /\ value r = 0) ->
  for_each (CircuitSolver.stamp_resistor (CircuitSolver.__init__ m)) rs G
  = Raise ZeroDivisionError.
Proof.
  induction rs as [|r rs IH]; intros G Hwf Hn HD Hin (r0 & Hr0 & Hz); [destruct Hr0|].
  cbn [for_each].
  destruct (Qc_eq_dec (value r) 0) as [E|E].
  - unfold CircuitSolver.stamp_resistor, py_div.
    apply Qc_eqb_true in E. rewrite E. reflexivity.
  - destruct (stamp_resistor_ok m Hwf n Hn r G (Hin r (or_introl eq_refl)) E HD)
      as (G1 & -> & HD1 & _).
    cbn [bind]. apply IH; auto.
    + intros r' Hr'. apply Hin. now right.
    + destruct Hr0 as [->|Hr0]; [contradiction|eauto].
Qed.

Lemma zero_resistor_error m :
  well_formed m = true ->
  (exists r, In r (CircuitModel.values m) /\ is_resistor r = true /\ value r = 0) ->
  CircuitSolver.solve (CircuitSolver.__init__ m)
  = CircuitSolver.Error division_message suggestion_text.
Proof.
  intros Hwf (r & Hin & Hr & Hz).
  unfold CircuitSolver.solve, CircuitSolver._build_mna_system,
    CircuitSolver._stamp_conductances.
  change (CircuitSolver.num_nodes (CircuitSolver.__init__ m)) with (Spec.N m).
  change (CircuitSolver.resistors (CircuitSolver.__init__ m))
    with (filter is_resistor (CircuitModel.values m)).
  rewrite (stamp_conductances_zero m _ _ _ Hwf (Nat.le_add_r _ _) (dims_zeros _)).
  - reflexivity.
  - intros r' Hr'. apply filter_In in Hr'. tauto.
  - exists r. split; auto. apply filter_In. auto.
Qed.

(** ** Singular systems *)

(** An exception leaving a loop was raised by its body. *)
Lemma for_each_exn {A S} (P : exn -> Prop) (body : A -> S -> result S) :
  (forall x s e, body x s = Raise e -> P e) ->
  forall l s e, for_each body l s = Raise e -> P e.
Proof.
  intros Hb. induction l as [|x l IH]; intros s e H; [discriminate H|].
  cbn [for_each] in H. destruct (body x s) as [s'|e'] eqn:E; cbn [bind] in H.
  - eauto.
  - injection H as <-. eauto.
Qed.

(** Packaging a solution never raises [LinAlgError]. *)
Lemma package_solution_exn self V J G Zv e :
  FloatSolver._package_solution self V J G Zv = Raise e ->
  forall msg, e <> LinAlgError msg.
Proof.
  unfold FloatSolver._package_solution. intros H.
  destruct (FloatSolver.voltages_of self V) as [vd|e1] eqn:E1; cbn [bind] in H.
  - destruct (FloatSolver.results_of self vd J) as [[rs tp]|e2] eqn:E2; cbn [bind] in H;
      [discriminate H|]. injection H as <-.
    revert E2. unfold FloatSolver.results_of.
    apply (for_each_exn (fun e => forall msg, e <> LinAlgError msg)).
    intros c [rs tp] e. unfold FloatSolver._calculate_component_result.
    destruct (cls c).
    + unfold Binary64.py_div.
      match goal with |- context [if ?b then _ else _] => destruct b end;
        cbv beta iota delta [bind]; intros H; [|discriminate H].
      injection H as <-. discriminate.
    + destruct (FloatSolver.find_vs_current
                  (enumerate (CircuitSolver.voltage_sources self)) c J) as [x|e'] eqn:E;
        cbv beta iota delta [bind]; intros H; [discriminate H|]. injection H as <-.
      revert E. generalize (enumerate (CircuitSolver.voltage_sources self)).
      induction l as [|[k vs] l IH]; cbn [FloatSolver.find_vs_current]; [discriminate|].
      destruct (uid vs =? uid c)%nat; [|exact IH].
      unfold Binary64.vget. destruct (nth_error J k); [discriminate|].
      intros H. injection H as <-. discriminate.
    + cbv beta iota delta [bind]. discriminate.
  - injection H as <-. revert E1. unfold FloatSolver.voltages_of.
    apply (for_each_exn (fun e => forall msg, e <> LinAlgError msg)).
    intros [i v] vd e.
    destruct (dict_get Nat.eqb (CircuitSolver.index_to_node self) i); [discriminate|].
    intros H. injection H as <-. discriminate.
Qed.

(** C3 (amended): the request holding only VS(5,1,0) and VS(6,1,0) is
    answered by the error reply that reports a singular matrix and
    carries the suggestion, in exact arithmetic and in binary64 alike.
    In general the binary64 [solve] returns that error result, and no
    numbers, exactly when the elimination of [np.linalg.solve] meets a
    pivot that is exactly zero; in exact arithmetic this is the case
    whenever the assembled matrix is singular (it has a non-zero kernel
    vector). *)
Theorem singular_matrix_reported :
  App.solve_circuit (request parallel_sources)
    = App.Failed 400 singular_message (Some suggestion_text)
  /\ FloatSolver.solve parallel_sources_solver
     = FloatSolver.Error singular_message suggestion_text
  /\ (forall (self : CircuitSolver.t) (G : Binary64.fmatrix) (Zv : Binary64.fvector),
        FloatSolver._build_mna_system self = Ok (G, Zv) ->
        (FloatSolver.solve self = FloatSolver.Error singular_message suggestion_text
         <-> LinalgF.gauss (length G) (combine G Zv) = None))
  /\ (forall (self : CircuitSolver.t) (G : matrix) (Zv : vector),
        CircuitSolver._build_mna_system self = Ok (G, Zv) ->
        singular G ->
        CircuitSolver.solve self = CircuitSolver.Error singular_message suggestion_text).
Proof.
  split; [vm_compute; reflexivity|]. split; [vm_compute; reflexivity|]. split.
  - intros self G Zv Hb.
    unfold FloatSolver.solve. rewrite Hb. cbn [bind]. unfold LinalgF.solve.
    destruct (LinalgF.gauss (length G) (combine G Zv)) as [X|]; cbn [bind].
    + split; [|discriminate]. intros H. exfalso.
      destruct (FloatSolver._package_solution self
                  (firstn (CircuitSolver.num_nodes self) X)
                  (skipn (CircuitSolver.num_nodes self) X) G Zv) as [sol|e] eqn:E.
      * unfold FloatSolver._package_solution in E.
        destruct (FloatSolver.voltages_of self _); cbn [bind] in E; [|discriminate E].
        destruct (FloatSolver.results_of self _ _) as [[rs tp]|];
          cbn [bind] in E; [|discriminate E].
        injection E as <-. discriminate H.
      * pose proof (package_solution_exn _ _ _ _ _ _ E) as Hne.
        destruct e; try discriminate H. now apply (Hne msg).
    + split; reflexivity.
  - intros self G Zv Hb Hs.
    destruct (build_mna_system_dims _ _ _ Hb) as [HD HL].
    unfold CircuitSolver.solve. rewrite Hb. cbn [bind].
    rewrite (solve_singular _ G Zv HD HL Hs). reflexivity.
Qed.

Lemma singular_matrix_reported_witness :
  (exists G Zv,
      FloatSolver._build_mna_system parallel_sources_solver = Ok (G, Zv)
      /\ LinalgF.gauss (length G) (combine G Zv) = None
      /\ FloatSolver.solve parallel_sources_solver
         = FloatSolver.Error singular_message suggestion_text)
  /\ CircuitSolver.solve parallel_sources_solver
     = CircuitSolver.Error singular_message suggestion_text.
Proof.
  destruct singular_matrix_reported as (_ & _ & Hf & He). split.
  - destruct (FloatSolver._build_mna_system parallel_sources_solver) as [[G Zv]|e] eqn:E.
    + assert (Hg : LinalgF.gauss (length G) (combine G Zv) = None).
      { vm_compute in E. injection E as <- <-. vm_compute. reflexivity. }
      exists G, Zv. split; [reflexivity|]. split; [exact Hg|].
      exact (proj2 (Hf parallel_sources_solver G Zv E) Hg).
    + vm_compute in E. discriminate E.
  - apply (He parallel_sources_solver [[0; 1; 1]; [1; 0; 0]; [1; 0; 0]] [0; qc 5 1; qc 6 1]).
    + vm_compute. reflexivity.
    + exists [0; 1; - (1)]. split; [reflexivity|]. split; [discriminate|].
      vm_compute. reflexivity.
Defined.

(** Equality of computed rationals. *)
Ltac qc_eq := apply Qc_is_canon; vm_compute; reflexivity.

(** Two lists of canonical rationals with the same fractions are equal. *)
Lemma Qc_list_ext (l l' : list Qc) : map this l = map this l' -> l = l'.
Proof.
  revert l'. induction l as [|x l IH]; intros [|y l'] H; try discriminate; auto.
  simpl in H. injection H as Hx Hl. f_equal; auto.
  apply Qc_is_canon. now rewrite Hx.
Qed.

(** C3 (as stated) fails in binary64: the floating triangle R(3,1,2),
    R(7,2,3), R(11,1,3), CS(1,1,2) is a valid circuit whose matrix is
    singular, but the rounded conductances 1/3, 1/7 and 1/11 no longer
    cancel: the matrix the code assembles is not singular, no pivot is
    zero, and [solve] returns finite voltages, currents and powers. *)
Lemma floating_triangle_is_solved :
  let m := model_of floating_triangle in
  valid m = true
  /\ binary64_values floating_triangle = true
  /\ singular (Spec.G m)
  /\ exists G Zv vd comps tp mi su,
       FloatSolver._build_mna_system (CircuitSolver.__init__ m) = Ok (G, Zv)
       /\ ~ singular (exact_matrix G)
       /\ FloatSolver.solve (CircuitSolver.__init__ m)
          = FloatSolver.Success vd comps tp mi su
       /\ finite_reply vd comps tp = true.
Proof.
  split; [vm_compute; reflexivity|]. split; [vm_compute; reflexivity|]. split.
  - exists [1; 1; 1]. split; [reflexivity|]. split; [discriminate|].
    apply Qc_list_ext. vm_compute. reflexivity.
  - do 7 eexists. split; [vm_compute; reflexivity|]. split; [|split].
    + intros Hs.
      match type of Hs with
      | singular ?G =>
          assert (E : is_ok (Linalg.solve G (np_zeros 3)) = true) by (vm_compute; reflexivity);
          assert (HD : dims 3 G) by (split; [reflexivity|repeat constructor]);
          rewrite (solve_singular 3 G (np_zeros 3) HD eq_refl Hs) in E
      end.
      discriminate E.
    + vm_compute. reflexivity.
    + vm_compute. reflexivity.
Qed.

(** The converse failure: in the valid circuit CS(1,0,1), R(2^-53,1,2),
    R(1,2,0) the matrix is not singular, but 2^53 + 1 rounds to 2^53 and
    the binary64 solve reports a singular matrix. *)
Lemma rounding_makes_singular :
  let m := model_of [ mkComponent 0 CurrentSource (qc 1 1) 0 1;
                      mkComponent 1 Resistor (qc 1 9007199254740992) 1 2;
                      mkComponent 2 Resistor (qc 1 1) 2 0 ] in
  valid m = true
  /\ is_ok (Linalg.solve (Spec.G m) (Spec.Zvec m)) = true
  /\ FloatSolver.solve (CircuitSolver.__init__ m)
     = FloatSolver.Error singular_message suggestion_text.
Proof. repeat split; vm_compute; reflexivity. Qed.

(** ** Supernodes *)

Section Partition.
Import NodalAnalysis.

Lemma set_add_perm x s : ~ In x s -> Permutation (set_add x s) (x :: s).
Proof.
  induction s as [|y s IH]; intros H; simpl; auto.
  destruct (x <? y)%Z; auto.
  destruct (x =? y)%Z eqn:E.
  - apply Z.eqb_eq in E. subst. exfalso. apply H. now left.
  - eapply perm_trans; [apply perm_skip, IH|apply perm_swap].
    intros Hin. apply H. now right.
Qed.

Lemma set_update_perm xs : forall s,
  NoDup (s ++ xs) -> Permutation (set_update s xs) (s ++ xs).
Proof.
  unfold set_update. induction xs as [|x xs IH]; intros s H; simpl.
  - now rewrite app_nil_r.
  - assert (Hx : ~ In x s).
    { apply NoDup_remove_2 in H. intros Hin. apply H. apply in_or_app. now left. }
    eapply perm_trans; [apply IH|].
    + eapply Permutation_NoDup; [|exact H].
      eapply perm_trans; [apply Permutation_sym, Permutation_middle|].
      change (x :: s ++ xs) with ((x :: s) ++ xs).
      apply Permutation_app_tail. apply Permutation_sym. now apply set_add_perm.
    + eapply perm_trans; [apply Permutation_app_tail, set_add_perm, Hx|].
      apply Permutation_middle.
Qed.

Lemma set_update_absorb xs : forall s,
  ascending s = true -> (forall x, In x xs -> In x s) -> set_update s xs = s.
Proof.
  unfold set_update. induction xs as [|x xs IH]; intros s Hs H; simpl; auto.
  assert (E : set_add x s = s).
  { assert (Hx : In x s) by (apply H; now left).
    clear -Hs Hx. induction s as [|y s IHs]; [destruct Hx|].
    destruct (ascending_cons _ _ Hs) as [Hs' Hlt].
    simpl. destruct (x <? y)%Z eqn:E1.
    - apply Z.ltb_lt in E1. destruct Hx as [->|Hx]; [lia|]. specialize (Hlt x Hx). lia.
    - destruct (x =? y)%Z eqn:E2; auto.
      apply Z.eqb_neq in E2. destruct Hx as [->|Hx]; [lia|]. now rewrite IHs. }
  rewrite E. apply IH; auto. intros y Hy. apply H. now right.
Qed.

Lemma extract_Some x cs cx rest :
  extract x cs = Some (cx, rest) -> In x cx /\ Permutation cs (cx :: rest).
Proof.
  revert cx rest. induction cs as [|c cs IH]; intros cx rest H; simpl in H; try discriminate.
  destruct (set_mem x c) eqn:E.
  - injection H as <- <-. split; auto. now apply set_mem_iff.
  - destruct (extract x cs) as [[cx' rest']|]; try discriminate.
    injection H as <- <-. destruct (IH _ _ eq_refl) as [H1 H2]. split; auto.
    eapply perm_trans; [apply perm_skip, H2|apply perm_swap].
Qed.

Lemma extract_None x cs : extract x cs = None -> ~ In x (concat cs).
Proof.
  induction cs as [|c cs IH]; simpl; intros H; auto.
  destruct (set_mem x c) eqn:E; try discriminate.
  destruct (extract x cs) as [[cx' rest']|]; try discriminate.
  intros Hin. apply in_app_or in Hin. destruct Hin as [Hin|Hin].
  - apply set_mem_iff in Hin. congruence.
  - now apply IH.
Qed.

Lemma concat_perm {A} {l l' : list (list A)} :
  Permutation l l' -> Permutation (concat l) (concat l').
Proof.
  induction 1; simpl; auto.
  - now apply Permutation_app_head.
  - rewrite !app_assoc. apply Permutation_app_tail, Permutation_app_comm.
  - eapply perm_trans; eauto.
Qed.

(** Joining two classes keeps the classes a partition of the same
    vertices. *)
Lemma join_perm u v : forall cs,
  NoDup (concat cs) -> Permutation (concat (join u v cs)) (concat cs).
Proof.
  assert (Hmerge : forall c x cs rest cx,
             NoDup (concat (c :: cs)) -> extract x cs = Some (cx, rest) ->
             Permutation (concat (set_update c cx :: rest)) (concat (c :: cs))).
  { intros c x cs rest cx HN He. destruct (extract_Some _ _ _ _ He) as [_ Hp].
    assert (Hp2 : Permutation (concat (c :: cs)) (c ++ cx ++ concat rest)).
    { simpl. apply Permutation_app_head. apply (concat_perm Hp). }
    simpl. eapply perm_trans; [|apply Permutation_sym, Hp2].
    rewrite app_assoc. apply Permutation_app_tail. apply set_update_perm.
    apply (Permutation_NoDup Hp2) in HN. rewrite app_assoc in HN.
    now apply NoDup_app_remove_r in HN. }
  induction cs as [|c cs IH]; intros HN; simpl; auto.
  destruct (set_mem u c) eqn:Eu.
  - destruct (set_mem v c); auto.
    destruct (extract v cs) as [[cv rest]|] eqn:Ev; auto.
    eapply Hmerge; eauto.
  - destruct (set_mem v c); auto.
    + destruct (extract u cs) as [[cu rest]|] eqn:Ev; auto.
      eapply Hmerge; eauto.
    + simpl. apply Permutation_app_head. apply IH.
      simpl in HN. now apply NoDup_app_remove_l in HN.
Qed.

Lemma concat_singletons (vs : list Z) : concat (map (fun n => [n]) vs) = vs.
Proof. induction vs; simpl; congruence. Qed.

Lemma connected_components_perm vs es :
  NoDup vs -> Permutation (concat (connected_components vs es)) vs.
Proof.
  unfold connected_components.
  assert (H : forall cs, NoDup (concat cs) ->
            Permutation (concat (fold_left (fun cs '(u, v) => join u v cs) es cs)) (concat cs)).
  { induction es as [|[u v] es IH]; intros cs HN; simpl; auto.
    eapply perm_trans; [apply IH|now apply join_perm].
    eapply Permutation_NoDup; [apply Permutation_sym, join_perm|]; auto. }
  intros HN. rewrite <- (concat_singletons vs) at 2. apply H.
  now rewrite concat_singletons.
Qed.

Lemma set_update_incl_l s xs x : In x s -> In x (set_update s xs).
Proof. intros H. apply set_update_In. now right. Qed.

Lemma set_update_incl_r s xs x : In x xs -> In x (set_update s xs).
Proof. intros H. apply set_update_In. now left. Qed.

Lemma join_grows u v : forall cs c,
  In c cs -> exists c', In c' (join u v cs) /\ incl c c'.
Proof.
  assert (Hmerge : forall c0 x cs rest cx c,
            extract x cs = Some (cx, rest) -> In c (c0 :: cs) ->
            exists c', In c' (set_update c0 cx :: rest) /\ incl c c').
  { intros c0 x cs rest cx c He Hin. destruct (extract_Some _ _ _ _ He) as [_ Hp].
    destruct Hin as [<-|Hin].
    - exists (set_update c0 cx). split; [now left|]. intros y. apply set_update_incl_l.
    - apply (Permutation_in _ Hp) in Hin. destruct Hin as [<-|Hin].
      + exists (set_update c0 cx). split; [now left|]. intros y. apply set_update_incl_r.
      + exists c. split; [now right|apply incl_refl]. }
  induction cs as [|c0 cs IH]; intros c Hin; [destruct Hin|].
  simpl. destruct (set_mem u c0) eqn:Eu.
  - destruct (set_mem v c0); [exists c; split; [exact Hin|apply incl_refl]|].
    destruct (extract v cs) as [[cv rest]|] eqn:Ev;
      [eapply Hmerge; eauto | exists c; split; [exact Hin|apply incl_refl]].
  - destruct (set_mem v c0).
    + destruct (extract u cs) as [[cu rest]|] eqn:Ev;
        [eapply Hmerge; eauto | exists c; split; [exact Hin|apply incl_refl]].
    + destruct Hin as [<-|Hin].
      * exists c0. split; [now left|apply incl_refl].
      * destruct (IH c Hin) as (c' & H1 & H2). exists c'. split; [now right|auto].
Qed.

Lemma join_together u v : forall cs,
  In u (concat cs) -> In v (concat cs) -> together u v (join u v cs).
Proof.
  induction cs as [|c cs IH]; intros Hu Hv; [destruct Hu|].
  simpl in Hu, Hv. apply in_app_or in Hu, Hv. simpl.
  destruct (set_mem u c) eqn:Eu.
  - apply set_mem_iff in Eu.
    destruct (set_mem v c) eqn:Ev.
    + apply set_mem_iff in Ev. exists c. split; [now left|auto].
    + destruct (extract v cs) as [[cv rest]|] eqn:Ex.
      * destruct (extract_Some _ _ _ _ Ex) as [Hvin _].
        exists (set_update c cv). split; [now left|].
        split; [now apply set_update_incl_l|now apply set_update_incl_r].
      * exfalso. apply extract_None in Ex. destruct Hv as [Hv|Hv]; auto.
        apply set_mem_iff in Hv. congruence.
  - destruct (set_mem v c) eqn:Ev.
    + apply set_mem_iff in Ev.
      destruct (extract u cs) as [[cu rest]|] eqn:Ex.
      * destruct (extract_Some _ _ _ _ Ex) as [Huin _].
        exists (set_update c cu). split; [now left|].
        split; [now apply set_update_incl_r|now apply set_update_incl_l].
      * exfalso. apply extract_None in Ex. destruct Hu as [Hu|Hu]; auto.
        apply set_mem_iff in Hu. congruence.
    + destruct Hu as [Hu|Hu]; [apply set_mem_iff in Hu; congruence|].
      destruct Hv as [Hv|Hv]; [apply set_mem_iff in Hv; congruence|].
      destruct (IH Hu Hv) as (c' & H1 & H2). exists c'. split; [now right|auto].
Qed.

Lemma together_join a b u v cs : together u v cs -> together u v (join a b cs).
Proof.
  intros (c & Hc & Hu & Hv). destruct (join_grows a b cs c Hc) as (c' & H1 & H2).
  exists c'. split; auto.
Qed.

Lemma connected_components_together vs es u v :
  NoDup vs -> In (u, v) es -> In u vs -> In v vs ->
  together u v (connected_components vs es).
Proof.
  unfold connected_components. intros HN Hin Hu Hv.
  assert (H : forall cs, NoDup (concat cs) -> In u (concat cs) -> In v (concat cs) ->
            together u v (fold_left (fun cs '(u, v) => join u v cs) es cs)).
  { clear HN Hu Hv. induction es as [|[a b] es IH]; intros cs HN Hu Hv; [destruct Hin|].
    assert (Hmono : forall cs', together u v cs' ->
              together u v (fold_left (fun cs '(u, v) => join u v cs) es cs')).
    { clear. induction es as [|[a b] es IH]; intros cs' H; simpl; auto.
      apply IH. now apply together_join. }
    simpl. destruct Hin as [E|Hin].
    - injection E as -> ->. apply Hmono. now apply join_together.
    - apply IH; auto.
      + eapply Permutation_NoDup; [apply Permutation_sym, join_perm|]; auto.
      + eapply Permutation_in; [apply Permutation_sym, join_perm|]; auto.
      + eapply Permutation_in; [apply Permutation_sym, join_perm|]; auto. }
  apply H; rewrite concat_singletons; auto.
Qed.

End Partition.

(** ** Counting equations *)

Section Counting.
Import NodalAnalysis.

Lemma filter_perm {A} (f : A -> bool) {l l'} :
  Permutation l l' -> Permutation (filter f l) (filter f l').
Proof.
  induction 1; simpl; auto.
  - destruct (f x); auto.
  - destruct (f x), (f y); auto. apply perm_swap.
  - eapply perm_trans; eauto.
Qed.

Lemma filter_split_perm {A} (f : A -> bool) l :
  Permutation l (filter f l ++ filter (fun x => negb (f x)) l).
Proof.
  induction l as [|x l IH]; simpl; auto.
  destruct (f x); simpl; auto. now apply Permutation_cons_app.
Qed.

Lemma filter_all_false {A} (f : A -> bool) l :
  (forall x, In x l -> f x = false) -> filter f l = [].
Proof.
  induction l as [|x l IH]; intros H; simpl; auto.
  rewrite H by now left. apply IH. intros y Hy. apply H. now right.
Qed.

Lemma filter_all_true {A} (f : A -> bool) l :
  (forall x, In x l -> f x = true) -> filter f l = l.
Proof.
  induction l as [|x l IH]; intros H; simpl; auto.
  rewrite H by now left. f_equal. apply IH. intros y Hy. apply H. now right.
Qed.

Lemma filter_filter {A} (f g : A -> bool) l :
  filter f (filter g l) = filter (fun x => g x && f x) l.
Proof.
  induction l as [|x l IH]; simpl; auto.
  destruct (g x); simpl; [destruct (f x)|]; now rewrite IH.
Qed.

Lemma NoDup_concat_elem (L : list (list Z)) c : NoDup (concat L) -> In c L -> NoDup c.
Proof.
  induction L as [|c0 L IH]; intros HN Hin; [destruct Hin|].
  simpl in HN. destruct Hin as [<-|Hin].
  - now apply NoDup_app_remove_r in HN.
  - apply IH; auto. now apply NoDup_app_remove_l in HN.
Qed.

Lemma length_filter_neq (x : Z) l :
  NoDup l -> (length l <= S (length (filter (fun n => negb (n =? x)%Z) l)))%nat.
Proof.
  induction 1 as [|y l Hy HN IH]; simpl; [lia|].
  destruct (y =? x)%Z eqn:E; simpl; [|lia].
  apply Z.eqb_eq in E. subst y.
  rewrite filter_all_true; [lia|].
  intros z Hz. apply negb_true_iff, Z.eqb_neq. intros ->. contradiction.
Qed.

(** Every supernode holds a non-reference node beyond the one KCL
    equation an ungrounded supernode is counted for. *)
Lemma supernode_weight ref (L : list (list Z)) :
  (forall sn, In sn L -> NoDup sn /\ (2 <= length sn)%nat) ->
  (length (filter (floating ref) L) + length L
   <= length (filter (away_from ref) (concat L)))%nat.
Proof.
  induction L as [|sn L IH]; intros H; simpl; [lia|].
  destruct (H sn (or_introl eq_refl)) as [HN HL].
  specialize (IH (fun s Hs => H s (or_intror Hs))).
  rewrite filter_app, length_app.
  unfold floating at 1. destruct (set_mem ref sn) eqn:E; simpl.
  - pose proof (length_filter_neq ref sn HN). unfold away_from at 1. lia.
  - rewrite (filter_all_true (away_from ref) sn); [lia|].
    intros z Hz. apply negb_true_iff, Z.eqb_neq. intros ->.
    apply set_mem_iff in Hz. congruence.
Qed.

Lemma two_elements (c : list Z) u v : In u c -> In v c -> u <> v -> (2 <= length c)%nat.
Proof.
  destruct c as [|a [|b c]]; simpl; intros Hu Hv Hne; lia.
Qed.

Section Count.
Variable m : CircuitModel.t.
Hypothesis Hwf : well_formed m = true.

Let ref := CircuitModel.reference_node m.
Let vss := filter (fun c => isinstance c VoltageSource) (CircuitModel.values m).
Let es := map (fun vs => (node1 vs, node2 vs)) vss.
Let classes := connected_components (CircuitModel.nodes m) es.
Let SN := filter big classes.
Let SM := filter (fun c => negb (big c)) classes.
Let in_SN (n : Z) := existsb (fun sn => set_mem n sn) SN.

Lemma vs_nodes_eq :
  set_update (CircuitModel.nodes m) (flat_map (fun '(u, v) => [u; v]) es)
  = CircuitModel.nodes m.
Proof.
  apply set_update_absorb; [now apply wf_ascending|].
  intros x Hx. apply in_flat_map in Hx. destruct Hx as ([u v] & Huv & Hx).
  unfold es in Huv. apply in_map_iff in Huv. destruct Huv as (vs & E & Hvs).
  injection E as <- <-. unfold vss in Hvs. apply filter_In in Hvs.
  destruct (wf_terminals _ _ Hwf (proj1 Hvs)) as [H1 H2].
  destruct Hx as [<-|[<-|[]]]; auto.
Qed.

Lemma supernodes_eq : supernodes (NodalAnalysis.__init__ m) = SN.
Proof.
  unfold NodalAnalysis.__init__. cbn [supernodes]. unfold _find_supernodes.
  fold vss. fold es. rewrite vs_nodes_eq. reflexivity.
Qed.

Lemma nodes_NoDup : NoDup (CircuitModel.nodes m).
Proof. apply ascending_NoDup. now apply wf_ascending. Qed.

Lemma classes_perm : Permutation (CircuitModel.nodes m) (concat SN ++ concat SM).
Proof.
  eapply perm_trans; [apply Permutation_sym, (connected_components_perm _ es nodes_NoDup)|].
  fold classes. rewrite <- concat_app. apply concat_perm. apply filter_split_perm.
Qed.

Lemma classes_NoDup : NoDup (concat SN ++ concat SM).
Proof. eapply Permutation_NoDup; [apply classes_perm|apply nodes_NoDup]. Qed.

Lemma in_SN_true n : In n (concat SN) -> in_SN n = true.
Proof.
  intros H. apply in_concat in H. destruct H as (sn & Hsn & Hn).
  unfold in_SN. apply existsb_exists. exists sn. split; auto. now apply set_mem_iff.
Qed.

Lemma in_SN_false n : In n (concat SM) -> in_SN n = false.
Proof.
  intros H. destruct (in_SN n) eqn:E; auto. exfalso.
  unfold in_SN in E. apply existsb_exists in E. destruct E as (sn & Hsn & Hn).
  apply set_mem_iff in Hn.
  pose proof classes_NoDup as HN.
  assert (Hc : In n (concat SN)) by (apply in_concat; eauto).
  clear -HN Hc H. induction (concat SN) as [|a l IH]; [destruct Hc|].
  simpl in HN. inversion HN as [|? ? Ha HN']; subst.
  destruct Hc as [->|Hc]; auto. apply Ha. apply in_or_app. now right.
Qed.

Lemma supernode_facts sn : In sn SN -> NoDup sn /\ (2 <= length sn)%nat.
Proof.
  intros H. split.
  - apply (NoDup_concat_elem SN); auto.
    pose proof classes_NoDup as HN. now apply NoDup_app_remove_r in HN.
  - unfold SN in H. apply filter_In in H. destruct H as [_ H].
    unfold big in H. apply Nat.ltb_lt in H. lia.
Qed.

Lemma non_ref_split :
  length (CircuitModel.get_non_reference_nodes m)
  = (length (filter (fun n => negb (in_SN n)) (CircuitModel.get_non_reference_nodes m))
     + length (filter (away_from ref) (concat SN)))%nat.
Proof.
  change (CircuitModel.get_non_reference_nodes m) with (Spec.unknown_nodes m).
  rewrite unknown_nodes_eq by auto. fold ref. fold (away_from ref).
  rewrite filter_filter.
  rewrite (Permutation_length (filter_perm (away_from ref) classes_perm)).
  rewrite (Permutation_length
             (filter_perm (fun x => away_from ref x && negb (in_SN x)) classes_perm)).
  rewrite !filter_app, !length_app.
  rewrite (filter_all_false (fun x => away_from ref x && negb (in_SN x)) (concat SN)).
  2:{ intros x Hx. cbv beta. rewrite (in_SN_true x Hx). apply andb_false_r. }
  rewrite (filter_ext_in (fun x => away_from ref x && negb (in_SN x)) (away_from ref)
             (concat SM)).
  2:{ intros x Hx. cbv beta. rewrite (in_SN_false x Hx). apply andb_true_r. }
  simpl. lia.
Qed.

(** KCL count against the number of non-reference nodes. *)
Lemma kcl_count_bound :
  (s_num_kcl_equations (analyze m) + length (s_supernodes (analyze m))
   <= s_num_non_reference_nodes (analyze m))%nat.
Proof.
  unfold analyze, get_analysis_summary, _analyze.
  cbn [s_num_kcl_equations s_supernodes s_num_non_reference_nodes].
  rewrite supernodes_eq.
  unfold NodalAnalysis.__init__. cbn [non_ref_nodes model].
  rewrite non_ref_split. fold ref. unfold in_SN.
  pose proof (supernode_weight ref SN supernode_facts) as HW.
  unfold floating in HW. lia.
Qed.

Lemma no_source_no_supernode : vss = [] -> SN = [].
Proof.
  intros H. unfold SN, classes, es. rewrite H. simpl.
  unfold connected_components. simpl.
  apply filter_all_false. intros c Hc. apply in_map_iff in Hc.
  now destruct Hc as (x & <- & _).
Qed.

Lemma source_makes_supernode vs :
  In vs vss -> node1 vs <> node2 vs -> SN <> [].
Proof.
  intros Hvs Hne.
  assert (Hin : In vs (CircuitModel.values m)) by (apply filter_In in Hvs; tauto).
  destruct (wf_terminals _ _ Hwf Hin) as [H1 H2].
  destruct (connected_components_together (CircuitModel.nodes m) es (node1 vs) (node2 vs))
    as (c & Hc & Hu & Hv); auto using nodes_NoDup.
  { unfold es. apply in_map_iff. eauto. }
  intros E. assert (Hs : In c SN).
  { unfold SN. apply filter_In. split; auto. unfold big. apply Nat.ltb_lt.
    pose proof (two_elements c _ _ Hu Hv Hne). lia. }
  rewrite E in Hs. destruct Hs.
Qed.
End Count.

Lemma valid_wf m : valid m = true -> well_formed m = true.
Proof. unfold valid. intros H. apply andb_prop in H. destruct H as [H _]. apply andb_prop in H. tauto. Qed.

Lemma valid_distinct m c : valid m = true -> In c (CircuitModel.values m) -> node1 c <> node2 c.
Proof.
  unfold valid. intros H Hin. apply andb_prop in H. destruct H as [_ H].
  rewrite forallb_forall in H. specialize (H c Hin). apply andb_prop in H.
  destruct H as [H _]. now apply Z.eqb_neq, negb_true_iff.
Qed.

(** C2 (as stated) fails on the one-source, one-resistor circuit: its
    only non-reference node lies in the grounded supernode [{0, 1}], so
    no KCL equation is counted for one unknown node voltage, and the
    one equation reported in total faces two unknowns. *)
Lemma equation_count_differs :
  exists m, CircuitModel.of_components scenario1 (PInt 0) = Ok m /\
    valid m = true /\
    (length (s_regular_nodes (analyze m)) + length (s_ungrounded_supernodes (analyze m))
     <> length (s_non_reference_nodes (analyze m)))%nat /\
    (s_total_equations (analyze m)
     <> length (s_non_reference_nodes (analyze m)) + s_num_voltage_sources (analyze m))%nat.
Proof.
  eexists. split; [vm_compute; reflexivity|]. split; [vm_compute; reflexivity|].
  split; vm_compute; discriminate.
Qed.

(** C2 (amended): for every valid circuit the number of KCL equations
    the analyzer reports, |regular_nodes| + |ungrounded_supernodes|, is
    at most |non_reference_nodes| minus the number of supernodes; it
    equals |non_reference_nodes| exactly when the circuit has no voltage
    source.  The total the analyzer reports is this number plus the
    number of voltage sources. *)
Theorem kcl_count_vs_unknowns (m : CircuitModel.t) :
  valid m = true ->
  (length (s_regular_nodes (analyze m)) + length (s_ungrounded_supernodes (analyze m))
   + length (s_supernodes (analyze m))
   <= length (s_non_reference_nodes (analyze m)))%nat
  /\ ((length (s_regular_nodes (analyze m)) + length (s_ungrounded_supernodes (analyze m))
       = length (s_non_reference_nodes (analyze m)))%nat
      <-> s_num_voltage_sources (analyze m) = 0%nat)
  /\ (s_total_equations (analyze m)
      = length (s_regular_nodes (analyze m)) + length (s_ungrounded_supernodes (analyze m))
        + s_num_voltage_sources (analyze m))%nat.
Proof.
  intros Hv. pose proof (valid_wf m Hv) as Hwf.
  cut (((length (s_regular_nodes (analyze m)) + length (s_ungrounded_supernodes (analyze m))
         + length (s_supernodes (analyze m))
         <= length (s_non_reference_nodes (analyze m)))%nat
        /\ ((length (s_regular_nodes (analyze m))
              + length (s_ungrounded_supernodes (analyze m))
             = length (s_non_reference_nodes (analyze m)))%nat
            <-> s_num_voltage_sources (analyze m) = 0%nat))).
  { intros [H1 H2]. split; [exact H1|]. split; [exact H2|]. reflexivity. }
  pose proof (kcl_count_bound m Hwf) as Hb.
  assert (Hb' : (length (s_regular_nodes (analyze m))
                 + length (s_ungrounded_supernodes (analyze m))
                 + length (s_supernodes (analyze m))
                 <= length (s_non_reference_nodes (analyze m)))%nat) by exact Hb.
  split; [exact Hb'|].
  assert (Hsn : s_supernodes (analyze m)
                = filter big (connected_components (CircuitModel.nodes m)
                    (map (fun vs => (node1 vs, node2 vs))
                       (filter (fun c => isinstance c VoltageSource) (CircuitModel.values m))))).
  { apply (supernodes_eq m Hwf). }
  split.
  - intros E.
    assert (H0 : s_supernodes (analyze m) = []).
    { destruct (s_supernodes (analyze m)) as [|a l] eqn:Es; auto.
      cbn [length] in Hb'. lia. }
    change (s_num_voltage_sources (analyze m))
      with (length (filter (fun c => isinstance c VoltageSource) (CircuitModel.values m))).
    destruct (filter (fun c => isinstance c VoltageSource) (CircuitModel.values m))
      as [|vs l] eqn:Evs; auto.
    exfalso. rewrite Hsn in H0. revert H0. rewrite <- Evs in *.
    apply (source_makes_supernode m Hwf vs).
    + rewrite Evs. now left.
    + apply (valid_distinct m); auto.
      assert (Hin : In vs (filter (fun c => isinstance c VoltageSource) (CircuitModel.values m)))
        by (rewrite Evs; now left).
      apply filter_In in Hin. tauto.
  - intros E.
    change (s_num_voltage_sources (analyze m))
      with (length (filter (fun c => isinstance c VoltageSource) (CircuitModel.values m))) in E.
    apply length_zero_iff_nil in E.
    pose proof (no_source_no_supernode m E) as H0. rewrite <- Hsn in H0.
    unfold analyze, get_analysis_summary, _analyze in *.
    cbn [s_regular_nodes s_ungrounded_supernodes s_non_reference_nodes s_supernodes] in *.
    rewrite H0. simpl. rewrite filter_all_true by (intros; reflexivity). lia.
Qed.

Lemma kcl_count_vs_unknowns_witness :
  exists m, CircuitModel.of_components scenario5 (PInt 0) = Ok m /\
    valid m = true /\
    (length (s_regular_nodes (analyze m)) + length (s_ungrounded_supernodes (analyze m))
     + length (s_supernodes (analyze m))
     <= length (s_non_reference_nodes (analyze m)))%nat.
Proof.
  exists (model_of scenario5). split; [vm_compute; reflexivity|].
  split; [vm_compute; reflexivity|].
  apply (kcl_count_vs_unknowns (model_of scenario5)). vm_compute. reflexivity.
Defined.

End Counting.

(** ** Sums *)

Lemma sumQ_app l1 l2 : sumQ (l1 ++ l2) = sumQ l1 + sumQ l2.
Proof. induction l1 as [|x l1 IH]; simpl; [ring|rewrite IH; ring]. Qed.

Lemma sumQ_map_plus {A} (f g : A -> Qc) l :
  sumQ (map (fun x => f x + g x) l) = sumQ (map f l) + sumQ (map g l).
Proof. induction l as [|x l IH]; simpl; [ring|rewrite IH; ring]. Qed.

Lemma sumQ_map_scale {A} (c : Qc) (f : A -> Qc) l :
  sumQ (map (fun x => c * f x) l) = c * sumQ (map f l).
Proof. induction l as [|x l IH]; simpl; [ring|rewrite IH; ring]. Qed.

Lemma sumQ_map_ext {A} (f g : A -> Qc) l :
  (forall x, In x l -> f x = g x) -> sumQ (map f l) = sumQ (map g l).
Proof.
  induction l as [|x l IH]; intros H; simpl; auto.
  rewrite H by now left. rewrite IH; auto. intros y Hy. apply H. now right.
Qed.

Lemma sumQ_swap {A B} (f : A -> B -> Qc) l1 l2 :
  sumQ (map (fun x => sumQ (map (fun y => f x y) l2)) l1)
  = sumQ (map (fun y => sumQ (map (fun x => f x y) l1)) l2).
Proof.
  induction l1 as [|x l1 IH]; simpl.
  - symmetry. apply sumQ_zero. reflexivity.
  - rewrite IH. now rewrite <- sumQ_map_plus.
Qed.

Lemma sumQ_perm {l l'} : Permutation l l' -> sumQ l = sumQ l'.
Proof.
  induction 1; simpl; auto; try ring.
  - rewrite IHPermutation. ring.
  - congruence.
Qed.

Lemma sumQ_at1_upto (a n : nat) (f : nat -> Qc) :
  sumQ (map (fun j => Spec.at1 a j * f j) (seq 0 n)) = if (a <? n)%nat then f a else 0.
Proof.
  induction n as [|n IH].
  - reflexivity.
  - rewrite seq_S, map_app, sumQ_app, IH. cbn [map sumQ Nat.add]. unfold Spec.at1.
    destruct (Nat.eqb_spec n a); destruct (Nat.ltb_spec a n);
      destruct (Nat.ltb_spec a (S n)); subst; try lia; ring.
Qed.

Lemma sumQ_at1 (a n : nat) (f : nat -> Qc) :
  (a < n)%nat -> sumQ (map (fun j => Spec.at1 a j * f j) (seq 0 n)) = f a.
Proof.
  intros Ha. rewrite sumQ_at1_upto. apply Nat.ltb_lt in Ha. now rewrite Ha.
Qed.

Lemma dot_tab n (f : nat -> Qc) (X : vector) :
  length X = n ->
  dot (tab n f) X = sumQ (map (fun j => f j * nth j X 0) (seq 0 n)).
Proof.
  unfold tab. intros HL.
  assert (H : forall k (Y : vector), length Y = n ->
            dot (map f (seq k n)) Y = sumQ (map (fun j => f j * nth (j - k) Y 0) (seq k n))).
  { clear HL X. induction n as [|n IH]; intros k Y HY; simpl; auto.
    destruct Y as [|y Y]; [discriminate|]. simpl in HY.
    rewrite Nat.sub_diag. simpl. f_equal.
    rewrite (IH (S k) Y) by lia.
    apply sumQ_map_ext. intros j Hj. apply in_seq in Hj.
    replace (j - k)%nat with (S (j - S k)) by lia. reflexivity. }
  rewrite (H 0%nat X HL). apply sumQ_map_ext. intros j _. now rewrite Nat.sub_0_r.
Qed.

(** ** The rows of the stamped system *)

Lemma resistor_G_inc m r p q :
  Spec.resistor_G m r p q = 1 / value r * inc m r p * inc m r q.
Proof.
  unfold Spec.resistor_G, inc.
  destruct (Spec.idx m (node1 r)) as [i|]; destruct (Spec.idx m (node2 r)) as [j|];
    at_cases.
Qed.

Lemma source_G_inc m k vs p q :
  Spec.source_G m k vs p q
  = inc m vs p * Spec.at1 (Spec.N m + k) q + Spec.at1 (Spec.N m + k) p * inc m vs q.
Proof.
  unfold Spec.source_G, inc.
  destruct (Spec.idx m (node1 vs)) as [i|]; destruct (Spec.idx m (node2 vs)) as [j|];
    at_cases.
Qed.

Lemma current_Z_inc m c p : Spec.current_Z m c p = - (value c * inc m c p).
Proof.
  unfold Spec.current_Z, inc.
  destruct (Spec.idx m (node1 c)) as [i|]; destruct (Spec.idx m (node2 c)) as [j|]; ring.
Qed.

Lemma inc_outside m c i : (Spec.N m <= i)%nat -> inc m c i = 0.
Proof.
  intros H. unfold inc.
  destruct (Spec.idx m (node1 c)) as [a|] eqn:E1;
    destruct (Spec.idx m (node2 c)) as [b|] eqn:E2;
    try (apply idx_Some in E1); try (apply idx_Some in E2); at_cases.
Qed.

Lemma sum_inc m c (X : vector) n :
  (Spec.N m <= n)%nat ->
  sumQ (map (fun j => inc m c j * nth j X 0) (seq 0 n)) = vdrop m X c.
Proof.
  intros Hn. unfold inc, vdrop, node_voltage.
  rewrite (sumQ_map_ext _ (fun j =>
     (match Spec.idx m (node1 c) with
      | Some a => Spec.at1 a j * nth j X 0 | None => 0 end)
     + - (match Spec.idx m (node2 c) with
          | Some b => Spec.at1 b j * nth j X 0 | None => 0 end))).
  2:{ intros j _. destruct (Spec.idx m (node1 c)); destruct (Spec.idx m (node2 c)); ring. }
  rewrite sumQ_map_plus.
  assert (H : forall o, sumQ (map (fun j => match o with
                                           | Some a => Spec.at1 a j * nth j X 0
                                           | None => 0 end) (seq 0 n))
                        = match o with Some a => (if (a <? n)%nat then nth a X 0 else 0)
                                  | None => 0 end).
  { intros [a|].
    - destruct (a <? n)%nat eqn:E.
      + apply Nat.ltb_lt in E. now rewrite (sumQ_at1 a n (fun j => nth j X 0)).
      + apply Nat.ltb_ge in E. apply sumQ_zero. intros j Hj. apply in_seq in Hj.
        unfold Spec.at1. destruct (j =? a)%nat eqn:E2; [apply Nat.eqb_eq in E2; lia|ring].
    - apply sumQ_zero. reflexivity. }
  rewrite H.
  rewrite (sumQ_map_ext _ (fun j => (- (1)) *
     (match Spec.idx m (node2 c) with
      | Some b => Spec.at1 b j * nth j X 0 | None => 0 end))) by (intros; ring).
  rewrite sumQ_map_scale, H.
  destruct (Spec.idx m (node1 c)) as [a|] eqn:E1;
    destruct (Spec.idx m (node2 c)) as [b|] eqn:E2; simpl;
    try (apply idx_Some in E1; assert (Ha : (a <? n)%nat = true) by (apply Nat.ltb_lt; lia);
         rewrite Ha);
    try (apply idx_Some in E2; assert (Hb : (b <? n)%nat = true) by (apply Nat.ltb_lt; lia);
         rewrite Hb); ring.
Qed.

Lemma enumerate_bound {A} (l : list A) k0 k x :
  In (k, x) (enumerate_from k0 l) -> (k0 <= k < k0 + length l)%nat /\ nth_error l (k - k0) = Some x.
Proof.
  revert k0. induction l as [|y l IH]; intros k0 H; simpl in *; [destruct H|].
  destruct H as [E|H].
  - injection E as <- <-. rewrite Nat.sub_diag. split; [lia|reflexivity].
  - destruct (IH _ H) as [H1 H2]. split; [lia|].
    replace (k - k0)%nat with (S (k - S k0)) by lia. exact H2.
Qed.

Lemma G_row_dot m (X : vector) p :
  length X = (Spec.N m + Spec.M m)%nat ->
  sumQ (map (fun q => Spec.G_entry m p q * nth q X 0) (seq 0 (Spec.N m + Spec.M m)))
  = row_form m X p.
Proof.
  intros HL. set (n := (Spec.N m + Spec.M m)%nat).
  unfold Spec.G_entry, row_form.
  rewrite (sumQ_map_ext _ (fun q =>
     sumQ (map (fun r => Spec.resistor_G m r p q * nth q X 0)
               (filter is_resistor (CircuitModel.values m)))
     + sumQ (map (fun kv : nat * Component =>
                    Spec.source_G m (fst kv) (snd kv) p q * nth q X 0)
                 (enumerate (Spec.sources m))))).
  2:{ intros q _. rewrite Qcmult_plus_distr_l. f_equal.
      - rewrite Qcmult_comm, <- sumQ_map_scale. apply sumQ_map_ext. intros; ring.
      - rewrite Qcmult_comm, <- sumQ_map_scale. apply sumQ_map_ext.
        intros [k vs] _. simpl. ring. }
  rewrite sumQ_map_plus. f_equal.
  - rewrite (sumQ_swap (fun q r => Spec.resistor_G m r p q * nth q X 0)).
    apply sumQ_map_ext. intros r _.
    rewrite (sumQ_map_ext _ (fun q => (1 / value r * inc m r p) * (inc m r q * nth q X 0))).
    2:{ intros q _. rewrite resistor_G_inc. ring. }
    rewrite sumQ_map_scale, sum_inc by (unfold n; lia). ring.
  - rewrite (sumQ_swap (fun q (kv : nat * Component) =>
                          Spec.source_G m (fst kv) (snd kv) p q * nth q X 0)).
    apply sumQ_map_ext. intros [k vs] Hk. simpl.
    apply enumerate_bound in Hk. destruct Hk as [Hk _]. unfold Spec.M in n.
    rewrite (sumQ_map_ext _ (fun q =>
       inc m vs p * (Spec.at1 (Spec.N m + k) q * nth q X 0)
       + Spec.at1 (Spec.N m + k) p * (inc m vs q * nth q X 0))).
    2:{ intros q _. rewrite source_G_inc. ring. }
    rewrite sumQ_map_plus, !sumQ_map_scale.
    rewrite (sumQ_at1 (Spec.N m + k) n (fun j => nth j X 0)) by (unfold n; simpl in Hk; lia).
    rewrite sum_inc by (unfold n; lia). reflexivity.
Qed.

Lemma matvec_G_nth m (X : vector) p :
  length X = (Spec.N m + Spec.M m)%nat -> (p < Spec.N m + Spec.M m)%nat ->
  nth p (matvec (Spec.G m) X) 0 = row_form m X p.
Proof.
  intros HL Hp. unfold matvec, Spec.G, mtab, tab.
  rewrite map_map.
  rewrite (nth_indep _ 0 ((fun x => dot (map (Spec.G_entry m x) (seq 0 (Spec.N m + Spec.M m))) X) 0%nat))
    by (rewrite length_map, length_seq; lia).
  rewrite (map_nth (fun x => dot (map (Spec.G_entry m x) (seq 0 (Spec.N m + Spec.M m))) X)).
  rewrite seq_nth by lia. simpl.
  fold (tab (Spec.N m + Spec.M m) (Spec.G_entry m p)).
  rewrite dot_tab by auto. now apply G_row_dot.
Qed.

(** ** Conservation of power *)

Lemma weighted_swap {A} (w : nat -> Qc) (F : A -> nat -> Qc) l ixs :
  sumQ (map (fun i => w i * sumQ (map (fun c => F c i) l)) ixs)
  = sumQ (map (fun c => sumQ (map (fun i => w i * F c i) ixs)) l).
Proof.
  rewrite (sumQ_map_ext _ (fun i => sumQ (map (fun c => w i * F c i) l))).
  2:{ intros i _. now rewrite sumQ_map_scale. }
  apply (sumQ_swap (fun i c => w i * F c i)).
Qed.

Lemma Z_entry_form m p :
  Spec.Z_entry m p
  = - sumQ (map (fun c => value c * inc m c p) (filter is_cs (CircuitModel.values m)))
    + sumQ (map (fun '(k, vs) => value vs * Spec.at1 (Spec.N m + k) p)
                (enumerate (Spec.sources m))).
Proof.
  unfold Spec.Z_entry. f_equal.
  rewrite (sumQ_map_ext _ (fun c => (- (1)) * (value c * inc m c p))).
  2:{ intros c _. rewrite current_Z_inc. ring. }
  rewrite sumQ_map_scale. ring.
Qed.

Section Tellegen.
Variable m : CircuitModel.t.
Variable X : vector.
Hypothesis HL : length X = (Spec.N m + Spec.M m)%nat.
Hypothesis HX : matvec (Spec.G m) X = Spec.Zvec m.

Lemma row_eq p : (p < Spec.N m + Spec.M m)%nat -> row_form m X p = Spec.Z_entry m p.
Proof.
  intros Hp. rewrite <- (matvec_G_nth m X p HL Hp), HX.
  unfold Spec.Zvec. now rewrite nth_tab.
Qed.

Let rs := filter is_resistor (CircuitModel.values m).
Let css := filter is_cs (CircuitModel.values m).
Let vse := enumerate (Spec.sources m).
Let x (i : nat) := nth i X 0.
Let rows := seq 0 (Spec.N m).

Lemma above_N k : sumQ (map (fun i => x i * Spec.at1 (Spec.N m + k) i) rows) = 0.
Proof.
  apply sumQ_zero. intros i Hi. apply in_seq in Hi. unfold Spec.at1.
  destruct (Nat.eqb_spec i (Spec.N m + k)); [lia|ring].
Qed.

Lemma weighted_inc c : sumQ (map (fun i => x i * inc m c i) rows) = vdrop m X c.
Proof.
  rewrite <- (sum_inc m c X (Spec.N m)) by lia.
  apply sumQ_map_ext. intros; unfold x; ring.
Qed.

(** Tellegen's identity for the stamped system. *)
Lemma power_balance :
  sumQ (map (fun r => vdrop m X r * (vdrop m X r / value r)) rs)
  + sumQ (map (fun '(k, vs) => vdrop m X vs * x (Spec.N m + k)) vse)
  + sumQ (map (fun c => vdrop m X c * value c) css) = 0.
Proof.
  assert (H0 : sumQ (map (fun i => x i * (row_form m X i - Spec.Z_entry m i)) rows) = 0).
  { apply sumQ_zero. intros i Hi. apply in_seq in Hi. rewrite row_eq by lia. ring. }
  rewrite <- H0.
  rewrite (sumQ_map_ext _ (fun i =>
     x i * sumQ (map (fun r => 1 / value r * vdrop m X r * inc m r i) rs)
     + (x i * sumQ (map (fun kv : nat * Component =>
                           inc m (snd kv) i * x (Spec.N m + fst kv)
                           + Spec.at1 (Spec.N m + fst kv) i * vdrop m X (snd kv)) vse)
        + (x i * sumQ (map (fun c => value c * inc m c i) css)
           + x i * sumQ (map (fun kv : nat * Component =>
                               (- value (snd kv)) * Spec.at1 (Spec.N m + fst kv) i) vse))))
     rows).
  2:{ intros i _. unfold row_form. rewrite Z_entry_form. fold rs css vse.
      rewrite (sumQ_map_ext (fun r => 1 / value r * inc m r i * vdrop m X r)
                 (fun r => 1 / value r * vdrop m X r * inc m r i)) by (intros; ring).
      rewrite (sumQ_map_ext (fun '(k, vs) => inc m vs i * nth (Spec.N m + k) X 0
                                             + Spec.at1 (Spec.N m + k) i * vdrop m X vs)
                 (fun kv : nat * Component =>
                    inc m (snd kv) i * x (Spec.N m + fst kv)
                    + Spec.at1 (Spec.N m + fst kv) i * vdrop m X (snd kv)))
        by (intros [k vs] _; reflexivity).
      rewrite (sumQ_map_ext (fun kv : nat * Component =>
                               (- value (snd kv)) * Spec.at1 (Spec.N m + fst kv) i)
                 (fun kv => (- (1)) * (let '(k, vs) := kv in
                                       value vs * Spec.at1 (Spec.N m + k) i)))
        by (intros [k vs] _; simpl; ring).
      rewrite (sumQ_map_scale (- (1))). ring. }
  rewrite !sumQ_map_plus, !weighted_swap.
  assert (E1 : sumQ (map (fun c => sumQ (map (fun i =>
                      x i * (1 / value c * vdrop m X c * inc m c i)) rows)) rs)
               = sumQ (map (fun r => vdrop m X r * (vdrop m X r / value r)) rs)).
  { apply sumQ_map_ext. intros r _.
    rewrite (sumQ_map_ext _ (fun i => (1 / value r * vdrop m X r) * (x i * inc m r i)))
      by (intros; ring).
    rewrite sumQ_map_scale, weighted_inc. unfold Qcdiv. ring. }
  assert (E2 : sumQ (map (fun c : nat * Component => sumQ (map (fun i =>
                      x i * (inc m (snd c) i * x (Spec.N m + fst c)
                             + Spec.at1 (Spec.N m + fst c) i * vdrop m X (snd c)))
                      rows)) vse)
               = sumQ (map (fun '(k, vs) => vdrop m X vs * x (Spec.N m + k)) vse)).
  { apply sumQ_map_ext. intros [k vs] _. cbn [fst snd].
    rewrite (sumQ_map_ext _ (fun i => x (Spec.N m + k) * (x i * inc m vs i)
                                      + vdrop m X vs * (x i * Spec.at1 (Spec.N m + k) i)))
      by (intros; ring).
    rewrite sumQ_map_plus, !sumQ_map_scale, weighted_inc, above_N. ring. }
  assert (E3 : sumQ (map (fun c => sumQ (map (fun i =>
                      x i * (value c * inc m c i)) rows)) css)
               = sumQ (map (fun c => vdrop m X c * value c) css)).
  { apply sumQ_map_ext. intros c _.
    rewrite (sumQ_map_ext _ (fun i => value c * (x i * inc m c i))) by (intros; ring).
    rewrite sumQ_map_scale, weighted_inc. ring. }
  assert (E4 : sumQ (map (fun c : nat * Component => sumQ (map (fun i =>
                      x i * (- value (snd c) * Spec.at1 (Spec.N m + fst c) i)) rows)) vse)
               = 0).
  { apply sumQ_zero. intros [k vs] _. cbn [fst snd].
    rewrite (sumQ_map_ext _ (fun i => (- value vs) * (x i * Spec.at1 (Spec.N m + k) i)))
      by (intros; ring).
    rewrite sumQ_map_scale, above_N. ring. }
  rewrite E1, E2, E3, E4. ring.
Qed.
End Tellegen.

(** ** Packaging of the solution *)

Lemma pos_of_lt u l : (exists c, In c l /\ uid c = u) -> (pos_of u l < length l)%nat.
Proof.
  induction l as [|c l IH]; intros (c' & Hin & Hu); [destruct Hin|].
  simpl. destruct (Nat.eqb_spec (uid c) u); [lia|].
  destruct Hin as [->|Hin]; [congruence|].
  assert (pos_of u l < length l)%nat by (apply IH; eauto). lia.
Qed.

Lemma find_vs_current_pos l : forall k comp (I : vector),
  In comp l ->
  CircuitSolver.find_vs_current (enumerate_from k l) comp I
  = vget I (k + pos_of (uid comp) l).
Proof.
  induction l as [|c l IH]; intros k comp I Hin; [destruct Hin|].
  simpl. destruct (Nat.eqb_spec (uid c) (uid comp)) as [E|E].
  - now rewrite Nat.add_0_r.
  - destruct Hin as [->|Hin]; [congruence|].
    rewrite IH by auto. f_equal. lia.
Qed.

Lemma wf_NoDup_uid m : well_formed m = true -> NoDup (map uid (CircuitModel.values m)).
Proof.
  unfold well_formed. intros H. apply andb_prop in H. destruct H as [H Hd].
  apply andb_prop in H. destruct H as [_ H].
  assert (E : map uid (CircuitModel.values m) = dict_keys (CircuitModel.components m)).
  { unfold CircuitModel.values, dict_values, dict_keys. rewrite map_map.
    apply map_ext_in. intros [k c] Hin. rewrite forallb_forall in H.
    specialize (H _ Hin). simpl in *. apply andb_prop in H. destruct H as [H _].
    apply andb_prop in H. destruct H as [H _]. now apply Nat.eqb_eq. }
  rewrite E. clear -Hd. induction (dict_keys (CircuitModel.components m)) as [|x l IH].
  - constructor.
  - simpl in Hd. apply andb_prop in Hd. destruct Hd as [H1 H2]. constructor; auto.
    intros Hin. apply negb_true_iff in H1.
    assert (existsb (Nat.eqb x) l = true).
    { apply existsb_exists. exists x. split; auto. apply Nat.eqb_refl. }
    congruence.
Qed.

Section Package.
Variable m : CircuitModel.t.
Hypothesis Hwf : well_formed m = true.
Hypothesis Hnz : resistors_nonzero m = true.
Hypothesis Hvs : vs_distinct_terminals m = true.
Notation "'slv'" := (CircuitSolver.__init__ m).

Lemma index_to_node_nth_error k :
  dict_get Nat.eqb (CircuitSolver.index_to_node slv) k = nth_error (Spec.unknown_nodes m) k.
Proof.
  change (CircuitSolver.index_to_node slv)
    with (dict_of_list Nat.eqb (map (fun '(node, i) => (i, node))
                                    (CircuitSolver.node_to_index slv))).
  rewrite (solver_node_to_index m Hwf).
  rewrite map_map.
  rewrite (map_ext _ (fun x => x)) by (intros [i node]; reflexivity).
  rewrite map_id. unfold enumerate.
  rewrite (dict_of_list_id Nat.eqb Neqb_spec) by (rewrite keys_enumerate; apply seq_NoDup).
  apply (dict_get_enumerate (Spec.unknown_nodes m) 0 k).
Qed.

Lemma voltages_loop (Vs : vector) : forall k (acc : dict Z Qc),
  (k + length Vs <= Spec.N m)%nat ->
  exists acc',
    for_each (fun '(i, voltage) voltages =>
                match dict_get Nat.eqb (CircuitSolver.index_to_node slv) i with
                | Some node => Ok (dict_set Z.eqb voltages node voltage)
                | None => Raise (KeyError (str_of_Z (Z.of_nat i)))
                end) (enumerate_from k Vs) acc = Ok acc' /\
    forall n, dict_get Z.eqb acc' n
              = match find_index n (Spec.unknown_nodes m) with
                | Some j => if (k <=? j)%nat && (j <? k + length Vs)%nat
                            then Some (nth (j - k) Vs 0) else dict_get Z.eqb acc n
                | None => dict_get Z.eqb acc n
                end.
Proof.
  induction Vs as [|x Vs IH]; intros k acc Hk.
  - exists acc. split; [reflexivity|]. intros n.
    destruct (find_index n (Spec.unknown_nodes m)) as [j|]; auto.
    destruct (Nat.leb_spec k j); destruct (Nat.ltb_spec j (k + length (@nil Qc))); simpl in *;
      auto; lia.
  - simpl in Hk. cbn [enumerate_from for_each].
    rewrite index_to_node_nth_error.
    destruct (nth_error (Spec.unknown_nodes m) k) as [node|] eqn:En.
    2:{ apply nth_error_None in En. unfold Spec.N in Hk. lia. }
    cbn [bind].
    destruct (IH (S k) (dict_set Z.eqb acc node x)) as (acc' & E & Hget); [lia|].
    exists acc'. split; [exact E|]. intros n. rewrite Hget.
    rewrite (dict_get_set Z.eqb Zeqb_spec).
    pose proof (unknown_nodes_NoDup m Hwf) as HN.
    pose proof (nth_error_nth 0%Z En) as Hnode.
    destruct (find_index n (Spec.unknown_nodes m)) as [j|] eqn:Ej.
    + destruct (find_index_Some _ _ _ Ej) as [Hj Hnj].
      destruct (Nat.eqb_spec j k) as [->|Hjk].
      * assert (E1 : (S k <=? k)%nat = false) by (apply Nat.leb_gt; lia).
        assert (E2 : (k <=? k)%nat = true) by (apply Nat.leb_le; lia).
        assert (E3 : (k <? k + length (x :: Vs))%nat = true)
          by (apply Nat.ltb_lt; simpl; lia).
        rewrite E1, E2, E3. cbn [andb]. rewrite Nat.sub_diag. cbn [nth].
        assert (E4 : (n =? node)%Z = true) by (apply Z.eqb_eq; congruence).
        now rewrite E4.
      * assert (E4 : (n =? node)%Z = false).
        { apply Z.eqb_neq. intros ->. apply Hjk.
          assert (Hk' : find_index node (Spec.unknown_nodes m) = Some k).
          { rewrite <- Hnode. apply find_index_nth; auto.
            apply nth_error_Some. congruence. }
          congruence. }
        rewrite E4.
        destruct (Nat.leb_spec (S k) j); destruct (Nat.ltb_spec j (S k + length Vs));
          destruct (Nat.leb_spec k j); destruct (Nat.ltb_spec j (k + length (x :: Vs)));
          simpl in *; try lia; auto.
        replace (j - k)%nat with (S (j - S k)) by lia. reflexivity.
    + assert (E4 : (n =? node)%Z = false).
      { apply Z.eqb_neq. intros ->.
        assert (Hin : In node (Spec.unknown_nodes m)) by (eapply nth_error_In; eauto).
        destruct (find_index_In _ _ Hin). congruence. }
      now rewrite E4.
Qed.

Lemma voltages_of_ok (X : vector) :
  length X = (Spec.N m + Spec.M m)%nat ->
  exists vd, CircuitSolver.voltages_of slv (firstn (Spec.N m) X) = Ok vd /\
             forall n, CircuitSolver.voltage_at vd n = node_voltage m X n.
Proof.
  intros HL. unfold CircuitSolver.voltages_of.
  assert (HV : length (firstn (Spec.N m) X) = Spec.N m) by (rewrite length_firstn; lia).
  destruct (voltages_loop (firstn (Spec.N m) X) 0
              [(CircuitSolver.ref_node slv, 0)]) as (vd & E & Hget); [lia|].
  exists vd. split; [exact E|]. intros n.
  unfold CircuitSolver.voltage_at. rewrite Hget.
  unfold node_voltage, Spec.idx.
  change (CircuitSolver.ref_node slv) with (CircuitModel.reference_node m).
  simpl dict_get.
  destruct (n =? CircuitModel.reference_node m)%Z eqn:Eref.
  - apply Z.eqb_eq in Eref. subst n.
    destruct (find_index (CircuitModel.reference_node m) (Spec.unknown_nodes m)) as [j|] eqn:Ej;
      auto.
    exfalso. apply find_index_Some in Ej. destruct Ej as [Hj Hn].
    assert (Hin : In (CircuitModel.reference_node m) (Spec.unknown_nodes m)).
    { rewrite <- Hn. now apply nth_In. }
    rewrite unknown_nodes_eq in Hin by auto. apply filter_In in Hin.
    destruct Hin as [_ Hin]. rewrite Z.eqb_refl in Hin. discriminate.
  - destruct (find_index n (Spec.unknown_nodes m)) as [j|] eqn:Ej; auto.
    apply find_index_Some in Ej. destruct Ej as [Hj _]. fold (Spec.N m) in Hj.
    rewrite HV. simpl.
    assert (E1 : (j <? Spec.N m)%nat = true) by (apply Nat.ltb_lt; lia).
    rewrite E1. rewrite Nat.sub_0_r. unfold Xopt.
    rewrite nth_firstn, E1. reflexivity.
Qed.

Lemma nonzero_resistor_value c :
  In c (CircuitModel.values m) -> cls c = Resistor -> value c <> 0.
Proof.
  intros Hin Hc. pose proof Hnz as H. unfold resistors_nonzero in H.
  rewrite forallb_forall in H. specialize (H c Hin).
  unfold is_resistor, isinstance in H. rewrite Hc in H. simpl in H.
  apply negb_true_iff in H. now apply Qc_eqb_false.
Qed.

Lemma calculate_ok (X : vector) vd c :
  length X = (Spec.N m + Spec.M m)%nat ->
  (forall n, CircuitSolver.voltage_at vd n = node_voltage m X n) ->
  In c (CircuitModel.values m) ->
  CircuitSolver._calculate_component_result slv c vd (skipn (Spec.N m) X)
  = Ok (result_of m X c).
Proof.
  intros HL Hvd Hin. unfold CircuitSolver._calculate_component_result.
  rewrite !Hvd. fold (vdrop m X c).
  unfold result_of, power_of, current_of.
  destruct (cls c) eqn:Ec.
  - rewrite py_div_ok by (now apply nonzero_resistor_value). reflexivity.
  - change (CircuitSolver.voltage_sources slv) with (Spec.sources m).
    assert (Hs : In c (Spec.sources m)).
    { apply filter_In. split; auto. unfold is_vs, isinstance. now rewrite Ec. }
    unfold enumerate. rewrite find_vs_current_pos by auto.
    assert (Hp : (pos_of (uid c) (Spec.sources m) < Spec.M m)%nat).
    { apply pos_of_lt. eauto. }
    rewrite vget_ok by (rewrite length_skipn; simpl; lia).
    cbn [bind]. unfold vec_at, branch_current. rewrite nth_skipn. reflexivity.
  - reflexivity.
Qed.

Lemma results_loop (X : vector) vd l :
  length X = (Spec.N m + Spec.M m)%nat ->
  (forall n, CircuitSolver.voltage_at vd n = node_voltage m X n) ->
  (forall c, In c l -> In c (CircuitModel.values m)) ->
  forall rs tp,
  for_each (fun comp '(component_results, total_power) =>
              result <- CircuitSolver._calculate_component_result slv comp vd
                          (skipn (Spec.N m) X) ;;
              Ok (component_results ++ [result],
                  total_power + CircuitSolver.r_power result)) l (rs, tp)
  = Ok (rs ++ map (result_of m X) l, tp + sumQ (map (power_of m X) l)).
Proof.
  intros HL Hvd. induction l as [|c l IH]; intros Hl rs tp.
  - simpl. rewrite app_nil_r. f_equal. f_equal. ring.
  - cbn [for_each]. rewrite calculate_ok by (auto; apply Hl; now left). cbn [bind].
    rewrite IH by (intros c' Hc'; apply Hl; now right).
    rewrite <- app_assoc. simpl. f_equal. f_equal. ring.
Qed.

(** What [solve] returns once the linear solve has produced [X]. *)
Lemma solve_packaged_nonzero (X : vector) :
  Linalg.solve (Spec.G m) (Spec.Zvec m) = Ok X ->
  exists vd,
    CircuitSolver.voltages_of slv (firstn (Spec.N m) X) = Ok vd /\
    (forall n, CircuitSolver.voltage_at vd n = node_voltage m X n) /\
    CircuitSolver.solve slv
    = CircuitSolver.Success vd (map (result_of m X) (CircuitModel.values m))
        (sumQ (map (power_of m X) (CircuitModel.values m)))
        (CircuitSolver._build_matrix_info (Spec.G m) (Spec.Zvec m) X)
        (CircuitSolver.mkSummary (length (CircuitModel.components m)) (length vd)
           (Qc_ltb (Qcabs.Qcabs (sumQ (map (power_of m X) (CircuitModel.values m))))
                   (qc 1 1000000000))).
Proof.
  intros HX.
  assert (HL : length X = (Spec.N m + Spec.M m)%nat).
  { eapply solve_sound; [apply dims_mtab| |exact HX]. apply length_tab. }
  destruct (voltages_of_ok X HL) as (vd & Evd & Hvd).
  exists vd. split; [exact Evd|]. split; [exact Hvd|].
  unfold CircuitSolver.solve.
  rewrite (build_mna_system_closed_form m Hwf Hnz Hvs).
  cbn [bind]. rewrite HX. cbn [bind].
  change (CircuitSolver.num_nodes slv) with (Spec.N m).
  unfold CircuitSolver._package_solution. rewrite Evd. cbn [bind].
  unfold CircuitSolver.results_of.
  change (CircuitModel.values (CircuitSolver.model slv)) with (CircuitModel.values m).
  rewrite (results_loop X vd (CircuitModel.values m) HL Hvd) by auto.
  cbn [bind app]. rewrite firstn_skipn.
  change (CircuitSolver.model slv) with m.
  rewrite Qcplus_0_l. reflexivity.
Qed.
End Package.

(** A valid circuit has no resistor of value zero and no voltage source
    across a single node. *)
Lemma valid_resistors_nonzero m : valid m = true -> resistors_nonzero m = true.
Proof.
  intros Hv. unfold resistors_nonzero. apply forallb_forall. intros c Hc.
  unfold valid in Hv. apply andb_prop in Hv. destruct Hv as [_ H].
  rewrite forallb_forall in H. specialize (H c Hc). apply andb_prop in H.
  destruct H as [_ H]. destruct (is_resistor c); auto. simpl in *.
  apply negb_true_iff, Qc_eqb_false. apply Qc_ltb_true in H. intros E. rewrite E in H.
  apply (Qclt_not_le _ _ H). apply Qcle_refl.
Qed.

Lemma valid_vs_distinct_terminals m : valid m = true -> vs_distinct_terminals m = true.
Proof.
  intros Hv. unfold vs_distinct_terminals. apply forallb_forall. intros c Hc.
  destruct (is_vs c); auto. simpl. apply negb_true_iff, Z.eqb_neq.
  now apply (valid_distinct m).
Qed.

Lemma index_to_node_get m (Hv : valid m = true) k :
  dict_get Nat.eqb (CircuitSolver.index_to_node (CircuitSolver.__init__ m)) k
  = nth_error (Spec.unknown_nodes m) k.
Proof. apply index_to_node_nth_error. now apply valid_wf. Qed.

Lemma valid_resistor_value m (Hv : valid m = true) c :
  In c (CircuitModel.values m) -> cls c = Resistor -> value c <> 0.
Proof. apply nonzero_resistor_value. now apply valid_resistors_nonzero. Qed.

Lemma solve_packaged m (Hv : valid m = true) (X : vector) :
  Linalg.solve (Spec.G m) (Spec.Zvec m) = Ok X ->
  exists vd,
    CircuitSolver.voltages_of (CircuitSolver.__init__ m) (firstn (Spec.N m) X) = Ok vd /\
    (forall n, CircuitSolver.voltage_at vd n = node_voltage m X n) /\
    CircuitSolver.solve (CircuitSolver.__init__ m)
    = CircuitSolver.Success vd (map (result_of m X) (CircuitModel.values m))
        (sumQ (map (power_of m X) (CircuitModel.values m)))
        (CircuitSolver._build_matrix_info (Spec.G m) (Spec.Zvec m) X)
        (CircuitSolver.mkSummary (length (CircuitModel.components m)) (length vd)
           (Qc_ltb (Qcabs.Qcabs (sumQ (map (power_of m X) (CircuitModel.values m))))
                   (qc 1 1000000000))).
Proof.
  apply solve_packaged_nonzero;
    auto using valid_wf, valid_resistors_nonzero, valid_vs_distinct_terminals.
Qed.

(** ** Resistors of either sign *)

(** C8 (amended): a resistor record is ingested whatever the sign of
    its value (there is no non-positive-resistance check): the resistor
    is stored with that value.  A negative value does not keep the solve
    from being attempted: for every well-formed circuit whose resistors
    are all non-zero, of either sign, and whose voltage sources join two
    different nodes, the assembly succeeds with every resistor stamped
    as its conductance 1/R, and the solve returns a solution or the
    singular-matrix error, as for any circuit (in exact arithmetic).  A
    resistor of value exactly 0 is only met by the solver's division:
    the solve of a well-formed circuit holding one returns the error
    result "Solver error: float division by zero" with the suggestion. *)
Theorem nonpositive_resistance_handling :
  (forall (i : nat) (ty : string) (v a b : pyval) (q : Qc) (nA nB : Z)
          (model : CircuitModel.t),
      dict_get String.eqb App.COMPONENT_MAP (strip (upper ty)) = Some Resistor ->
      py_float v = Ok q -> py_int a = Ok nA -> py_int b = Ok nB ->
      exists model',
        App.ingest_record i (record ty v a b) model = Ok model'
        /\ dict_get Nat.eqb (CircuitModel.components model') i
           = Some (mkComponent i Resistor q nA nB))
  /\ (forall m : CircuitModel.t,
        well_formed m = true -> resistors_nonzero m = true ->
        vs_distinct_terminals m = true ->
        CircuitSolver._build_mna_system (CircuitSolver.__init__ m)
        = Ok (Spec.G m, Spec.Zvec m)
        /\ ((exists vd comps tp mi su,
                CircuitSolver.solve (CircuitSolver.__init__ m)
                = CircuitSolver.Success vd comps tp mi su)
            \/ CircuitSolver.solve (CircuitSolver.__init__ m)
               = CircuitSolver.Error singular_message suggestion_text))
  /\ (forall m : CircuitModel.t,
        well_formed m = true ->
        (exists r, In r (CircuitModel.values m) /\ is_resistor r = true /\ value r = 0) ->
        CircuitSolver.solve (CircuitSolver.__init__ m)
        = CircuitSolver.Error division_message suggestion_text).
Proof.
  split; [|split].
  - intros i ty v a b q nA nB model Hty Hv Ha Hb.
    rewrite (resistor_record_ingested i ty v a b q nA nB model Hty Hv Ha Hb).
    eexists. split; [reflexivity|]. cbn [CircuitModel.components uid].
    apply dict_get_set_same.
  - intros m Hwf Hnz Hvs.
    pose proof (build_mna_system_closed_form m Hwf Hnz Hvs) as Hb.
    split; [exact Hb|].
    destruct (Linalg.solve (Spec.G m) (Spec.Zvec m)) as [X|e] eqn:E.
    + left. destruct (solve_packaged_nonzero m Hwf Hnz Hvs X E) as (vd & _ & _ & Hsol).
      rewrite Hsol. eauto 6.
    + right. unfold CircuitSolver.solve. rewrite Hb. cbn [bind]. rewrite E.
      unfold Linalg.solve in E.
      destruct (Linalg.gauss (length (Spec.G m)) (combine (Spec.G m) (Spec.Zvec m)));
        [discriminate E|]. injection E as <-. reflexivity.
  - exact zero_resistor_error.
Qed.

Lemma nonpositive_resistance_handling_witness :
  (exists model',
      App.ingest_record 0%nat (record "R"%string (PInt (-5)) (PInt 1) (PInt 0))
        CircuitModel.__init__ = Ok model'
      /\ dict_get Nat.eqb (CircuitModel.components model') 0%nat
         = Some (mkComponent 0%nat Resistor (Z2Qc (-5)) 1 0))
  /\ (exists vd comps tp mi su,
         CircuitSolver.solve (CircuitSolver.__init__ (model_of negative_load))
         = CircuitSolver.Success vd comps tp mi su)
  /\ CircuitSolver.solve (CircuitSolver.__init__ (model_of cancelling_resistors))
     = CircuitSolver.Error singular_message suggestion_text
  /\ CircuitSolver.solve (CircuitSolver.__init__ (model_of zero_resistor))
     = CircuitSolver.Error division_message suggestion_text.
Proof.
  destruct nonpositive_resistance_handling as (H1 & H2 & H3).
  split; [|split; [|split]].
  - apply (H1 0%nat "R"%string (PInt (-5)) (PInt 1) (PInt 0)); vm_compute; reflexivity.
  - assert (Hwf : well_formed (model_of negative_load) = true) by (vm_compute; reflexivity).
    assert (Hnz : resistors_nonzero (model_of negative_load) = true)
      by (vm_compute; reflexivity).
    assert (Hvs : vs_distinct_terminals (model_of negative_load) = true)
      by (vm_compute; reflexivity).
    destruct (H2 (model_of negative_load) Hwf Hnz Hvs) as (_ & [H|H]); [exact H|].
    vm_compute in H. discriminate H.
  - assert (Hwf : well_formed (model_of cancelling_resistors) = true)
      by (vm_compute; reflexivity).
    assert (Hnz : resistors_nonzero (model_of cancelling_resistors) = true)
      by (vm_compute; reflexivity).
    assert (Hvs : vs_distinct_terminals (model_of cancelling_resistors) = true)
      by (vm_compute; reflexivity).
    destruct (H2 (model_of cancelling_resistors) Hwf Hnz Hvs) as (_ & [H|H]); [|exact H].
    destruct H as (vd & comps & tp & mi & su & H). vm_compute in H. discriminate H.
  - apply (H3 (model_of zero_resistor)).
    + vm_compute. reflexivity.
    + exists (mkComponent 1 Resistor (qc 0 1) 1 0). split; [|split].
      * vm_compute. right. left. reflexivity.
      * reflexivity.
      * vm_compute. reflexivity.
Defined.

(** ** Conservation of the reported powers *)

Lemma sum_by_class (f : Component -> Qc) l :
  sumQ (map f l)
  = sumQ (map f (filter is_resistor l)) + sumQ (map f (filter is_vs l))
    + sumQ (map f (filter is_cs l)).
Proof.
  induction l as [|c l IH]; simpl; [ring|].
  rewrite IH. unfold is_resistor, is_vs, is_cs, isinstance.
  destruct (cls c); simpl; ring.
Qed.

Lemma NoDup_map_filter {A B} (f : A -> B) (p : A -> bool) l :
  NoDup (map f l) -> NoDup (map f (filter p l)).
Proof.
  induction l as [|x l IH]; simpl; intros H; [constructor|].
  inversion H as [|? ? Hx HN]; subst.
  destruct (p x); simpl; auto. constructor; auto.
  intros Hin. apply Hx. apply in_map_iff in Hin. destruct Hin as (y & E & Hy).
  apply in_map_iff. exists y. split; auto. apply filter_In in Hy. tauto.
Qed.

Lemma pos_of_cons_other c l c' :
  uid c <> uid c' -> pos_of (uid c') (c :: l) = S (pos_of (uid c') l).
Proof. intros H. simpl. now destruct (Nat.eqb_spec (uid c) (uid c')). Qed.

Lemma sum_by_rank (F : Component -> nat -> Qc) l : forall k0,
  NoDup (map uid l) ->
  sumQ (map (fun c => F c (k0 + pos_of (uid c) l)%nat) l)
  = sumQ (map (fun '(k, c) => F c k) (enumerate_from k0 l)).
Proof.
  induction l as [|c l IH]; intros k0 HN; simpl; auto.
  inversion HN as [|? ? Hc HN']; subst.
  rewrite Nat.eqb_refl, Nat.add_0_r. f_equal.
  rewrite <- (IH (S k0) HN'). apply sumQ_map_ext. intros c' Hc'.
  destruct (Nat.eqb_spec (uid c) (uid c')) as [E|E].
  - exfalso. apply Hc. rewrite E. now apply in_map.
  - f_equal. lia.
Qed.

Lemma max_abs_nonneg l : 0 <= max_abs l.
Proof.
  induction l as [|x l IH]; simpl.
  - apply Qcle_refl.
  - unfold CircuitSolver.Qc_max. destruct (Qc_ltb (Qcabs.Qcabs x) (max_abs l)); auto.
    apply Qcabs.Qcabs_nonneg.
Qed.

Lemma Qcmult_nonneg a b : 0 <= a -> 0 <= b -> 0 <= a * b.
Proof.
  intros Ha Hb. replace 0 with (0 * b) by ring. now apply Qcmult_le_compat_r.
Qed.

Lemma tolerance_nonneg vd comps : 0 <= tolerance vd comps.
Proof.
  unfold tolerance. apply Qcmult_nonneg.
  - unfold Qcle. vm_compute. discriminate.
  - replace 0 with (0 + 0) by ring. apply Qcplus_le_compat.
    + unfold Qcle. vm_compute. discriminate.
    + apply Qcmult_nonneg; apply max_abs_nonneg.
Qed.

Lemma solve_success_inv m vd comps tp mi su :
  valid m = true ->
  CircuitSolver.solve (CircuitSolver.__init__ m) = CircuitSolver.Success vd comps tp mi su ->
  exists X, Linalg.solve (Spec.G m) (Spec.Zvec m) = Ok X /\
    length X = (Spec.N m + Spec.M m)%nat /\ matvec (Spec.G m) X = Spec.Zvec m /\
    CircuitSolver.voltages_of (CircuitSolver.__init__ m) (firstn (Spec.N m) X) = Ok vd /\
    comps = map (result_of m X) (CircuitModel.values m) /\
    tp = sumQ (map (power_of m X) (CircuitModel.values m)).
Proof.
  intros Hv Hs.
  destruct (Linalg.solve (Spec.G m) (Spec.Zvec m)) as [X|e] eqn:E.
  - exists X. split; auto.
    destruct (solve_sound _ (Spec.G m) (Spec.Zvec m) (dims_mtab _ _) (length_tab _ _) X E)
      as [HL HX].
    destruct (solve_packaged m Hv X E) as (vd' & Evd & _ & Hsol).
    rewrite Hsol in Hs. injection Hs as <- <- <- _ _. auto.
  - exfalso. unfold CircuitSolver.solve in Hs.
    pose proof (solve_packaged m Hv) as _.
    assert (Hb : CircuitSolver._build_mna_system (CircuitSolver.__init__ m)
                 = Ok (Spec.G m, Spec.Zvec m)).
    { apply build_mna_system_closed_form.
      - now apply valid_wf.
      - unfold resistors_nonzero. apply forallb_forall. intros c Hc.
        destruct (is_resistor c) eqn:Er; auto. simpl. apply negb_true_iff, Qc_eqb_false.
        apply (valid_resistor_value m Hv); auto.
        unfold is_resistor, isinstance, class_eqb in Er. now destruct (cls c).
      - unfold vs_distinct_terminals. apply forallb_forall. intros c Hc.
        destruct (is_vs c); auto. simpl. apply negb_true_iff, Z.eqb_neq.
        now apply (valid_distinct m). }
    rewrite Hb in Hs. cbn [bind] in Hs. rewrite E in Hs. cbn [bind] in Hs.
    destruct e; discriminate.
Qed.

(** C5 (amended): in exact arithmetic, for every valid circuit that
    solves successfully, the reported results are those of a solution X
    of the assembled system: each
    power is the product of the component's voltage and current, the
    current being v/R for a resistor, the value for a current source
    and the solved branch current for a voltage source; the reported
    total power is the sum of the component powers, and this sum is
    exactly zero, hence within the tolerance 1e-6 (1 + max|V| max|I|). *)
Theorem power_is_conserved (m : CircuitModel.t) vd comps tp mi su :
  valid m = true ->
  CircuitSolver.solve (CircuitSolver.__init__ m) = CircuitSolver.Success vd comps tp mi su ->
  (exists X : vector,
      matvec (Spec.G m) X = Spec.Zvec m
      /\ comps = map (result_of m X) (CircuitModel.values m))
  /\ Forall power_rule comps
  /\ tp = sumQ (map CircuitSolver.r_power comps)
  /\ sumQ (map CircuitSolver.r_power comps) = 0
  /\ Qcabs.Qcabs (sumQ (map CircuitSolver.r_power comps)) <= tolerance vd comps.
Proof.
  intros Hv Hs.
  destruct (solve_success_inv m vd comps tp mi su Hv Hs) as (X & E & HL & HX & _ & -> & ->).
  split; [exists X; split; [exact HX|reflexivity]|].
  assert (Hsum : sumQ (map CircuitSolver.r_power (map (result_of m X) (CircuitModel.values m)))
                 = sumQ (map (power_of m X) (CircuitModel.values m))).
  { now rewrite map_map. }
  assert (H0 : sumQ (map (power_of m X) (CircuitModel.values m)) = 0).
  { rewrite sum_by_class. rewrite <- (power_balance m X HL HX).
    f_equal; [f_equal|].
    - apply sumQ_map_ext. intros c Hc. apply filter_In in Hc. destruct Hc as [_ Hc].
      unfold power_of, current_of. unfold is_resistor, isinstance, class_eqb in Hc.
      destruct (cls c); try discriminate. reflexivity.
    - change (filter is_vs (CircuitModel.values m)) with (Spec.sources m).
      unfold enumerate.
      rewrite <- (sum_by_rank (fun c k => vdrop m X c * nth (Spec.N m + k) X 0)
                    (Spec.sources m) 0).
      + apply sumQ_map_ext. intros c Hc. apply filter_In in Hc. destruct Hc as [_ Hc].
        unfold power_of, current_of, branch_current.
        unfold is_vs, isinstance, class_eqb in Hc.
        destruct (cls c); try discriminate. reflexivity.
      + apply NoDup_map_filter. apply wf_NoDup_uid. now apply valid_wf.
    - apply sumQ_map_ext. intros c Hc. apply filter_In in Hc. destruct Hc as [_ Hc].
      unfold power_of, current_of. unfold is_cs, isinstance, class_eqb in Hc.
      destruct (cls c); try discriminate. reflexivity. }
  split; [|split; [|split]].
  - apply Forall_forall. intros r Hr. apply in_map_iff in Hr. destruct Hr as (c & <- & Hc).
    unfold power_rule, result_of. cbn. split; [reflexivity|].
    unfold current_of. now destruct (cls c).
  - now rewrite Hsum.
  - now rewrite Hsum.
  - rewrite Hsum, H0. rewrite Qcabs.Qcabs_pos by apply Qcle_refl. apply tolerance_nonneg.
Qed.

Lemma power_is_conserved_witness :
  valid (model_of scenario2) = true /\
  exists vd comps tp mi su,
    CircuitSolver.solve (CircuitSolver.__init__ (model_of scenario2))
      = CircuitSolver.Success vd comps tp mi su /\
    sumQ (map CircuitSolver.r_power comps) = 0.
Proof.
  split; [vm_compute; reflexivity|].
  destruct (CircuitSolver.solve (CircuitSolver.__init__ (model_of scenario2)))
    as [vd comps tp mi su|msg sug] eqn:E.
  - exists vd, comps, tp, mi, su. split; [reflexivity|].
    apply (power_is_conserved (model_of scenario2) vd comps tp mi su);
      [vm_compute; reflexivity|exact E].
  - vm_compute in E. discriminate.
Defined.

(** C5 (as stated) fails in binary64: in the valid circuit CS(1,0,1),
    R(2^-53,1,2), R(0.5,2,0), R(1,2,0) the conductances 2^53, 2 and 1
    add up to 2^53 + 4 after rounding, node 2 is found at 0.25 V where
    the exact solution has 1/3 V, and the reported powers add up to
    -1/16 W, while the tolerance is about 1.25e-6. *)
Lemma rounded_power_sum_exceeds_tolerance :
  let m := model_of stiff_divider in
  valid m = true
  /\ binary64_values stiff_divider = true
  /\ exists vd comps tp mi su,
       FloatSolver.solve (CircuitSolver.__init__ m) = FloatSolver.Success vd comps tp mi su
       /\ finite_reply vd comps tp = true
       /\ sumQ (map CircuitSolver.r_power (map exact_result comps)) = - qc 1 16
       /\ Binary64.to_Qc tp = - qc 1 16
       /\ tolerance (exact_voltages vd) (map exact_result comps) < qc 1 16.
Proof.
  split; [vm_compute; reflexivity|]. split; [vm_compute; reflexivity|].
  do 5 eexists. split; [vm_compute; reflexivity|].
  split; [vm_compute; reflexivity|].
  split; [qc_eq|]. split; [qc_eq|].
  vm_compute. reflexivity.
Qed.

(** ** The equations behind the matrix *)

Lemma sum_at1_rank l (F : Component -> Qc) N0 k0 d :
  (k0 < length l)%nat ->
  sumQ (map (fun '(k, c) => Spec.at1 (N0 + k) (N0 + k0) * F c) (enumerate l))
  = F (nth k0 l d).
Proof.
  unfold enumerate.
  assert (H : forall l b k0, (k0 < length l)%nat ->
            sumQ (map (fun '(k, c) => Spec.at1 (N0 + k) (N0 + (b + k0)) * F c)
                      (enumerate_from b l)) = F (nth k0 l d)).
  { clear. induction l as [|c l IH]; intros b k0 Hk; simpl in *; [lia|].
    destruct k0 as [|k0].
    - unfold Spec.at1 at 1. rewrite Nat.add_0_r, Nat.eqb_refl.
      rewrite sumQ_zero; [ring|].
      intros [k c'] Hin. apply enumerate_bound in Hin. destruct Hin as [Hin _].
      unfold Spec.at1. destruct (Nat.eqb_spec (N0 + b) (N0 + k)); [lia|ring].
    - unfold Spec.at1 at 1. destruct (Nat.eqb_spec (N0 + (b + S k0)) (N0 + b)); [lia|].
      replace (b + S k0)%nat with (S b + k0)%nat by lia.
      rewrite IH by lia. ring. }
  intros Hk. apply (H l 0%nat k0 Hk).
Qed.

Lemma sum_enumerate_forget {A} (F : A -> Qc) l k0 :
  sumQ (map (fun '(k, c) => F c) (enumerate_from k0 l)) = sumQ (map F l).
Proof.
  revert k0. induction l as [|c l IH]; intros k0; simpl; auto. now rewrite IH.
Qed.

Lemma sources_NoDup m : well_formed m = true -> NoDup (map uid (Spec.sources m)).
Proof. intros H. apply NoDup_map_filter. now apply wf_NoDup_uid. Qed.

Lemma pos_of_nth l k d :
  NoDup (map uid l) -> (k < length l)%nat -> pos_of (uid (nth k l d)) l = k.
Proof.
  revert k. induction l as [|c l IH]; intros k HN Hk; simpl in *; [lia|].
  inversion HN as [|? ? Hc HN']; subst.
  destruct k as [|k].
  - now rewrite Nat.eqb_refl.
  - destruct (Nat.eqb_spec (uid c) (uid (nth k l d))) as [E|E].
    + exfalso. apply Hc. rewrite E. apply in_map. apply nth_In. lia.
    + f_equal. apply IH; auto. lia.
Qed.

Section Rows.
Variable m : CircuitModel.t.
Hypothesis Hwf : well_formed m = true.
Variable X : vector.
Hypothesis HL : length X = (Spec.N m + Spec.M m)%nat.
Variable J : nat -> Qc.
(** [J] agrees with the branch-current block of [X]. *)
Hypothesis HJ : forall k, (k < Spec.M m)%nat ->
  nth (Spec.N m + k) X 0 = J (uid (nth k (Spec.sources m) (mkComponent 0 Resistor 0 0 0))).

Lemma source_sum p :
  sumQ (map (fun '(k, vs) => inc m vs p * nth (Spec.N m + k) X 0) (enumerate (Spec.sources m)))
  = sumQ (map (fun vs => inc m vs p * J (uid vs)) (Spec.sources m)).
Proof.
  rewrite <- (sum_enumerate_forget (fun vs => inc m vs p * J (uid vs)) (Spec.sources m) 0).
  unfold enumerate. apply sumQ_map_ext. intros [k vs] Hin.
  apply enumerate_bound in Hin. destruct Hin as [Hk Hn].
  rewrite Nat.sub_0_r in Hn. rewrite HJ by (unfold Spec.M; lia).
  now rewrite (nth_error_nth _ Hn).
Qed.

Lemma row_form_node p :
  (p < Spec.N m)%nat ->
  row_form m X p
  = sumQ (map (fun r => 1 / value r * inc m r p * vdrop m X r)
              (filter is_resistor (CircuitModel.values m)))
    + sumQ (map (fun vs => inc m vs p * J (uid vs)) (Spec.sources m)).
Proof.
  intros Hp. unfold row_form. f_equal. rewrite <- source_sum.
  apply sumQ_map_ext. intros [k vs] _. unfold Spec.at1.
  destruct (Nat.eqb_spec p (Spec.N m + k)); [lia|ring].
Qed.

Lemma row_form_source k :
  (k < Spec.M m)%nat ->
  row_form m X (Spec.N m + k)
  = vdrop m X (nth k (Spec.sources m) (mkComponent 0 Resistor 0 0 0)).
Proof.
  intros Hk. unfold row_form.
  rewrite sumQ_zero.
  2:{ intros r _. rewrite inc_outside by lia. ring. }
  rewrite (sumQ_map_ext _ (fun kv : nat * Component =>
             let '(k', vs) := kv in
             Spec.at1 (Spec.N m + k') (Spec.N m + k) * vdrop m X vs)).
  2:{ intros [k' vs] _. rewrite inc_outside by lia. ring. }
  rewrite (sum_at1_rank (Spec.sources m) (vdrop m X) (Spec.N m) k
             (mkComponent 0 Resistor 0 0 0)) by exact Hk.
  ring.
Qed.

Lemma Z_entry_node p :
  (p < Spec.N m)%nat ->
  Spec.Z_entry m p
  = - sumQ (map (fun c => value c * inc m c p) (filter is_cs (CircuitModel.values m))).
Proof.
  intros Hp. rewrite Z_entry_form. rewrite (sumQ_zero _ (enumerate (Spec.sources m))).
  - ring.
  - intros [k vs] _. unfold Spec.at1.
    destruct (Nat.eqb_spec p (Spec.N m + k)); [lia|ring].
Qed.

Lemma Z_entry_source k :
  (k < Spec.M m)%nat ->
  Spec.Z_entry m (Spec.N m + k)
  = value (nth k (Spec.sources m) (mkComponent 0 Resistor 0 0 0)).
Proof.
  intros Hk. rewrite Z_entry_form. rewrite sumQ_zero.
  2:{ intros c _. rewrite inc_outside by lia. ring. }
  rewrite (sumQ_map_ext _ (fun kv : nat * Component =>
             let '(k', vs) := kv in
             Spec.at1 (Spec.N m + k') (Spec.N m + k) * value vs)).
  2:{ intros [k' vs] _. ring. }
  rewrite (sum_at1_rank (Spec.sources m) value (Spec.N m) k
             (mkComponent 0 Resistor 0 0 0)) by exact Hk.
  ring.
Qed.

(** The matrix equation says exactly KCL at every node and the
    constraint of every source. *)
Lemma matvec_iff_equations :
  matvec (Spec.G m) X = Spec.Zvec m <-> equations m X J.
Proof.
  split.
  - intros HX. split.
    + intros p Hp. unfold kcl.
      rewrite <- row_form_node, <- Z_entry_node by auto.
      apply (row_eq m X HL HX). lia.
    + intros vs Hvs. destruct (In_nth _ _ (mkComponent 0 Resistor 0 0 0) Hvs) as (k & Hk & <-).
      fold (Spec.M m) in Hk.
      rewrite <- row_form_source, <- Z_entry_source by auto.
      apply (row_eq m X HL HX). lia.
  - intros [Hk Hc]. apply (nth_ext _ _ 0 0).
    + unfold matvec, Spec.Zvec, Spec.G, mtab. now rewrite length_map, !length_tab.
    + intros p Hp. unfold matvec, Spec.G, mtab in Hp.
      rewrite length_map, length_tab in Hp.
      rewrite matvec_G_nth by auto. unfold Spec.Zvec. rewrite nth_tab by auto.
      destruct (Nat.lt_ge_cases p (Spec.N m)) as [Hlt|Hge].
      * rewrite row_form_node, Z_entry_node by auto. apply Hk. auto.
      * replace p with (Spec.N m + (p - Spec.N m))%nat by lia.
        rewrite row_form_source, Z_entry_source by lia.
        apply Hc. apply nth_In. unfold Spec.M in *. lia.
Qed.
End Rows.

(** ** Reordering the components *)

Lemma reordering_sym m m' : reordering m m' -> reordering m' m.
Proof. intros (H1 & H2 & H3). repeat split; auto using Permutation_sym. Qed.

Section Reorder.
Variables m m' : CircuitModel.t.
Hypothesis Hre : reordering m m'.

Lemma re_unknown : Spec.unknown_nodes m' = Spec.unknown_nodes m.
Proof.
  destruct Hre as (H1 & H2 & _).
  unfold Spec.unknown_nodes, CircuitModel.get_non_reference_nodes. now rewrite H1, H2.
Qed.

Lemma re_N : Spec.N m' = Spec.N m.
Proof. unfold Spec.N. now rewrite re_unknown. Qed.

Lemma re_idx n : Spec.idx m' n = Spec.idx m n.
Proof.
  unfold Spec.idx. rewrite re_unknown. destruct Hre as (_ & -> & _). reflexivity.
Qed.

Lemma re_inc c p : inc m' c p = inc m c p.
Proof. unfold inc. now rewrite !re_idx. Qed.

Lemma re_vdrop X c : vdrop m' X c = vdrop m X c.
Proof. unfold vdrop, node_voltage. now rewrite !re_idx. Qed.

Lemma re_sources : Permutation (Spec.sources m) (Spec.sources m').
Proof. destruct Hre as (_ & _ & H). unfold Spec.sources. now apply filter_perm. Qed.

Lemma re_M : Spec.M m' = Spec.M m.
Proof. unfold Spec.M. symmetry. apply Permutation_length, re_sources. Qed.

Lemma re_equations X J : equations m X J -> equations m' X J.
Proof.
  destruct Hre as (_ & _ & Hp).
  intros [Hk Hc]. split.
  - intros p Hp'. rewrite re_N in Hp'. specialize (Hk p Hp'). unfold kcl in *.
    rewrite (sumQ_map_ext _ (fun r => 1 / value r * inc m r p * vdrop m X r))
      by (intros; now rewrite re_inc, re_vdrop).
    rewrite (sumQ_map_ext (fun vs => inc m' vs p * J (uid vs))
               (fun vs => inc m vs p * J (uid vs)))
      by (intros; now rewrite re_inc).
    rewrite (sumQ_map_ext (fun c => value c * inc m' c p) (fun c => value c * inc m c p))
      by (intros; now rewrite re_inc).
    rewrite <- (sumQ_perm (Permutation_map _ (filter_perm is_resistor Hp))).
    rewrite <- (sumQ_perm (Permutation_map _ re_sources)).
    rewrite <- (sumQ_perm (Permutation_map _ (filter_perm is_cs Hp))).
    exact Hk.
  - intros vs Hvs. rewrite re_vdrop. apply Hc.
    eapply Permutation_in; [apply Permutation_sym, re_sources|exact Hvs].
Qed.
End Reorder.

Lemma vdrop_firstn m X Y c :
  firstn (Spec.N m) X = firstn (Spec.N m) Y -> vdrop m X c = vdrop m Y c.
Proof.
  intros H. unfold vdrop, node_voltage.
  assert (E : forall n, Xopt X (Spec.idx m n) = Xopt Y (Spec.idx m n)).
  { intros n. destruct (Spec.idx m n) as [i|] eqn:Ei; auto. simpl.
    apply idx_Some in Ei. apply Nat.ltb_lt in Ei.
    pose proof (nth_firstn (Spec.N m) X i 0) as HX.
    pose proof (nth_firstn (Spec.N m) Y i 0) as HY.
    rewrite Ei in HX, HY. rewrite <- HX, <- HY, H. reflexivity. }
  now rewrite !E.
Qed.

Lemma equations_firstn m X Y J :
  firstn (Spec.N m) X = firstn (Spec.N m) Y -> equations m X J -> equations m Y J.
Proof.
  intros H [Hk Hc]. split.
  - intros p Hp. specialize (Hk p Hp). unfold kcl in *.
    rewrite (sumQ_map_ext _ (fun r => 1 / value r * inc m r p * vdrop m X r))
      by (intros; now rewrite (vdrop_firstn m X Y)).
    exact Hk.
  - intros vs Hvs. rewrite <- (vdrop_firstn m X Y) by auto. now apply Hc.
Qed.

Lemma reindex_length m X J :
  (Spec.N m <= length X)%nat -> length (reindex m X J) = (Spec.N m + Spec.M m)%nat.
Proof.
  intros H. unfold reindex. rewrite length_app, length_firstn, length_map.
  unfold Spec.M. lia.
Qed.

Lemma reindex_firstn m X J :
  (Spec.N m <= length X)%nat ->
  firstn (Spec.N m) (reindex m X J) = firstn (Spec.N m) X.
Proof.
  intros H. unfold reindex.
  rewrite firstn_app, length_firstn.
  replace (Spec.N m - Nat.min (Spec.N m) (length X))%nat with 0%nat by lia.
  simpl. rewrite app_nil_r. rewrite firstn_firstn. f_equal. lia.
Qed.

Lemma reindex_source m X J k d :
  (Spec.N m <= length X)%nat -> (k < Spec.M m)%nat ->
  nth (Spec.N m + k) (reindex m X J) 0 = J (uid (nth k (Spec.sources m) d)).
Proof.
  intros H Hk. unfold reindex.
  rewrite app_nth2 by (rewrite length_firstn; lia).
  rewrite length_firstn.
  replace (Spec.N m + k - Nat.min (Spec.N m) (length X))%nat with k by lia.
  rewrite (nth_indep _ 0 ((fun vs => J (uid vs)) d)) by (rewrite length_map; exact Hk).
  apply (map_nth (fun vs => J (uid vs))).
Qed.

Lemma current_by_uid_rank m X k d :
  well_formed m = true -> (k < Spec.M m)%nat ->
  nth (Spec.N m + k) X 0 = current_by_uid m X (uid (nth k (Spec.sources m) d)).
Proof.
  intros Hwf Hk. unfold current_by_uid.
  rewrite pos_of_nth; auto. now apply sources_NoDup.
Qed.

(** A solution of one circuit, re-read, solves every reordering of it. *)
Lemma solution_transfers m m' (X : vector) :
  well_formed m = true -> well_formed m' = true -> reordering m m' ->
  length X = (Spec.N m + Spec.M m)%nat ->
  matvec (Spec.G m) X = Spec.Zvec m ->
  matvec (Spec.G m') (reindex m' X (current_by_uid m X)) = Spec.Zvec m'.
Proof.
  intros Hwf Hwf' Hre HL HX.
  pose proof (re_N m m' Hre) as HN.
  assert (HLe : (Spec.N m' <= length X)%nat) by lia.
  apply (matvec_iff_equations m' (reindex m' X (current_by_uid m X))
           (reindex_length m' X _ HLe) (current_by_uid m X)).
  - intros k Hk. now apply reindex_source.
  - apply (equations_firstn m' X); [symmetry; now apply reindex_firstn|].
    apply (re_equations m m' Hre).
    apply (matvec_iff_equations m X HL (current_by_uid m X)); auto.
    intros k Hk. now apply current_by_uid_rank.
Qed.

Lemma matvec_vplus (G : matrix) n (a b : vector) :
  dims n G -> length a = n -> length b = n ->
  matvec G (vplus a b) = vplus (matvec G a) (matvec G b).
Proof.
  intros [_ HF] Ha Hb. unfold matvec. clear -HF Ha Hb.
  induction G as [|row G IH]; simpl; auto.
  inversion HF; subst. rewrite dot_vplus by lia. f_equal. auto.
Qed.

Lemma vplus_zeros_r (a : vector) : vplus a (np_zeros (length a)) = a.
Proof.
  induction a as [|x a IH]; simpl; auto. unfold np_zeros in *. rewrite IH. f_equal. ring.
Qed.

Lemma reindex_inv m (X Y : vector) J :
  length X = (Spec.N m + Spec.M m)%nat -> (Spec.N m <= length Y)%nat ->
  reindex m Y J = X ->
  firstn (Spec.N m) Y = firstn (Spec.N m) X
  /\ forall k d, (k < Spec.M m)%nat ->
       J (uid (nth k (Spec.sources m) d)) = nth (Spec.N m + k) X 0.
Proof.
  intros HL HY E. split.
  - rewrite <- E. symmetry. now apply reindex_firstn.
  - intros k d Hk. rewrite <- E. symmetry. now apply reindex_source.
Qed.

Lemma rank_in_permutation m m' k' d :
  well_formed m = true -> reordering m m' -> (k' < Spec.M m')%nat ->
  exists k, (k < Spec.M m)%nat /\ nth k (Spec.sources m) d = nth k' (Spec.sources m') d.
Proof.
  intros Hwf Hre Hk.
  assert (Hin : In (nth k' (Spec.sources m') d) (Spec.sources m)).
  { eapply Permutation_in; [apply Permutation_sym, (re_sources m m' Hre)|].
    apply nth_In. exact Hk. }
  destruct (In_nth _ _ d Hin) as (k & Hk1 & Hk2). exists k. split; auto.
Qed.

(** The linear solve of a reordering succeeds with the re-read solution. *)
Lemma solve_transfers m m' (X : vector) :
  well_formed m = true -> well_formed m' = true -> reordering m m' ->
  Linalg.solve (Spec.G m) (Spec.Zvec m) = Ok X ->
  Linalg.solve (Spec.G m') (Spec.Zvec m') = Ok (reindex m' X (current_by_uid m X)).
Proof.
  intros Hwf Hwf' Hre HS.
  pose proof (re_N m m' Hre) as HN. pose proof (re_M m m' Hre) as HM.
  set (n := (Spec.N m + Spec.M m)%nat).
  set (n' := (Spec.N m' + Spec.M m')%nat).
  assert (HD : dims n (Spec.G m)) by apply dims_mtab.
  assert (HD' : dims n' (Spec.G m')) by apply dims_mtab.
  assert (HZ : length (Spec.Zvec m) = n) by apply length_tab.
  assert (HZ' : length (Spec.Zvec m') = n') by apply length_tab.
  destruct (solve_sound n _ _ HD HZ X HS) as [HL HX].
  set (X' := reindex m' X (current_by_uid m X)).
  assert (HL' : length X' = n') by (apply reindex_length; lia).
  assert (HX' : matvec (Spec.G m') X' = Spec.Zvec m') by (now apply solution_transfers).
  assert (Hker : forall v : vector, length v = n' ->
            matvec (Spec.G m') v = np_zeros n' -> v = np_zeros n').
  { intros v Hv Hz.
    set (Y' := vplus X' v).
    assert (HLY : length Y' = n') by (unfold Y'; rewrite length_vplus; lia).
    assert (HY' : matvec (Spec.G m') Y' = Spec.Zvec m').
    { unfold Y'. rewrite (matvec_vplus _ n') by auto. rewrite HX', Hz.
      rewrite <- HZ'. apply vplus_zeros_r. }
    pose proof (solution_transfers m' m Y' Hwf' Hwf (reordering_sym _ _ Hre) HLY HY') as HY.
    assert (HLe : (Spec.N m <= length Y')%nat) by (unfold n' in HLY; lia).
    assert (EY : reindex m Y' (current_by_uid m' Y') = X).
    { apply (solve_unique n _ _ HD HZ X); auto. apply reindex_length. exact HLe. }
    destruct (reindex_inv m X Y' _ HL HLe EY) as [Hf Hc].
    assert (E : Y' = X').
    { apply (nth_ext _ _ 0 0); [lia|]. intros p Hp. rewrite HLY in Hp.
      destruct (Nat.lt_ge_cases p (Spec.N m)) as [Hlt|Hge].
      - pose proof (nth_firstn (Spec.N m) Y' p 0) as H1.
        pose proof (nth_firstn (Spec.N m) X' p 0) as H2.
        apply Nat.ltb_lt in Hlt. rewrite Hlt in H1, H2. rewrite <- H1, <- H2.
        rewrite Hf. unfold X'. rewrite <- HN. rewrite reindex_firstn by lia. now rewrite HN.
      - replace p with (Spec.N m' + (p - Spec.N m'))%nat by lia.
        set (k' := (p - Spec.N m')%nat).
        assert (Hk' : (k' < Spec.M m')%nat) by (unfold k', n' in *; lia).
        set (d := mkComponent 0 Resistor 0 0 0).
        rewrite (current_by_uid_rank m' Y' k' d Hwf' Hk').
        unfold X'. rewrite (reindex_source m' X _ k' d) by lia.
        destruct (rank_in_permutation m m' k' d Hwf Hre Hk') as (k & Hk & Ek).
        rewrite <- Ek. rewrite (Hc k d Hk). now apply current_by_uid_rank. }
    unfold Y' in E. apply vplus_fixed in E; [|lia]. now rewrite HL' in E. }
  destruct (solve_complete n' _ (Spec.Zvec m') HD' HZ' Hker) as (X'' & HS').
  rewrite HS'. f_equal. symmetry. apply (solve_unique n' _ _ HD' HZ' X''); auto.
Qed.

(** ** Solving a reordered circuit *)

Lemma uid_nth_pos_of l c d : In c l -> uid (nth (pos_of (uid c) l) l d) = uid c.
Proof.
  induction l as [|c0 l IH]; intros Hin; [destruct Hin|].
  simpl. destruct (Nat.eqb_spec (uid c0) (uid c)) as [E|E]; auto.
  destruct Hin as [->|Hin]; [congruence|auto].
Qed.

Lemma solver_frame m m' :
  reordering m m' ->
  CircuitSolver.index_to_node (CircuitSolver.__init__ m')
  = CircuitSolver.index_to_node (CircuitSolver.__init__ m)
  /\ CircuitSolver.ref_node (CircuitSolver.__init__ m')
     = CircuitSolver.ref_node (CircuitSolver.__init__ m).
Proof.
  intros (H1 & H2 & _). unfold CircuitSolver.__init__.
  cbn [CircuitSolver.index_to_node CircuitSolver.ref_node]. now rewrite H1, H2.
Qed.

Lemma voltages_of_frame m m' V :
  reordering m m' ->
  CircuitSolver.voltages_of (CircuitSolver.__init__ m') V
  = CircuitSolver.voltages_of (CircuitSolver.__init__ m) V.
Proof.
  intros Hre. destruct (solver_frame m m' Hre) as [E1 E2].
  unfold CircuitSolver.voltages_of. now rewrite E1, E2.
Qed.

Lemma valid_reordering m m' :
  valid m = true -> well_formed m' = true -> reordering m m' -> valid m' = true.
Proof.
  intros Hv Hwf (H1 & H2 & Hp). unfold valid in *.
  apply andb_prop in Hv. destruct Hv as [Hv Hall]. apply andb_prop in Hv.
  destruct Hv as [_ Href].
  rewrite Hwf, H1, H2, Href. simpl.
  apply forallb_forall. intros c Hc. rewrite forallb_forall in Hall. apply Hall.
  eapply Permutation_in; [apply Permutation_sym, Hp|exact Hc].
Qed.

Lemma result_of_reordered m m' (X : vector) c :
  well_formed m = true -> well_formed m' = true -> reordering m m' ->
  length X = (Spec.N m + Spec.M m)%nat ->
  In c (CircuitModel.values m) ->
  result_of m' (reindex m' X (current_by_uid m X)) c = result_of m X c.
Proof.
  intros Hwf Hwf' Hre HL Hin.
  pose proof (re_N m m' Hre) as HN.
  assert (Hd : vdrop m' (reindex m' X (current_by_uid m X)) c = vdrop m X c).
  { rewrite (vdrop_firstn m' _ X) by (apply reindex_firstn; lia). now apply re_vdrop. }
  assert (Hc : current_of m' (reindex m' X (current_by_uid m X)) c = current_of m X c).
  { unfold current_of. rewrite Hd. destruct (cls c) eqn:Ec; auto.
    unfold branch_current.
    assert (Hs : In c (Spec.sources m')).
    { eapply Permutation_in; [apply (re_sources m m' Hre)|].
      apply filter_In. split; auto. unfold is_vs, isinstance. now rewrite Ec. }
    assert (Hp : (pos_of (uid c) (Spec.sources m') < Spec.M m')%nat)
      by (apply pos_of_lt; eauto).
    rewrite (reindex_source m' X _ _ c) by (auto; lia).
    rewrite uid_nth_pos_of by auto. reflexivity. }
  unfold result_of, power_of. now rewrite Hd, Hc.
Qed.

(** Solving a reordering of a valid circuit gives the same voltages,
    the same total and the same component results. *)
Lemma solve_reordered m m' vd comps tp mi su :
  valid m = true -> well_formed m' = true -> reordering m m' ->
  CircuitSolver.solve (CircuitSolver.__init__ m) = CircuitSolver.Success vd comps tp mi su ->
  exists comps' mi' su',
    CircuitSolver.solve (CircuitSolver.__init__ m') = CircuitSolver.Success vd comps' tp mi' su'
    /\ Permutation comps comps'.
Proof.
  intros Hv Hwf' Hre Hs.
  pose proof (valid_wf m Hv) as Hwf.
  pose proof (valid_reordering m m' Hv Hwf' Hre) as Hv'.
  destruct (solve_success_inv m vd comps tp mi su Hv Hs)
    as (X & E & HL & HX & Evd & -> & ->).
  pose proof (solve_transfers m m' X Hwf Hwf' Hre E) as E'.
  destruct (solve_packaged m' Hv' _ E') as (vd' & Evd' & _ & Hsol).
  pose proof (re_N m m' Hre) as HN.
  assert (Evd2 : vd' = vd).
  { rewrite reindex_firstn in Evd' by lia. rewrite HN in Evd'.
    rewrite (voltages_of_frame m m' _ Hre) in Evd'. congruence. }
  subst vd'.
  assert (Hres : map (result_of m' (reindex m' X (current_by_uid m X))) (CircuitModel.values m')
                 = map (result_of m X) (CircuitModel.values m')).
  { apply map_ext_in. intros c Hc. apply result_of_reordered; auto.
    destruct Hre as (_ & _ & Hp).
    eapply Permutation_in; [apply Permutation_sym, Hp|exact Hc]. }
  assert (Hpow : sumQ (map (power_of m' (reindex m' X (current_by_uid m X)))
                           (CircuitModel.values m'))
                 = sumQ (map (power_of m X) (CircuitModel.values m))).
  { destruct Hre as (Hn & Hr & Hp).
    rewrite (sumQ_perm (Permutation_map (power_of m X) Hp)).
    apply sumQ_map_ext. intros c Hc.
    assert (Hc' : In c (CircuitModel.values m))
      by (eapply Permutation_in; [apply Permutation_sym, Hp|exact Hc]).
    pose proof (result_of_reordered m m' X c Hwf Hwf' (conj Hn (conj Hr Hp)) HL Hc') as Hq.
    apply (f_equal CircuitSolver.r_power) in Hq. exact Hq. }
  rewrite Hres, Hpow in Hsol.
  eexists _, _, _. split; [exact Hsol|].
  apply Permutation_map. now destruct Hre as (_ & _ & Hp).
Qed.

(** ** Circuits built from a component list *)

Lemma add_all cs : forall m0,
  NoDup (dict_keys (CircuitModel.components m0) ++ map uid cs) ->
  exists m1,
    for_each (fun c m => CircuitModel.add_component m c) cs m0 = Ok m1 /\
    CircuitModel.components m1 = CircuitModel.components m0 ++ map entry cs /\
    CircuitModel.reference_node m1 = CircuitModel.reference_node m0 /\
    (ascending (CircuitModel.nodes m0) = true -> ascending (CircuitModel.nodes m1) = true) /\
    (forall n, In n (CircuitModel.nodes m1) <-> In n (CircuitModel.nodes m0) \/ touches cs n).
Proof.
  induction cs as [|c cs IH]; intros m0 HN.
  - exists m0. simpl. rewrite app_nil_r. repeat split; auto.
    intros [H|(c & [] & _)]; auto.
  - cbn [for_each]. unfold CircuitModel.add_component at 1. cbn [bind].
    set (m1 := CircuitModel.mk _ _ _ _).
    assert (Hfresh : ~ In (uid c) (dict_keys (CircuitModel.components m0))).
    { simpl in HN. apply NoDup_remove_2 in HN. intros Hin. apply HN.
      apply in_or_app. now left. }
    assert (Ec : CircuitModel.components m1 = CircuitModel.components m0 ++ [entry c]).
    { unfold m1. cbn [CircuitModel.components].
      now rewrite (dict_set_fresh Nat.eqb Neqb_spec). }
    destruct (IH m1) as (m2 & E & Hc & Hr & Ha & Hn).
    { rewrite Ec. unfold dict_keys in *. rewrite map_app. simpl.
      rewrite <- app_assoc. exact HN. }
    exists m2. split; [exact E|]. split; [|split; [|split]].
    + rewrite Hc, Ec, <- app_assoc. reflexivity.
    + rewrite Hr. reflexivity.
    + intros H. apply Ha. unfold m1. cbn [CircuitModel.nodes].
      now apply set_update_ascending.
    + intros n. rewrite Hn. unfold m1. cbn [CircuitModel.nodes].
      rewrite set_update_In. unfold touches. simpl. split.
      * intros [[[<-|[<-|[]]]|H]|(c' & Hc' & Ht)]; eauto 6.
      * intros [H|(c' & [<-|Hc'] & Ht)]; [tauto| |eauto 6].
        left. left. destruct Ht as [->| ->]; tauto.
Qed.

Lemma of_components_facts cs ref m :
  NoDup (map uid cs) ->
  CircuitModel.of_components cs (PInt ref) = Ok m ->
  CircuitModel.values m = cs
  /\ CircuitModel.components m = map entry cs
  /\ CircuitModel.reference_node m = ref
  /\ ascending (CircuitModel.nodes m) = true
  /\ (forall n, In n (CircuitModel.nodes m) <-> n = ref \/ touches cs n).
Proof.
  intros HN H. unfold CircuitModel.of_components in H.
  destruct (add_all cs CircuitModel.__init__) as (m1 & E & Hc & Hr & Ha & Hn); [exact HN|].
  rewrite E in H. cbn [bind] in H. unfold CircuitModel.set_reference_node in H.
  cbn [str_upper_is_GND py_int bind] in H. simpl in Hc.
  specialize (Ha eq_refl).
  assert (Hv : map snd (map entry cs) = cs).
  { rewrite map_map. simpl. apply map_id. }
  destruct (negb (set_mem ref (CircuitModel.nodes m1))) eqn:Em; injection H as <-;
    cbn [CircuitModel.values CircuitModel.components CircuitModel.reference_node
         CircuitModel.nodes]; unfold CircuitModel.values, dict_values;
    cbn [CircuitModel.components]; rewrite Hc.
  - repeat split; auto using set_add_ascending.
    + intros H. apply set_add_In in H. rewrite Hn in H. simpl in H. tauto.
    + intros H. apply set_add_In. rewrite Hn. simpl. tauto.
  - apply negb_false_iff, set_mem_iff in Em. repeat split; auto.
    + intros H. rewrite Hn in H. simpl in H. tauto.
    + intros [->|H]; auto. rewrite Hn. now right.
Qed.

Lemma of_components_wf cs ref m :
  NoDup (map uid cs) -> CircuitModel.of_components cs (PInt ref) = Ok m ->
  well_formed m = true.
Proof.
  intros HN H. destruct (of_components_facts cs ref m HN H) as (Hv & Hc & Hr & Ha & Hn).
  unfold well_formed. rewrite Ha, Hc. simpl.
  apply andb_true_intro. split.
  - apply forallb_forall. intros [k c] Hin. apply in_map_iff in Hin.
    destruct Hin as (c' & Ec & Hc'). injection Ec as <- <-.
    rewrite Nat.eqb_refl. simpl. apply andb_true_intro.
    split; apply set_mem_iff, Hn; right; exists c'; auto.
  - apply distinct_NoDup. unfold dict_keys. rewrite map_map. exact HN.
Qed.

Lemma ascending_ext l l' :
  ascending l = true -> ascending l' = true -> (forall x, In x l <-> In x l') -> l = l'.
Proof.
  revert l'. induction l as [|x l IH]; intros [|y l'] Hl Hl' H; auto.
  - exfalso. apply (H y). now left.
  - exfalso. apply (H x). now left.
  - destruct (ascending_cons _ _ Hl) as [Hl1 Hl2].
    destruct (ascending_cons _ _ Hl') as [Hl1' Hl2'].
    assert (E : x = y).
    { assert (Hx : In x (y :: l')) by (apply H; now left).
      assert (Hy : In y (x :: l)) by (apply H; now left).
      destruct Hx as [Hx|Hx]; auto. destruct Hy as [Hy|Hy]; auto.
      specialize (Hl2 y Hy). specialize (Hl2' x Hx). lia. }
    subst y. f_equal. apply IH; auto.
    intros z. split; intros Hz.
    + assert (Hz' : In z (x :: l')) by (apply H; now right).
      destruct Hz' as [E|Hz']; auto. subst z. specialize (Hl2 x Hz). lia.
    + assert (Hz' : In z (x :: l)) by (apply H; now right).
      destruct Hz' as [E|Hz']; auto. subst z. specialize (Hl2' x Hz). lia.
Qed.

Lemma of_components_reordering cs cs' ref m m' :
  NoDup (map uid cs) -> Permutation cs cs' ->
  CircuitModel.of_components cs (PInt ref) = Ok m ->
  CircuitModel.of_components cs' (PInt ref) = Ok m' ->
  reordering m m'.
Proof.
  intros HN Hp H H'.
  assert (HN' : NoDup (map uid cs')).
  { eapply Permutation_NoDup; [apply Permutation_map, Hp|exact HN]. }
  destruct (of_components_facts cs ref m HN H) as (Hv & _ & Hr & Ha & Hn).
  destruct (of_components_facts cs' ref m' HN' H') as (Hv' & _ & Hr' & Ha' & Hn').
  split; [|split].
  - apply ascending_ext; auto. intros n. rewrite Hn, Hn'. unfold touches.
    split; intros [->|(c & Hc & Ht)]; auto; right; exists c; split; auto.
    + eapply Permutation_in; [apply Permutation_sym, Hp|exact Hc].
    + eapply Permutation_in; [apply Hp|exact Hc].
  - congruence.
  - now rewrite Hv, Hv'.
Qed.

(** C6 (amended): in exact arithmetic, for every valid circuit built
    from a list of components with distinct ids, and every permutation
    of that list, solving the
    circuit built from the permuted list succeeds whenever the original
    solve does, with the same node-voltage map, the same total power
    and, component by component, the same result (voltage, current and
    power). *)
Theorem reordering_invariance
  (cs cs' : list Component) (ref : Z) (m m' : CircuitModel.t)
  vd comps tp mi su :
  NoDup (map uid cs) -> Permutation cs cs' ->
  CircuitModel.of_components cs (PInt ref) = Ok m ->
  CircuitModel.of_components cs' (PInt ref) = Ok m' ->
  valid m = true ->
  CircuitSolver.solve (CircuitSolver.__init__ m) = CircuitSolver.Success vd comps tp mi su ->
  exists comps' mi' su',
    CircuitSolver.solve (CircuitSolver.__init__ m') = CircuitSolver.Success vd comps' tp mi' su'
    /\ Permutation comps comps'.
Proof.
  intros HN Hp H H' Hv Hs.
  assert (HN' : NoDup (map uid cs')).
  { eapply Permutation_NoDup; [apply Permutation_map, Hp|exact HN]. }
  apply (solve_reordered m m' vd comps tp mi su); auto.
  - now apply (of_components_wf cs' ref).
  - now apply (of_components_reordering cs cs' ref).
Qed.

Lemma reordering_invariance_witness :
  NoDup (map uid scenario2) /\ Permutation scenario2 scenario2_reordered /\
  valid (model_of scenario2) = true /\
  exists vd comps tp mi su comps' mi' su',
    CircuitSolver.solve (CircuitSolver.__init__ (model_of scenario2))
      = CircuitSolver.Success vd comps tp mi su /\
    CircuitSolver.solve (CircuitSolver.__init__ (model_of scenario2_reordered))
      = CircuitSolver.Success vd comps' tp mi' su' /\
    Permutation comps comps'.
Proof.
  assert (HN : NoDup (map uid scenario2)).
  { simpl. repeat constructor; simpl; intuition discriminate. }
  assert (HP : Permutation scenario2 scenario2_reordered).
  { unfold scenario2, scenario2_reordered.
    eapply perm_trans; [apply perm_skip, perm_swap|]. apply perm_swap. }
  assert (HV : valid (model_of scenario2) = true) by (vm_compute; reflexivity).
  split; [exact HN|]. split; [exact HP|]. split; [exact HV|].
  destruct (CircuitSolver.solve (CircuitSolver.__init__ (model_of scenario2)))
    as [vd comps tp mi su|msg sug] eqn:E.
  - destruct (reordering_invariance scenario2 scenario2_reordered 0
                (model_of scenario2) (model_of scenario2_reordered)
                vd comps tp mi su HN HP) as (comps' & mi' & su' & E' & Hperm).
    + vm_compute. reflexivity.
    + vm_compute. reflexivity.
    + exact HV.
    + exact E.
    + exists vd, comps, tp, mi, su, comps', mi', su'. auto.
  - vm_compute in E. discriminate.
Defined.

(** C6 (as stated) fails in binary64: exchanging the last two resistors
    of the circuit CS(1,0,1), R(2^-53,1,2), R(0.5,2,0), R(1,2,0) changes
    the rounded sum of the conductances at node 2 from 2^53 + 4 to
    2^53 + 2: node 2 is found at 0.25 V in one order and at 0.5 V in the
    other, and the 1 Ohm resistor is reported with 1/16 W and 1/4 W. *)
Lemma reordering_changes_rounded_solution :
  let m := model_of stiff_divider in
  let m' := model_of stiff_divider_reordered in
  NoDup (map uid stiff_divider) /\ Permutation stiff_divider stiff_divider_reordered
  /\ valid m = true
  /\ binary64_values stiff_divider = true
  /\ exists vd comps tp mi su vd' comps' tp' mi' su',
       FloatSolver.solve (CircuitSolver.__init__ m) = FloatSolver.Success vd comps tp mi su
       /\ FloatSolver.solve (CircuitSolver.__init__ m')
          = FloatSolver.Success vd' comps' tp' mi' su'
       /\ finite_reply vd comps tp = true /\ finite_reply vd' comps' tp' = true
       /\ Binary64.to_Qc (FloatSolver.voltage_at vd 2) = qc 1 4
       /\ Binary64.to_Qc (FloatSolver.voltage_at vd' 2) = qc 1 2
       /\ reported_power comps 3 = qc 1 16
       /\ reported_power comps' 3 = qc 1 4.
Proof.
  split; [simpl; repeat constructor; simpl; intuition discriminate|].
  split; [unfold stiff_divider, stiff_divider_reordered; do 2 apply perm_skip; apply perm_swap|].
  split; [vm_compute; reflexivity|]. split; [vm_compute; reflexivity|].
  do 10 eexists. split; [vm_compute; reflexivity|]. split; [vm_compute; reflexivity|].
  split; [vm_compute; reflexivity|]. split; [vm_compute; reflexivity|].
  repeat split; qc_eq.
Qed.

(** ** The rounded computation on examples *)

(** The conversion of a rational to binary64 on three values: 1/10 and
    1/3 are rounded to the nearest number, and 1 + 2^-53, half way
    between two numbers, goes to the even one. *)
Lemma of_Qc_samples :
  FloatOps.Prim2SF (Binary64.of_Qc (qc 1 10))
  = SpecFloat.S754_finite false 7205759403792794 (-56)
  /\ FloatOps.Prim2SF (Binary64.of_Qc (qc 1 3))
     = SpecFloat.S754_finite false 6004799503160661 (-54)
  /\ Binary64.to_Qc (Binary64.of_Qc (qc 9007199254740993 9007199254740992)) = 1.
Proof. split; [|split]; [vm_compute; reflexivity|vm_compute; reflexivity|qc_eq]. Qed.

(** In binary64 the eight-component example is solved with a total
    power of -2^-42 W, inside the solver's own threshold of 1e-9: the
    power-balance flag is set. *)
Lemma scenario5_in_binary64 :
  exists vd comps tp mi su,
    FloatSolver.solve (CircuitSolver.__init__ (model_of scenario5))
    = FloatSolver.Success vd comps tp mi su
    /\ finite_reply vd comps tp = true
    /\ Binary64.to_Qc tp = - qc 1 (2 ^ 42)
    /\ CircuitSolver.power_balance su = true.
Proof.
  do 5 eexists. split; [vm_compute; reflexivity|]. split; [vm_compute; reflexivity|].
  split; [qc_eq|reflexivity].
Qed.

(** With every source multiplied by 1024 the circuit is still valid and
    solved, but the rounded total power is -2^-22 W and the
    power-balance flag is not set, where exact arithmetic sets it. *)
Lemma power_balance_flag_lost :
  valid (model_of scenario5_scaled) = true
  /\ (exists vd comps tp mi su,
        FloatSolver.solve (CircuitSolver.__init__ (model_of scenario5_scaled))
        = FloatSolver.Success vd comps tp mi su
        /\ finite_reply vd comps tp = true
        /\ Binary64.to_Qc tp = - qc 1 (2 ^ 22)
        /\ CircuitSolver.power_balance su = false)
  /\ (exists vd comps tp mi su,
        CircuitSolver.solve (CircuitSolver.__init__ (model_of scenario5_scaled))
        = CircuitSolver.Success vd comps tp mi su
        /\ CircuitSolver.power_balance su = true).
Proof.
  split; [vm_compute; reflexivity|]. split.
  - do 5 eexists. split; [vm_compute; reflexivity|]. split; [vm_compute; reflexivity|].
    split; [qc_eq|reflexivity].
  - do 5 eexists. split; [vm_compute; reflexivity|]. reflexivity.
Qed.

(** * Further properties of the code *)

(** ** The reported solution *)

Lemma flow_out_inc m X c n p :
  Spec.idx m n = Some p ->
  flow_out n (result_of m X c) = inc m c p * current_of m X c.
Proof.
  intros Hp. unfold flow_out, result_of, inc. cbn.
  assert (H : forall a, (if (a =? n)%Z then current_of m X c else 0)
              = (match Spec.idx m a with Some i => Spec.at1 i p | None => 0 end)
                * current_of m X c).
  { intros a. destruct (Z.eqb_spec a n) as [->|Hne].
    - rewrite Hp. unfold Spec.at1. rewrite Nat.eqb_refl. ring.
    - destruct (Spec.idx m a) as [i|] eqn:Ei; [|ring].
      unfold Spec.at1. destruct (Nat.eqb_spec p i) as [->|]; [|ring].
      exfalso. apply Hne. eapply idx_inj; eauto. }
  rewrite !H. ring.
Qed.

Lemma sum_at_one (S : Z -> Qc) a : forall l,
  NoDup l -> In a l -> (forall n, In n l -> n <> a -> S n = 0) ->
  sumQ (map S l) = S a.
Proof.
  induction l as [|x l IH]; intros HN Hin Hz; [destruct Hin|].
  inversion HN as [|? ? Hx HN']; subst. simpl.
  destruct Hin as [->|Hin].
  - rewrite sumQ_zero; [ring|]. intros n Hn. apply Hz; [now right|]. intros ->. contradiction.
  - rewrite IH; auto.
    + rewrite (Hz x); [ring|now left|]. intros ->. contradiction.
    + intros n Hn. apply Hz. now right.
Qed.

Lemma sum_indicator (a : Z) (x : Qc) : forall l,
  NoDup l -> In a l -> sumQ (map (fun n => if (a =? n)%Z then x else 0) l) = x.
Proof.
  intros l HN Hin.
  rewrite (sum_at_one (fun n => if (a =? n)%Z then x else 0) a l HN Hin).
  - now rewrite Z.eqb_refl.
  - intros n _ Hne. destruct (Z.eqb_spec a n); [congruence|reflexivity].
Qed.

Lemma idx_of_node m n :
  well_formed m = true -> In n (CircuitModel.nodes m) ->
  n <> CircuitModel.reference_node m -> exists p, Spec.idx m n = Some p.
Proof.
  intros Hwf Hin Hne. unfold Spec.idx.
  destruct (Z.eqb_spec n (CircuitModel.reference_node m)); [contradiction|].
  apply find_index_In. rewrite unknown_nodes_eq by auto.
  apply filter_In. split; auto. apply negb_true_iff. now apply Z.eqb_neq.
Qed.

Lemma kcl_currents m X p :
  well_formed m = true -> length X = (Spec.N m + Spec.M m)%nat ->
  matvec (Spec.G m) X = Spec.Zvec m -> (p < Spec.N m)%nat ->
  sumQ (map (fun c => inc m c p * current_of m X c) (CircuitModel.values m)) = 0.
Proof.
  intros Hwf HL HX Hp.
  pose proof (proj1 (matvec_iff_equations m X HL (current_by_uid m X)
                       (fun k Hk => current_by_uid_rank m X k _ Hwf Hk)) HX) as [Hk _].
  specialize (Hk p Hp). unfold kcl in Hk.
  rewrite sum_by_class.
  assert (E1 : sumQ (map (fun c => inc m c p * current_of m X c)
                         (filter is_resistor (CircuitModel.values m)))
               = sumQ (map (fun r => 1 / value r * inc m r p * vdrop m X r)
                           (filter is_resistor (CircuitModel.values m)))).
  { apply sumQ_map_ext. intros c Hc. apply filter_In in Hc. destruct Hc as [_ Hc].
    unfold current_of. unfold is_resistor, isinstance, class_eqb in Hc.
    destruct (cls c); try discriminate. unfold Qcdiv. ring. }
  assert (E2 : sumQ (map (fun c => inc m c p * current_of m X c)
                         (filter is_vs (CircuitModel.values m)))
               = sumQ (map (fun vs => inc m vs p * current_by_uid m X (uid vs))
                           (Spec.sources m))).
  { apply sumQ_map_ext. intros c Hc. apply filter_In in Hc. destruct Hc as [_ Hc].
    unfold current_of, branch_current, current_by_uid.
    unfold is_vs, isinstance, class_eqb in Hc.
    destruct (cls c); try discriminate. reflexivity. }
  assert (E3 : sumQ (map (fun c => inc m c p * current_of m X c)
                         (filter is_cs (CircuitModel.values m)))
               = sumQ (map (fun c => value c * inc m c p)
                           (filter is_cs (CircuitModel.values m)))).
  { apply sumQ_map_ext. intros c Hc. apply filter_In in Hc. destruct Hc as [_ Hc].
    unfold current_of. unfold is_cs, isinstance, class_eqb in Hc.
    destruct (cls c); try discriminate. ring. }
  rewrite E1, E2, E3, Hk. ring.
Qed.

Lemma valid_ref_in m : valid m = true -> In (CircuitModel.reference_node m) (CircuitModel.nodes m).
Proof.
  unfold valid. rewrite !andb_true_iff. intros [[_ H] _]. now apply set_mem_iff.
Qed.


(** What a successful solve returns, with the voltages read back from
    the dictionary. *)
Lemma solve_success_voltages m vd comps tp mi su :
  valid m = true ->
  CircuitSolver.solve (CircuitSolver.__init__ m) = CircuitSolver.Success vd comps tp mi su ->
  exists X, Linalg.solve (Spec.G m) (Spec.Zvec m) = Ok X /\
    length X = (Spec.N m + Spec.M m)%nat /\ matvec (Spec.G m) X = Spec.Zvec m /\
    (forall n, CircuitSolver.voltage_at vd n = node_voltage m X n) /\
    comps = map (result_of m X) (CircuitModel.values m) /\
    tp = sumQ (map (power_of m X) (CircuitModel.values m)) /\
    mi = CircuitSolver._build_matrix_info (Spec.G m) (Spec.Zvec m) X /\
    su = CircuitSolver.mkSummary (length (CircuitModel.components m)) (length vd)
           (Qc_ltb (Qcabs.Qcabs tp) (qc 1 1000000000)).
Proof.
  intros Hv Hs.
  destruct (solve_success_inv m vd comps tp mi su Hv Hs) as (X & E & HL & HX & _ & _ & _).
  destruct (solve_packaged m Hv X E) as (vd' & _ & Hvd & Hsol).
  rewrite Hsol in Hs. injection Hs as <- <- <- <- <-.
  exists X. repeat split; auto.
Qed.

(** Kirchhoff's current law holds at every node of a solved circuit,
    the reference node included. *)
Lemma kcl_all_nodes m (X : vector) n :
  valid m = true -> length X = (Spec.N m + Spec.M m)%nat ->
  matvec (Spec.G m) X = Spec.Zvec m -> In n (CircuitModel.nodes m) ->
  sumQ (map (flow_out n) (map (result_of m X) (CircuitModel.values m))) = 0.
Proof.
  intros Hv HL HX Hn. pose proof (valid_wf m Hv) as Hwf.
  assert (Hnr : forall n, In n (CircuitModel.nodes m) ->
                  n <> CircuitModel.reference_node m ->
                  sumQ (map (flow_out n) (map (result_of m X) (CircuitModel.values m))) = 0).
  { intros n' Hn' Hne. destruct (idx_of_node m n' Hwf Hn' Hne) as (p & Hp).
    rewrite map_map.
    rewrite (sumQ_map_ext _ (fun c => inc m c p * current_of m X c)).
    - apply kcl_currents; auto. eapply idx_Some; eauto.
    - intros c _. now apply flow_out_inc. }
  destruct (Z.eq_dec n (CircuitModel.reference_node m)) as [->|Hne]; [|now apply Hnr].
  set (comps := map (result_of m X) (CircuitModel.values m)) in *.
  rewrite <- (sum_at_one (fun n => sumQ (map (flow_out n) comps))
                (CircuitModel.reference_node m) (CircuitModel.nodes m)).
  - rewrite sumQ_swap. apply sumQ_zero. intros r Hr.
    unfold comps in Hr. apply in_map_iff in Hr. destruct Hr as (c & <- & Hc).
    destruct (wf_terminals m c Hwf Hc) as [H1 H2].
    unfold flow_out. cbn.
    pose proof (ascending_NoDup _ (wf_ascending m Hwf)) as HN.
    rewrite (sumQ_map_ext _ (fun n => (if (node1 c =? n)%Z then current_of m X c else 0)
                                      + - (if (node2 c =? n)%Z then current_of m X c else 0)))
      by (intros; ring).
    rewrite sumQ_map_plus.
    rewrite (sumQ_map_ext (fun n => - (if (node2 c =? n)%Z then current_of m X c else 0))
               (fun n => (- (1)) * (if (node2 c =? n)%Z then current_of m X c else 0)))
      by (intros; ring).
    rewrite sumQ_map_scale, !sum_indicator by auto. ring.
  - apply ascending_NoDup, wf_ascending, Hwf.
  - apply valid_ref_in, Hv.
  - intros n' Hn' Hne'. now apply Hnr.
Qed.

(** Every voltage source of a solved circuit holds its voltage. *)
Lemma source_constraints m (X : vector) c :
  well_formed m = true -> length X = (Spec.N m + Spec.M m)%nat ->
  matvec (Spec.G m) X = Spec.Zvec m ->
  In c (CircuitModel.values m) -> cls c = VoltageSource -> vdrop m X c = value c.
Proof.
  intros Hwf HL HX Hc Ht.
  pose proof (proj1 (matvec_iff_equations m X HL (current_by_uid m X)
                       (fun k Hk => current_by_uid_rank m X k _ Hwf Hk)) HX) as [_ Hc'].
  apply Hc'. apply filter_In. split; auto.
  unfold is_vs, isinstance. now rewrite Ht.
Qed.



Lemma Qcsquare_nonneg (v : Qc) : 0 <= v * v.
Proof.
  destruct (Qclt_le_dec v 0) as [H|H].
  - replace (v * v) with ((- v) * (- v)) by ring.
    assert (0 <= - v).
    { apply Qclt_le_weak in H. apply Qcopp_le_compat in H.
      replace (- 0) with 0 in H by ring. exact H. }
    now apply Qcmult_nonneg.
  - now apply Qcmult_nonneg.
Qed.

Lemma Qcinv_nonneg (a : Qc) : 0 < a -> 0 <= / a.
Proof.
  intros H. unfold Qcle, Qclt in *. cbn in *.
  rewrite Qred_correct. apply Qinv_le_0_compat. now apply Qlt_le_weak.
Qed.

Lemma valid_resistor_positive m c :
  valid m = true -> In c (CircuitModel.values m) -> cls c = Resistor -> 0 < value c.
Proof.
  unfold valid. intros H Hin Hc. apply andb_prop in H. destruct H as [_ H].
  rewrite forallb_forall in H. specialize (H c Hin). apply andb_prop in H.
  destruct H as [_ H]. unfold is_resistor, isinstance in H. rewrite Hc in H.
  simpl in H. now apply Qc_ltb_true.
Qed.

(** X2: in the solution of a valid circuit a resistor never supplies
    power: its reported power is non-negative and its description is
    never the supplying one. *)
Theorem resistors_dissipate m vd comps tp mi su :
  valid m = true ->
  CircuitSolver.solve (CircuitSolver.__init__ m) = CircuitSolver.Success vd comps tp mi su ->
  forall r, In r comps -> CircuitSolver.r_type r = Resistor ->
    0 <= CircuitSolver.r_power r
    /\ forall w, CircuitSolver.r_description r <> CircuitSolver.Supplying w.
Proof.
  intros Hv Hs r Hr Ht.
  destruct (solve_success_voltages m vd comps tp mi su Hv Hs)
    as (X & _ & _ & _ & _ & -> & _).
  apply in_map_iff in Hr. destruct Hr as (c & <- & Hc). cbn in *.
  assert (Hp : 0 <= power_of m X c).
  { unfold power_of, current_of. rewrite Ht.
    pose proof (valid_resistor_positive m c Hv Hc Ht) as Hpos.
    unfold Qcdiv.
    replace (vdrop m X c * (vdrop m X c * / value c))
      with ((vdrop m X c * vdrop m X c) * / value c) by ring.
    apply Qcmult_nonneg; [apply Qcsquare_nonneg|now apply Qcinv_nonneg]. }
  split; [exact Hp|].
  intros w. unfold CircuitSolver._get_power_description.
  destruct (Qc_ltb (power_of m X c) (- qc 1 1000000000000)) eqn:E.
  - exfalso. apply Qc_ltb_true in E.
    assert (Hneg : - qc 1 1000000000000 < 0) by (unfold Qclt; vm_compute; reflexivity).
    apply (Qclt_not_le _ _ (Qclt_trans _ _ _ E Hneg)). exact Hp.
  - destruct (Qc_ltb (qc 1 1000000000000) (power_of m X c)); discriminate.
Qed.

Lemma resistors_dissipate_witness :
  valid (model_of scenario2) = true /\
  exists vd comps tp mi su,
    CircuitSolver.solve (CircuitSolver.__init__ (model_of scenario2))
      = CircuitSolver.Success vd comps tp mi su /\
    forall r, In r comps -> CircuitSolver.r_type r = Resistor -> 0 <= CircuitSolver.r_power r.
Proof.
  split; [vm_compute; reflexivity|].
  destruct (CircuitSolver.solve (CircuitSolver.__init__ (model_of scenario2)))
    as [vd comps tp mi su|msg sug] eqn:E.
  - exists vd, comps, tp, mi, su. split; [reflexivity|].
    intros r Hr Ht.
    apply (resistors_dissipate (model_of scenario2) vd comps tp mi su);
      [vm_compute; reflexivity|exact E|exact Hr|exact Ht].
  - vm_compute in E. discriminate.
Defined.

(** The total of the component powers of a solution is zero. *)
Lemma sum_power_zero m X :
  well_formed m = true -> length X = (Spec.N m + Spec.M m)%nat ->
  matvec (Spec.G m) X = Spec.Zvec m ->
  sumQ (map (power_of m X) (CircuitModel.values m)) = 0.
Proof.
  intros Hwf HL HX.
  rewrite sum_by_class. rewrite <- (power_balance m X HL HX).
  f_equal; [f_equal|].
  - apply sumQ_map_ext. intros c Hc. apply filter_In in Hc. destruct Hc as [_ Hc].
    unfold power_of, current_of. unfold is_resistor, isinstance, class_eqb in Hc.
    destruct (cls c); try discriminate. reflexivity.
  - change (filter is_vs (CircuitModel.values m)) with (Spec.sources m).
    unfold enumerate.
    rewrite <- (sum_by_rank (fun c k => vdrop m X c * nth (Spec.N m + k) X 0)
                  (Spec.sources m) 0).
    + apply sumQ_map_ext. intros c Hc. apply filter_In in Hc. destruct Hc as [_ Hc].
      unfold power_of, current_of, branch_current.
      unfold is_vs, isinstance, class_eqb in Hc.
      destruct (cls c); try discriminate. reflexivity.
    + now apply sources_NoDup.
  - apply sumQ_map_ext. intros c Hc. apply filter_In in Hc. destruct Hc as [_ Hc].
    unfold power_of, current_of. unfold is_cs, isinstance, class_eqb in Hc.
    destruct (cls c); try discriminate. reflexivity.
Qed.

Lemma combine_nil_r {A B} (l : list A) : combine l (@nil B) = [].
Proof. now destruct l. Qed.

Lemma skipn_cons_nth (l : list Z) k :
  (k < length l)%nat -> skipn k l = nth k l 0%Z :: skipn (S k) l.
Proof.
  revert k. induction l as [|x l IH]; intros k Hk; simpl in *; [lia|].
  destruct k; [reflexivity|]. simpl. apply IH. lia.
Qed.

(** The first loop of [_package_solution] appends one entry per
    non-reference node, in ascending node order. *)
Lemma voltages_list m (Hv : valid m = true) (Vs : vector) : forall k (acc : dict Z Qc),
  (k + length Vs <= Spec.N m)%nat ->
  (forall j, (k <= j < Spec.N m)%nat ->
             ~ In (nth j (Spec.unknown_nodes m) 0%Z) (dict_keys acc)) ->
  for_each (fun '(i, voltage) voltages =>
              match dict_get Nat.eqb (CircuitSolver.index_to_node (CircuitSolver.__init__ m)) i with
              | Some node => Ok (dict_set Z.eqb voltages node voltage)
              | None => Raise (KeyError (str_of_Z (Z.of_nat i)))
              end) (enumerate_from k Vs) acc
  = Ok (acc ++ combine (firstn (length Vs) (skipn k (Spec.unknown_nodes m))) Vs).
Proof.
  pose proof (unknown_nodes_NoDup m (valid_wf m Hv)) as HN.
  induction Vs as [|v Vs IH]; intros k acc Hk Hfresh.
  - simpl. now rewrite app_nil_r.
  - cbn [enumerate_from for_each length] in *.
    rewrite (index_to_node_get m Hv).
    assert (Hlt : (k < length (Spec.unknown_nodes m))%nat) by (unfold Spec.N in Hk; lia).
    rewrite (nth_error_nth' _ 0%Z Hlt). cbn [bind].
    rewrite (dict_set_fresh Z.eqb Zeqb_spec) by (apply Hfresh; lia).
    rewrite IH.
    + rewrite (skipn_cons_nth _ k Hlt). cbn [firstn combine].
      now rewrite <- app_assoc.
    + lia.
    + intros j Hj. unfold dict_keys. rewrite map_app, in_app_iff.
      intros [H|[H|[]]].
      * apply (Hfresh j); [lia|exact H].
      * cbn in H.
        assert (k = j); [|lia].
        apply (proj1 (NoDup_nth (Spec.unknown_nodes m) 0%Z) HN);
          unfold Spec.N in *; [lia|lia|exact H].
Qed.

Lemma voltages_of_list m (X : vector) :
  valid m = true -> length X = (Spec.N m + Spec.M m)%nat ->
  CircuitSolver.voltages_of (CircuitSolver.__init__ m) (firstn (Spec.N m) X)
  = Ok ((CircuitModel.reference_node m, 0)
          :: combine (Spec.unknown_nodes m) (firstn (Spec.N m) X)).
Proof.
  intros Hv HL. unfold CircuitSolver.voltages_of, enumerate.
  assert (HLf : length (firstn (Spec.N m) X) = Spec.N m) by (rewrite length_firstn; lia).
  rewrite (voltages_list m Hv).
  - rewrite HLf. cbn [skipn app]. unfold Spec.N. now rewrite firstn_all.
  - lia.
  - intros j Hj [H|[]]. cbn in H.
    assert (Hin : In (nth j (Spec.unknown_nodes m) 0%Z) (Spec.unknown_nodes m)).
    { apply nth_In. unfold Spec.N in Hj. lia. }
    rewrite <- H in Hin. rewrite (unknown_nodes_eq m (valid_wf m Hv)) in Hin.
    apply filter_In in Hin. destruct Hin as [_ Hin].
    now rewrite Z.eqb_refl in Hin.
Qed.

Lemma count_non_reference m :
  valid m = true -> length (CircuitModel.nodes m) = S (Spec.N m).
Proof.
  intros Hv. pose proof (valid_wf m Hv) as Hwf.
  pose proof (ascending_NoDup _ (wf_ascending m Hwf)) as HN.
  pose proof (valid_ref_in m Hv) as Hin.
  unfold Spec.N. rewrite (unknown_nodes_eq m Hwf).
  set (ref := CircuitModel.reference_node m) in *.
  clearbody ref. clear Hv Hwf.
  induction (CircuitModel.nodes m) as [|x l IH]; [destruct Hin|].
  inversion HN as [|? ? Hx HN']; subst. simpl.
  destruct (Z.eqb_spec x ref) as [->|Hne]; simpl.
  - f_equal. f_equal. symmetry. apply filter_all_true.
    intros z Hz. apply negb_true_iff, Z.eqb_neq. intros ->. contradiction.
  - f_equal. apply IH; auto. destruct Hin; [contradiction|auto].
Qed.

Lemma residual_zero : forall (a : vector),
  map (fun '(x, y) => x - y) (combine a a) = np_zeros (length a).
Proof.
  induction a as [|x a IH]; [reflexivity|].
  cbn [combine map length]. change (np_zeros (S (length a))) with (0 :: np_zeros (length a)).
  f_equal; [ring|exact IH].
Qed.

Lemma max_of_zeros n : fold_left CircuitSolver.Qc_max (np_zeros n) 0 = 0.
Proof.
  induction n as [|n IH]; [reflexivity|].
  change (np_zeros (S n)) with (0 :: np_zeros n). cbn [fold_left].
  assert (E : CircuitSolver.Qc_max 0 0 = 0) by (vm_compute; reflexivity).
  now rewrite E.
Qed.

Lemma Forall_zeros n : Forall (fun e : Qc => e = 0) (np_zeros n).
Proof. unfold np_zeros. apply Forall_forall. intros x Hx. now apply repeat_spec in Hx. Qed.

Lemma map_abs_zeros n : map Qcabs.Qcabs (np_zeros n) = np_zeros n.
Proof.
  induction n as [|n IH]; [reflexivity|].
  change (np_zeros (S n)) with (0 :: np_zeros n). cbn [map]. rewrite IH.
  f_equal. apply Qc_is_canon. reflexivity.
Qed.

Lemma matrix_info_exact (G : matrix) (Zv X : vector) :
  matvec G X = Zv ->
  let mi := CircuitSolver._build_matrix_info G Zv X in
  matvec (CircuitSolver.conductance_matrix mi) (CircuitSolver.voltage_solution mi)
  = CircuitSolver.current_vector mi
  /\ Forall (fun e : Qc => e = 0) (CircuitSolver.residual mi)
  /\ CircuitSolver.max_error mi = 0.
Proof.
  intros HX mi. subst mi. unfold CircuitSolver._build_matrix_info.
  rewrite HX, residual_zero, map_abs_zeros.
  destruct (length Zv) as [|n] eqn:E.
  - cbn. repeat split. constructor.
  - change (np_zeros (S n)) with (0 :: np_zeros n). cbn -[np_zeros matvec].
    split; [exact HX|]. split.
    + constructor; [reflexivity|apply Forall_zeros].
    + apply max_of_zeros.
Qed.

Lemma map_fst_combine {A B} : forall (l : list A) (l' : list B),
  length l' = length l -> map fst (combine l l') = l.
Proof.
  induction l as [|a l IH]; intros [|y ys] H; simpl in *; try discriminate; auto.
  f_equal. apply IH. lia.
Qed.

(** X3: in exact arithmetic, the shape of a successful result on a
    valid circuit: the voltage table lists the reference node first and
    then the other nodes in ascending order, the component results
    follow the components in the model's order with the same ids, the
    summary counts the stored components and the nodes, the reported
    matrix, solution and right-hand side satisfy the system, every
    residual is 0, the largest error is 0, the total power is 0 and the
    power-balance flag of the summary is therefore set. *)
Theorem solution_is_packaged m vd comps tp mi su :
  valid m = true ->
  CircuitSolver.solve (CircuitSolver.__init__ m) = CircuitSolver.Success vd comps tp mi su ->
  map fst vd = CircuitModel.reference_node m :: CircuitModel.get_non_reference_nodes m
  /\ map CircuitSolver.r_id comps = map uid (CircuitModel.values m)
  /\ tp = 0
  /\ su = CircuitSolver.mkSummary (length (CircuitModel.components m))
                                  (length (CircuitModel.nodes m)) true
  /\ matvec (CircuitSolver.conductance_matrix mi) (CircuitSolver.voltage_solution mi)
     = CircuitSolver.current_vector mi
  /\ Forall (fun e : Qc => e = 0) (CircuitSolver.residual mi)
  /\ CircuitSolver.max_error mi = 0.
Proof.
  intros Hv Hs. pose proof (valid_wf m Hv) as Hwf.
  destruct (solve_success_inv m vd comps tp mi su Hv Hs) as (X & E & HL & HX & Hvd & _ & _).
  destruct (solve_success_voltages m vd comps tp mi su Hv Hs)
    as (X' & E' & _ & _ & _ & -> & -> & -> & ->).
  assert (X' = X) by congruence. subst X'.
  rewrite (voltages_of_list m X Hv HL) in Hvd. injection Hvd as <-.
  assert (HLf : length (firstn (Spec.N m) X) = Spec.N m) by (rewrite length_firstn; lia).
  pose proof (sum_power_zero m X Hwf HL HX) as H0.
  split; [|split; [|split; [|split]]].
  - cbn [map fst]. f_equal.
    change (CircuitModel.get_non_reference_nodes m) with (Spec.unknown_nodes m).
    apply map_fst_combine. exact HLf.
  - rewrite !map_map. reflexivity.
  - exact H0.
  - rewrite H0. f_equal.
    + cbn [length]. rewrite length_combine, HLf.
      rewrite (count_non_reference m Hv). unfold Spec.N. lia.
  - apply (matrix_info_exact (Spec.G m) (Spec.Zvec m) X HX).
Qed.

Lemma solution_is_packaged_witness :
  valid (model_of scenario2) = true /\
  exists vd comps tp mi su,
    CircuitSolver.solve (CircuitSolver.__init__ (model_of scenario2))
      = CircuitSolver.Success vd comps tp mi su /\
    map fst vd = [0; 1; 2]%Z /\ CircuitSolver.max_error mi = 0.
Proof.
  split; [vm_compute; reflexivity|].
  destruct (CircuitSolver.solve (CircuitSolver.__init__ (model_of scenario2)))
    as [vd comps tp mi su|msg sug] eqn:E.
  - exists vd, comps, tp, mi, su. split; [reflexivity|].
    destruct (solution_is_packaged (model_of scenario2) vd comps tp mi su)
      as (H1 & _ & _ & _ & _ & _ & H7); [vm_compute; reflexivity|exact E|].
    split; [exact H1|exact H7].
  - vm_compute in E. discriminate.
Defined.

(** ** Outcome and uniqueness of the solve *)

Lemma valid_build m :
  valid m = true ->
  CircuitSolver._build_mna_system (CircuitSolver.__init__ m) = Ok (Spec.G m, Spec.Zvec m).
Proof.
  intros Hv. apply build_mna_system_closed_form.
  - now apply valid_wf.
  - unfold resistors_nonzero. apply forallb_forall. intros c Hc.
    destruct (is_resistor c) eqn:Er; auto. simpl. apply negb_true_iff, Qc_eqb_false.
    apply (valid_resistor_value m Hv); auto.
    unfold is_resistor, isinstance, class_eqb in Er. now destruct (cls c).
  - unfold vs_distinct_terminals. apply forallb_forall. intros c Hc.
    destruct (is_vs c); auto. simpl. apply negb_true_iff, Z.eqb_neq.
    now apply (valid_distinct m).
Qed.

Lemma solve_raise n (G : matrix) (Zv : vector) e :
  dims n G -> length Zv = n ->
  Linalg.solve G Zv = Raise e -> e = LinAlgError "Singular matrix" /\ singular G.
Proof.
  intros HD HL. unfold Linalg.solve. destruct HD as [HG HF]. rewrite HG.
  destruct (Linalg.gauss n (combine G Zv)) as [xs|] eqn:E; [discriminate|].
  intros H. injection H as <-. split; [reflexivity|].
  assert (HD : dims n G) by (split; auto).
  destruct (gauss_complete n (combine G Zv)) as (v & Hv & Hnz & Hker);
    auto using rows_ok_combine, combine_length_n.
  exists v. rewrite HG. split; [exact Hv|]. split; [exact Hnz|].
  rewrite <- HG. apply (kernel_combine v G Zv); [lia|exact Hker].
Qed.

(** X4: in exact arithmetic (the stamping and the linear solve carried
    out without rounding), on a valid circuit the assembly always
    succeeds and [CircuitSolver.solve] has exactly two outcomes, decided
    by the assembled matrix: the singular-matrix error reply with its
    suggestion when the matrix is singular, a solution when it is not. *)
Theorem solve_outcome m :
  valid m = true ->
  exists (G : matrix) (Zv : vector),
    CircuitSolver._build_mna_system (CircuitSolver.__init__ m) = Ok (G, Zv)
    /\ ((singular G
         /\ CircuitSolver.solve (CircuitSolver.__init__ m)
            = CircuitSolver.Error singular_message suggestion_text)
        \/ (~ singular G
            /\ exists vd comps tp mi su,
                 CircuitSolver.solve (CircuitSolver.__init__ m)
                 = CircuitSolver.Success vd comps tp mi su)).
Proof.
  intros Hv. exists (Spec.G m), (Spec.Zvec m). split; [now apply valid_build|].
  pose proof (dims_mtab (Spec.N m + Spec.M m) (Spec.G_entry m)) as HD.
  pose proof (length_tab (Spec.N m + Spec.M m) (Spec.Z_entry m)) as HL.
  fold (Spec.G m) in HD. fold (Spec.Zvec m) in HL.
  destruct (Linalg.solve (Spec.G m) (Spec.Zvec m)) as [X|e] eqn:E.
  - right. split.
    + intros Hs. rewrite (solve_singular _ _ _ HD HL Hs) in E. discriminate.
    + destruct (solve_packaged m Hv X E) as (vd & _ & _ & Hsol). eauto 6.
  - left. destruct (solve_raise _ _ _ e HD HL E) as [-> Hs]. split; [exact Hs|].
    unfold CircuitSolver.solve. rewrite (valid_build m Hv). cbn [bind]. rewrite E.
    reflexivity.
Qed.

Lemma solve_outcome_witness :
  exists (G : matrix) (Zv : vector),
    CircuitSolver._build_mna_system (CircuitSolver.__init__ (model_of scenario2)) = Ok (G, Zv)
    /\ ((singular G
         /\ CircuitSolver.solve (CircuitSolver.__init__ (model_of scenario2))
            = CircuitSolver.Error singular_message suggestion_text)
        \/ (~ singular G
            /\ exists vd comps tp mi su,
                 CircuitSolver.solve (CircuitSolver.__init__ (model_of scenario2))
                 = CircuitSolver.Success vd comps tp mi su)).
Proof.
  apply (solve_outcome (model_of scenario2)). vm_compute. reflexivity.
Defined.

Lemma inc_incidence m c n p :
  Spec.idx m n = Some p -> inc m c p = incidence n c.
Proof.
  intros Hp. unfold inc, incidence.
  assert (H : forall a, (match Spec.idx m a with Some i => Spec.at1 i p | None => 0 end)
                        = if (a =? n)%Z then 1 else 0).
  { intros a. destruct (Z.eqb_spec a n) as [->|Hne].
    - rewrite Hp. unfold Spec.at1. now rewrite Nat.eqb_refl.
    - destruct (Spec.idx m a) as [i|] eqn:Ei; [|reflexivity].
      unfold Spec.at1. destruct (Nat.eqb_spec p i) as [->|]; [|reflexivity].
      exfalso. apply Hne. eapply idx_inj; eauto. }
  now rewrite !H.
Qed.

Lemma vector_of_length m V J : length (vector_of m V J) = (Spec.N m + Spec.M m)%nat.
Proof. unfold vector_of. now rewrite length_app, !length_map. Qed.

Lemma vector_of_voltage m V J n :
  well_formed m = true -> V (CircuitModel.reference_node m) = 0 ->
  In n (CircuitModel.nodes m) -> node_voltage m (vector_of m V J) n = V n.
Proof.
  intros Hwf H0 Hin. unfold node_voltage.
  destruct (Z.eq_dec n (CircuitModel.reference_node m)) as [->|Hne].
  - unfold Spec.idx. rewrite Z.eqb_refl. simpl. now rewrite H0.
  - destruct (idx_of_node m n Hwf Hin Hne) as (p & Hp). rewrite Hp. simpl.
    unfold Spec.idx in Hp.
    destruct (Z.eqb_spec n (CircuitModel.reference_node m)); [contradiction|].
    apply find_index_Some in Hp. destruct Hp as [Hlt Hn].
    unfold vector_of. rewrite app_nth1 by now rewrite length_map.
    rewrite (nth_indep _ 0 (V 0%Z)) by now rewrite length_map.
    rewrite map_nth. now rewrite Hn.
Qed.

Lemma vector_of_source m V J k d :
  (k < Spec.M m)%nat ->
  nth (Spec.N m + k) (vector_of m V J) 0 = J (uid (nth k (Spec.sources m) d)).
Proof.
  intros Hk. unfold vector_of.
  rewrite app_nth2 by (rewrite length_map; unfold Spec.N; lia).
  rewrite length_map. replace (Spec.N m + k - length (Spec.unknown_nodes m))%nat with k
    by (unfold Spec.N; lia).
  rewrite (nth_indep _ 0 ((fun vs => J (uid vs)) d)) by (rewrite length_map; exact Hk).
  now rewrite (map_nth (fun vs => J (uid vs))).
Qed.

Lemma laws_are_equations m V J :
  well_formed m = true -> satisfies_laws m V J ->
  equations m (vector_of m V J) J.
Proof.
  intros Hwf (H0 & Hk & Hcon).
  assert (Hvd : forall c, In c (CircuitModel.values m) ->
                  vdrop m (vector_of m V J) c = V (node1 c) - V (node2 c)).
  { intros c Hin. destruct (wf_terminals m c Hwf Hin) as [H1 H2].
    unfold vdrop. now rewrite !vector_of_voltage. }
  split.
  - intros p Hp. unfold kcl.
    set (n := nth p (Spec.unknown_nodes m) 0%Z).
    assert (Hn : In n (Spec.unknown_nodes m)) by (apply nth_In; exact Hp).
    pose proof Hn as Hn'. rewrite (unknown_nodes_eq m Hwf) in Hn'.
    apply filter_In in Hn'. destruct Hn' as [Hin Hne].
    apply negb_true_iff, Z.eqb_neq in Hne.
    assert (Hidx : Spec.idx m n = Some p).
    { unfold Spec.idx. destruct (Z.eqb_spec n (CircuitModel.reference_node m)); [contradiction|].
      apply find_index_nth; [now apply unknown_nodes_NoDup|exact Hp]. }
    specialize (Hk n Hin Hne). rewrite sum_by_class in Hk.
    assert (E1 : sumQ (map (fun c => incidence n c * law_current V J c)
                           (filter is_resistor (CircuitModel.values m)))
                 = sumQ (map (fun r => 1 / value r * inc m r p * vdrop m (vector_of m V J) r)
                             (filter is_resistor (CircuitModel.values m)))).
    { apply sumQ_map_ext. intros c Hc. apply filter_In in Hc. destruct Hc as [Hc Hr].
      rewrite (inc_incidence m c n p Hidx), (Hvd c Hc).
      unfold law_current. unfold is_resistor, isinstance, class_eqb in Hr.
      destruct (cls c); try discriminate. unfold Qcdiv. ring. }
    assert (E2 : sumQ (map (fun c => incidence n c * law_current V J c)
                           (filter is_vs (CircuitModel.values m)))
                 = sumQ (map (fun vs => inc m vs p * J (uid vs)) (Spec.sources m))).
    { apply sumQ_map_ext. intros c Hc. apply filter_In in Hc. destruct Hc as [Hc Hr].
      rewrite (inc_incidence m c n p Hidx).
      unfold law_current. unfold is_vs, isinstance, class_eqb in Hr.
      destruct (cls c); try discriminate. reflexivity. }
    assert (E3 : sumQ (map (fun c => incidence n c * law_current V J c)
                           (filter is_cs (CircuitModel.values m)))
                 = sumQ (map (fun c => value c * inc m c p)
                             (filter is_cs (CircuitModel.values m)))).
    { apply sumQ_map_ext. intros c Hc. apply filter_In in Hc. destruct Hc as [Hc Hr].
      rewrite (inc_incidence m c n p Hidx).
      unfold law_current. unfold is_cs, isinstance, class_eqb in Hr.
      destruct (cls c); try discriminate. ring. }
    rewrite E1, E2, E3 in Hk.
    assert (L : forall a b c : Qc, a + b + c = 0 -> a + b = - c).
    { intros a b c H. assert (Hab : a + b = (a + b + c) - c) by ring.
      rewrite Hab, H. ring. }
    apply L. exact Hk.
  - intros vs Hvs. apply filter_In in Hvs. destruct Hvs as [Hin Hr].
    rewrite (Hvd vs Hin). apply Hcon; auto.
    unfold is_vs, isinstance, class_eqb in Hr. now destruct (cls vs).
Qed.

(** Node voltages and source currents that satisfy the laws are the
    solution the solver computes. *)
Lemma laws_determine_vector m V J (X : vector) :
  well_formed m = true -> satisfies_laws m V J ->
  Linalg.solve (Spec.G m) (Spec.Zvec m) = Ok X -> vector_of m V J = X.
Proof.
  intros Hwf Hlaw E.
  pose proof (laws_are_equations m V J Hwf Hlaw) as Heq.
  pose proof (proj2 (matvec_iff_equations m (vector_of m V J) (vector_of_length m V J) J
                       (fun k Hk => vector_of_source m V J k _ Hk)) Heq) as HX'.
  apply (solve_unique (Spec.N m + Spec.M m) (Spec.G m) (Spec.Zvec m)); auto.
  - apply dims_mtab.
  - apply length_tab.
  - apply vector_of_length.
Qed.

Lemma law_source_current m V J c :
  In c (CircuitModel.values m) -> cls c = VoltageSource ->
  branch_current m (vector_of m V J) c = J (uid c).
Proof.
  intros Hc Ht. unfold branch_current.
  assert (Hs' : In c (Spec.sources m)).
  { apply filter_In. split; auto. unfold is_vs, isinstance. now rewrite Ht. }
  rewrite (vector_of_source m V J _ c).
  - now rewrite uid_nth_pos_of.
  - apply pos_of_lt. eauto.
Qed.

(** X5: in exact arithmetic the solution is the only one.  Whenever
    [CircuitSolver.solve] succeeds on a valid circuit, any node voltages
    and source currents that satisfy Kirchhoff's laws for that circuit
    are the reported ones: the voltages agree at every node and the
    source currents agree with the currents reported for the voltage
    sources. *)
Theorem solution_is_unique m vd comps tp mi su (V : Z -> Qc) (J : nat -> Qc) :
  valid m = true ->
  CircuitSolver.solve (CircuitSolver.__init__ m) = CircuitSolver.Success vd comps tp mi su ->
  satisfies_laws m V J ->
  (forall n, In n (CircuitModel.nodes m) -> CircuitSolver.voltage_at vd n = V n)
  /\ (forall r, In r comps -> CircuitSolver.r_type r = VoltageSource ->
        CircuitSolver.r_current r = J (CircuitSolver.r_id r)).
Proof.
  intros Hv Hs Hlaw. pose proof (valid_wf m Hv) as Hwf.
  destruct (solve_success_voltages m vd comps tp mi su Hv Hs)
    as (X & E & HL & HX & Hvd & -> & _).
  pose proof (laws_determine_vector m V J X Hwf Hlaw E) as EX.
  destruct Hlaw as (H0 & _ & _).
  split.
  - intros n Hn. rewrite Hvd, <- EX. now apply vector_of_voltage.
  - intros r Hr Ht. apply in_map_iff in Hr. destruct Hr as (c & <- & Hc). cbn in *.
    unfold current_of. rewrite Ht, <- EX. now apply law_source_current.
Qed.

Lemma divider_laws : satisfies_laws (model_of scenario2) divider_voltage divider_current.
Proof.
  split; [reflexivity|]. split.
  - intros n Hn Hne.
    vm_compute in Hn. destruct Hn as [<-|[<-|[<-|[]]]].
    + exfalso. apply Hne. reflexivity.
    + apply Qc_is_canon. vm_compute. reflexivity.
    + apply Qc_is_canon. vm_compute. reflexivity.
  - intros c Hc Ht. vm_compute in Hc.
    destruct Hc as [<-|[<-|[<-|[]]]]; try discriminate Ht.
    apply Qc_is_canon. vm_compute. reflexivity.
Qed.

Lemma solution_is_unique_witness :
  valid (model_of scenario2) = true /\
  satisfies_laws (model_of scenario2) divider_voltage divider_current /\
  exists vd comps tp mi su,
    CircuitSolver.solve (CircuitSolver.__init__ (model_of scenario2))
      = CircuitSolver.Success vd comps tp mi su /\
    forall n, In n (CircuitModel.nodes (model_of scenario2)) ->
              CircuitSolver.voltage_at vd n = divider_voltage n.
Proof.
  split; [vm_compute; reflexivity|]. split; [exact divider_laws|].
  destruct (CircuitSolver.solve (CircuitSolver.__init__ (model_of scenario2)))
    as [vd comps tp mi su|msg sug] eqn:E.
  - exists vd, comps, tp, mi, su. split; [reflexivity|].
    apply (solution_is_unique (model_of scenario2) vd comps tp mi su
             divider_voltage divider_current);
      [vm_compute; reflexivity|exact E|exact divider_laws].
  - vm_compute in E. discriminate.
Defined.

(** ** Symmetry of the assembled matrix *)

Lemma at2_swap i j p q : Spec.at2 i j q p = Spec.at2 j i p q.
Proof. unfold Spec.at2. now rewrite andb_comm. Qed.

Lemma resistor_G_sym m r p q : Spec.resistor_G m r p q = Spec.resistor_G m r q p.
Proof.
  unfold Spec.resistor_G.
  destruct (Spec.idx m (node1 r)) as [i|], (Spec.idx m (node2 r)) as [j|];
    rewrite ?(at2_swap _ _ p q); try reflexivity.
  cbv zeta. ring.
Qed.

Lemma source_G_sym m k vs p q : Spec.source_G m k vs p q = Spec.source_G m k vs q p.
Proof.
  unfold Spec.source_G.
  destruct (Spec.idx m (node1 vs)) as [i|], (Spec.idx m (node2 vs)) as [j|];
    rewrite ?(at2_swap _ _ p q); ring.
Qed.

Lemma G_entry_sym m p q : Spec.G_entry m p q = Spec.G_entry m q p.
Proof.
  unfold Spec.G_entry. f_equal.
  - apply sumQ_map_ext. intros r _. apply resistor_G_sym.
  - apply sumQ_map_ext. intros [k vs] _. apply source_G_sym.
Qed.

(** X6: the matrix assembled by [_build_mna_system] is symmetric,
    provided the model is well formed, no resistor has value zero and no
    voltage source has both terminals on one node. *)
Theorem assembled_matrix_symmetric (m : CircuitModel.t) (G : matrix) (Zv : vector) :
  well_formed m = true -> resistors_nonzero m = true -> vs_distinct_terminals m = true ->
  CircuitSolver._build_mna_system (CircuitSolver.__init__ m) = Ok (G, Zv) ->
  forall p q, (p < Spec.N m + Spec.M m)%nat -> (q < Spec.N m + Spec.M m)%nat ->
    mat_at G p q = mat_at G q p.
Proof.
  intros Hwf Hr Hvs Hb p q Hp Hq.
  rewrite (build_mna_system_closed_form m Hwf Hr Hvs) in Hb. injection Hb as <- <-.
  unfold Spec.G. rewrite !mat_at_mtab by auto. apply G_entry_sym.
Qed.

Lemma assembled_matrix_symmetric_witness :
  well_formed (model_of scenario5) = true /\
  resistors_nonzero (model_of scenario5) = true /\
  vs_distinct_terminals (model_of scenario5) = true /\
  exists (G : matrix) (Zv : vector),
    CircuitSolver._build_mna_system (CircuitSolver.__init__ (model_of scenario5)) = Ok (G, Zv) /\
    forall p q, (p < Spec.N (model_of scenario5) + Spec.M (model_of scenario5))%nat ->
                (q < Spec.N (model_of scenario5) + Spec.M (model_of scenario5))%nat ->
                mat_at G p q = mat_at G q p.
Proof.
  split; [vm_compute; reflexivity|].
  split; [vm_compute; reflexivity|].
  split; [vm_compute; reflexivity|].
  destruct (CircuitSolver._build_mna_system (CircuitSolver.__init__ (model_of scenario5)))
    as [[G Zv]|e] eqn:E.
  - exists G, Zv. split; [reflexivity|].
    apply (assembled_matrix_symmetric (model_of scenario5) G Zv);
      [vm_compute; reflexivity|vm_compute; reflexivity|vm_compute; reflexivity|exact E].
  - vm_compute in E. discriminate.
Defined.

(** ** The circuit model *)

Lemma add_component_nodes m c m' n :
  CircuitModel.add_component m c = Ok m' ->
  (In n (CircuitModel.nodes m') <-> In n (CircuitModel.nodes m) \/ n = node1 c \/ n = node2 c).
Proof.
  unfold CircuitModel.add_component. intros E. injection E as <-.
  cbn [CircuitModel.nodes]. rewrite !set_add_In. tauto.
Qed.

Lemma add_component_values m c m' x :
  CircuitModel.add_component m c = Ok m' ->
  In x (CircuitModel.values m') -> x = c \/ In x (CircuitModel.values m).
Proof.
  unfold CircuitModel.add_component. intros E. injection E as <-.
  unfold CircuitModel.values, dict_values. cbn [CircuitModel.components].
  rewrite !in_map_iff. intros ([k v] & <- & Hin). simpl.
  apply dict_set_In in Hin. destruct Hin as [[_ ->]|Hin]; [now left|].
  right. exists (k, v). split; auto.
Qed.

Lemma add_components_nodes cs : forall m0 m1,
  for_each (fun c m => CircuitModel.add_component m c) cs m0 = Ok m1 ->
  CircuitModel.reference_node m1 = CircuitModel.reference_node m0
  /\ (forall n, In n (CircuitModel.nodes m1) <-> In n (CircuitModel.nodes m0) \/ touches cs n)
  /\ (forall x, In x (CircuitModel.values m1) -> In x (CircuitModel.values m0) \/ In x cs).
Proof.
  induction cs as [|c cs IH]; intros m0 m1 H.
  - injection H as <-. split; [reflexivity|]. split.
    + intros n. unfold touches. split; [auto|]. intros [H|(c & [] & _)]. exact H.
    + auto.
  - cbn [for_each] in H. apply bind_Ok in H. destruct H as (m' & Hc & H).
    destruct (IH m' m1 H) as (Hr & Hn & Hv).
    split; [|split].
    + rewrite Hr. unfold CircuitModel.add_component in Hc. now injection Hc as <-.
    + intros n. rewrite Hn, (add_component_nodes m0 c m' n Hc). unfold touches. split.
      * intros [[H1|H1]|(x & Hx & Ht)]; auto.
        -- right. exists c. split; [now left|exact H1].
        -- right. exists x. split; [now right|exact Ht].
      * intros [H1|(x & [->|Hx] & Ht)]; auto.
        right. exists x. auto.
    + intros x Hx. destruct (Hv x Hx) as [H1|H1]; [|right; now right].
      destruct (add_component_values m0 c m' x Hc H1) as [->|H2]; [right; now left|now left].
Qed.

Lemma set_reference_node_facts m v m' :
  CircuitModel.set_reference_node m v = Ok m' ->
  In (CircuitModel.reference_node m') (CircuitModel.nodes m')
  /\ CircuitModel.components m' = CircuitModel.components m
  /\ (forall n, In n (CircuitModel.nodes m') <->
                n = CircuitModel.reference_node m' \/ In n (CircuitModel.nodes m)).
Proof.
  unfold CircuitModel.set_reference_node. intros E.
  apply bind_Ok in E. destruct E as (node & _ & E).
  destruct (set_mem node (CircuitModel.nodes m)) eqn:Em; cbn [negb] in E;
    injection E as <-; cbn [CircuitModel.nodes CircuitModel.components CircuitModel.reference_node].
  - apply set_mem_iff in Em. split; [exact Em|]. split; [reflexivity|].
    intros n. split; [auto|]. intros [->|H]; auto.
  - split; [apply set_add_In; now left|]. split; [reflexivity|].
    intros n. apply set_add_In.
Qed.

(** X7: a model obtained by adding components one by one and then
    setting the reference node is well formed, its reference node is one
    of its nodes, its nodes are the reference node and the terminals of
    the components, it stores only components of the list, and it stores
    the whole list in order when the ids are distinct. *)
Theorem construction_invariant (cs : list Component) (ref : pyval) (m : CircuitModel.t) :
  CircuitModel.of_components cs ref = Ok m ->
  well_formed m = true
  /\ In (CircuitModel.reference_node m) (CircuitModel.nodes m)
  /\ (forall n, In n (CircuitModel.nodes m) <->
                n = CircuitModel.reference_node m \/ touches cs n)
  /\ (forall c, In c (CircuitModel.values m) -> In c cs)
  /\ (NoDup (map uid cs) -> CircuitModel.values m = cs).
Proof.
  intros H. pose proof (of_components_well_formed cs ref m H) as Hwf.
  unfold CircuitModel.of_components in H. apply bind_Ok in H.
  destruct H as (m1 & H1 & H2).
  destruct (add_components_nodes cs _ _ H1) as (_ & Hn & Hv).
  destruct (set_reference_node_facts m1 ref m H2) as (Hr & Hc & Hn').
  split; [exact Hwf|]. split; [exact Hr|]. split; [|split].
  - intros n. rewrite Hn', Hn. cbn [CircuitModel.nodes CircuitModel.__init__]. simpl. tauto.
  - intros c Hin. unfold CircuitModel.values in *. rewrite Hc in Hin.
    destruct (Hv c Hin) as [[]|]; auto.
  - intros HN.
    destruct (add_all cs CircuitModel.__init__) as (m1' & E1 & Ec & _); [exact HN|].
    rewrite H1 in E1. injection E1 as <-.
    unfold CircuitModel.values, dict_values. rewrite Hc, Ec. cbn [CircuitModel.components CircuitModel.__init__ app].
    rewrite map_map. unfold entry. cbn. apply map_id.
Qed.

Lemma construction_invariant_witness :
  CircuitModel.of_components scenario5 (PInt 0) = Ok (model_of scenario5) /\
  well_formed (model_of scenario5) = true /\
  CircuitModel.values (model_of scenario5) = scenario5.
Proof.
  split; [vm_compute; reflexivity|].
  destruct (construction_invariant scenario5 (PInt 0) (model_of scenario5))
    as (H1 & _ & _ & _ & H5); [vm_compute; reflexivity|].
  split; [exact H1|]. apply H5.
  simpl. repeat constructor; simpl; intuition discriminate.
Defined.

(** X8: [set_reference_node] accepts the text GND in any letter case:
    the reference becomes node 0, node 0 joins the nodes, the components
    are untouched and no node is lost. *)
Theorem reference_node_GND (m : CircuitModel.t) (s : string) :
  upper s = "GND"%string ->
  exists m',
    CircuitModel.set_reference_node m (PStr s) = Ok m'
    /\ CircuitModel.reference_node m' = 0%Z
    /\ In 0%Z (CircuitModel.nodes m')
    /\ CircuitModel.components m' = CircuitModel.components m
    /\ (forall n, In n (CircuitModel.nodes m) -> In n (CircuitModel.nodes m')).
Proof.
  intros Hs.
  assert (E : exists m', CircuitModel.set_reference_node m (PStr s) = Ok m'
                         /\ CircuitModel.reference_node m' = 0%Z).
  { unfold CircuitModel.set_reference_node, str_upper_is_GND. rewrite Hs.
    rewrite String.eqb_refl. cbn [bind].
    destruct (negb (set_mem 0 (CircuitModel.nodes m))); eexists; split; reflexivity. }
  destruct E as (m' & E & Hr). exists m'.
  destruct (set_reference_node_facts m (PStr s) m' E) as (H1 & H2 & H3).
  rewrite Hr in H1. repeat split; auto.
  intros n Hn. apply H3. now right.
Qed.

Lemma reference_node_GND_witness :
  exists m',
    CircuitModel.set_reference_node (model_of scenario2) (PStr "Gnd") = Ok m'
    /\ CircuitModel.reference_node m' = 0%Z
    /\ In 0%Z (CircuitModel.nodes m')
    /\ CircuitModel.components m' = CircuitModel.components (model_of scenario2)
    /\ (forall n, In n (CircuitModel.nodes (model_of scenario2)) -> In n (CircuitModel.nodes m')).
Proof.
  apply (reference_node_GND (model_of scenario2) "Gnd"). vm_compute. reflexivity.
Defined.

(** X9: [get_non_reference_nodes] of a well-formed model is strictly
    ascending and holds exactly the nodes other than the reference node;
    when the reference node is a node of the circuit, it is one node
    short of the node set. *)
Theorem non_reference_nodes_sorted (m : CircuitModel.t) :
  well_formed m = true ->
  ascending (CircuitModel.get_non_reference_nodes m) = true
  /\ (forall n, In n (CircuitModel.get_non_reference_nodes m) <->
                In n (CircuitModel.nodes m) /\ n <> CircuitModel.reference_node m)
  /\ (In (CircuitModel.reference_node m) (CircuitModel.nodes m) ->
      length (CircuitModel.nodes m) = S (length (CircuitModel.get_non_reference_nodes m))).
Proof.
  intros Hwf.
  change (CircuitModel.get_non_reference_nodes m) with (Spec.unknown_nodes m).
  rewrite (unknown_nodes_eq m Hwf).
  split; [apply ascending_filter, wf_ascending, Hwf|]. split.
  - intros n. rewrite filter_In, negb_true_iff, Z.eqb_neq. tauto.
  - intros Hin.
    pose proof (ascending_NoDup _ (wf_ascending m Hwf)) as HN.
    set (ref := CircuitModel.reference_node m) in *. clearbody ref.
    induction (CircuitModel.nodes m) as [|x l IH]; [destruct Hin|].
    inversion HN as [|? ? Hx HN']; subst. simpl.
    destruct (Z.eqb_spec x ref) as [->|Hne]; simpl.
    + f_equal. symmetry. f_equal. apply filter_all_true.
      intros z Hz. apply negb_true_iff, Z.eqb_neq. intros ->. contradiction.
    + f_equal. apply IH; auto. destruct Hin; [contradiction|auto].
Qed.

Lemma non_reference_nodes_sorted_witness :
  well_formed (model_of scenario5) = true /\
  ascending (CircuitModel.get_non_reference_nodes (model_of scenario5)) = true.
Proof.
  assert (Hwf : well_formed (model_of scenario5) = true) by (vm_compute; reflexivity).
  split; [exact Hwf|].
  destruct (non_reference_nodes_sorted (model_of scenario5) Hwf) as (H1 & _). exact H1.
Defined.

(** ** The index maps of the solver *)

Lemma node_to_index_get m n :
  well_formed m = true ->
  dict_get Z.eqb (CircuitSolver.node_to_index (CircuitSolver.__init__ m)) n
  = find_index n (Spec.unknown_nodes m).
Proof.
  intros Hwf. rewrite (solver_node_to_index m Hwf). unfold enumerate.
  rewrite dict_get_swap_enumerate. now destruct (find_index n (Spec.unknown_nodes m)).
Qed.

Lemma index_to_node_nth m k :
  well_formed m = true ->
  dict_get Nat.eqb (CircuitSolver.index_to_node (CircuitSolver.__init__ m)) k
  = nth_error (Spec.unknown_nodes m) k.
Proof.
  intros Hwf.
  change (CircuitSolver.index_to_node (CircuitSolver.__init__ m))
    with (dict_of_list Nat.eqb (map (fun '(node, i) => (i, node))
                                    (CircuitSolver.node_to_index (CircuitSolver.__init__ m)))).
  rewrite (solver_node_to_index m Hwf).
  rewrite map_map.
  rewrite (map_ext _ (fun x => x)) by (intros [i node]; reflexivity).
  rewrite map_id. unfold enumerate.
  rewrite (dict_of_list_id Nat.eqb Neqb_spec) by (rewrite keys_enumerate; apply seq_NoDup).
  apply (dict_get_enumerate (Spec.unknown_nodes m) 0 k).
Qed.

(** X10: the two index tables built by [CircuitSolver.__init__] are
    inverse of each other; the indexed nodes are exactly the nodes other
    than the reference node, with indices below [num_nodes]; and indices
    grow with node numbers. *)
Theorem index_maps_inverse (m : CircuitModel.t) :
  well_formed m = true ->
  let s := CircuitSolver.__init__ m in
  (forall n i, dict_get Z.eqb (CircuitSolver.node_to_index s) n = Some i
               <-> dict_get Nat.eqb (CircuitSolver.index_to_node s) i = Some n)
  /\ (forall n i, dict_get Z.eqb (CircuitSolver.node_to_index s) n = Some i ->
                  (i < CircuitSolver.num_nodes s)%nat
                  /\ In n (CircuitModel.nodes m) /\ n <> CircuitModel.reference_node m)
  /\ (forall n, In n (CircuitModel.nodes m) -> n <> CircuitModel.reference_node m ->
                exists i, dict_get Z.eqb (CircuitSolver.node_to_index s) n = Some i)
  /\ (forall i j ni nj, (i < j)%nat ->
        dict_get Nat.eqb (CircuitSolver.index_to_node s) i = Some ni ->
        dict_get Nat.eqb (CircuitSolver.index_to_node s) j = Some nj -> (ni < nj)%Z).
Proof.
  intros Hwf s. subst s.
  pose proof (unknown_nodes_NoDup m Hwf) as HN.
  assert (Hmem : forall n, In n (Spec.unknown_nodes m)
                           <-> In n (CircuitModel.nodes m) /\ n <> CircuitModel.reference_node m).
  { intros n. rewrite (unknown_nodes_eq m Hwf), filter_In, negb_true_iff, Z.eqb_neq. tauto. }
  split; [|split; [|split]].
  - intros n i. rewrite (node_to_index_get m n Hwf), (index_to_node_nth m i Hwf). split.
    + intros H. apply find_index_Some in H. destruct H as [Hlt <-].
      now apply nth_error_nth'.
    + intros H. pose proof (nth_error_nth 0%Z H) as <-.
      apply find_index_nth; auto. apply nth_error_Some. congruence.
  - intros n i. rewrite (node_to_index_get m n Hwf). intros H.
    apply find_index_Some in H. destruct H as [Hlt <-]. split; [exact Hlt|].
    apply Hmem. now apply nth_In.
  - intros n Hin Hne. rewrite (node_to_index_get m n Hwf).
    apply find_index_In. apply Hmem. auto.
  - intros i j ni nj Hij. rewrite !(index_to_node_nth m _ Hwf). intros Hi Hj.
    assert (Ha : ascending (Spec.unknown_nodes m) = true).
    { rewrite (unknown_nodes_eq m Hwf). apply ascending_filter, wf_ascending, Hwf. }
    clear - Hij Hi Hj Ha. revert i j Hij Hi Hj.
    induction (Spec.unknown_nodes m) as [|x l IH]; intros i j Hij Hi Hj.
    + destruct i; discriminate.
    + destruct (ascending_cons _ _ Ha) as [Ha' Hlt].
      destruct j as [|j]; [lia|]. simpl in Hj.
      destruct i as [|i]; simpl in Hi.
      * injection Hi as <-. apply Hlt. eapply nth_error_In; eauto.
      * apply (IH Ha' i j); auto. lia.
Qed.

Lemma index_maps_inverse_witness :
  well_formed (model_of scenario5) = true /\
  forall n i,
    dict_get Z.eqb (CircuitSolver.node_to_index (CircuitSolver.__init__ (model_of scenario5))) n
      = Some i
    <-> dict_get Nat.eqb
          (CircuitSolver.index_to_node (CircuitSolver.__init__ (model_of scenario5))) i
        = Some n.
Proof.
  assert (Hwf : well_formed (model_of scenario5) = true) by (vm_compute; reflexivity).
  split; [exact Hwf|].
  destruct (index_maps_inverse (model_of scenario5) Hwf) as (H1 & _). exact H1.
Defined.

(** ** Supernodes are the groups of nodes linked by voltage sources *)

Lemma merged_linked es u v c1 c2 x y :
  In (u, v) es \/ In (v, u) es ->
  (forall a b, In a c1 -> In b c1 -> linked es a b) ->
  (forall a b, In a c2 -> In b c2 -> linked es a b) ->
  In u c1 -> In v c2 ->
  In x (set_update c1 c2) -> In y (set_update c1 c2) -> linked es x y.
Proof.
  intros He H1 H2 Hu Hv Hx Hy.
  assert (Huv : linked es u v).
  { destruct He; [now apply linked_edge|apply linked_sym; now apply linked_edge]. }
  apply set_update_In in Hx. apply set_update_In in Hy.
  destruct Hx as [Hx|Hx], Hy as [Hy|Hy]; auto.
  - apply linked_trans with v; [auto|].
    apply linked_trans with u; [now apply linked_sym|auto].
  - apply linked_trans with u; [auto|].
    apply linked_trans with v; auto.
Qed.

Lemma join_linked es u v : forall cs,
  In (u, v) es -> classes_linked es cs -> classes_linked es (NodalAnalysis.join u v cs).
Proof.
  induction cs as [|c cs IH]; intros He Hinv; [exact Hinv|].
  assert (Hc : forall a b, In a c -> In b c -> linked es a b)
    by (intros a b; apply Hinv; now left).
  assert (Hcs : classes_linked es cs) by (intros c' Hc'; apply Hinv; now right).
  cbn [NodalAnalysis.join].
  destruct (set_mem u c) eqn:Eu.
  - apply set_mem_iff in Eu.
    destruct (set_mem v c) eqn:Ev; [exact Hinv|].
    destruct (NodalAnalysis.extract v cs) as [[cv rest]|] eqn:Ex; [|exact Hinv].
    apply extract_Some in Ex. destruct Ex as [Hv Hp].
    intros c' [<-|Hc'] x y Hx Hy.
    + apply (merged_linked es u v c cv); auto.
      apply Hcs. eapply Permutation_in; [apply Permutation_sym, Hp|now left].
    + apply (Hcs c'); auto. eapply Permutation_in; [apply Permutation_sym, Hp|now right].
  - destruct (set_mem v c) eqn:Ev.
    + apply set_mem_iff in Ev.
      destruct (NodalAnalysis.extract u cs) as [[cu rest]|] eqn:Ex; [|exact Hinv].
      apply extract_Some in Ex. destruct Ex as [Hu Hp].
      intros c' [<-|Hc'] x y Hx Hy.
      * apply (merged_linked es v u c cu); auto.
        apply Hcs. eapply Permutation_in; [apply Permutation_sym, Hp|now left].
      * apply (Hcs c'); auto. eapply Permutation_in; [apply Permutation_sym, Hp|now right].
    + intros c' [<-|Hc']; [exact Hc|]. now apply (IH He Hcs).
Qed.

Lemma connected_components_linked vs es :
  classes_linked es (NodalAnalysis.connected_components vs es).
Proof.
  unfold NodalAnalysis.connected_components.
  assert (H : forall es' cs, incl es' es -> classes_linked es cs ->
            classes_linked es (fold_left (fun cs '(u, v) => NodalAnalysis.join u v cs) es' cs)).
  { induction es' as [|[u v] es' IH]; intros cs Hi Hinv; [exact Hinv|].
    cbn [fold_left]. apply IH.
    - intros e He. apply Hi. now right.
    - apply join_linked; auto. apply Hi. now left. }
  apply H; [apply incl_refl|].
  intros c Hc x y Hx Hy. apply in_map_iff in Hc. destruct Hc as (n & <- & _).
  destruct Hx as [<-|[]], Hy as [<-|[]]. apply linked_refl.
Qed.

Lemma class_unique (L : list (list Z)) c1 c2 x :
  NoDup (concat L) -> In c1 L -> In c2 L -> In x c1 -> In x c2 -> c1 = c2.
Proof.
  induction L as [|c L IH]; intros HN H1 H2 Hx1 Hx2; [destruct H1|].
  simpl in HN. apply NoDup_app_remove_l in HN as HN'.
  assert (Hd : forall z c', In z c -> In c' L -> In z c' -> False).
  { intros z c' Hz Hc' Hz'. clear - HN Hz Hc' Hz'.
    induction c as [|a c IHc]; [destruct Hz|].
    simpl in HN. inversion HN as [|? ? Ha HNc]; subst.
    destruct Hz as [->|Hz]; [|now apply IHc].
    apply Ha. apply in_app_iff. right. apply in_concat. eauto. }
  destruct H1 as [<-|H1], H2 as [<-|H2]; auto.
  - exfalso. eapply Hd; eauto.
  - exfalso. eapply Hd; eauto.
Qed.

Lemma linked_together vs es u v :
  NoDup vs -> (forall a b, In (a, b) es -> In a vs /\ In b vs) ->
  linked es u v ->
  u = v \/ (In u vs /\ In v vs /\ together u v (NodalAnalysis.connected_components vs es)).
Proof.
  intros HN He H.
  pose proof (connected_components_perm vs es HN) as Hp.
  assert (HNc : NoDup (concat (NodalAnalysis.connected_components vs es))).
  { eapply Permutation_NoDup; [apply Permutation_sym, Hp|exact HN]. }
  induction H as [a|a b Hab|a b H IH|a b c H1 IH1 H2 IH2].
  - now left.
  - right. destruct (He a b Hab) as [Ha Hb]. repeat split; auto.
    now apply connected_components_together.
  - destruct IH as [->|(Ha & Hb & c & Hc & Hca & Hcb)]; [now left|].
    right. repeat split; auto. exists c. auto.
  - destruct IH1 as [->|(Ha & Hb & c1 & Hc1 & Ha1 & Hb1)]; [exact IH2|].
    destruct IH2 as [<-|(Hb' & Hc & c2 & Hc2 & Hb2 & Hcc)].
    + right. repeat split; auto. exists c1. auto.
    + right. repeat split; auto.
      assert (c1 = c2) by (eapply class_unique; eauto). subst c2.
      exists c1. auto.
Qed.

Lemma source_edges_in m a b :
  well_formed m = true -> In (a, b) (source_edges m) ->
  In a (CircuitModel.nodes m) /\ In b (CircuitModel.nodes m).
Proof.
  intros Hwf H. unfold source_edges in H. apply in_map_iff in H.
  destruct H as (c & E & Hc). injection E as <- <-.
  apply filter_In in Hc. destruct Hc as [Hc _]. now apply wf_terminals.
Qed.

(** X11: two different nodes of a well-formed circuit lie in a common
    supernode exactly when a chain of voltage sources links them. *)
Theorem supernodes_are_linked_groups (m : CircuitModel.t) (u v : Z) :
  well_formed m = true ->
  In u (CircuitModel.nodes m) -> In v (CircuitModel.nodes m) -> u <> v ->
  ((exists sn, In sn (NodalAnalysis.supernodes (NodalAnalysis.__init__ m))
               /\ In u sn /\ In v sn)
   <-> linked (source_edges m) u v).
Proof.
  intros Hwf Hu Hv Hne. rewrite (supernodes_eq m Hwf).
  fold (source_edges m).
  pose proof (ascending_NoDup _ (wf_ascending m Hwf)) as HN.
  split.
  - intros (sn & Hsn & Hus & Hvs). apply filter_In in Hsn. destruct Hsn as [Hsn _].
    exact (connected_components_linked _ _ sn Hsn u v Hus Hvs).
  - intros H.
    destruct (linked_together (CircuitModel.nodes m) (source_edges m) u v HN
                (fun a b => source_edges_in m a b Hwf) H)
      as [E|(_ & _ & c & Hc & Huc & Hvc)]; [contradiction|].
    exists c. split; [|auto]. apply filter_In. split; [exact Hc|].
    unfold big. apply Nat.ltb_lt.
    pose proof (two_elements c u v Huc Hvc Hne). lia.
Qed.

Lemma supernodes_are_linked_groups_witness :
  (exists sn, In sn (NodalAnalysis.supernodes (NodalAnalysis.__init__ (model_of scenario5)))
              /\ In 2%Z sn /\ In 4%Z sn)
  <-> linked (source_edges (model_of scenario5)) 2 4.
Proof.
  apply (supernodes_are_linked_groups (model_of scenario5) 2 4).
  - vm_compute. reflexivity.
  - vm_compute. tauto.
  - vm_compute. tauto.
  - discriminate.
Defined.

Lemma existsb_concat (n : Z) (L : list (list Z)) :
  existsb (fun sn => set_mem n sn) L = true <-> In n (concat L).
Proof.
  rewrite existsb_exists, in_concat. split.
  - intros (c & Hc & Hn). apply set_mem_iff in Hn. eauto.
  - intros (c & Hc & Hn). exists c. split; auto. now apply set_mem_iff.
Qed.

Lemma at_most_one_class (x : Z) (L : list (list Z)) :
  NoDup (concat L) -> (length (filter (fun c => set_mem x c) L) <= 1)%nat.
Proof.
  induction L as [|c L IH]; intros HN; simpl; [lia|].
  simpl in HN. pose proof (NoDup_app_remove_l _ _ HN) as HN'.
  destruct (set_mem x c) eqn:E; [|now apply IH].
  apply set_mem_iff in E. simpl.
  rewrite filter_all_false; [simpl; lia|].
  intros c' Hc'. destruct (set_mem x c') eqn:E'; auto. exfalso.
  apply set_mem_iff in E'.
  assert (c = c'); [|subst c'].
  { apply (class_unique (c :: L) c c' x); simpl; auto. }
  clear - HN E Hc'. destruct c as [|a c]; [destruct E|].
  simpl in HN. inversion HN as [|? ? Ha _]; subst.
  apply Ha. apply in_app_iff. right. apply in_concat. exists (a :: c). split; auto. now left.
Qed.

(** X12: in the summary of the analysis of a well-formed circuit the
    supernodes are pairwise disjoint and without repeated nodes, each
    has at least two nodes, all of the circuit; at most one supernode is
    grounded; the supernodes are the grounded and the ungrounded ones
    together; and the regular nodes are exactly the nodes that are
    neither the reference node nor in a supernode. *)
Theorem supernodes_partition (m : CircuitModel.t) :
  well_formed m = true ->
  NoDup (concat (NodalAnalysis.s_supernodes (analyze m)))
  /\ (forall sn, In sn (NodalAnalysis.s_supernodes (analyze m)) ->
        (2 <= length sn)%nat /\ forall n, In n sn -> In n (CircuitModel.nodes m))
  /\ (length (NodalAnalysis.s_grounded_supernodes (analyze m)) <= 1)%nat
  /\ Permutation (NodalAnalysis.s_supernodes (analyze m))
       (NodalAnalysis.s_grounded_supernodes (analyze m)
        ++ NodalAnalysis.s_ungrounded_supernodes (analyze m))
  /\ (forall n, In n (NodalAnalysis.s_regular_nodes (analyze m)) <->
                In n (CircuitModel.nodes m) /\ n <> CircuitModel.reference_node m
                /\ ~ In n (concat (NodalAnalysis.s_supernodes (analyze m)))).
Proof.
  intros Hwf.
  unfold analyze, NodalAnalysis.get_analysis_summary, NodalAnalysis._analyze.
  cbn [NodalAnalysis.s_supernodes NodalAnalysis.s_grounded_supernodes
       NodalAnalysis.s_ungrounded_supernodes NodalAnalysis.s_regular_nodes].
  change (NodalAnalysis.grounded_supernodes (NodalAnalysis.__init__ m))
    with (filter (fun sn => set_mem (CircuitModel.reference_node m) sn)
                 (NodalAnalysis.supernodes (NodalAnalysis.__init__ m))).
  change (NodalAnalysis.model (NodalAnalysis.__init__ m)) with m.
  change (NodalAnalysis.non_ref_nodes (NodalAnalysis.__init__ m))
    with (CircuitModel.get_non_reference_nodes m).
  pose proof (classes_NoDup m Hwf) as HN. apply NoDup_app_remove_r in HN.
  pose proof (classes_perm m Hwf) as Hp.
  rewrite <- (supernodes_eq m Hwf) in HN, Hp.
  set (SN := NodalAnalysis.supernodes (NodalAnalysis.__init__ m)) in *.
  split; [exact HN|]. split; [|split; [|split]].
  - intros sn Hsn. split.
    + unfold SN in Hsn. rewrite (supernodes_eq m Hwf) in Hsn.
      now apply (supernode_facts m Hwf sn).
    + intros n Hn. eapply Permutation_in; [apply Permutation_sym, Hp|].
      apply in_app_iff. left. apply in_concat. eauto.
  - now apply at_most_one_class.
  - apply (filter_split_perm (fun sn => set_mem (CircuitModel.reference_node m) sn)).
  - intros n. rewrite filter_In, negb_true_iff.
    change (CircuitModel.get_non_reference_nodes m) with (Spec.unknown_nodes m).
    rewrite (unknown_nodes_eq m Hwf), filter_In, negb_true_iff, Z.eqb_neq.
    rewrite <- existsb_concat.
    destruct (existsb (fun sn => set_mem n sn) SN); intuition congruence.
Qed.

Lemma supernodes_partition_witness :
  well_formed (model_of scenario5) = true /\
  NoDup (concat (NodalAnalysis.s_supernodes (analyze (model_of scenario5)))) /\
  (length (NodalAnalysis.s_grounded_supernodes (analyze (model_of scenario5))) <= 1)%nat.
Proof.
  assert (Hwf : well_formed (model_of scenario5) = true) by (vm_compute; reflexivity).
  split; [exact Hwf|].
  destruct (supernodes_partition (model_of scenario5) Hwf) as (H1 & _ & H3 & _).
  split; [exact H1|exact H3].
Defined.

(** ** The rendered equations *)

Lemma all_chars_app p a b :
  all_chars p (a ++ b)%string = all_chars p a && all_chars p b.
Proof. induction a as [|c a IH]; simpl; [reflexivity|]. now rewrite IH, andb_assoc. Qed.

Lemma uint_chars d : all_chars constraint_char (NilEmpty.string_of_uint d) = true.
Proof. induction d; simpl; auto. Qed.

Lemma str_of_Z_chars z : all_chars constraint_char (str_of_Z z) = true.
Proof.
  unfold str_of_Z, NilZero.string_of_int, NilZero.string_of_uint.
  destruct (Z.to_int z) as [d|d]; destruct d; try reflexivity;
    try apply (uint_chars (Decimal.D0 _)); cbn [all_chars]; rewrite ?andb_true_iff;
    auto using uint_chars.
Qed.

Lemma format_1f_chars q : all_chars constraint_char (format_1f q) = true.
Proof.
  unfold format_1f. rewrite !all_chars_app, !str_of_Z_chars.
  destruct (Qc_ltb q 0); reflexivity.
Qed.

Lemma format_1f_neg_chars q : all_chars constraint_char (format_1f_neg q) = true.
Proof.
  unfold format_1f_neg. destruct (Qc_eqb q 0); [reflexivity|apply format_1f_chars].
Qed.

Lemma prefix_first c n s :
  String.prefix (String c n) s = true -> exists s', s = String c s'.
Proof.
  destruct s as [|a s]; simpl; [discriminate|].
  destruct (ascii_dec c a) as [->|]; [eauto|discriminate].
Qed.

(** A string can only contain a needle whose first character it holds. *)
Lemma contains_first p c n : forall s,
  p c = false -> all_chars p s = true -> contains (String c n) s = false.
Proof.
  induction s as [|a s IH]; intros Hc Hs.
  - reflexivity.
  - simpl in Hs. apply andb_prop in Hs. destruct Hs as [Ha Hs].
    cbn [contains].
    destruct (String.prefix (String c n) (String a s)) eqn:E.
    + apply prefix_first in E. destruct E as (s' & E). injection E as -> _. congruence.
    + now apply IH.
Qed.

Lemma constraint_shape (self : EquationBuilder.t) e :
  In e (EquationBuilder._build_voltage_source_constraints self) ->
  contains "Node" e = false /\ contains "Supernode" e = false /\ contains "V_" e = true.
Proof.
  unfold EquationBuilder._build_voltage_source_constraints.
  rewrite in_map_iff. intros (vs & <- & _).
  set (ref := CircuitModel.reference_node (EquationBuilder.model self)).
  assert (Hall : all_chars constraint_char
            (if (node1 vs =? ref)%Z
             then ("V_{" ++ str_of_Z (node2 vs) ++ "} = " ++ format_1f_neg (value vs))%string
             else if (node2 vs =? ref)%Z
             then ("V_{" ++ str_of_Z (node1 vs) ++ "} = " ++ format_1f (value vs))%string
             else ("V_{" ++ str_of_Z (node1 vs) ++ "} - V_{" ++ str_of_Z (node2 vs)
                     ++ "} = " ++ format_1f (value vs))%string) = true).
  { destruct (node1 vs =? ref)%Z; [|destruct (node2 vs =? ref)%Z];
      rewrite !all_chars_app, ?str_of_Z_chars, ?format_1f_chars, ?format_1f_neg_chars;
      reflexivity. }
  split; [|split].
  - apply (contains_first constraint_char); [reflexivity|exact Hall].
  - apply (contains_first constraint_char); [reflexivity|exact Hall].
  - destruct (node1 vs =? ref)%Z; [|destruct (node2 vs =? ref)%Z]; reflexivity.
Qed.

Lemma for_each_raises {A S} (body : A -> S -> result S) (x : A) :
  (forall s, is_ok (body x s) = false) ->
  forall l s, In x l -> is_ok (for_each body l s) = false.
Proof.
  intros Hx. induction l as [|y l IH]; intros s Hin; [destruct Hin|].
  cbn [for_each]. destruct Hin as [->|Hin].
  - specialize (Hx s). destruct (body x s); [discriminate|reflexivity].
  - destruct (body y s) as [s'|e]; [|reflexivity]. cbn [bind]. now apply IH.
Qed.

Lemma In_enumerate_from {A} (x : A) : forall l k, In x l -> exists i, In (i, x) (enumerate_from k l).
Proof.
  induction l as [|y l IH]; intros k Hin; [destruct Hin|].
  destruct Hin as [->|Hin].
  - exists k. now left.
  - destruct (IH (S k) Hin) as (i & Hi). exists i. now right.
Qed.

(** A list of equations with a constraint equation in it is never
    parsed to the end. *)
Lemma constraint_stops_rebuild (self : MatrixBuilder.t) (equations : list string) e :
  In e equations ->
  contains "Node" e = false -> contains "Supernode" e = false -> contains "V_" e = true ->
  is_ok (MatrixBuilder.build_matrices_from_equations self equations) = false.
Proof.
  intros Hin H1 H2 H3. unfold MatrixBuilder.build_matrices_from_equations, enumerate.
  destruct (In_enumerate_from e equations 0 Hin) as (i & Hi).
  apply (for_each_raises _ (i, e)); [|exact Hi].
  intros GZ. cbv beta iota. rewrite H1, H2, H3. reflexivity.
Qed.

(** X13: [build_matrices_from_equations] raises on the equations
    rendered for any circuit that has a voltage source, since the
    constraint equation of a source never has the form the constraint
    parser expects. *)
Theorem rebuild_fails_with_voltage_source (m : CircuitModel.t) :
  (exists c, In c (CircuitModel.values m) /\ cls c = VoltageSource) ->
  is_ok (rebuild_from_equations m) = false.
Proof.
  intros (c & Hc & Hcls). unfold rebuild_from_equations.
  set (sn := NodalAnalysis.supernodes (NodalAnalysis.__init__ m)).
  set (eb := EquationBuilder.__init__ m sn).
  assert (Hne : exists e, In e (EquationBuilder._build_voltage_source_constraints eb)).
  { unfold EquationBuilder._build_voltage_source_constraints.
    eexists. apply in_map_iff. exists c. split; [reflexivity|].
    apply filter_In. split; [exact Hc|]. unfold isinstance. now rewrite Hcls. }
  destruct Hne as (e & He).
  destruct (constraint_shape eb e He) as (H1 & H2 & H3).
  apply (constraint_stops_rebuild _ _ e); auto.
  unfold EquationBuilder.build_equations. rewrite !in_app_iff. auto.
Qed.

Lemma rebuild_fails_with_voltage_source_witness :
  In (mkComponent 0 VoltageSource (qc 250 1) 1 0) (CircuitModel.values (model_of scenario5)) /\
  is_ok (rebuild_from_equations (model_of scenario5)) = false.
Proof.
  assert (Hin : In (mkComponent 0 VoltageSource (qc 250 1) 1 0)
                   (CircuitModel.values (model_of scenario5))).
  { vm_compute. left. reflexivity. }
  split; [exact Hin|].
  apply (rebuild_fails_with_voltage_source (model_of scenario5)).
  exists (mkComponent 0 VoltageSource (qc 250 1) 1 0). split; [exact Hin|reflexivity].
Defined.

(** ** Number of rendered equations *)

Lemma supernode_nodes_mem (sns : list (list Z)) n :
  set_mem n (EquationBuilder._get_all_supernode_nodes sns)
  = existsb (fun sn => set_mem n sn) sns.
Proof.
  unfold EquationBuilder._get_all_supernode_nodes.
  assert (H : forall acc, In n (fold_left set_update sns acc)
                          <-> In n acc \/ In n (concat sns)).
  { induction sns as [|sn sns IH]; intros acc; simpl; [tauto|].
    rewrite IH, set_update_In, in_app_iff. tauto. }
  apply eq_true_iff_eq. rewrite set_mem_iff, H, existsb_concat. simpl. tauto.
Qed.

Lemma flat_map_bound {A B} (f : A -> list B) (g : A -> bool) l :
  (forall x, In x l -> (length (f x) <= if g x then 1 else 0)%nat) ->
  (length (flat_map f l) <= length (filter g l))%nat.
Proof.
  induction l as [|x l IH]; intros H; simpl; [lia|].
  rewrite length_app.
  assert (Hx := H x (or_introl eq_refl)).
  assert (Hl : (length (flat_map f l) <= length (filter g l))%nat)
    by (apply IH; intros y Hy; apply H; now right).
  destruct (g x); simpl; lia.
Qed.

Lemma regular_equation_shape (self : EquationBuilder.t) e :
  In e (EquationBuilder._build_regular_node_equations self) -> contains "Node" e = true.
Proof.
  unfold EquationBuilder._build_regular_node_equations. rewrite in_flat_map.
  intros (n & _ & H).
  destruct (set_mem n (EquationBuilder.supernode_nodes self)); [destruct H|].
  match type of H with In _ (match ?t with [] => _ | _ :: _ => _ end) => destruct t end;
    [destruct H|].
  destruct H as [<-|[]]. reflexivity.
Qed.

Lemma supernode_equation_shape (self : EquationBuilder.t) e :
  In e (EquationBuilder._build_ungrounded_supernode_equations self) ->
  contains "Supernode" e = true.
Proof.
  unfold EquationBuilder._build_ungrounded_supernode_equations. rewrite in_flat_map.
  intros (sn & _ & H).
  destruct (set_mem (CircuitModel.reference_node (EquationBuilder.model self)) sn);
    [destruct H|].
  match type of H with In _ (match ?t with [] => _ | _ :: _ => _ end) => destruct t end;
    [destruct H|].
  destruct H as [<-|[]]. reflexivity.
Qed.

(** [_count_kcl_equations] counts exactly the equations rendered before
    the constraints. *)
Lemma count_kcl_rendered (self : EquationBuilder.t) :
  MatrixBuilder._count_kcl_equations (EquationBuilder.build_equations self)
  = length (EquationBuilder._build_regular_node_equations self
            ++ EquationBuilder._build_ungrounded_supernode_equations self)%list.
Proof.
  unfold MatrixBuilder._count_kcl_equations, EquationBuilder.build_equations.
  rewrite !filter_app, !length_app.
  rewrite (filter_all_true _ (EquationBuilder._build_regular_node_equations self)).
  - rewrite (filter_all_true _ (EquationBuilder._build_ungrounded_supernode_equations self)).
    + rewrite (filter_all_false _ (EquationBuilder._build_voltage_source_constraints self)).
      * simpl. lia.
      * intros e He. destruct (constraint_shape self e He) as (H1 & H2 & _).
        now rewrite H1, H2.
    + intros e He. rewrite (supernode_equation_shape self e He). apply orb_true_r.
  - intros e He. now rewrite (regular_equation_shape self e He).
Qed.

(** X14: the equations rendered by [build_circuit_analysis] are KCL
    equations followed by one constraint per voltage source; their
    numbers are bounded by the summary's [num_kcl_equations] and equal to
    its [num_constraint_equations], the list is never longer than
    [total_equations], and [_count_kcl_equations] counts exactly the KCL
    part. *)
Theorem rendered_equations_bounded (m : CircuitModel.t) :
  let a := App.build_circuit_analysis m in
  let self := EquationBuilder.__init__ m (NodalAnalysis.supernodes (NodalAnalysis.__init__ m)) in
  exists kcl_part,
    App.equations a = (kcl_part ++ EquationBuilder._build_voltage_source_constraints self)%list
    /\ (length kcl_part <= NodalAnalysis.s_num_kcl_equations (App.summary a))%nat
    /\ length (EquationBuilder._build_voltage_source_constraints self)
       = NodalAnalysis.s_num_constraint_equations (App.summary a)
    /\ (length (App.equations a) <= NodalAnalysis.s_total_equations (App.summary a))%nat
    /\ MatrixBuilder._count_kcl_equations (App.equations a) = length kcl_part.
Proof.
  intros a self. subst a.
  unfold App.build_circuit_analysis. cbn [App.equations App.summary].
  fold self. unfold EquationBuilder.build_equations.
  exists (EquationBuilder._build_regular_node_equations self
          ++ EquationBuilder._build_ungrounded_supernode_equations self)%list.
  assert (H1 : (length (EquationBuilder._build_regular_node_equations self)
                <= length (NodalAnalysis.s_regular_nodes
                             (NodalAnalysis.get_analysis_summary (NodalAnalysis.__init__ m))))%nat).
  { unfold EquationBuilder._build_regular_node_equations.
    cbn [NodalAnalysis.get_analysis_summary NodalAnalysis._analyze NodalAnalysis.s_regular_nodes].
    apply flat_map_bound. intros n _.
    change (EquationBuilder.supernode_nodes self)
      with (EquationBuilder._get_all_supernode_nodes
              (NodalAnalysis.supernodes (NodalAnalysis.__init__ m))).
    rewrite supernode_nodes_mem.
    destruct (existsb _ _); simpl; [lia|].
    match goal with |- (length (match ?t with [] => _ | _ :: _ => _ end) <= _)%nat =>
      destruct t end; simpl; lia. }
  assert (H2 : (length (EquationBuilder._build_ungrounded_supernode_equations self)
                <= length (NodalAnalysis.s_ungrounded_supernodes
                             (NodalAnalysis.get_analysis_summary (NodalAnalysis.__init__ m))))%nat).
  { unfold EquationBuilder._build_ungrounded_supernode_equations.
    cbn [NodalAnalysis.get_analysis_summary NodalAnalysis._analyze
         NodalAnalysis.s_ungrounded_supernodes].
    apply flat_map_bound. intros sn _.
    change (CircuitModel.reference_node (EquationBuilder.model self))
      with (CircuitModel.reference_node m).
    change (CircuitModel.reference_node (NodalAnalysis.model (NodalAnalysis.__init__ m)))
      with (CircuitModel.reference_node m).
    destruct (set_mem (CircuitModel.reference_node m) sn); simpl; [lia|].
    match goal with |- (length (match ?t with [] => _ | _ :: _ => _ end) <= _)%nat =>
      destruct t end; simpl; lia. }
  assert (H3 : length (EquationBuilder._build_voltage_source_constraints self)
               = NodalAnalysis.s_num_constraint_equations
                   (NodalAnalysis.get_analysis_summary (NodalAnalysis.__init__ m))).
  { unfold EquationBuilder._build_voltage_source_constraints. rewrite length_map. reflexivity. }
  split; [now rewrite app_assoc|]. split; [|split; [exact H3|split]].
  - rewrite length_app. exact (Nat.add_le_mono _ _ _ _ H1 H2).
  - rewrite !length_app.
    assert (L : forall a b c A B : nat, (a + b <= A)%nat -> c = B -> (a + (b + c) <= A + B)%nat)
      by (intros; lia).
    exact (L _ _ _ _ _ (Nat.add_le_mono _ _ _ _ H1 H2) H3).
  - apply (count_kcl_rendered self).
Qed.

(** ** Ingestion of a request *)

Lemma item_Ok d k v : App.item d k = Ok v <-> dict_get String.eqb d k = Some v.
Proof.
  unfold App.item. destruct (dict_get String.eqb d k); split; intros H;
    try discriminate; congruence.
Qed.

Lemma init_component i k q a b :
  CircuitComponents.__init__ i k (PFloat q) (PInt a) (PInt b) = Ok (mkComponent i k q a b).
Proof. reflexivity. Qed.

Lemma ingest_record_Ok i r m m' :
  App.ingest_record i r m = Ok m' ->
  exists c, uid c = i /\ parses r c /\ CircuitModel.add_component m c = Ok m'.
Proof.
  unfold App.ingest_record. destruct r as [| | | | |l|d]; try discriminate.
  destruct (negb (forallb (fun k => dict_mem String.eqb d k) App.required_keys));
    [discriminate|].
  intros H.
  apply bind_Ok in H. destruct H as (ty & Hty & H). apply item_Ok in Hty.
  apply bind_Ok in H. destruct H as (comp_type & Hct & H).
  destruct ty as [| | | |s| |]; try discriminate. cbn in Hct. injection Hct as <-.
  destruct (dict_get String.eqb App.COMPONENT_MAP (strip (upper s))) as [k|] eqn:Ek;
    [|discriminate].
  apply bind_Ok in H. destruct H as (raw & Hraw & H). apply item_Ok in Hraw.
  apply bind_Ok in H. destruct H as (q & Hq & H).
  assert (Hq' : py_float raw = Ok q).
  { destruct (py_float raw) as [q'|[]]; try discriminate. exact Hq. }
  apply bind_Ok in H. destruct H as (a & Ha & H). apply item_Ok in Ha.
  apply bind_Ok in H. destruct H as (nA & HnA & H).
  apply bind_Ok in H. destruct H as (b & Hb & H). apply item_Ok in Hb.
  apply bind_Ok in H. destruct H as (nB & HnB & H).
  rewrite init_component in H. cbn [bind] in H.
  exists (mkComponent i k q nA nB). split; [reflexivity|]. split; [|exact H].
  exists d, s, raw, a, b. cbn. repeat split; auto.
Qed.

(** The loop of [_build_circuit_model]: the components are appended in
    the order of the records, under their positions. *)
Lemma ingest_loop l : forall k m0 m1,
  dict_keys (CircuitModel.components m0) = seq 0 k ->
  for_each (fun '(i, comp_data) model => App.ingest_record i comp_data model)
           (enumerate_from k l) m0 = Ok m1 ->
  exists cs,
    Forall2 parses l cs
    /\ map uid cs = seq k (length l)
    /\ for_each (fun c m => CircuitModel.add_component m c) cs m0 = Ok m1
    /\ CircuitModel.components m1 = (CircuitModel.components m0 ++ map entry cs)%list.
Proof.
  induction l as [|r l IH]; intros k m0 m1 Hk H.
  - injection H as <-. exists []. repeat split; [constructor|now rewrite app_nil_r].
  - cbn [enumerate_from for_each] in H. apply bind_Ok in H. destruct H as (m' & Hr & H).
    destruct (ingest_record_Ok k r m0 m' Hr) as (c & Hu & Hp & Hadd).
    assert (Hc' : CircuitModel.components m'
                  = (CircuitModel.components m0 ++ [entry c])%list).
    { unfold CircuitModel.add_component in Hadd. injection Hadd as <-.
      cbn [CircuitModel.components]. apply (dict_set_fresh Nat.eqb Neqb_spec).
      rewrite Hk, Hu, in_seq. lia. }
    destruct (IH (S k) m' m1) as (cs & HF & Hus & Hadds & Hcs).
    + rewrite Hc'. unfold dict_keys. rewrite map_app, seq_S. cbn.
      fold (dict_keys (CircuitModel.components m0)). now rewrite Hk, Hu.
    + exact H.
    + exists (c :: cs). split; [now constructor|]. split; [|split].
      * cbn. now rewrite Hu, Hus.
      * cbn [for_each]. rewrite Hadd. exact Hadds.
      * rewrite Hcs, Hc'. now rewrite <- app_assoc.
Qed.

Lemma set_reference_zero m :
  exists m', CircuitModel.set_reference_node m (PInt 0) = Ok m'
             /\ CircuitModel.reference_node m' = 0%Z.
Proof.
  unfold CircuitModel.set_reference_node. cbn [str_upper_is_GND py_int bind].
  destruct (negb (set_mem 0 (CircuitModel.nodes m))); eexists; split; reflexivity.
Qed.

(** X15: when [_build_circuit_model] accepts a list of records, the
    model stores one component per record, in order, with the class,
    value and terminals read from the record and pairwise distinct ids;
    its reference node is 0, node 0 is one of its nodes, and it is well
    formed. *)
Theorem ingest_builds_circuit (l : list pyval) (m : CircuitModel.t) :
  App._build_circuit_model (PList l) = Ok m ->
  Forall2 parses l (CircuitModel.values m)
  /\ NoDup (map uid (CircuitModel.values m))
  /\ CircuitModel.reference_node m = 0%Z
  /\ In 0%Z (CircuitModel.nodes m)
  /\ well_formed m = true.
Proof.
  unfold App._build_circuit_model, enumerate. intros H.
  apply bind_Ok in H. destruct H as (m1 & H1 & H2).
  destruct (ingest_loop l 0 CircuitModel.__init__ m1 eq_refl H1) as (cs & HF & Hu & Hadd & Hc).
  destruct (set_reference_zero m1) as (m' & E & Hr). rewrite E in H2. injection H2 as ->.
  destruct (set_reference_node_facts m1 (PInt 0) m E) as (Hin & Hcomp & _).
  assert (Hv : CircuitModel.values m = cs).
  { unfold CircuitModel.values, dict_values. rewrite Hcomp, Hc. cbn [CircuitModel.components CircuitModel.__init__ app].
    rewrite map_map. unfold entry. cbn. apply map_id. }
  rewrite Hv. split; [exact HF|]. split; [rewrite Hu; apply seq_NoDup|]. split; [exact Hr|].
  split; [now rewrite <- Hr|].
  apply (of_components_well_formed cs (PInt 0)).
  unfold CircuitModel.of_components. rewrite Hadd. cbn [bind]. exact E.
Qed.

Lemma ingest_builds_circuit_witness :
  exists m,
    App._build_circuit_model (PList parallel_sources) = Ok m /\
    Forall2 parses parallel_sources (CircuitModel.values m) /\
    CircuitModel.reference_node m = 0%Z.
Proof.
  destruct (App._build_circuit_model (PList parallel_sources)) as [m|e] eqn:E.
  - exists m. split; [reflexivity|].
    destruct (ingest_builds_circuit parallel_sources m E) as (H1 & _ & H3 & _).
    split; [exact H1|exact H3].
  - vm_compute in E. discriminate.
Defined.

Lemma for_each_app {A S} (body : A -> S -> result S) (a b : list A) (s : S) :
  for_each body (a ++ b) s = bind (for_each body a s) (for_each body b).
Proof.
  revert s. induction a as [|x a IH]; intros s; [reflexivity|].
  cbn [app for_each]. destruct (body x s); cbn [bind]; auto.
Qed.

Lemma enumerate_from_app {A} (a b : list A) k :
  enumerate_from k (a ++ b) = (enumerate_from k a ++ enumerate_from (k + length a) b)%list.
Proof.
  revert k. induction a as [|x a IH]; intros k; cbn.
  - now rewrite Nat.add_0_r.
  - rewrite IH. do 3 f_equal. lia.
Qed.

(** Whether and how a record is refused does not depend on the circuit
    built so far. *)
Lemma ingest_record_raise_any i r m m' e :
  App.ingest_record i r m = Raise e -> App.ingest_record i r m' = Raise e.
Proof.
  unfold App.ingest_record. destruct r as [| | | | |l|d]; auto.
  destruct (negb (forallb (fun k => dict_mem String.eqb d k) App.required_keys)); auto.
  destruct (App.item d "type") as [ty|]; cbn [bind]; auto.
  destruct (App.upper_strip ty) as [ct|]; cbn [bind]; auto.
  destruct (dict_get String.eqb App.COMPONENT_MAP ct) as [k|]; auto.
  destruct (App.item d "value") as [raw|]; cbn [bind]; auto.
  destruct (match py_float raw with
            | Ok v => Ok v
            | Raise (ValueError _) | Raise (TypeError _) =>
                Raise (ValueError ("Invalid 'value' for component "
                                   ++ str_of_Z (Z.of_nat i) ++ ": " ++ App.py_str raw
                                   ++ ". Must be a number."))
            | Raise e => Raise e
            end) as [q|]; cbn [bind]; auto.
  destruct (App.item d "nodeA") as [a|]; cbn [bind]; auto.
  destruct (py_int a) as [nA|]; cbn [bind]; auto.
  destruct (App.item d "nodeB") as [b|]; cbn [bind]; auto.
  destruct (py_int b) as [nB|]; cbn [bind]; auto.
  rewrite init_component. cbn [bind]. discriminate.
Qed.

(** X16: [_build_circuit_model] stops at the first record it rejects:
    when the records before it are accepted, the error of that record is
    the error of the whole list, whatever follows it. *)
Theorem ingest_stops_at_first_invalid (good : list pyval) (m : CircuitModel.t)
        (bad : pyval) (rest : list pyval) (e : exn) :
  App._build_circuit_model (PList good) = Ok m ->
  App.ingest_record (length good) bad CircuitModel.__init__ = Raise e ->
  App._build_circuit_model (PList (good ++ bad :: rest)) = Raise e.
Proof.
  intros Hgood Hbad. unfold App._build_circuit_model, enumerate in *.
  apply bind_Ok in Hgood. destruct Hgood as (m1 & H1 & _).
  rewrite enumerate_from_app, for_each_app, H1.
  cbn [bind enumerate_from for_each Nat.add].
  rewrite (ingest_record_raise_any _ _ _ m1 _ Hbad). reflexivity.
Qed.

Lemma ingest_stops_at_first_invalid_witness :
  is_ok (App._build_circuit_model (PList parallel_sources)) = true /\
  App.ingest_record (length parallel_sources) (PInt 3) CircuitModel.__init__
  = Raise (ValueError "Component at index 2 is not a valid object.") /\
  App._build_circuit_model (PList (parallel_sources ++ [PInt 3; PStr "never read"]))
  = Raise (ValueError "Component at index 2 is not a valid object.").
Proof.
  assert (Hb : App.ingest_record (length parallel_sources) (PInt 3) CircuitModel.__init__
               = Raise (ValueError "Component at index 2 is not a valid object."))
    by (vm_compute; reflexivity).
  split; [vm_compute; reflexivity|]. split; [exact Hb|].
  destruct (App._build_circuit_model (PList parallel_sources)) as [m|e] eqn:E.
  - apply (ingest_stops_at_first_invalid parallel_sources m (PInt 3) [PStr "never read"]);
      [exact E|exact Hb].
  - vm_compute in E. discriminate.
Defined.

(** ** The adjacency structure mirrors the component list *)

Section Keys.
Context {K V : Type} (eqb : K -> K -> bool).
Hypothesis eqb_spec : forall a b, eqb a b = true <-> a = b.

Lemma dict_set_In_gen (d : dict K V) k0 v0 k v :
  In (k, v) (dict_set eqb d k0 v0) -> (k = k0 /\ v = v0) \/ In (k, v) d.
Proof.
  induction d as [|[k' v'] d IH]; simpl.
  - intros [H|[]]. injection H as <- <-. auto.
  - destruct (eqb k0 k') eqn:Ek; simpl.
    + apply eqb_spec in Ek. subst k'.
      intros [H|H]; [injection H as <- <-; auto|auto].
    + intros [H|H]; [auto|]. destruct (IH H) as [?|?]; auto.
Qed.

Lemma dict_set_keys_gen (d : dict K V) k v :
  dict_keys (dict_set eqb d k v)
  = if existsb (eqb k) (dict_keys d) then dict_keys d else (dict_keys d ++ [k])%list.
Proof.
  induction d as [|[k' v'] d IH]; simpl; auto.
  destruct (eqb k k') eqn:Ek; simpl; auto.
  rewrite IH. destruct (existsb (eqb k) (dict_keys d)); reflexivity.
Qed.

Lemma dict_set_NoDup (d : dict K V) k v :
  NoDup (dict_keys d) -> NoDup (dict_keys (dict_set eqb d k v)).
Proof.
  intros HN. rewrite dict_set_keys_gen.
  destruct (existsb (eqb k) (dict_keys d)) eqn:Ex; auto.
  apply NoDup_app; auto.
  - repeat constructor. intros [].
  - intros x Hx [Hk|[]]. subst x.
    assert (existsb (eqb k) (dict_keys d) = true); [|congruence].
    apply existsb_exists. exists k. split; auto. now apply eqb_spec.
Qed.

Lemma In_dict_get (d : dict K V) k v :
  NoDup (dict_keys d) -> (In (k, v) d <-> dict_get eqb d k = Some v).
Proof.
  induction d as [|[k' v'] d IH]; intros HN; simpl.
  - split; [intros []|discriminate].
  - inversion HN as [|? ? Hk HN']; subst.
    destruct (eqb k k') eqn:E.
    + apply eqb_spec in E. subst k'. split.
      * intros [H|H]; [now injection H as <-|].
        exfalso. apply Hk. apply in_map_iff. exists (k, v). auto.
      * intros H. injection H as <-. now left.
    + rewrite <- (IH HN'). split; [|auto].
      intros [H|H]; [|exact H]. injection H as H1 H2. subst.
      rewrite (proj2 (eqb_spec _ _) eq_refl) in E. discriminate.
Qed.
End Keys.

Lemma edge_at_add_node g n u v k :
  edge_at (CircuitModel.add_node g n) u v k = edge_at g u v k.
Proof.
  unfold CircuitModel.add_node, dict_mem, edge_at.
  destruct (dict_get Z.eqb g n) eqn:E; [reflexivity|].
  rewrite (dict_get_set Z.eqb Zeqb_spec).
  destruct (Z.eqb_spec u n) as [->|]; [|reflexivity]. now rewrite E.
Qed.

Lemma edge_at_put g a b key c u v k :
  edge_at (CircuitModel.put_half_edge g a b key c) u v k
  = if (u =? a)%Z && (v =? b)%Z && (k =? key)%nat then Some c else edge_at g u v k.
Proof.
  unfold CircuitModel.put_half_edge, edge_at.
  rewrite (dict_get_set Z.eqb Zeqb_spec).
  destruct (Z.eqb_spec u a) as [->|]; [|reflexivity]. cbn [andb].
  rewrite (dict_get_set Z.eqb Zeqb_spec).
  destruct (Z.eqb_spec v b) as [->|]; cbn [andb].
  - rewrite (dict_get_set Nat.eqb Neqb_spec).
    destruct (k =? key)%nat; [reflexivity|].
    destruct (dict_get Z.eqb g a) as [nb|]; [|reflexivity].
    destruct (dict_get Z.eqb nb b); reflexivity.
  - destruct (dict_get Z.eqb g a) as [nb|]; reflexivity.
Qed.

Lemma edge_at_add_edge g c u v k :
  edge_at (CircuitModel.add_edge g (node1 c) (node2 c) (uid c) c) u v k
  = if ((u =? node1 c)%Z && (v =? node2 c)%Z || (u =? node2 c)%Z && (v =? node1 c)%Z)
       && (k =? uid c)%nat
    then Some c else edge_at g u v k.
Proof.
  unfold CircuitModel.add_edge. rewrite !edge_at_put, !edge_at_add_node.
  destruct (u =? node1 c)%Z, (v =? node2 c)%Z, (u =? node2 c)%Z, (v =? node1 c)%Z,
    (k =? uid c)%nat; reflexivity.
Qed.

Lemma keyed_nil : keyed [].
Proof. split; [constructor|intros ? ? []]. Qed.

Lemma keyed_add_node g n : keyed g -> keyed (CircuitModel.add_node g n).
Proof.
  intros [H1 H2]. unfold CircuitModel.add_node. destruct (dict_mem Z.eqb g n); [now split|].
  split; [now apply (dict_set_NoDup Z.eqb Zeqb_spec)|].
  intros u nb Hin. apply (dict_set_In_gen Z.eqb Zeqb_spec) in Hin.
  destruct Hin as [[_ ->]|Hin]; [|now apply (H2 u)].
  split; [constructor|intros ? ? []].
Qed.

Lemma keyed_put g a b key c : keyed g -> keyed (CircuitModel.put_half_edge g a b key c).
Proof.
  intros [H1 H2]. unfold CircuitModel.put_half_edge.
  set (nb := match dict_get Z.eqb g a with Some nb => nb | None => [] end).
  set (kd := match dict_get Z.eqb nb b with Some kd => kd | None => [] end).
  assert (Hnb : NoDup (dict_keys nb) /\ forall v kd', In (v, kd') nb -> NoDup (dict_keys kd')).
  { unfold nb. destruct (dict_get Z.eqb g a) as [nb0|] eqn:E.
    - apply (In_dict_get Z.eqb Zeqb_spec g a nb0 H1) in E. now apply (H2 a).
    - split; [constructor|intros ? ? []]. }
  destruct Hnb as [Hnb1 Hnb2].
  assert (Hkd : NoDup (dict_keys kd)).
  { unfold kd. destruct (dict_get Z.eqb nb b) as [kd0|] eqn:E.
    - apply (In_dict_get Z.eqb Zeqb_spec nb b kd0 Hnb1) in E. now apply (Hnb2 b).
    - constructor. }
  split; [now apply (dict_set_NoDup Z.eqb Zeqb_spec)|].
  intros u nb' Hin. apply (dict_set_In_gen Z.eqb Zeqb_spec) in Hin.
  destruct Hin as [[_ ->]|Hin]; [|now apply (H2 u)].
  split; [now apply (dict_set_NoDup Z.eqb Zeqb_spec)|].
  intros v kd' Hin. apply (dict_set_In_gen Z.eqb Zeqb_spec) in Hin.
  destruct Hin as [[_ ->]|Hin]; [|now apply (Hnb2 v)].
  now apply (dict_set_NoDup Nat.eqb Neqb_spec).
Qed.

Lemma keyed_add_edge g a b key c : keyed g -> keyed (CircuitModel.add_edge g a b key c).
Proof.
  intros H. unfold CircuitModel.add_edge. now apply keyed_put, keyed_put, keyed_add_node, keyed_add_node.
Qed.

(** The listing of a node reads the adjacency structure entry by entry. *)
Lemma connected_iff_edge_at (m : CircuitModel.t) n c nb :
  keyed (CircuitModel.graph m) ->
  (In (c, nb) (CircuitModel.get_components_connected_to_node m n)
   <-> exists k, edge_at (CircuitModel.graph m) n nb k = Some c).
Proof.
  intros [H1 H2]. unfold CircuitModel.get_components_connected_to_node, edge_at.
  destruct (dict_get Z.eqb (CircuitModel.graph m) n) as [nbd|] eqn:E.
  - apply (In_dict_get Z.eqb Zeqb_spec _ n nbd H1) in E.
    destruct (H2 n nbd E) as [Hn1 Hn2].
    rewrite in_flat_map. split.
    + intros ([v kd] & Hin & Hc). apply in_map_iff in Hc.
      destruct Hc as ([k c'] & Ec & Hk). injection Ec as -> ->.
      exists k. rewrite (proj1 (In_dict_get Z.eqb Zeqb_spec nbd nb kd Hn1) Hin).
      apply (In_dict_get Nat.eqb Neqb_spec kd k c); [now apply (Hn2 nb)|exact Hk].
    + intros (k & Hk). destruct (dict_get Z.eqb nbd nb) as [kd|] eqn:Ekd; [|discriminate].
      apply (In_dict_get Z.eqb Zeqb_spec nbd nb kd Hn1) in Ekd.
      exists (nb, kd). split; [exact Ekd|]. apply in_map_iff. exists (k, c).
      split; [reflexivity|].
      apply (In_dict_get Nat.eqb Neqb_spec kd k c); [now apply (Hn2 nb)|exact Hk].
  - split; [intros []|intros (k & Hk); discriminate].
Qed.

Lemma joins_test c u v :
  ((u =? node1 c)%Z && (v =? node2 c)%Z || (u =? node2 c)%Z && (v =? node1 c)%Z) = true
  <-> joins c u v.
Proof.
  unfold joins. rewrite orb_true_iff, !andb_true_iff, !Z.eqb_eq. intuition congruence.
Qed.

Lemma add_components_mirror cs : forall done m0 m1,
  NoDup (map uid (done ++ cs)) ->
  keyed (CircuitModel.graph m0) -> mirrors (CircuitModel.graph m0) done ->
  for_each (fun c m => CircuitModel.add_component m c) cs m0 = Ok m1 ->
  keyed (CircuitModel.graph m1) /\ mirrors (CircuitModel.graph m1) (done ++ cs).
Proof.
  induction cs as [|c cs IH]; intros done m0 m1 HN Hk Hm H.
  - injection H as <-. now rewrite app_nil_r.
  - cbn [for_each CircuitModel.add_component bind] in H.
    replace (done ++ c :: cs)%list with ((done ++ [c]) ++ cs)%list in *
      by (now rewrite <- app_assoc).
    refine (IH (done ++ [c])%list _ m1 HN _ _ H); cbn [CircuitModel.graph].
    + now apply keyed_add_edge.
    + intros u v k c'. rewrite edge_at_add_edge.
      assert (Hfresh : forall x, In x done -> uid x <> uid c).
      { intros x Hx E. rewrite map_app in HN. apply NoDup_app_remove_r in HN.
        rewrite map_app in HN. simpl in HN.
        apply NoDup_remove_2 in HN. apply HN. rewrite app_nil_r, <- E. now apply in_map. }
      destruct (((u =? node1 c)%Z && (v =? node2 c)%Z || (u =? node2 c)%Z && (v =? node1 c)%Z)
                && (k =? uid c)%nat) eqn:E.
      * apply andb_prop in E. destruct E as [Ej Ek]. apply joins_test in Ej.
        apply Nat.eqb_eq in Ek. split.
        -- intros H'. injection H' as <-. rewrite in_app_iff. simpl. auto.
        -- intros (Hin & Hu & Hj). apply in_app_iff in Hin.
           destruct Hin as [Hin|[->|[]]]; [|reflexivity].
           exfalso. apply (Hfresh c' Hin). congruence.
      * rewrite (Hm u v k c'), in_app_iff. split; [tauto|].
        intros ([Hin|[->|[]]] & Hu & Hj); [tauto|].
        exfalso. apply joins_test in Hj. rewrite Hj, <- Hu, Nat.eqb_refl in E. discriminate.
Qed.

Lemma of_components_mirror cs ref m :
  NoDup (map uid cs) -> CircuitModel.of_components cs ref = Ok m ->
  keyed (CircuitModel.graph m) /\ mirrors (CircuitModel.graph m) cs.
Proof.
  intros HN H. unfold CircuitModel.of_components in H.
  apply bind_Ok in H. destruct H as (m1 & H1 & H2).
  destruct (add_components_mirror cs [] CircuitModel.__init__ m1 HN keyed_nil) as [Hk Hm];
    [|exact H1|].
  { intros u v k c. cbn. split; [discriminate|intros ([] & _)]. }
  unfold CircuitModel.set_reference_node in H2.
  apply bind_Ok in H2. destruct H2 as (node & _ & H2).
  destruct (negb (set_mem node (CircuitModel.nodes m1))); injection H2 as <-;
    cbn [CircuitModel.graph]; [|now split].
  split; [now apply keyed_add_node|].
  intros u v k c. rewrite edge_at_add_node. apply Hm.
Qed.

(** X17: for a model built from components of distinct ids, the two
    adjacency queries answer from the component list:
    [get_components_connected_to_node] returns exactly the components
    with a terminal on the node, each with its other terminal, and
    [get_voltage_sources_between_nodes] returns exactly the voltage
    sources that join the two nodes, in either direction. *)
Theorem adjacency_mirrors_components
        (cs : list Component) (ref : pyval) (m : CircuitModel.t) :
  NoDup (map uid cs) -> CircuitModel.of_components cs ref = Ok m ->
  (forall n c nb,
      In (c, nb) (CircuitModel.get_components_connected_to_node m n)
      <-> In c cs /\ joins c n nb)
  /\ (forall a b c,
        In c (CircuitModel.get_voltage_sources_between_nodes m a b)
        <-> In c cs /\ cls c = VoltageSource /\ joins c a b).
Proof.
  intros HN H. destruct (of_components_mirror cs ref m HN H) as [Hk Hm].
  split.
  - intros n c nb. rewrite (connected_iff_edge_at m n c nb Hk). split.
    + intros (k & Hk'). apply Hm in Hk'. tauto.
    + intros (Hin & Hj). exists (uid c). apply Hm. auto.
  - intros a b c. unfold CircuitModel.get_voltage_sources_between_nodes, CircuitModel.has_edge.
    destruct Hk as [H1 H2].
    assert (Hiff : (exists k, edge_at (CircuitModel.graph m) a b k = Some c)
                   <-> In c cs /\ joins c a b).
    { split.
      - intros (k & Hk'). apply Hm in Hk'. tauto.
      - intros (Hin & Hj). exists (uid c). apply Hm. auto. }
    unfold edge_at in Hiff.
    destruct (dict_get Z.eqb (CircuitModel.graph m) a) as [nbd|] eqn:E.
    + apply (In_dict_get Z.eqb Zeqb_spec _ a nbd H1) in E.
      destruct (H2 a nbd E) as [Hn1 Hn2]. unfold dict_mem.
      destruct (dict_get Z.eqb nbd b) as [kd|] eqn:Ekd; cbn [negb].
      * apply (In_dict_get Z.eqb Zeqb_spec nbd b kd Hn1) in Ekd.
        rewrite filter_In. unfold dict_values. rewrite in_map_iff.
        assert (Hkd : (exists x : nat * Component, snd x = c /\ In x kd)
                      <-> exists k, dict_get Nat.eqb kd k = Some c).
        { split.
          - intros ([k c'] & Ec & Hin). simpl in Ec. subst c'. exists k.
            apply (In_dict_get Nat.eqb Neqb_spec kd k c); [now apply (Hn2 b)|exact Hin].
          - intros (k & Hk'). exists (k, c). split; [reflexivity|].
            apply (In_dict_get Nat.eqb Neqb_spec kd k c); [now apply (Hn2 b)|exact Hk']. }
        rewrite Hkd, Hiff. unfold isinstance.
        destruct (cls c); cbn; intuition congruence.
      * split; [intros []|]. intros (Hin & _ & Hj).
        destruct (proj2 Hiff (conj Hin Hj)) as (k & Hk'). discriminate.
    + cbn [negb]. split; [intros []|]. intros (Hin & _ & Hj).
      destruct (proj2 Hiff (conj Hin Hj)) as (k & Hk'). discriminate.
Qed.

Lemma adjacency_mirrors_components_witness :
  NoDup (map uid scenario5) /\
  CircuitModel.of_components scenario5 (PInt 0) = Ok (model_of scenario5) /\
  forall n c nb,
    In (c, nb) (CircuitModel.get_components_connected_to_node (model_of scenario5) n)
    <-> In c scenario5 /\ joins c n nb.
Proof.
  assert (HN : NoDup (map uid scenario5)).
  { simpl. repeat constructor; simpl; intuition discriminate. }
  assert (HM : CircuitModel.of_components scenario5 (PInt 0) = Ok (model_of scenario5))
    by (vm_compute; reflexivity).
  split; [exact HN|]. split; [exact HM|].
  destruct (adjacency_mirrors_components scenario5 (PInt 0) (model_of scenario5) HN HM)
    as (H1 & _). exact H1.
Defined.

(** ** Choice of the reference node *)

Lemma flow_out_incidence m X c n :
  flow_out n (result_of m X c) = incidence n c * current_of m X c.
Proof.
  unfold flow_out, incidence, result_of. cbn.
  destruct (node1 c =? n)%Z, (node2 c =? n)%Z; ring.
Qed.

Lemma set_reference_valid m r m' :
  valid m = true -> In r (CircuitModel.nodes m) ->
  CircuitModel.set_reference_node m (PInt r) = Ok m' ->
  valid m' = true
  /\ CircuitModel.components m' = CircuitModel.components m
  /\ CircuitModel.nodes m' = CircuitModel.nodes m
  /\ CircuitModel.reference_node m' = r.
Proof.
  intros Hv Hr H. pose proof (set_reference_node_wf m (PInt r) m' (valid_wf m Hv) H) as Hwf.
  unfold CircuitModel.set_reference_node in H. cbn [str_upper_is_GND py_int bind] in H.
  rewrite (proj2 (set_mem_iff r _) Hr) in H. cbn [negb] in H. injection H as <-.
  cbn [CircuitModel.components CircuitModel.nodes CircuitModel.reference_node] in *.
  repeat split; auto.
  unfold valid in *. rewrite Hwf.
  cbn [CircuitModel.nodes CircuitModel.reference_node CircuitModel.values
       CircuitModel.components].
  rewrite (proj2 (set_mem_iff r _) Hr). cbn [andb].
  apply andb_prop in Hv. destruct Hv as [_ Hv]. exact Hv.
Qed.

(** The laws of a circuit after another node is taken as reference:
    every voltage is shifted by the voltage of the new reference node. *)
Lemma shifted_laws m m' (X : vector) :
  valid m = true -> length X = (Spec.N m + Spec.M m)%nat ->
  matvec (Spec.G m) X = Spec.Zvec m ->
  CircuitModel.components m' = CircuitModel.components m ->
  CircuitModel.nodes m' = CircuitModel.nodes m ->
  satisfies_laws m'
    (fun n => node_voltage m X n - node_voltage m X (CircuitModel.reference_node m'))
    (current_by_uid m X).
Proof.
  intros Hv HL HX Hc Hn. pose proof (valid_wf m Hv) as Hwf.
  assert (Hval : CircuitModel.values m' = CircuitModel.values m)
    by (unfold CircuitModel.values; now rewrite Hc).
  assert (Hcur : forall c, law_current
                   (fun n => node_voltage m X n
                             - node_voltage m X (CircuitModel.reference_node m'))
                   (current_by_uid m X) c = current_of m X c).
  { intros c. unfold law_current, current_of, vdrop, branch_current, current_by_uid.
    destruct (cls c); try reflexivity. f_equal. ring. }
  split; [ring|]. split.
  - intros n Hin _. rewrite Hval, Hn in *.
    rewrite (sumQ_map_ext _ (fun c => flow_out n (result_of m X c))).
    + rewrite <- (map_map (result_of m X) (flow_out n)). now apply kcl_all_nodes.
    + intros c _. now rewrite Hcur, flow_out_incidence.
  - intros c Hin Ht. rewrite Hval in Hin.
    rewrite <- (source_constraints m X c Hwf HL HX Hin Ht). unfold vdrop. ring.
Qed.

(** X18: moving the reference to another node of a valid circuit shifts
    every node voltage by the old voltage of the new reference node and
    leaves the component results and the total power unchanged, in exact
    arithmetic and whenever both circuits are solved. *)
Theorem reference_node_independence
        (m m' : CircuitModel.t) (r : Z)
        vd comps tp mi su vd' comps' tp' mi' su' :
  valid m = true -> In r (CircuitModel.nodes m) ->
  CircuitModel.set_reference_node m (PInt r) = Ok m' ->
  CircuitSolver.solve (CircuitSolver.__init__ m) = CircuitSolver.Success vd comps tp mi su ->
  CircuitSolver.solve (CircuitSolver.__init__ m')
    = CircuitSolver.Success vd' comps' tp' mi' su' ->
  (forall n, In n (CircuitModel.nodes m) ->
     CircuitSolver.voltage_at vd' n
     = CircuitSolver.voltage_at vd n - CircuitSolver.voltage_at vd r)
  /\ comps' = comps
  /\ tp' = tp.
Proof.
  intros Hv Hr Hset Hs Hs'.
  destruct (set_reference_valid m r m' Hv Hr Hset) as (Hv' & Hc & Hn & Href).
  pose proof (valid_wf m Hv) as Hwf. pose proof (valid_wf m' Hv') as Hwf'.
  destruct (solve_success_voltages m vd comps tp mi su Hv Hs)
    as (X & E & HL & HX & Hvd & -> & -> & _).
  destruct (solve_success_voltages m' vd' comps' tp' mi' su' Hv' Hs')
    as (X' & E' & HL' & HX' & Hvd' & -> & -> & _).
  pose proof (shifted_laws m m' X Hv HL HX Hc Hn) as Hlaw.
  set (V := fun n => node_voltage m X n - node_voltage m X (CircuitModel.reference_node m')) in *.
  pose proof (laws_determine_vector m' V (current_by_uid m X) X' Hwf' Hlaw E') as EX.
  assert (H0 : V (CircuitModel.reference_node m') = 0) by (unfold V; ring).
  assert (Hval : CircuitModel.values m' = CircuitModel.values m)
    by (unfold CircuitModel.values; now rewrite Hc).
  assert (Hres : forall c, In c (CircuitModel.values m) -> result_of m' X' c = result_of m X c).
  { intros c Hin. destruct (wf_terminals m c Hwf Hin) as [H1 H2].
    assert (Hd : vdrop m' X' c = vdrop m X c).
    { unfold vdrop at 1. rewrite <- EX, !vector_of_voltage by (rewrite ?Hn; auto).
      unfold V, vdrop. ring. }
    assert (Hi : current_of m' X' c = current_of m X c).
    { unfold current_of. rewrite Hd. destruct (cls c) eqn:Ec; try reflexivity.
      rewrite <- EX. rewrite (law_source_current m' V (current_by_uid m X) c).
      - reflexivity.
      - now rewrite Hval.
      - exact Ec. }
    unfold result_of, power_of. now rewrite Hd, Hi. }
  split; [|split].
  - intros n Hin. rewrite Hvd', Hvd, <- EX, vector_of_voltage by (rewrite ?Hn; auto).
    unfold V. now rewrite Href, Hvd.
  - rewrite Hval. apply map_ext_in. exact Hres.
  - rewrite Hval. f_equal. apply map_ext_in. intros c Hin.
    exact (f_equal CircuitSolver.r_power (Hres c Hin)).
Qed.

Lemma reference_node_independence_witness :
  valid (model_of scenario2) = true /\
  CircuitModel.set_reference_node (model_of scenario2) (PInt 2)
    = Ok (rereferenced (model_of scenario2) 2) /\
  exists vd comps tp mi su vd' comps' tp' mi' su',
    CircuitSolver.solve (CircuitSolver.__init__ (model_of scenario2))
      = CircuitSolver.Success vd comps tp mi su /\
    CircuitSolver.solve (CircuitSolver.__init__ (rereferenced (model_of scenario2) 2))
      = CircuitSolver.Success vd' comps' tp' mi' su' /\
    comps' = comps /\ tp' = tp.
Proof.
  split; [vm_compute; reflexivity|]. split; [vm_compute; reflexivity|].
  destruct (CircuitSolver.solve (CircuitSolver.__init__ (model_of scenario2)))
    as [vd comps tp mi su|msg sug] eqn:E; [|vm_compute in E; discriminate].
  destruct (CircuitSolver.solve (CircuitSolver.__init__ (rereferenced (model_of scenario2) 2)))
    as [vd' comps' tp' mi' su'|msg sug] eqn:E'; [|vm_compute in E'; discriminate].
  exists vd, comps, tp, mi, su, vd', comps', tp', mi', su'.
  split; [reflexivity|]. split; [reflexivity|].
  destruct (reference_node_independence (model_of scenario2)
              (rereferenced (model_of scenario2) 2) 2
              vd comps tp mi su vd' comps' tp' mi' su') as (_ & H2 & H3).
  - vm_compute. reflexivity.
  - vm_compute. tauto.
  - vm_compute. reflexivity.
  - exact E.
  - exact E'.
  - split; [exact H2|exact H3].
Defined.

(** ** The reply to a request *)

(** X19: in exact arithmetic (the stamping and the linear solve carried
    out without rounding), the reply of [solve_circuit] to a request
    whose records build a valid circuit: either the analysis together
    with a solution, when the system matrix is not singular, or the
    failure of status 400 with the singular-matrix message and its
    suggestion, when it is. *)
Theorem reply_to_valid_request (l : list pyval) (m : CircuitModel.t) :
  App._build_circuit_model (PList l) = Ok m -> valid m = true ->
  (exists vd comps tp mi su,
      App.solve_circuit (request l)
      = App.Solved (App.build_circuit_analysis m)
                   (CircuitSolver.Success vd comps tp mi su) m
      /\ ~ singular (Spec.G m))
  \/ (App.solve_circuit (request l) = App.Failed 400 singular_message (Some suggestion_text)
      /\ singular (Spec.G m)).
Proof.
  intros Hb Hv. unfold App.solve_circuit, request.
  cbn [dict_get String.eqb Ascii.eqb Bool.eqb]. rewrite Hb.
  pose proof (dims_mtab (Spec.N m + Spec.M m) (Spec.G_entry m)) as HD.
  pose proof (length_tab (Spec.N m + Spec.M m) (Spec.Z_entry m)) as HL.
  fold (Spec.G m) in HD. fold (Spec.Zvec m) in HL.
  destruct (Linalg.solve (Spec.G m) (Spec.Zvec m)) as [X|e] eqn:E.
  - left. destruct (solve_packaged m Hv X E) as (vd & _ & _ & Hsol). rewrite Hsol.
    do 5 eexists. split; [reflexivity|].
    intros Hs. rewrite (solve_singular _ _ _ HD HL Hs) in E. discriminate.
  - right. destruct (solve_raise _ _ _ e HD HL E) as [-> Hs]. split; [|exact Hs].
    unfold CircuitSolver.solve. rewrite (valid_build m Hv). cbn [bind]. rewrite E.
    reflexivity.
Qed.

Lemma reply_to_valid_request_witness :
  App._build_circuit_model (PList parallel_sources) = Ok parallel_sources_model /\
  valid parallel_sources_model = true /\
  ((exists vd comps tp mi su,
      App.solve_circuit (request parallel_sources)
      = App.Solved (App.build_circuit_analysis parallel_sources_model)
                   (CircuitSolver.Success vd comps tp mi su) parallel_sources_model
      /\ ~ singular (Spec.G parallel_sources_model))
   \/ (App.solve_circuit (request parallel_sources)
       = App.Failed 400 singular_message (Some suggestion_text)
       /\ singular (Spec.G parallel_sources_model))).
Proof.
  split; [vm_compute; reflexivity|]. split; [vm_compute; reflexivity|].
  apply (reply_to_valid_request parallel_sources parallel_sources_model);
    vm_compute; reflexivity.
Defined.
